(** * Grid pathfinding visualizer: the search engine of [main.cpp]

    The program keeps a 20x20 grid of wall flags, and on a button click runs
    Dijkstra's algorithm or A* from the start cell to the end cell, recording
    an animation trace.  This development embeds the two search blocks, the
    path reconstruction, the click handler, [resetGridColors], the two
    animation blocks of the main loop and the drawing of the grid, and proves
    properties of them.  The window, its events other than a left click, the
    clock and the layout of the buttons belong to the graphics library and
    the loaded font and are inputs of the model.

    Conventions.
    - [float] values are IEEE binary32 numbers.  Only non-negative values and
      +infinity occur; such a value is represented by the integer it is a
      multiple of 2^-149 (the smallest subnormal), so that comparison of floats
      is comparison of integers and addition is integer addition followed by
      rounding to 24 significant bits, ties to even.
    - [std::vector<std::vector<T>>] is a list of rows; [m[y][x]] reads row [y],
      column [x].
    - [std::priority_queue] is taken through its contract: [top] is an element
      with the least key; which one among equal keys is left open. *)

From Stdlib Require Import ZArith List Bool Lia Permutation.
From Stdlib Require String.
Import ListNotations.
Open Scope Z_scope.

(** ** Binary32 arithmetic on non-negative values *)

Definition float := Z.

(** [1.0f] *)
Definition F_ONE : float := Eval vm_compute in 2 ^ 149.
(** [std::numeric_limits<float>::epsilon()], 2^-23 *)
Definition FLT_EPSILON : float := Eval vm_compute in 2 ^ 126.
(** [std::numeric_limits<float>::max()], (2^24 - 1) * 2^104 *)
Definition FLT_MAX : float := Eval vm_compute in (2 ^ 24 - 1) * 2 ^ 253.
(** +infinity, encoded as the first value past [FLT_MAX] *)
Definition F_INF : float := Eval vm_compute in 2 ^ 277.

(** Round a non-negative integer to 24 significant bits, to nearest, ties to
    even.  Values below 2^24 units are subnormal or in the first binade and
    are exact. *)
Definition round24 (v : Z) : Z :=
  if v <? 2 ^ 24 then v
  else
    let k := Z.log2 v - 23 in
    let q := v / 2 ^ k in
    let r := v mod 2 ^ k in
    let half := 2 ^ (k - 1) in
    if r <? half then q * 2 ^ k
    else if half <? r then (q + 1) * 2 ^ k
    else (if Z.even q then q else q + 1) * 2 ^ k.

(** [a + b] on floats; a sum that rounds past [FLT_MAX] is +infinity. *)
Definition fadd (a b : float) : float := Z.min F_INF (round24 (a + b)).
Definition flt (a b : float) : bool := a <? b.
Definition fgt (a b : float) : bool := b <? a.

(** [static_cast<float>(n)] for a non-negative [int]. *)
Definition float_of_int (n : Z) : float := round24 (n * F_ONE).

(** Movement costs. *)
Definition CARDINAL_COST : float := F_ONE.
(** [std::sqrt(2.0f)]: the binary32 number 0x3FB504F3 = 11863283 * 2^-23. *)
Definition DIAGONAL_COST : float := Eval vm_compute in 11863283 * 2 ^ 126.

(** A float is representable when rounding leaves it unchanged. *)
Definition is_f32 (v : Z) : Prop := 0 <= v <= F_INF /\ round24 v = v.

Lemma pow2_pos (k : Z) : 0 <= k -> 0 < 2 ^ k.
Proof. intros; apply Z.pow_pos_nonneg; lia. Qed.

Lemma pow2_split (k : Z) : 1 <= k -> 2 ^ k = 2 * 2 ^ (k - 1).
Proof.
  intros Hk. replace k with (Z.succ (k - 1)) at 1 by lia.
  rewrite Z.pow_succ_r by lia. reflexivity.
Qed.

(** The shape of a value of at least 2^24 units: quotient of 24 bits and a
    remainder below one unit in the last place. *)
Lemma round24_shape (v : Z) :
  2 ^ 24 <= v ->
  let k := Z.log2 v - 23 in
  1 <= k /\ 2 ^ 23 <= v / 2 ^ k < 2 ^ 24 /\
  0 <= v mod 2 ^ k < 2 ^ k /\ v = 2 ^ k * (v / 2 ^ k) + v mod 2 ^ k.
Proof.
  intros Hv k.
  assert (Hpos : 0 < v) by (change (2 ^ 24) with 16777216 in Hv; lia).
  assert (Hlog : 24 <= Z.log2 v).
  { change 24 with (Z.log2 (2 ^ 24)). apply Z.log2_le_mono. exact Hv. }
  destruct (Z.log2_spec v Hpos) as [Hlo Hhi].
  assert (Hk : 1 <= k) by (unfold k; lia).
  assert (Hp : 0 < 2 ^ k) by (apply pow2_pos; lia).
  assert (E1 : 2 ^ Z.log2 v = 2 ^ 23 * 2 ^ k).
  { rewrite <- Z.pow_add_r by lia. f_equal. unfold k. lia. }
  assert (E2 : 2 ^ Z.succ (Z.log2 v) = 2 ^ 24 * 2 ^ k).
  { rewrite <- Z.pow_add_r by lia. f_equal. unfold k. lia. }
  repeat split; try lia.
  - apply Z.div_le_lower_bound; lia.
  - apply Z.div_lt_upper_bound; lia.
  - apply Z.mod_pos_bound; lia.
  - apply Z.mod_pos_bound; lia.
  - apply Z.div_mod. lia.
Qed.

Lemma round24_nonneg (v : Z) : 0 <= v -> 0 <= round24 v.
Proof.
  intros Hv. unfold round24.
  destruct (v <? 2 ^ 24) eqn:E; [exact Hv|].
  apply Z.ltb_ge in E.
  destruct (round24_shape v E) as (Hk & Hq & Hr & _).
  set (k := Z.log2 v - 23) in *.
  assert (Hp : 0 < 2 ^ k) by (apply pow2_pos; lia).
  change (2 ^ 23) with 8388608 in Hq.
  destruct (_ <? _); [nia|]. destruct (_ <? _); [nia|].
  destruct (Z.even _); nia.
Qed.

(** Rounding moves a value by at most 2^-24 of itself. *)
Lemma round24_error (v : Z) :
  0 <= v ->
  2 ^ 24 * (v - round24 v) <= v /\ 2 ^ 24 * (round24 v - v) <= v.
Proof.
  intros Hv. unfold round24.
  destruct (v <? 2 ^ 24) eqn:E; [lia|].
  apply Z.ltb_ge in E.
  destruct (round24_shape v E) as (Hk & Hq & Hr & Hdm).
  set (k := Z.log2 v - 23) in *.
  set (q := v / 2 ^ k) in *. set (r := v mod 2 ^ k) in *.
  assert (Hh : 2 ^ k = 2 * 2 ^ (k - 1)) by (apply pow2_split; lia).
  assert (Hhp : 0 < 2 ^ (k - 1)) by (apply pow2_pos; lia).
  set (h := 2 ^ (k - 1)) in *. set (p := 2 ^ k) in *.
  change (2 ^ 23) with 8388608 in *. change (2 ^ 24) with 16777216 in *.
  destruct (r <? h) eqn:E1.
  - apply Z.ltb_lt in E1. nia.
  - apply Z.ltb_ge in E1. destruct (h <? r) eqn:E2.
    + apply Z.ltb_lt in E2. nia.
    + apply Z.ltb_ge in E2. assert (r = h) by lia.
      destruct (Z.even q); nia.
Qed.

(** Rounding with the exponent [k] and the 24-bit quotient [q] made explicit. *)
Definition round_at (k q r : Z) : Z :=
  if r <? 2 ^ (k - 1) then q * 2 ^ k
  else if 2 ^ (k - 1) <? r then (q + 1) * 2 ^ k
  else (if Z.even q then q else q + 1) * 2 ^ k.

Lemma round24_unfold (v : Z) :
  2 ^ 24 <= v ->
  round24 v = round_at (Z.log2 v - 23) (v / 2 ^ (Z.log2 v - 23)) (v mod 2 ^ (Z.log2 v - 23)).
Proof.
  intros Hv. unfold round24, round_at.
  destruct (v <? 2 ^ 24) eqn:E; [apply Z.ltb_lt in E; lia | reflexivity].
Qed.

Lemma round_at_bounds (k q r : Z) :
  0 <= k -> q * 2 ^ k <= round_at k q r <= (q + 1) * 2 ^ k.
Proof.
  intros Hk. assert (0 < 2 ^ k) by (apply pow2_pos; lia).
  unfold round_at. destruct (_ <? _); [nia|]. destruct (_ <? _); [nia|].
  destruct (Z.even q); nia.
Qed.

Lemma round_at_mono (k q r r' : Z) :
  0 <= k -> r <= r' -> round_at k q r <= round_at k q r'.
Proof.
  intros Hk Hr. assert (0 < 2 ^ k) by (apply pow2_pos; lia).
  unfold round_at.
  destruct (r <? 2 ^ (k - 1)) eqn:E1; destruct (r' <? 2 ^ (k - 1)) eqn:E1';
    destruct (2 ^ (k - 1) <? r) eqn:E2; destruct (2 ^ (k - 1) <? r') eqn:E2';
    try apply Z.ltb_lt in E1; try apply Z.ltb_lt in E1';
    try apply Z.ltb_lt in E2; try apply Z.ltb_lt in E2';
    try apply Z.ltb_ge in E1; try apply Z.ltb_ge in E1';
    try apply Z.ltb_ge in E2; try apply Z.ltb_ge in E2';
    try lia; destruct (Z.even q); nia.
Qed.

(** Rounding is monotone. *)
Lemma round24_mono (a b : Z) : 0 <= a -> a <= b -> round24 a <= round24 b.
Proof.
  intros Ha Hab.
  destruct (Z.lt_ge_cases b (2 ^ 24)) as [Hb|Hb].
  { unfold round24.
    destruct (a <? 2 ^ 24) eqn:Ea; [|apply Z.ltb_ge in Ea; lia].
    destruct (b <? 2 ^ 24) eqn:Eb; [|apply Z.ltb_ge in Eb; lia]. exact Hab. }
  destruct (round24_shape b Hb) as (Hkb & Hqb & Hrb & Hdb).
  rewrite (round24_unfold b Hb).
  set (kb := Z.log2 b - 23) in *.
  pose proof (round_at_bounds kb (b / 2 ^ kb) (b mod 2 ^ kb) ltac:(lia)) as Bb.
  assert (Hpb : 0 < 2 ^ kb) by (apply pow2_pos; lia).
  destruct (Z.lt_ge_cases a (2 ^ 24)) as [Ha'|Ha'].
  { unfold round24 at 1.
    destruct (a <? 2 ^ 24) eqn:Ea; [|apply Z.ltb_ge in Ea; lia].
    assert (2 ^ 1 <= 2 ^ kb) by (apply Z.pow_le_mono_r; lia).
    change (2 ^ 1) with 2 in *.
    change (2 ^ 23) with 8388608 in *. change (2 ^ 24) with 16777216 in *. nia. }
  destruct (round24_shape a Ha') as (Hka & Hqa & Hra & Hda).
  rewrite (round24_unfold a Ha').
  set (ka := Z.log2 a - 23) in *.
  pose proof (round_at_bounds ka (a / 2 ^ ka) (a mod 2 ^ ka) ltac:(lia)) as Ba.
  assert (Hpa : 0 < 2 ^ ka) by (apply pow2_pos; lia).
  assert (Hk : ka <= kb).
  { unfold ka, kb. pose proof (Z.log2_le_mono a b Hab). lia. }
  destruct (Z.eq_dec ka kb) as [Ek|Ek].
  - rewrite <- Ek in *. clear Ek.
    set (p := 2 ^ ka) in *.
    set (qa := a / p) in *. set (qb := b / p) in *.
    set (ra := a mod p) in *. set (rb := b mod p) in *.
    assert (Hq : qa <= qb) by (apply Z.div_le_mono; lia).
    destruct (Z.eq_dec qa qb) as [Eq|Eq].
    + rewrite Eq. apply round_at_mono; [lia|]. nia.
    + assert (qa + 1 <= qb) by lia. fold p in Ba, Bb. nia.
  - assert (Hpp : 2 ^ (ka + 1) <= 2 ^ kb) by (apply Z.pow_le_mono_r; lia).
    rewrite Z.pow_add_r in Hpp by lia. change (2 ^ 1) with 2 in Hpp.
    change (2 ^ 23) with 8388608 in *. change (2 ^ 24) with 16777216 in *. nia.
Qed.

(** Rounding is idempotent: a rounded value is representable. *)
Lemma round24_idem (v : Z) : 0 <= v -> round24 (round24 v) = round24 v.
Proof.
  intros Hv.
  destruct (Z.lt_ge_cases v (2 ^ 24)) as [Hs|Hs].
  { unfold round24. destruct (v <? 2 ^ 24) eqn:E; [rewrite E; reflexivity|].
    apply Z.ltb_ge in E; lia. }
  destruct (round24_shape v Hs) as (Hk & Hq & Hr & Hd).
  rewrite (round24_unfold v Hs).
  set (k := Z.log2 v - 23) in *. set (q := v / 2 ^ k) in *. set (r := v mod 2 ^ k) in *.
  assert (Hp : 0 < 2 ^ k) by (apply pow2_pos; lia).
  assert (Hex : exists q', round_at k q r = q' * 2 ^ k /\ 2 ^ 23 <= q' <= 2 ^ 24).
  { unfold round_at. destruct (_ <? _); [exists q; lia|].
    destruct (_ <? _); [exists (q + 1); lia|].
    destruct (Z.even q); [exists q; lia | exists (q + 1); lia]. }
  destruct Hex as (q' & -> & Hq').
  assert (Hbig : 2 ^ 24 <= q' * 2 ^ k).
  { assert (2 ^ 1 <= 2 ^ k) by (apply Z.pow_le_mono_r; lia).
    change (2 ^ 1) with 2 in *.
    change (2 ^ 23) with 8388608 in *. change (2 ^ 24) with 16777216 in *. nia. }
  rewrite (round24_unfold _ Hbig).
  assert (Hq'pos : 0 < q') by (change (2 ^ 23) with 8388608 in Hq'; lia).
  rewrite Z.log2_mul_pow2 by lia.
  destruct (Z.eq_dec q' (2 ^ 24)) as [E|E].
  - subst q'. change (Z.log2 (2 ^ 24)) with 24.
    replace (k + 24 - 23) with (k + 1) by lia.
    assert (Hp1 : 2 ^ (k + 1) = 2 * 2 ^ k).
    { rewrite Z.pow_add_r by lia. change (2 ^ 1) with 2. lia. }
    replace (2 ^ 24 * 2 ^ k) with (2 ^ 23 * 2 ^ (k + 1))
      by (rewrite Hp1; change (2 ^ 24) with (2 * 2 ^ 23); lia).
    rewrite Z.div_mul by lia. rewrite Z.mod_mul by lia.
    unfold round_at. replace (k + 1 - 1) with k by lia.
    destruct (0 <? 2 ^ k) eqn:E0; [reflexivity | apply Z.ltb_ge in E0; lia].
  - assert (Hl : Z.log2 q' = 23).
    { apply Z.log2_unique; [lia|]. change (2 ^ Z.succ 23) with (2 ^ 24). lia. }
    rewrite Hl. replace (k + 23 - 23) with k by lia.
    rewrite Z.div_mul by lia. rewrite Z.mod_mul by lia.
    unfold round_at.
    assert (0 < 2 ^ (k - 1)) by (apply pow2_pos; lia).
    destruct (0 <? 2 ^ (k - 1)) eqn:E0; [reflexivity | apply Z.ltb_ge in E0; lia].
Qed.

(** *** Consequences for [fadd] *)

Lemma fadd_nonneg (a b : float) : 0 <= a -> 0 <= b -> 0 <= fadd a b.
Proof.
  intros Ha Hb. unfold fadd. apply Z.min_glb; [unfold F_INF; lia|].
  apply round24_nonneg; lia.
Qed.

Lemma fadd_mono (a a' b b' : float) :
  0 <= a -> 0 <= b -> a <= a' -> b <= b' -> fadd a b <= fadd a' b'.
Proof.
  intros Ha Hb Haa Hbb. unfold fadd.
  apply Z.min_le_compat_l. apply round24_mono; lia.
Qed.

Lemma fadd_is_f32 (a b : float) : 0 <= a -> 0 <= b -> is_f32 (fadd a b).
Proof.
  intros Ha Hb. unfold is_f32, fadd.
  pose proof (round24_nonneg (a + b) ltac:(lia)) as Hn.
  destruct (Z.min_spec F_INF (round24 (a + b))) as [[Hlt ->]|[Hle ->]].
  - split; [unfold F_INF; lia | reflexivity].
  - split; [lia | apply round24_idem; lia].
Qed.

(** Adding a non-negative amount to a representable number never decreases it. *)
Lemma fadd_ge_l (a b : float) : is_f32 a -> 0 <= b -> a <= fadd a b.
Proof.
  intros [[Ha0 Ha1] Hr] Hb. unfold fadd. apply Z.min_glb; [exact Ha1|].
  rewrite <- Hr at 1. apply round24_mono; lia.
Qed.

(** Below 2^24 a step of at least one strictly increases the sum, and the
    result exceeds the exact sum by at most 2^-24 of it. *)
Lemma fadd_step (x w : float) :
  0 <= x -> x < (2 ^ 24 - 1) * F_ONE -> F_ONE <= w -> 2 * w <= 3 * F_ONE ->
  x < fadd x w /\ 2 ^ 24 * (fadd x w - (x + w)) <= x + w.
Proof.
  intros Hx Hx' Hw Hw'. unfold fadd.
  destruct (round24_error (x + w)) as [Hlo Hhi]; [unfold F_ONE in *; lia|].
  change (2 ^ 24) with 16777216 in *.
  destruct (Z.min_spec F_INF (round24 (x + w))) as [[Hm ->]|[Hm ->]];
    unfold F_ONE, F_INF in *; lia.
Qed.

Lemma is_f32_consts :
  is_f32 0 /\ is_f32 F_ONE /\ is_f32 DIAGONAL_COST /\ is_f32 FLT_EPSILON /\
  is_f32 FLT_MAX /\ is_f32 F_INF.
Proof. repeat split; vm_compute; congruence. Qed.

(** The constant [DIAGONAL_COST] is the square root of two correctly rounded
    to binary32: with m = 11863283, m - 1/2 < sqrt 2 * 2^23 < m + 1/2. *)
Lemma DIAGONAL_COST_is_sqrt2 :
  DIAGONAL_COST = 11863283 * FLT_EPSILON /\
  (2 * 11863283 - 1) ^ 2 < 2 * (2 * 2 ^ 23) ^ 2 < (2 * 11863283 + 1) ^ 2.
Proof. vm_compute. repeat split; congruence. Qed.

Lemma cost_bounds :
  F_ONE <= CARDINAL_COST /\ 2 * CARDINAL_COST <= 3 * F_ONE /\
  F_ONE <= DIAGONAL_COST /\ 2 * DIAGONAL_COST <= 3 * F_ONE.
Proof. vm_compute. repeat split; congruence. Qed.

(** *** The error of one addition *)

Lemma is_f32_multiple (x : Z) :
  is_f32 x -> 2 ^ 24 <= x -> x mod 2 ^ (Z.log2 x - 23) = 0.
Proof.
  intros [_ Hr] Hx. rewrite (round24_unfold x Hx) in Hr.
  destruct (round24_shape x Hx) as (Hk & _).
  set (k := Z.log2 x - 23) in *.
  assert (Hp : 0 < 2 ^ k) by (apply pow2_pos; lia).
  assert (Hex : exists q', x = q' * 2 ^ k).
  { unfold round_at in Hr.
    destruct (_ <? _); [eauto|]. destruct (_ <? _); [eauto|].
    destruct (Z.even _); eauto. }
  clearbody k. destruct Hex as [q' ->]. apply Z.mod_mul. lia.
Qed.

(** Rounding goes to the nearer neighbour. *)
Lemma round_at_nearest (k q r : Z) :
  1 <= k -> 0 <= r < 2 ^ k ->
  Z.abs (round_at k q r - (q * 2 ^ k + r)) <= Z.min r (2 ^ k - r).
Proof.
  intros Hk Hr. unfold round_at.
  assert (Hh : 2 ^ k = 2 * 2 ^ (k - 1)) by (apply pow2_split; lia).
  set (h := 2 ^ (k - 1)) in *. set (p := 2 ^ k) in *.
  destruct (r <? h) eqn:E1.
  - apply Z.ltb_lt in E1. lia.
  - apply Z.ltb_ge in E1. destruct (h <? r) eqn:E2.
    + apply Z.ltb_lt in E2. lia.
    + apply Z.ltb_ge in E2. destruct (Z.even q); lia.
Qed.

Lemma log2_bounds (v : Z) (m : Z) :
  0 <= m -> 2 ^ m <= v < 2 ^ (m + 1) -> Z.log2 v = m.
Proof.
  intros Hm Hv. apply Z.log2_unique; [exact Hm|].
  replace (Z.succ m) with (m + 1) by lia. exact Hv.
Qed.

(** The value of [round24] is at least the power of two below its argument. *)
Lemma round24_ge_pow2 (v : Z) : 2 ^ 24 <= v -> 2 ^ Z.log2 v <= round24 v.
Proof.
  intros Hv. rewrite (round24_unfold v Hv).
  destruct (round24_shape v Hv) as (Hk & Hq & _).
  set (k := Z.log2 v - 23) in *.
  pose proof (round_at_bounds k (v / 2 ^ k) (v mod 2 ^ k) ltac:(lia)) as [Hb _].
  assert (Hp : 0 < 2 ^ k) by (apply pow2_pos; lia).
  assert (E : 2 ^ Z.log2 v = 2 ^ 23 * 2 ^ k).
  { rewrite <- Z.pow_add_r by lia. f_equal. unfold k. lia. }
  rewrite E. nia.
Qed.

(** The allowance for the roundings at the changes of binade up to [x]: four
    units of 2^-23 at one, doubling with each binade. *)
Definition binade_allowance (x : Z) : Z := 2 ^ Z.log2 x / 2 ^ 21.

Lemma binade_allowance_mono (x y : Z) :
  0 <= x <= y -> binade_allowance x <= binade_allowance y.
Proof.
  intros H. unfold binade_allowance. apply Z.div_le_mono; [lia|].
  apply Z.pow_le_mono_r; [lia|]. apply Z.log2_le_mono. lia.
Qed.

Lemma binade_allowance_eq (x : Z) :
  2 ^ 24 <= x -> binade_allowance x = 2 ^ (Z.log2 x - 21).
Proof.
  intros Hx. unfold binade_allowance.
  assert (Hl : 24 <= Z.log2 x).
  { change 24 with (Z.log2 (2 ^ 24)). apply Z.log2_le_mono. exact Hx. }
  replace (Z.log2 x) with ((Z.log2 x - 21) + 21) at 1 by lia.
  rewrite Z.pow_add_r by lia. apply Z.div_mul. lia.
Qed.

(** The remainders of the two move costs at the units of the binades from
    one to 512. *)
Lemma move_cost_residues (k : Z) :
  126 <= k <= 134 ->
  CARDINAL_COST mod 2 ^ k = 0 /\
  Z.min (DIAGONAL_COST mod 2 ^ k) (2 ^ k - DIAGONAL_COST mod 2 ^ k) <= 13 * FLT_EPSILON.
Proof.
  intros Hk.
  assert (E : k = 126 \/ k = 127 \/ k = 128 \/ k = 129 \/ k = 130 \/ k = 131 \/
              k = 132 \/ k = 133 \/ k = 134) by lia.
  destruct E as [->|[->|[->|[->|[->|[->|[->|[->| ->]]]]]]]];
    (split; [vm_compute; reflexivity | vm_compute; congruence]).
Qed.

(** One addition of a move cost, below 512: within a binade a cardinal move
    is added exactly and a diagonal move within 13 units of 2^-23; the
    rounding at a change of binade is covered by the allowance. *)
Lemma fadd_error (x w : float) (d : Z) :
  is_f32 x -> x = 0 \/ F_ONE <= x -> fadd x w < 2 ^ 158 ->
  (w = CARDINAL_COST /\ d = 0) \/ (w = DIAGONAL_COST /\ d = 1) ->
  Z.abs (fadd x w - (x + w)) <=
  13 * FLT_EPSILON * d + binade_allowance (fadd x w) - binade_allowance x.
Proof.
  intros Hx Hx0 Hlt Hw.
  assert (Hwf : is_f32 w /\ F_ONE <= w /\ 2 * w <= 3 * F_ONE).
  { pose proof is_f32_consts as (_ & H1 & H2 & _). pose proof cost_bounds.
    destruct Hw as [[-> _]|[-> _]]; unfold CARDINAL_COST in *; repeat split;
      solve [apply H1 | apply H2 | lia | unfold F_ONE; lia]. }
  destruct Hwf as ([_ Hwr] & Hw1 & Hw2).
  assert (Hd : 0 <= d <= 1) by (destruct Hw as [[_ ->]|[_ ->]]; lia).
  destruct Hx0 as [->|Hx1].
  { (* the first move *)
    assert (E : fadd 0 w = w).
    { unfold fadd. simpl. rewrite Hwr. apply Z.min_r. unfold F_ONE, F_INF in *. lia. }
    rewrite E. replace (w - (0 + w)) with 0 by lia.
    pose proof (binade_allowance_mono 0 w ltac:(unfold F_ONE in *; lia)).
    unfold FLT_EPSILON. simpl Z.abs. lia. }
  pose proof Hx as [[Hx0 _] _].
  set (v := x + w) in *.
  assert (Hv : 2 ^ 24 <= v) by (unfold v, F_ONE in *; change (2 ^ 24) with 16777216; lia).
  assert (Hx24 : 2 ^ 24 <= x) by (unfold F_ONE in *; change (2 ^ 24) with 16777216; lia).
  assert (Hf : fadd x w = round24 v).
  { unfold fadd in *. fold v in Hlt |- *.
    destruct (Z.min_spec F_INF (round24 v)) as [[_ E]|[_ E]]; rewrite E in *; [|reflexivity].
    exfalso. unfold F_INF in Hlt. change (2 ^ 158) with 365375409332725729550921208179070754913983135744 in Hlt. lia. }
  rewrite Hf in *.
  pose proof (round24_ge_pow2 v Hv) as Hge.
  assert (Hxv : x <= round24 v) by (rewrite <- Hf; apply fadd_ge_l; [exact Hx | lia]).
  assert (Hlv : Z.log2 v < 158).
  { apply Z.pow_lt_mono_r_iff with (a := 2); lia. }
  assert (Hlx : 149 <= Z.log2 x).
  { change 149 with (Z.log2 (2 ^ 149)). apply Z.log2_le_mono. unfold F_ONE in Hx1.
    change (2 ^ 149) with 713623846352979940529142984724747568191373312. exact Hx1. }
  assert (Hlxv : Z.log2 x <= Z.log2 v) by (apply Z.log2_le_mono; unfold v; lia).
  rewrite (binade_allowance_eq x Hx24).
  assert (Hrv : 2 ^ 24 <= round24 v) by lia.
  rewrite (binade_allowance_eq _ Hrv).
  assert (Hlr : Z.log2 v <= Z.log2 (round24 v)).
  { apply Z.log2_le_pow2; [lia | exact Hge]. }
  destruct (Z.eq_dec (Z.log2 v) (Z.log2 x)) as [Esame|Ediff].
  - (* within the binade of [x] *)
    assert (Hmono : 2 ^ (Z.log2 x - 21) <= 2 ^ (Z.log2 (round24 v) - 21))
      by (apply Z.pow_le_mono_r; lia).
    enough (Z.abs (round24 v - v) <= 13 * FLT_EPSILON * d) by lia.
    rewrite (round24_unfold v Hv).
    destruct (round24_shape v Hv) as (Hk & Hq & Hr & Hdm).
    pose proof (is_f32_multiple x Hx Hx24) as Hmul.
    rewrite <- Esame in Hmul.
    set (k := Z.log2 v - 23) in *.
    assert (Hp : 0 < 2 ^ k) by (apply pow2_pos; lia).
    assert (Hrw : v mod 2 ^ k = w mod 2 ^ k).
    { unfold v. rewrite Z.add_mod by lia. rewrite Hmul. simpl.
      apply Z.mod_mod. lia. }
    pose proof (round_at_nearest k (v / 2 ^ k) (v mod 2 ^ k) Hk Hr) as Hn.
    replace (v / 2 ^ k * 2 ^ k + v mod 2 ^ k) with v in Hn by lia.
    rewrite Hrw in Hn.
    destruct (move_cost_residues k ltac:(unfold k; lia)) as [Hc Hdg].
    destruct Hw as [[-> ->]|[-> ->]].
    + rewrite Hc in Hn. rewrite Hrw, Hc.
      assert (Z.min 0 (2 ^ k - 0) = 0) by (apply Z.min_l; lia). lia.
    + rewrite Hrw. lia.
  - (* into the next binade *)
    assert (Hm : Z.log2 x + 1 <= Z.log2 v) by lia.
    destruct (round24_error v ltac:(lia)) as [He1 He2].
    assert (Hvlt : v < 2 ^ (Z.log2 v + 1)).
    { destruct (Z.log2_spec v ltac:(lia)) as [_ H].
      replace (Z.log2 v + 1) with (Z.succ (Z.log2 v)) by lia. exact H. }
    set (m := Z.log2 v) in *.
    assert (E1 : 2 ^ (m + 1) = 2 ^ 24 * 2 ^ (m - 23)).
    { rewrite <- Z.pow_add_r by lia. f_equal. lia. }
    assert (E2 : 2 ^ (m - 21) = 4 * 2 ^ (m - 23)).
    { replace (m - 21) with (2 + (m - 23)) by lia. rewrite Z.pow_add_r by lia.
      reflexivity. }
    assert (E3 : 2 ^ (m - 22) = 2 * 2 ^ (m - 23)).
    { replace (m - 22) with (1 + (m - 23)) by lia. rewrite Z.pow_add_r by lia.
      reflexivity. }
    assert (H1 : 2 ^ (Z.log2 x - 21) <= 2 ^ (m - 22)) by (apply Z.pow_le_mono_r; lia).
    assert (H2 : 2 ^ (m - 21) <= 2 ^ (Z.log2 (round24 v) - 21))
      by (apply Z.pow_le_mono_r; lia).
    assert (Hp : 0 < 2 ^ (m - 23)) by (apply pow2_pos; lia).
    change (2 ^ 24) with 16777216 in *. unfold FLT_EPSILON. lia.
Qed.

(** ** Vectors and vectors of vectors *)

Definition coord := (Z * Z)%type.

Definition coord_eqb (a b : coord) : bool := (fst a =? fst b) && (snd a =? snd b).

Lemma coord_eqb_spec (a b : coord) : reflect (a = b) (coord_eqb a b).
Proof.
  destruct a as [x y], b as [x' y']. unfold coord_eqb. simpl.
  destruct (Z.eqb_spec x x'), (Z.eqb_spec y y'); simpl; constructor; congruence.
Qed.

(** [v[i] = a]; writing past the end is left out of the model (the source
    never does it) and changes nothing here. *)
Fixpoint list_set {A} (l : list A) (i : nat) (a : A) : list A :=
  match l with
  | [] => []
  | h :: t => match i with O => a :: t | S j => h :: list_set t j a end
  end.

Definition matrix (A : Type) := list (list A).

(** [std::vector<std::vector<T>>(n, std::vector<T>(n, v))] *)
Definition mconst {A} (n : nat) (v : A) : matrix A := repeat (repeat v n) n.

(** [m[y][x]], [None] when an index is outside the vectors (undefined
    behaviour in the source). *)
Definition mread {A} (m : matrix A) (x y : Z) : option A :=
  if (x <? 0) || (y <? 0) then None
  else match nth_error m (Z.to_nat y) with
       | Some row => nth_error row (Z.to_nat x)
       | None => None
       end.

Definition mget {A} (d : A) (m : matrix A) (x y : Z) : A :=
  match mread m x y with Some v => v | None => d end.

(** [m[y][x] = v] *)
Definition mset {A} (m : matrix A) (x y : Z) (v : A) : matrix A :=
  list_set m (Z.to_nat y) (list_set (nth (Z.to_nat y) m []) (Z.to_nat x) v).

Definition wf_matrix {A} (n : nat) (m : matrix A) : Prop :=
  length m = n /\ Forall (fun row => length row = n) m.

Fixpoint zsum (l : list Z) : Z :=
  match l with [] => 0 | h :: t => h + zsum t end.

Definition msum (m : matrix Z) : Z := zsum (map zsum m).

Section ListSet.
Context {A : Type}.
Implicit Types (l : list A).

Lemma list_set_length l i a : length (list_set l i a) = length l.
Proof. revert i; induction l as [|h t IH]; intros [|j]; simpl; auto. Qed.

Lemma list_set_same l i a :
  (i < length l)%nat -> nth_error (list_set l i a) i = Some a.
Proof.
  revert i; induction l as [|h t IH]; intros [|j] H; simpl in *; try lia; auto.
  apply IH; lia.
Qed.

Lemma list_set_other l i j a :
  i <> j -> nth_error (list_set l i a) j = nth_error l j.
Proof.
  revert i j; induction l as [|h t IH]; intros [|i] [|j] H; simpl;
    try congruence; auto.
Qed.

Lemma list_set_Forall (P : A -> Prop) l i a :
  Forall P l -> ((i < length l)%nat -> P a) -> Forall P (list_set l i a).
Proof.
  intros Hl. revert i; induction Hl as [|h t Hh Ht IH]; intros [|j] Ha; simpl in *;
    constructor; auto.
  - apply Ha; lia.
  - apply IH. intros; apply Ha; lia.
Qed.

Lemma nth_error_nth_default l i (d : A) :
  (i < length l)%nat -> nth_error l i = Some (nth i l d).
Proof.
  revert i; induction l as [|h t IH]; intros [|j] H; simpl in *; try lia; auto.
  apply IH; lia.
Qed.

End ListSet.

Section MatrixAccess.
Context {A : Type}.
Implicit Types (m : matrix A).

Lemma wf_mset n m x y v : wf_matrix n m -> wf_matrix n (mset m x y v).
Proof.
  intros [Hl Hr]. unfold mset. split.
  - rewrite list_set_length. exact Hl.
  - apply list_set_Forall; [exact Hr|]. intros Hy.
    rewrite list_set_length.
    rewrite Forall_forall in Hr. apply Hr. apply nth_In. exact Hy.
Qed.

Lemma mread_wf n m x y :
  wf_matrix n m -> 0 <= x < Z.of_nat n -> 0 <= y < Z.of_nat n ->
  exists v, mread m x y = Some v.
Proof.
  intros [Hl Hr] Hx Hy. unfold mread.
  destruct (x <? 0) eqn:Ex; [apply Z.ltb_lt in Ex; lia|].
  destruct (y <? 0) eqn:Ey; [apply Z.ltb_lt in Ey; lia|]. simpl.
  destruct (nth_error m (Z.to_nat y)) as [row|] eqn:E.
  - assert (length row = n).
    { rewrite Forall_forall in Hr. apply Hr. eapply nth_error_In; eauto. }
    destruct (nth_error row (Z.to_nat x)) eqn:E'; eauto.
    apply nth_error_None in E'. lia.
  - apply nth_error_None in E. lia.
Qed.

Lemma mread_mset_same n m x y v :
  wf_matrix n m -> 0 <= x < Z.of_nat n -> 0 <= y < Z.of_nat n ->
  mread (mset m x y v) x y = Some v.
Proof.
  intros [Hl Hr] Hx Hy. unfold mread, mset.
  destruct (x <? 0) eqn:Ex; [apply Z.ltb_lt in Ex; lia|].
  destruct (y <? 0) eqn:Ey; [apply Z.ltb_lt in Ey; lia|]. simpl.
  rewrite list_set_same by lia.
  apply list_set_same.
  assert (Hin : In (nth (Z.to_nat y) m []) m) by (apply nth_In; lia).
  rewrite Forall_forall in Hr. rewrite (Hr _ Hin). lia.
Qed.

Lemma mread_mset_other m x y v x' y' :
  0 <= x -> 0 <= y -> (x', y') <> (x, y) ->
  mread (mset m x y v) x' y' = mread m x' y'.
Proof.
  intros Hx Hy Hne. unfold mread, mset.
  destruct (x' <? 0) eqn:Ex; [reflexivity|].
  destruct (y' <? 0) eqn:Ey; [reflexivity|]. simpl.
  apply Z.ltb_ge in Ex, Ey.
  destruct (Nat.eq_dec (Z.to_nat y) (Z.to_nat y')) as [E|E].
  - assert (y' = y) by lia. subst y'.
    assert (Hxx : Z.to_nat x <> Z.to_nat x') by (intros H; apply Hne; f_equal; lia).
    destruct (Nat.lt_ge_cases (Z.to_nat y) (length m)) as [Hlt|Hge].
    + rewrite list_set_same by exact Hlt.
      rewrite (nth_error_nth_default m _ []) by exact Hlt.
      apply list_set_other. exact Hxx.
    + assert (Hnone : nth_error m (Z.to_nat y) = None) by (apply nth_error_None; lia).
      rewrite Hnone.
      assert (Hnone' : nth_error (list_set m (Z.to_nat y)
                (list_set (nth (Z.to_nat y) m []) (Z.to_nat x) v)) (Z.to_nat y) = None).
      { apply nth_error_None. rewrite list_set_length. lia. }
      rewrite Hnone'. reflexivity.
  - rewrite list_set_other by exact E. reflexivity.
Qed.

Lemma mconst_wf n (v : A) : wf_matrix n (mconst n v).
Proof.
  unfold mconst. split; [apply repeat_length|].
  apply Forall_forall. intros r Hr. apply repeat_spec in Hr. subst.
  apply repeat_length.
Qed.

Lemma mread_mconst n (v : A) x y :
  0 <= x < Z.of_nat n -> 0 <= y < Z.of_nat n -> mread (mconst n v) x y = Some v.
Proof.
  intros Hx Hy.
  destruct (mread_wf n (mconst n v) x y (mconst_wf n v) Hx Hy) as [w Hw].
  rewrite Hw. f_equal. unfold mread, mconst in Hw.
  destruct ((x <? 0) || (y <? 0)); [discriminate|].
  destruct (nth_error (repeat (repeat v n) n) (Z.to_nat y)) as [row|] eqn:E;
    [|discriminate].
  apply nth_error_In in E. apply repeat_spec in E. subst row.
  apply nth_error_In in Hw. apply repeat_spec in Hw. exact Hw.
Qed.

End MatrixAccess.

Lemma zsum_list_set (l : list Z) (i : nat) (old v : Z) :
  nth_error l i = Some old -> zsum (list_set l i v) = zsum l - old + v.
Proof.
  revert i; induction l as [|h t IH]; intros [|j] H; simpl in *; try discriminate.
  - injection H as ->. lia.
  - rewrite (IH _ H). lia.
Qed.

Lemma map_list_set {A B} (f : A -> B) (l : list A) (i : nat) (a : A) :
  map f (list_set l i a) = list_set (map f l) i (f a).
Proof.
  revert i; induction l as [|h t IH]; intros [|j]; simpl; auto. f_equal. apply IH.
Qed.

Lemma msum_mset (m : matrix float) (x y : Z) (old v : float) :
  mread m x y = Some old -> msum (mset m x y v) = msum m - old + v.
Proof.
  unfold float in *. unfold mread, mset, msum. intros H.
  destruct ((x <? 0) || (y <? 0)); [discriminate|].
  destruct (nth_error m (Z.to_nat y)) as [row|] eqn:E; [|discriminate].
  rewrite map_list_set.
  rewrite (zsum_list_set (map zsum m) (Z.to_nat y) (zsum row)).
  - assert (Hrow : nth (Z.to_nat y) m [] = row).
    { apply nth_error_nth. exact E. }
    rewrite Hrow. rewrite (zsum_list_set row _ old v H). lia.
  - rewrite nth_error_map, E. reflexivity.
Qed.

(** *** Counting the elements of a list that pass a test *)

Definition count {A} (p : A -> bool) (l : list A) : nat := length (filter p l).

Lemma count_le_length {A} (p : A -> bool) (l : list A) : (count p l <= length l)%nat.
Proof.
  unfold count. induction l as [|h t IH]; simpl; [lia|].
  destruct (p h); simpl; lia.
Qed.

Lemma count_mono {A} (p q : A -> bool) (l : list A) :
  (forall a, In a l -> p a = true -> q a = true) -> (count p l <= count q l)%nat.
Proof.
  unfold count. induction l as [|h t IH]; intros H; simpl; [lia|].
  assert (IH' := IH (fun a Ha => H a (or_intror Ha))).
  destruct (p h) eqn:Ep.
  - rewrite (H h (or_introl eq_refl) Ep). simpl. lia.
  - destruct (q h); simpl; lia.
Qed.

Lemma count_strict {A} (p q : A -> bool) (l : list A) (x : A) :
  (forall a, In a l -> p a = true -> q a = true) ->
  In x l -> p x = false -> q x = true -> (count p l < count q l)%nat.
Proof.
  unfold count. induction l as [|h t IH]; intros H Hin Hp Hq; simpl; [destruct Hin|].
  assert (Hm := count_mono p q t (fun a Ha => H a (or_intror Ha))). unfold count in Hm.
  destruct Hin as [->|Hin].
  - rewrite Hp, Hq. simpl. lia.
  - assert (IH' := IH (fun a Ha => H a (or_intror Ha)) Hin Hp Hq).
    destruct (p h) eqn:Ep.
    + rewrite (H h (or_introl eq_refl) Ep). simpl. lia.
    + destruct (q h); simpl; lia.
Qed.

(** ** The program's constants *)

Definition GRID_SIZE : Z := 20.
Definition CELL_SIZE : Z := 25.

(** Directions for 8-directional movement, in the order of the source's array. *)
Definition directions : list coord :=
  [(1, 0); (0, 1); (-1, 0); (0, -1); (1, 1); (-1, 1); (1, -1); (-1, -1)].

(** [(dir.x != 0 && dir.y != 0) ? DIAGONAL_COST : CARDINAL_COST] *)
Definition moveCost (dir : coord) : float :=
  if negb (fst dir =? 0) && negb (snd dir =? 0) then DIAGONAL_COST else CARDINAL_COST.

(** The cost of a path as the searches accumulate it: the move costs added in
    single precision from the first cell on. *)
Fixpoint path_cost_from (acc : float) (l : list coord) : float :=
  match l with
  | [] => acc
  | a :: t =>
      match t with
      | [] => acc
      | b :: _ => path_cost_from (fadd acc (moveCost (fst b - fst a, snd b - snd a))) t
      end
  end.

Definition path_cost (l : list coord) : float := path_cost_from 0 l.

(** [dir.x != 0 && dir.y != 0] *)
Definition is_diagonal (dir : coord) : bool :=
  negb (fst dir =? 0) && negb (snd dir =? 0).

(** The numbers of diagonal and of cardinal moves of a path. *)
Fixpoint diagonals (l : list coord) : Z :=
  match l with
  | [] => 0
  | a :: t =>
      match t with
      | [] => 0
      | b :: _ => (if is_diagonal (fst b - fst a, snd b - snd a) then 1 else 0) + diagonals t
      end
  end.

Fixpoint cardinals (l : list coord) : Z :=
  match l with
  | [] => 0
  | a :: t =>
      match t with
      | [] => 0
      | b :: _ => (if is_diagonal (fst b - fst a, snd b - snd a) then 0 else 1) + cardinals t
      end
  end.

(** The cost of a path with its moves added without rounding. *)
Definition exact_cost (l : list coord) : Z :=
  cardinals l * CARDINAL_COST + diagonals l * DIAGONAL_COST.

(** A little above one and a half: 1.5 + 2^-10. *)
Definition STEP_BOUND : Z := Eval vm_compute in 1537 * 2 ^ 139.

(** [sf::Vector2i(-1, -1)], the initial entry of [prev]. *)
Definition NO_PREV : coord := (-1, -1).

(** Colours of the animation steps. *)
Inductive color := Cyan | Grey | Green | Magenta | Blue | White | Orange.

Record AnimationStep := mkStep { step_coord : coord; step_color : color }.

(** The two search strategies; each has its own button and its own block of code. *)
Inductive algorithm := Dijkstra | AStar.

(** Frontier entries.  A* stores [{f, g, x, y}]; Dijkstra stores [{d, x, y}],
    which is the same entry with [f = g = d]. *)
Record Node := mkNode { node_f : float; node_g : float; node_x : Z; node_y : Z }.

(** *** The priority queue

    [std::priority_queue<Node, std::vector<Node>, Cmp>] with
    [Cmp(a, b) = a.f > b.f]: [top()] is an entry whose key no other entry
    undercuts.  The order among entries of equal key depends on the heap
    algorithms of the standard library, so the queue is a parameter: any
    structure with these operations and laws. *)
Class MinQueue := {
  queue : Type;
  q_empty : queue;
  q_push : Node -> queue -> queue;
  (** [top()] followed by [pop()]; [None] when [empty()] *)
  q_pop : queue -> option (Node * queue);
  (** the entries held, in some order *)
  q_elems : queue -> list Node;
  q_empty_elems : q_elems q_empty = [];
  q_push_elems : forall n q, Permutation (q_elems (q_push n q)) (n :: q_elems q);
  q_pop_none : forall q, q_pop q = None -> q_elems q = [];
  q_pop_some : forall q n q', q_pop q = Some (n, q') ->
      Permutation (q_elems q) (n :: q_elems q') /\
      Forall (fun m => node_f n <= node_f m) (q_elems q')
}.

(** ** A concrete queue

    A vector searched for its first least entry; among entries of equal key
    the one pushed first is served first.  It satisfies the laws of
    [MinQueue] and is the queue of the concrete runs below. *)

Fixpoint extract_min (l : list Node) : option (Node * list Node) :=
  match l with
  | [] => None
  | n :: t =>
      match extract_min t with
      | None => Some (n, [])
      | Some (m, t') => if node_f m <? node_f n then Some (m, n :: t') else Some (n, t)
      end
  end.

Lemma extract_min_none (l : list Node) : extract_min l = None -> l = [].
Proof.
  destruct l as [|n t]; [reflexivity|]. simpl.
  destruct (extract_min t) as [[m t']|]; [|discriminate].
  destruct (node_f m <? node_f n); discriminate.
Qed.

Lemma extract_min_some (l : list Node) (n : Node) (l' : list Node) :
  extract_min l = Some (n, l') ->
  Permutation l (n :: l') /\ Forall (fun m => node_f n <= node_f m) l'.
Proof.
  revert n l'. induction l as [|a t IH]; intros n l' H; simpl in H; [discriminate|].
  destruct (extract_min t) as [[m t']|] eqn:E.
  - destruct (IH m t' eq_refl) as [Hp Hf].
    destruct (node_f m <? node_f a) eqn:Elt; injection H as <- <-.
    + apply Z.ltb_lt in Elt. split.
      * rewrite Hp. apply perm_swap.
      * constructor; [lia | exact Hf].
    + apply Z.ltb_ge in Elt. split; [reflexivity|].
      eapply Permutation_Forall; [symmetry; exact Hp|].
      constructor; [exact Elt|].
      eapply Forall_impl; [|exact Hf]. simpl. intros; lia.
  - injection H as <- <-. apply extract_min_none in E. subst t.
    split; [reflexivity | constructor].
Qed.

#[export] Instance ListQueue : MinQueue := {|
  queue := list Node;
  q_empty := [];
  q_push := fun n q => q ++ [n];
  q_pop := extract_min;
  q_elems := fun q => q;
  q_empty_elems := eq_refl;
  q_push_elems := fun n q => Permutation_sym (Permutation_cons_append q n);
  q_pop_none := extract_min_none;
  q_pop_some := extract_min_some
|}.

(** The texts of [currentMessage]. *)
Module Msg.
Import String.
Local Open Scope string_scope.
Definition none : string := EmptyString.
Definition dijkstra_no_path : string := "Dijkstra: No Path Found!".
Definition astar_no_path : string := "A*: No Path Found!".
End Msg.

(** Results of code that may loop or index a vector out of range. *)
Inductive outcome (A : Type) :=
| Returned (a : A)
| Undefined      (* a vector was indexed outside its bounds *)
| OutOfFuel.     (* the loop was still running when the fuel ran out *)
Arguments Returned {A} a.
Arguments Undefined {A}.
Arguments OutOfFuel {A}.

(** What a run leaves behind: the animation steps, the reconstructed path if
    the end was reached, and the message shown otherwise. *)
Record search_result := mkResult {
  trace : list AnimationStep;
  path : option (list coord);
  message : String.string
}.

(** ** The two search blocks

    The Dijkstra block (lines 177-275) and the A* block (lines 281-387) are the
    same code up to the key of the queue, the colour of the path and the
    message; the embedding takes the strategy as a parameter and follows the
    text of the blocks statement by statement.  [N], the start and the end are
    variables here; the program fixes them to 20, (0,0) and (19,19). *)

Section Search.
Context {PQ : MinQueue}.
Variable N : Z.
Variables startX startY endX endY : Z.
Variable wall : matrix bool.

(** [nx >= 0 && nx < N && ny >= 0 && ny < N] *)
Definition in_grid (x y : Z) : bool := (0 <=? x) && (x <? N) && (0 <=? y) && (y <? N).

Definition is_start (x y : Z) : bool := (x =? startX) && (y =? startY).
Definition is_end (x y : Z) : bool := (x =? endX) && (y =? endY).
(** [(x == startX && y == startY) || (x == endX && y == endY)] *)
Definition is_anchor (x y : Z) : bool := is_start x y || is_end x y.

(** [wall[y][x]] *)
Definition wall_at (x y : Z) : bool := mget false wall x y.

(** The A* heuristic: Chebyshev distance to the end, as a float. *)
Definition heuristic (x y : Z) : float :=
  float_of_int (Z.max (Z.abs (x - endX)) (Z.abs (y - endY))).

(** The key under which an entry of cost [g] at [(x, y)] is queued. *)
Definition priority (alg : algorithm) (g : float) (x y : Z) : float :=
  match alg with
  | Dijkstra => g
  | AStar => fadd g (heuristic x y)
  end.

Definition path_color (alg : algorithm) : color :=
  match alg with Dijkstra => Green | AStar => Magenta end.

Definition no_path_message (alg : algorithm) : String.string :=
  match alg with
  | Dijkstra => Msg.dijkstra_no_path
  | AStar => Msg.astar_no_path
  end.

(** Where control stands in the [while (!pq.empty())] loop: at its head, inside
    the [for] over the directions still to visit for the popped node, or past
    the loop. *)
Inductive control :=
| AtLoop
| InFor (node : Node) (dirs : list coord)
| Exited.

Record sstate := mkState {
  dist : matrix float;      (* [dist] / [g_cost] *)
  prev : matrix coord;
  pq : queue;
  steps : list AnimationStep;  (* [dijkstraAnimationSteps] / [astarAnimationSteps] *)
  pc : control
}.

Definition dist_at (s : sstate) (x y : Z) : float := mget 0 (dist s) x y.
Definition prev_at (s : sstate) (x y : Z) : coord := mget NO_PREV (prev s) x y.

(** The state on entry to the loop: fresh matrices, the start at cost zero and
    queued, and the start's "open" step recorded. *)
Definition init (alg : algorithm) : sstate :=
  {| dist := mset (mconst (Z.to_nat N) FLT_MAX) startX startY 0;
     prev := mconst (Z.to_nat N) NO_PREV;
     pq := q_push (mkNode (match alg with
                           | Dijkstra => 0
                           | AStar => heuristic startX startY
                           end) 0 startX startY) q_empty;
     steps := [mkStep (startX, startY) Cyan];
     pc := AtLoop |}.

(** The body of the [for] loop for one direction. *)
Definition relax (alg : algorithm) (node : Node) (dir : coord) (s : sstate) : sstate :=
  let cx := node_x node in
  let cy := node_y node in
  let nx := cx + fst dir in
  let ny := cy + snd dir in
  if in_grid nx ny && negb (wall_at nx ny) then
    let nd := fadd (node_g node) (moveCost dir) in
    if flt nd (dist_at s nx ny) then
      {| dist := mset (dist s) nx ny nd;
         prev := mset (prev s) nx ny (cx, cy);
         pq := q_push (mkNode (priority alg nd nx ny) nd nx ny) (pq s);
         steps := if is_anchor nx ny then steps s
                  else steps s ++ [mkStep (nx, ny) Cyan];
         pc := pc s |}
    else s
  else s.

(** The popped entry is stale: [cd > dist[cy][cx] + epsilon]. *)
Definition stale (s : sstate) (node : Node) : bool :=
  fgt (node_g node) (fadd (dist_at s (node_x node) (node_y node)) FLT_EPSILON).

(** One step of the loop: a pop with its staleness test, visit mark and goal
    test; one direction of the [for]; or the return to the loop head. *)
Definition step (alg : algorithm) (s : sstate) : sstate :=
  match pc s with
  | AtLoop =>
      match q_pop (pq s) with
      | None => mkState (dist s) (prev s) (pq s) (steps s) Exited
      | Some (node, q') =>
          let cx := node_x node in
          let cy := node_y node in
          if stale s node then mkState (dist s) (prev s) q' (steps s) AtLoop
          else
            let steps' := if is_anchor cx cy then steps s
                          else steps s ++ [mkStep (cx, cy) Grey] in
            if is_end cx cy then mkState (dist s) (prev s) q' steps' Exited
            else mkState (dist s) (prev s) q' steps' (InFor node directions)
      end
  | InFor node [] => mkState (dist s) (prev s) (pq s) (steps s) AtLoop
  | InFor node (d :: ds) =>
      let s' := relax alg node d s in
      mkState (dist s') (prev s') (pq s') (steps s') (InFor node ds)
  | Exited => s
  end.

(** The loop, run for at most [fuel] steps. *)
Fixpoint run_loop (alg : algorithm) (fuel : nat) (s : sstate) : option sstate :=
  match pc s with
  | Exited => Some s
  | _ => match fuel with
         | O => None
         | S f => run_loop alg f (step alg s)
         end
  end.

(** The state after [k] steps. *)
Fixpoint steps_from (alg : algorithm) (k : nat) (s : sstate) : sstate :=
  match k with
  | O => s
  | S j => steps_from alg j (step alg s)
  end.

(** [while (!(tx == startX && ty == startY)) { finalPath.emplace_back(tx, ty);
    p = prev[ty][tx]; tx = p.x; ty = p.y; }]
    The source puts no bound on this loop. *)
Fixpoint follow_prev (fuel : nat) (prv : matrix coord) (tx ty : Z)
    (finalPath : list coord) : outcome (list coord) :=
  match fuel with
  | O => OutOfFuel
  | S f =>
      if is_start tx ty then Returned finalPath
      else match mread prv tx ty with
           | None => Undefined
           | Some p => follow_prev f prv (fst p) (snd p) (finalPath ++ [(tx, ty)])
           end
  end.

(** Path reconstruction: follow the links from the end, add the start,
    reverse. *)
Definition reconstruct (fuel : nat) (prv : matrix coord) : outcome (list coord) :=
  match follow_prev fuel prv endX endY [] with
  | Returned fp => Returned (rev (fp ++ [(startX, startY)]))
  | Undefined => Undefined
  | OutOfFuel => OutOfFuel
  end.

(** The path's animation steps: every cell of the path but the anchors. *)
Definition path_steps (alg : algorithm) (finalPath : list coord) : list AnimationStep :=
  map (fun p => mkStep p (path_color alg))
      (filter (fun p => negb (is_anchor (fst p) (snd p))) finalPath).

(** The code after the loop: reconstruct and record the path when the end's
    cost is below [FLT_MAX], set the message otherwise. *)
Definition finish (alg : algorithm) (fuel : nat) (s : sstate) : outcome search_result :=
  if flt (dist_at s endX endY) FLT_MAX then
    match reconstruct fuel (prev s) with
    | Returned finalPath =>
        Returned (mkResult (steps s ++ path_steps alg finalPath) (Some finalPath) Msg.none)
    | Undefined => Undefined
    | OutOfFuel => OutOfFuel
    end
  else Returned (mkResult (steps s) None (no_path_message alg)).

(** A whole run of one strategy. *)
Definition search (alg : algorithm) (fuel : nat) : outcome search_result :=
  match run_loop alg fuel (init alg) with
  | Some s => finish alg fuel s
  | None => OutOfFuel
  end.

(** *** Basic facts about the grid

    From here on the grid has a side between 1 and 1024 and both anchors lie
    on it, as in the program. *)

Hypothesis HN : 0 < N <= 1024.
Hypothesis Hstart : in_grid startX startY = true.
Hypothesis Hend : in_grid endX endY = true.

Lemma in_grid_iff (x y : Z) : in_grid x y = true <-> 0 <= x < N /\ 0 <= y < N.
Proof.
  unfold in_grid. rewrite !andb_true_iff, !Z.leb_le, !Z.ltb_lt. lia.
Qed.

Lemma is_start_iff (x y : Z) : is_start x y = true <-> (x, y) = (startX, startY).
Proof.
  unfold is_start. rewrite andb_true_iff, !Z.eqb_eq.
  split; [intros [-> ->]; reflexivity | intros H; injection H; auto].
Qed.

Lemma is_end_iff (x y : Z) : is_end x y = true <-> (x, y) = (endX, endY).
Proof.
  unfold is_end. rewrite andb_true_iff, !Z.eqb_eq.
  split; [intros [-> ->]; reflexivity | intros H; injection H; auto].
Qed.

Lemma mget_set_same {A} (d : A) (m : matrix A) (x y : Z) (v : A) :
  wf_matrix (Z.to_nat N) m -> in_grid x y = true -> mget d (mset m x y v) x y = v.
Proof.
  intros Hwf Hin. apply in_grid_iff in Hin. unfold mget.
  rewrite (mread_mset_same (Z.to_nat N)); auto; lia.
Qed.

Lemma mget_set_other {A} (d : A) (m : matrix A) (x y : Z) (v : A) (x' y' : Z) :
  in_grid x y = true -> (x', y') <> (x, y) ->
  mget d (mset m x y v) x' y' = mget d m x' y'.
Proof.
  intros Hin Hne. apply in_grid_iff in Hin. unfold mget.
  rewrite mread_mset_other; auto; lia.
Qed.

Lemma mget_mread {A} (d : A) (m : matrix A) (x y : Z) :
  wf_matrix (Z.to_nat N) m -> in_grid x y = true -> mread m x y = Some (mget d m x y).
Proof.
  intros Hwf Hin. apply in_grid_iff in Hin. unfold mget.
  destruct (mread_wf (Z.to_nat N) m x y Hwf) as [v ->]; auto; lia.
Qed.

(** All the cells of the grid. *)
Definition zrange : list Z := map Z.of_nat (seq 0 (Z.to_nat N)).
Definition cells : list coord := list_prod zrange zrange.

Lemma in_zrange (z : Z) : In z zrange <-> 0 <= z < N.
Proof.
  unfold zrange. rewrite in_map_iff. split.
  - intros (k & <- & Hk). apply in_seq in Hk. lia.
  - intros Hz. exists (Z.to_nat z). split; [lia|]. apply in_seq. lia.
Qed.

Lemma in_cells (x y : Z) : In (x, y) cells <-> in_grid x y = true.
Proof.
  unfold cells. rewrite in_prod_iff, !in_zrange, in_grid_iff. reflexivity.
Qed.

Lemma length_cells : Z.of_nat (length cells) = N * N.
Proof.
  unfold cells, zrange, coord. rewrite length_prod, !length_map, !length_seq. nia.
Qed.

(** A cell has been reached when its cost is below [FLT_MAX]. *)
Definition finite_in (d : matrix float) (c : coord) : bool :=
  flt (mget 0 d (fst c) (snd c)) FLT_MAX.

Definition n_finite (d : matrix float) : Z := Z.of_nat (count (finite_in d) cells).

Lemma n_finite_bounds (d : matrix float) : 0 <= n_finite d <= N * N.
Proof.
  unfold n_finite. rewrite <- length_cells.
  pose proof (count_le_length (finite_in d) cells). lia.
Qed.

Section Lowering.
(** Lowering the cost of one cell of the grid. *)
Variables (d : matrix float) (nx ny : Z) (nd : float).
Hypothesis Hwf : wf_matrix (Z.to_nat N) d.
Hypothesis Hin : in_grid nx ny = true.
Hypothesis Hnd : nd < mget 0 d nx ny.
Hypothesis Hmax : mget 0 d nx ny <= FLT_MAX.

Lemma lower_le (x y : Z) : mget 0 (mset d nx ny nd) x y <= mget 0 d x y.
Proof.
  destruct (coord_eqb_spec (x, y) (nx, ny)) as [E|E].
  - injection E as -> ->. rewrite mget_set_same by assumption. lia.
  - rewrite mget_set_other by assumption. lia.
Qed.

Lemma lower_finite (c : coord) :
  finite_in d c = true -> finite_in (mset d nx ny nd) c = true.
Proof.
  unfold finite_in, flt. rewrite !Z.ltb_lt.
  pose proof (lower_le (fst c) (snd c)). lia.
Qed.

Lemma lower_n_finite : n_finite d <= n_finite (mset d nx ny nd).
Proof.
  unfold n_finite. apply inj_le. apply count_mono. intros c _. apply lower_finite.
Qed.

Lemma lower_n_finite_new :
  finite_in d (nx, ny) = false -> n_finite d + 1 <= n_finite (mset d nx ny nd).
Proof.
  intros Hnew. unfold n_finite.
  enough (count (finite_in d) cells < count (finite_in (mset d nx ny nd)) cells)%nat by lia.
  apply count_strict with (x := (nx, ny)).
  - intros c _. apply lower_finite.
  - apply in_cells. exact Hin.
  - exact Hnew.
  - unfold finite_in, flt. simpl. rewrite mget_set_same by assumption.
    apply Z.ltb_lt. lia.
Qed.

End Lowering.

(** *** The invariant of the loop *)

(** A cell a frontier entry may stand on: the start, or a cell without wall. *)
Definition open_cell (x y : Z) : Prop := is_start x y = true \/ wall_at x y = false.

(** A frontier entry is sound for the cost matrix [d]: it stands on an open
    cell of the grid, its cost is at least the recorded one, and its cost is
    at most two per cell reached so far. *)
Definition node_ok (d : matrix float) (n : Node) : Prop :=
  in_grid (node_x n) (node_y n) = true /\
  open_cell (node_x n) (node_y n) /\
  0 <= mget 0 d (node_x n) (node_y n) <= node_g n /\
  node_g n <= 2 * F_ONE * n_finite d.

(** [c] is one move away from [p]. *)
Definition neighbor (p c : coord) : Prop :=
  exists dir, In dir directions /\ fst c = fst p + fst dir /\ snd c = snd p + snd dir.

Definition not_anchor (e : AnimationStep) : Prop :=
  is_anchor (fst (step_coord e)) (snd (step_coord e)) = false.

(** The loop records "open" (cyan) and "visited" (grey) steps only. *)
Definition search_color (e : AnimationStep) : Prop :=
  step_color e = Cyan \/ step_color e = Grey.

Record Inv (s : sstate) : Prop := {
  inv_wf_dist : wf_matrix (Z.to_nat N) (dist s);
  inv_wf_prev : wf_matrix (Z.to_nat N) (prev s);
  inv_start : dist_at s startX startY = 0;
  inv_range : forall x y, in_grid x y = true -> 0 <= dist_at s x y <= FLT_MAX;
  inv_bound : forall x y, in_grid x y = true -> dist_at s x y < FLT_MAX ->
      dist_at s x y <= 2 * F_ONE * n_finite (dist s);
  inv_queue : Forall (node_ok (dist s)) (q_elems (pq s));
  inv_pc : match pc s with
           | InFor node dirs =>
               node_ok (dist s) node /\ incl dirs directions /\ stale s node = false
           | _ => True
           end;
  inv_prev : forall x y, in_grid x y = true -> is_start x y = false ->
      dist_at s x y < FLT_MAX ->
      let p := prev_at s x y in
      in_grid (fst p) (snd p) = true /\ open_cell (fst p) (snd p) /\
      wall_at x y = false /\ neighbor p (x, y) /\
      dist_at s (fst p) (snd p) < dist_at s x y;
  inv_steps : exists rest, steps s = mkStep (startX, startY) Cyan :: rest /\
      Forall not_anchor rest;
  inv_colors : Forall search_color (steps s)
}.

Lemma moveCost_bounds (dir : coord) :
  F_ONE <= moveCost dir /\ 2 * moveCost dir <= 3 * F_ONE.
Proof.
  pose proof cost_bounds. unfold moveCost. destruct (_ && _); lia.
Qed.

Lemma node_ok_lower (d : matrix float) (nx ny : Z) (nd : float) (n : Node) :
  wf_matrix (Z.to_nat N) d -> in_grid nx ny = true ->
  0 <= nd < mget 0 d nx ny -> mget 0 d nx ny <= FLT_MAX ->
  node_ok d n -> node_ok (mset d nx ny nd) n.
Proof.
  intros Hwf Hin Hnd Hmax (Hg & Ho & Hd & Hb).
  pose proof (lower_le d nx ny nd Hwf Hin ltac:(lia) (node_x n) (node_y n)) as Hle.
  pose proof (lower_n_finite d nx ny nd Hwf Hin ltac:(lia)) as Hnf.
  repeat split; auto; try lia.
  - destruct (coord_eqb_spec (node_x n, node_y n) (nx, ny)) as [E|E].
    + injection E as -> ->. rewrite mget_set_same by assumption. lia.
    + rewrite mget_set_other by assumption. lia.
  - unfold F_ONE in *. lia.
Qed.

Lemma init_inv (alg : algorithm) : Inv (init alg).
Proof.
  assert (Hs := proj1 (in_grid_iff _ _) Hstart).
  assert (Hwf : wf_matrix (Z.to_nat N) (mconst (Z.to_nat N) FLT_MAX)) by apply mconst_wf.
  assert (Hd0 : forall x y, in_grid x y = true ->
            mget 0 (mconst (Z.to_nat N) FLT_MAX) x y = FLT_MAX).
  { intros x y Hxy. apply in_grid_iff in Hxy. unfold mget.
    rewrite mread_mconst by lia. reflexivity. }
  assert (Hst : mget 0 (mset (mconst (Z.to_nat N) FLT_MAX) startX startY 0)
                  startX startY = 0) by (apply mget_set_same; assumption).
  assert (Hnf : 1 <= n_finite (mset (mconst (Z.to_nat N) FLT_MAX) startX startY 0)).
  { assert (Hfin : finite_in (mconst (Z.to_nat N) FLT_MAX) (startX, startY) = false).
    { unfold finite_in, flt. simpl. rewrite Hd0 by assumption. apply Z.ltb_irrefl. }
    assert (H0 : 0 < mget 0 (mconst (Z.to_nat N) FLT_MAX) startX startY)
      by (rewrite Hd0 by assumption; unfold FLT_MAX; lia).
    assert (H1 : mget 0 (mconst (Z.to_nat N) FLT_MAX) startX startY <= FLT_MAX)
      by (rewrite Hd0 by assumption; lia).
    pose proof (lower_n_finite_new _ startX startY 0 Hwf Hstart H0 H1 Hfin).
    pose proof (n_finite_bounds (mconst (Z.to_nat N) FLT_MAX)). lia. }
  constructor; unfold dist_at, prev_at, init; cbn [dist prev pq steps pc].
  - apply wf_mset. exact Hwf.
  - apply mconst_wf.
  - exact Hst.
  - intros x y Hxy.
    destruct (coord_eqb_spec (x, y) (startX, startY)) as [E|E].
    + injection E as -> ->. rewrite Hst. unfold FLT_MAX. lia.
    + rewrite mget_set_other, Hd0 by assumption. unfold FLT_MAX. lia.
  - intros x y Hxy.
    destruct (coord_eqb_spec (x, y) (startX, startY)) as [E|E].
    + injection E as -> ->. rewrite Hst. unfold F_ONE. lia.
    + rewrite mget_set_other, Hd0 by assumption. lia.
  - eapply Permutation_Forall; [symmetry; apply q_push_elems|].
    constructor; [|rewrite q_empty_elems; constructor].
    unfold node_ok. cbn [node_x node_y node_g]. rewrite Hst.
    repeat split; auto; try lia.
    + left. apply is_start_iff. reflexivity.
    + unfold F_ONE. lia.
  - exact I.
  - intros x y Hxy Hns.
    rewrite mget_set_other, Hd0; auto; [lia|].
    intros E. apply is_start_iff in E. congruence.
  - exists []. split; [reflexivity | constructor].
  - constructor; [left; reflexivity | constructor].
Qed.

Lemma node_cost_small (d : matrix float) (n : Node) :
  node_ok d n -> 0 <= node_g n /\ node_g n < (2 ^ 24 - 1) * F_ONE.
Proof.
  intros (_ & _ & Hd & Hb). pose proof (n_finite_bounds d).
  assert (N * N <= 1024 * 1024) by nia.
  change (2 ^ 24) with 16777216. unfold F_ONE in *. lia.
Qed.

(** One direction of the [for] loop keeps the invariant. *)
Lemma relax_inv (alg : algorithm) (s : sstate) (node : Node) (dir : coord) (ds : list coord) :
  Inv s -> pc s = InFor node (dir :: ds) ->
  let s' := relax alg node dir s in
  Inv (mkState (dist s') (prev s') (pq s') (steps s') (InFor node ds)).
Proof.
  intros HI Hpc.
  destruct HI as [Hwd Hwp Hst Hrg Hbd Hq Hp Hpv Hsteps Hcol].
  rewrite Hpc in Hp. destruct Hp as (Hnode & Hincl & Hfresh).
  assert (Hdir : In dir directions) by (apply Hincl; left; reflexivity).
  assert (Hincl' : incl ds directions) by (intros a Ha; apply Hincl; right; exact Ha).
  unfold relax. cbv zeta.
  set (nx := node_x node + fst dir). set (ny := node_y node + snd dir).
  set (nd := fadd (node_g node) (moveCost dir)).
  destruct (in_grid nx ny && negb (wall_at nx ny)) eqn:Hguard;
    [|constructor; cbn [dist prev pq steps pc]; auto].
  destruct (flt nd (dist_at s nx ny)) eqn:Hlt;
    [|constructor; cbn [dist prev pq steps pc]; auto].
  apply andb_true_iff in Hguard. destruct Hguard as [Hin Hwall].
  apply negb_true_iff in Hwall. unfold flt in Hlt. apply Z.ltb_lt in Hlt.
  unfold dist_at, prev_at in *.
  destruct (node_cost_small _ _ Hnode) as [Hcd0 Hcd1].
  destruct (moveCost_bounds dir) as [Hmc0 Hmc1].
  destruct (fadd_step (node_g node) (moveCost dir) Hcd0 Hcd1 Hmc0 Hmc1) as [Hgrow Herr].
  fold nd in Hgrow, Herr.
  pose proof (Hrg nx ny Hin) as Hrn.
  assert (Hnd : 0 <= nd < mget 0 (dist s) nx ny) by lia.
  assert (Hle := lower_le (dist s) nx ny nd Hwd Hin ltac:(lia)).
  assert (Hnf := lower_n_finite (dist s) nx ny nd Hwd Hin ltac:(lia)).
  assert (Hsame : mget 0 (mset (dist s) nx ny nd) nx ny = nd)
    by (apply mget_set_same; assumption).
  assert (Hnew : nd <= 2 * F_ONE * n_finite (mset (dist s) nx ny nd)).
  { destruct (finite_in (dist s) (nx, ny)) eqn:Hf.
    - unfold finite_in, flt in Hf. apply Z.ltb_lt in Hf. simpl in Hf.
      pose proof (Hbd nx ny Hin Hf). unfold F_ONE in *. lia.
    - pose proof (lower_n_finite_new (dist s) nx ny nd Hwd Hin ltac:(lia) ltac:(lia) Hf).
      destruct Hnode as (_ & _ & _ & Hb).
      pose proof (n_finite_bounds (dist s)).
      assert (N * N <= 1024 * 1024) by nia.
      change (2 ^ 24) with 16777216 in *. unfold F_ONE in *. lia. }
  assert (Hns : (startX, startY) <> (nx, ny)).
  { intros E. injection E as E1 E2. rewrite <- E1, <- E2 in Hnd. lia. }
  constructor; unfold dist_at, prev_at; cbn [dist prev pq steps pc].
  - apply wf_mset; assumption.
  - apply wf_mset; assumption.
  - rewrite mget_set_other by assumption. exact Hst.
  - intros x y Hxy. pose proof (Hrg x y Hxy). pose proof (Hle x y).
    destruct (coord_eqb_spec (x, y) (nx, ny)) as [E|E].
    + injection E as -> ->. rewrite Hsame. lia.
    + rewrite mget_set_other by assumption. lia.
  - intros x y Hxy.
    destruct (coord_eqb_spec (x, y) (nx, ny)) as [E|E].
    + injection E as -> ->. rewrite Hsame. intros _. exact Hnew.
    + rewrite mget_set_other by assumption. intros Hf.
      pose proof (Hbd x y Hxy Hf). unfold F_ONE in *. lia.
  - eapply Permutation_Forall; [symmetry; apply q_push_elems|].
    constructor.
    + unfold node_ok. cbn [node_x node_y node_g]. rewrite Hsame.
      repeat split; auto; try lia. right. exact Hwall.
    + eapply Forall_impl; [|exact Hq]. intros m Hm.
      apply node_ok_lower; auto; lia.
  - split; [apply node_ok_lower; auto; lia|]. split; [exact Hincl'|].
    unfold stale, dist_at in *. cbn [dist].
    rewrite mget_set_other; [exact Hfresh | exact Hin |].
    intros E. injection E as E1 E2. destruct Hnode as (_ & _ & Hd & _).
    rewrite E1, E2 in Hd. lia.
  - intros x y Hxy Hnst.
    destruct (coord_eqb_spec (x, y) (nx, ny)) as [E|E].
    + injection E as -> ->. rewrite Hsame. intros _.
      rewrite mget_set_same by assumption. cbn [fst snd].
      destruct Hnode as (Hg & Ho & Hd & Hb).
      repeat split; auto.
      * exists dir. repeat split; auto.
      * pose proof (Hle (node_x node) (node_y node)). lia.
    + rewrite !mget_set_other by assumption. intros Hf.
      destruct (Hpv x y Hxy Hnst Hf) as (H1 & H2 & H3 & H4 & H5).
      repeat split; auto.
      pose proof (Hle (fst (mget NO_PREV (prev s) x y))
                      (snd (mget NO_PREV (prev s) x y))). lia.
  - destruct Hsteps as (rest & Hrest & Hall).
    destruct (is_anchor nx ny) eqn:Ha; [eauto|].
    exists (rest ++ [mkStep (nx, ny) Cyan]). split.
    + rewrite Hrest. reflexivity.
    + apply Forall_app. split; [exact Hall|]. constructor; [exact Ha | constructor].
  - destruct (is_anchor nx ny); [exact Hcol|].
    apply Forall_app. split; [exact Hcol|].
    constructor; [left; reflexivity | constructor].
Qed.

Lemma step_inv (alg : algorithm) (s : sstate) : Inv s -> Inv (step alg s).
Proof.
  intros HI. unfold step.
  destruct (pc s) as [|node [|d ds]|] eqn:Hpc.
  - destruct (q_pop (pq s)) as [[node q']|] eqn:Hpop.
    + destruct (q_pop_some _ _ _ Hpop) as [Hperm _].
      destruct HI as [Hwd Hwp Hst Hrg Hbd Hq Hp Hpv Hsteps Hcol].
      assert (Hcol' : Forall search_color
                 (if is_anchor (node_x node) (node_y node) then steps s
                  else steps s ++ [mkStep (node_x node, node_y node) Grey])).
      { destruct (is_anchor (node_x node) (node_y node)); [exact Hcol|].
        apply Forall_app. split; [exact Hcol|].
        constructor; [right; reflexivity | constructor]. }
      assert (Hq' : Forall (node_ok (dist s)) (node :: q_elems q'))
        by (eapply Permutation_Forall; eauto).
      inversion Hq' as [|? ? Hnode Hrest]; subst.
      assert (Hsteps' : exists rest,
                 (if is_anchor (node_x node) (node_y node) then steps s
                  else steps s ++ [mkStep (node_x node, node_y node) Grey])
                 = mkStep (startX, startY) Cyan :: rest /\ Forall not_anchor rest).
      { destruct Hsteps as (rest & Hrest' & Hall).
        destruct (is_anchor (node_x node) (node_y node)) eqn:Ha; [eauto|].
        exists (rest ++ [mkStep (node_x node, node_y node) Grey]). split.
        - rewrite Hrest'. reflexivity.
        - apply Forall_app. split; [exact Hall|].
          constructor; [exact Ha | constructor]. }
      destruct (stale s node) eqn:Hstale;
        [constructor; cbn [dist prev pq steps pc]; auto|].
      destruct (is_end (node_x node) (node_y node));
        constructor; unfold stale; cbn [dist prev pq steps pc]; auto.
      split; [exact Hnode|]. split; [apply incl_refl | exact Hstale].
    + destruct HI. constructor; cbn [dist prev pq steps pc]; auto.
  - destruct HI. constructor; cbn [dist prev pq steps pc]; auto.
  - apply relax_inv; assumption.
  - exact HI.
Qed.

Lemma steps_from_inv (alg : algorithm) (k : nat) (s : sstate) :
  Inv s -> Inv (steps_from alg k s).
Proof.
  revert s. induction k as [|k IH]; intros s HI; simpl; [exact HI|].
  apply IH. apply step_inv. exact HI.
Qed.

Lemma run_loop_inv (alg : algorithm) (fuel : nat) (s s' : sstate) :
  Inv s -> run_loop alg fuel s = Some s' -> Inv s' /\ pc s' = Exited.
Proof.
  revert s. induction fuel as [|f IH]; intros s HI H; simpl in H.
  - destruct (pc s) eqn:Hpc; try discriminate. injection H as <-. auto.
  - destruct (pc s) eqn:Hpc; try (apply (IH _ (step_inv alg s HI) H)).
    injection H as <-. auto.
Qed.

(** More fuel does not change the outcome of the loop. *)
Lemma run_loop_more (alg : algorithm) (fuel k : nat) (s s' : sstate) :
  run_loop alg fuel s = Some s' -> run_loop alg (fuel + k) s = Some s'.
Proof.
  revert s. induction fuel as [|f IH]; intros s H; simpl in H.
  - destruct (pc s) eqn:Hpc; try discriminate.
    destruct k; simpl; rewrite Hpc; exact H.
  - simpl. destruct (pc s) eqn:Hpc; auto.
Qed.

(** *** Termination of the loop

    Each step lowers the measure below: a relaxation lowers a cost (an
    integer number of units) and adds one entry, a pop removes one entry, and
    the [for] loop consumes its directions. *)

Definition pc_weight (c : control) : Z :=
  match c with
  | Exited => 0
  | AtLoop => 1
  | InFor _ ds => 2 + Z.of_nat (length ds)
  end.

Definition measure (s : sstate) : Z :=
  20 * msum (dist s) + 10 * Z.of_nat (length (q_elems (pq s))) + pc_weight (pc s).

Lemma zsum_nonneg (l : list Z) : Forall (fun v => 0 <= v) l -> 0 <= zsum l.
Proof. induction 1; simpl; lia. Qed.

Lemma msum_nonneg (m : matrix Z) :
  wf_matrix (Z.to_nat N) m ->
  (forall x y, in_grid x y = true -> 0 <= mget 0 m x y) -> 0 <= msum m.
Proof.
  intros [Hl Hr] Hpos. unfold msum. apply zsum_nonneg.
  apply Forall_map. apply Forall_forall. intros row Hrow.
  apply zsum_nonneg. apply Forall_forall. intros v Hv.
  destruct (In_nth_error _ _ Hrow) as [y Hy].
  destruct (In_nth_error _ _ Hv) as [x Hx].
  assert (Hyl : (y < length m)%nat) by (apply nth_error_Some; congruence).
  assert (Hxl : (x < length row)%nat) by (apply nth_error_Some; congruence).
  rewrite Forall_forall in Hr. rewrite (Hr row Hrow) in Hxl.
  specialize (Hpos (Z.of_nat x) (Z.of_nat y)).
  unfold mget, mread in Hpos.
  destruct (Z.of_nat x <? 0) eqn:E1; [apply Z.ltb_lt in E1; lia|].
  destruct (Z.of_nat y <? 0) eqn:E2; [apply Z.ltb_lt in E2; lia|].
  simpl in Hpos. rewrite !Nat2Z.id, Hy, Hx in Hpos.
  apply Hpos. apply in_grid_iff. lia.
Qed.

Lemma measure_nonneg (s : sstate) : Inv s -> 0 <= measure s.
Proof.
  intros HI. unfold measure.
  assert (0 <= msum (dist s)).
  { apply msum_nonneg; [apply HI|]. intros x y Hxy. apply (inv_range s HI x y Hxy). }
  assert (0 <= pc_weight (pc s)) by (destruct (pc s); cbn [pc_weight]; lia).
  lia.
Qed.

Lemma step_measure (alg : algorithm) (s : sstate) :
  Inv s -> pc s <> Exited -> measure (step alg s) < measure s.
Proof.
  intros HI Hne. unfold step, measure.
  destruct (pc s) as [|node [|d ds]|] eqn:Hpc; [| | |congruence].
  - destruct (q_pop (pq s)) as [[node q']|] eqn:Hpop.
    + destruct (q_pop_some _ _ _ Hpop) as [Hperm _].
      apply Permutation_length in Hperm. simpl in Hperm.
      destruct (stale s node); [cbn [dist prev pq steps pc pc_weight]; lia|].
      destruct (is_end (node_x node) (node_y node));
        cbn [dist prev pq steps pc pc_weight]; simpl length; lia.
    + cbn [dist prev pq steps pc pc_weight]. lia.
  - cbn [dist prev pq steps pc pc_weight]. simpl length. lia.
  - cbn [dist prev pq steps pc pc_weight].
    unfold relax. cbv zeta.
    set (nx := node_x node + fst d). set (ny := node_y node + snd d).
    set (nd := fadd (node_g node) (moveCost d)).
    destruct (in_grid nx ny && negb (wall_at nx ny)) eqn:Hguard;
      [|simpl length; lia].
    destruct (flt nd (dist_at s nx ny)) eqn:Hlt; [|simpl length; lia].
    apply andb_true_iff in Hguard. destruct Hguard as [Hin _].
    unfold flt in Hlt. apply Z.ltb_lt in Hlt. unfold dist_at in Hlt.
    cbn [dist prev pq steps pc].
    rewrite (msum_mset (dist s) nx ny (mget 0 (dist s) nx ny) nd)
      by (apply mget_mread; [apply HI | exact Hin]).
    pose proof (Permutation_length (q_push_elems
      (mkNode (priority alg nd nx ny) nd nx ny) (pq s))) as Hlen.
    simpl in Hlen. simpl length. lia.
Qed.

Lemma run_loop_terminates (alg : algorithm) (fuel : nat) (s : sstate) :
  Inv s -> measure s < Z.of_nat fuel -> exists s', run_loop alg fuel s = Some s'.
Proof.
  revert s. induction fuel as [|f IH]; intros s HI Hm.
  - pose proof (measure_nonneg s HI). lia.
  - simpl. destruct (pc s) eqn:Hpc; eauto.
    + apply IH; [apply step_inv; exact HI|].
      pose proof (step_measure alg s HI ltac:(congruence)). lia.
    + apply IH; [apply step_inv; exact HI|].
      pose proof (step_measure alg s HI ltac:(congruence)). lia.
Qed.

(** The loop of either strategy terminates. *)
Lemma loop_terminates (alg : algorithm) :
  exists fuel s, run_loop alg fuel (init alg) = Some s /\ Inv s /\ pc s = Exited.
Proof.
  destruct (run_loop_terminates alg (S (Z.to_nat (measure (init alg)))) (init alg))
    as [s Hs]; [apply init_inv | lia |].
  exists (S (Z.to_nat (measure (init alg)))), s. split; [exact Hs|].
  eapply run_loop_inv; [apply init_inv | exact Hs].
Qed.

(** *** Path reconstruction on the state left by the loop *)

(** A move from [p] onto [c]: one of the eight directions, onto a cell of the
    grid that is not a wall. *)
Definition move_ok (p c : coord) : Prop :=
  neighbor p c /\ in_grid (fst c) (snd c) = true /\ wall_at (fst c) (snd c) = false.

Fixpoint is_path (l : list coord) : Prop :=
  match l with
  | [] => True
  | a :: t => match t with
              | [] => True
              | b :: _ => move_ok a b /\ is_path t
              end
  end.

(** The cells the reconstruction collects from [t] on: [t], its predecessor,
    and so on down to, and without, the start. *)
Inductive links (s : sstate) : coord -> list coord -> Prop :=
| links_start : links s (startX, startY) []
| links_step : forall t l,
    t <> (startX, startY) ->
    move_ok (prev_at s (fst t) (snd t)) t ->
    links s (prev_at s (fst t) (snd t)) l ->
    links s t (t :: l).

(** The number of cells recorded cheaper than [t]. *)
Definition rank (s : sstate) (t : coord) : nat :=
  count (fun c => dist_at s (fst c) (snd c) <? dist_at s (fst t) (snd t)) cells.

Lemma count_all {A} (l : list A) : count (fun _ => true) l = length l.
Proof. unfold count. induction l; simpl; auto. Qed.

Lemma rank_lt_cells (s : sstate) (t : coord) :
  in_grid (fst t) (snd t) = true -> (rank s t < length cells)%nat.
Proof.
  intros Hin. rewrite <- (count_all cells). unfold rank.
  apply count_strict with (x := t); auto.
  - destruct t. apply in_cells. exact Hin.
  - apply Z.ltb_irrefl.
Qed.

Lemma follow_prev_links (s : sstate) (fuel : nat) :
  Inv s -> forall tx ty acc,
  in_grid tx ty = true -> dist_at s tx ty < FLT_MAX ->
  (rank s (tx, ty) < fuel)%nat ->
  exists l, follow_prev fuel (prev s) tx ty acc = Returned (acc ++ l) /\
            links s (tx, ty) l /\ (length l <= rank s (tx, ty))%nat.
Proof.
  intros HI. induction fuel as [|f IH]; intros tx ty acc Hin Hfin Hrank; [lia|].
  cbn [follow_prev]. destruct (is_start tx ty) eqn:Hs.
  - exists []. rewrite app_nil_r. apply is_start_iff in Hs. rewrite Hs.
    repeat split; [constructor | simpl; lia].
  - rewrite (mget_mread NO_PREV (prev s) tx ty (inv_wf_prev s HI) Hin).
    destruct (inv_prev s HI tx ty Hin Hs Hfin) as (Hpin & Hpo & Hw & Hnb & Hlt).
    fold (prev_at s tx ty). set (p := prev_at s tx ty) in *.
    assert (Hrk : (rank s p < rank s (tx, ty))%nat).
    { unfold rank. apply count_strict with (x := p).
      - intros c _. rewrite !Z.ltb_lt. simpl. lia.
      - destruct p. apply in_cells. exact Hpin.
      - apply Z.ltb_irrefl.
      - apply Z.ltb_lt. simpl. lia. }
    destruct (IH (fst p) (snd p) (acc ++ [(tx, ty)]) Hpin ltac:(lia)) as (l & Hl & Hlk & Hlen).
    { destruct p; simpl. lia. }
    exists ((tx, ty) :: l). rewrite Hl, <- app_assoc. simpl.
    repeat split.
    + apply links_step.
      * intros E. apply is_start_iff in E. congruence.
      * repeat split; auto.
      * simpl. fold p. destruct p; exact Hlk.
    + destruct p; simpl in *; lia.
Qed.

Lemma is_path_snoc (l : list coord) (a b : coord) :
  is_path (l ++ [a]) -> move_ok a b -> is_path ((l ++ [a]) ++ [b]).
Proof.
  induction l as [|h t IH]; intros Hp Hm; simpl in *; [auto|].
  destruct (t ++ [a]) as [|c u] eqn:E; [destruct t; discriminate|].
  simpl in *. destruct Hp as [H1 H2]. split; [exact H1|]. apply IH; auto.
Qed.

(** The reversed chain is a path from the start to the cell it was followed
    from. *)
Lemma links_path (s : sstate) (t : coord) (l : list coord) :
  links s t l ->
  exists q, rev (l ++ [(startX, startY)]) = q ++ [t] /\ is_path (q ++ [t]) /\
            hd_error (q ++ [t]) = Some (startX, startY).
Proof.
  induction 1 as [|t l Hne Hmv Hl IH].
  - exists []. simpl. auto.
  - destruct IH as (q & Hq & Hp & Hh).
    exists (q ++ [prev_at s (fst t) (snd t)]).
    simpl. simpl in Hq. rewrite Hq. repeat split.
    + apply is_path_snoc; assumption.
    + destruct q; simpl in *; exact Hh.
Qed.

(** A reconstructed path: from the start to the end, by legal moves. *)
Definition path_from_start_to_end (l : list coord) : Prop :=
  hd_error l = Some (startX, startY) /\ last l (startX, startY) = (endX, endY) /\
  is_path l.

(** On the state left by the loop, with the end reached, the reconstruction
    returns within [N * N] tests of its loop condition, with a path from the
    start to the end of at most [N * N] cells. *)
Lemma reconstruct_returns (s : sstate) :
  Inv s -> dist_at s endX endY < FLT_MAX ->
  exists finalPath,
    reconstruct (Z.to_nat (N * N)) (prev s) = Returned finalPath /\
    path_from_start_to_end finalPath /\ Z.of_nat (length finalPath) <= N * N.
Proof.
  intros HI Hfin.
  pose proof (rank_lt_cells s (endX, endY) Hend) as Hrk.
  pose proof length_cells as Hlc.
  destruct (follow_prev_links s (Z.to_nat (N * N)) HI endX endY [] Hend Hfin ltac:(lia))
    as (l & Hl & Hlk & Hlen).
  unfold reconstruct. rewrite Hl. simpl.
  destruct (links_path s _ _ Hlk) as (q & Hq & Hp & Hh).
  exists (rev (l ++ [(startX, startY)])). split; [reflexivity|].
  split.
  - rewrite Hq. repeat split; auto. apply last_last.
  - rewrite length_rev, length_app. simpl. lia.
Qed.

Lemma follow_prev_more (fuel k : nat) (prv : matrix coord) (tx ty : Z)
    (acc r : list coord) :
  follow_prev fuel prv tx ty acc = Returned r ->
  follow_prev (fuel + k) prv tx ty acc = Returned r.
Proof.
  revert tx ty acc. induction fuel as [|f IH]; intros tx ty acc H; simpl in *;
    [discriminate|].
  destruct (is_start tx ty); [exact H|].
  destruct (mread prv tx ty); [|discriminate]. apply IH. exact H.
Qed.

Lemma reconstruct_more (fuel k : nat) (prv : matrix coord) (r : list coord) :
  reconstruct fuel prv = Returned r -> reconstruct (fuel + k) prv = Returned r.
Proof.
  unfold reconstruct. intros H.
  destruct (follow_prev fuel prv endX endY []) as [fp| |] eqn:E; try discriminate.
  rewrite (follow_prev_more _ k _ _ _ _ _ E). exact H.
Qed.

(** *** Whole runs *)

Lemma run_loop_steps_from (alg : algorithm) (fuel : nat) (s s' : sstate) :
  run_loop alg fuel s = Some s' -> exists k, s' = steps_from alg k s.
Proof.
  revert s. induction fuel as [|f IH]; intros s H; simpl in H.
  - destruct (pc s); try discriminate. injection H as <-. exists O. reflexivity.
  - destruct (pc s) eqn:Hpc.
    + destruct (IH _ H) as [k ->]. exists (S k). reflexivity.
    + destruct (IH _ H) as [k ->]. exists (S k). reflexivity.
    + injection H as <-. exists O. reflexivity.
Qed.

Lemma finish_more (alg : algorithm) (fuel k : nat) (s : sstate) (r : search_result) :
  finish alg fuel s = Returned r -> finish alg (fuel + k) s = Returned r.
Proof.
  unfold finish. destruct (flt (dist_at s endX endY) FLT_MAX); [|auto].
  destruct (reconstruct fuel (prev s)) as [p| |] eqn:E; try discriminate.
  rewrite (reconstruct_more _ k _ _ E). auto.
Qed.

Lemma search_more (alg : algorithm) (fuel k : nat) (r : search_result) :
  search alg fuel = Returned r -> search alg (fuel + k) = Returned r.
Proof.
  unfold search. destruct (run_loop alg fuel (init alg)) as [s|] eqn:E; [|discriminate].
  rewrite (run_loop_more _ _ k _ _ E). apply finish_more.
Qed.

(** The result of a run does not depend on the fuel it was given. *)
Lemma search_deterministic (alg : algorithm) (f1 f2 : nat) (r1 r2 : search_result) :
  search alg f1 = Returned r1 -> search alg f2 = Returned r2 -> r1 = r2.
Proof.
  intros H1 H2. apply (search_more _ _ f2) in H1. apply (search_more _ _ f1) in H2.
  rewrite Nat.add_comm in H2. congruence.
Qed.

(** Every run returns: the loop terminates and so does the reconstruction. *)
Lemma search_returns (alg : algorithm) :
  exists fuel s r,
    run_loop alg fuel (init alg) = Some s /\ Inv s /\ pc s = Exited /\
    finish alg fuel s = Returned r /\ search alg fuel = Returned r.
Proof.
  destruct (loop_terminates alg) as (f0 & s & Hrun & HI & Hpc).
  set (f1 := Z.to_nat (N * N)).
  assert (Hrun' := run_loop_more alg f0 f1 _ _ Hrun).
  assert (Hfin : exists r, finish alg (f0 + f1) s = Returned r).
  { unfold finish. destruct (flt (dist_at s endX endY) FLT_MAX) eqn:E; [|eauto].
    apply Z.ltb_lt in E.
    destruct (reconstruct_returns s HI E) as (p & Hp & _).
    apply (reconstruct_more _ f0) in Hp. fold f1 in Hp.
    rewrite Nat.add_comm in Hp. rewrite Hp. eauto. }
  destruct Hfin as [r Hr].
  exists (f0 + f1)%nat, s, r.
  split; [exact Hrun'|]. split; [exact HI|]. split; [exact Hpc|]. split; [exact Hr|].
  unfold search. rewrite Hrun'. exact Hr.
Qed.

(** *** The end enclosed by walls *)

(** Every cell of the grid next to the end is a wall. *)
Definition end_enclosed : Prop :=
  forall dir, In dir directions ->
    in_grid (endX + fst dir) (endY + snd dir) = true ->
    wall_at (endX + fst dir) (endY + snd dir) = true.

Lemma directions_opposite (dir : coord) :
  In dir directions -> In (- fst dir, - snd dir) directions.
Proof.
  unfold directions. simpl.
  intros H; repeat (destruct H as [<-|H]; [simpl; tauto|]). destruct H.
Qed.

Section Enclosed.
Hypothesis Henc : end_enclosed.
Hypothesis Hdistinct : (startX, startY) <> (endX, endY).
Hypothesis Hopen : wall_at startX startY = false.

Lemma enclosed_step (alg : algorithm) (s : sstate) :
  Inv s -> dist_at s endX endY = FLT_MAX -> dist_at (step alg s) endX endY = FLT_MAX.
Proof.
  intros HI He. unfold step.
  destruct (pc s) as [|node [|d ds]|] eqn:Hpc; auto.
  - destruct (q_pop (pq s)) as [[node q']|]; auto.
    destruct (stale s node); auto.
    destruct (is_end (node_x node) (node_y node)); auto.
  - pose proof (inv_pc s HI) as Hp. rewrite Hpc in Hp.
    destruct Hp as ((Hg & Ho & _) & Hincl & _).
    assert (Hd : In d directions) by (apply Hincl; left; reflexivity).
    unfold relax. cbv zeta.
    destruct (in_grid (node_x node + fst d) (node_y node + snd d) &&
              negb (wall_at (node_x node + fst d) (node_y node + snd d))) eqn:Hguard; auto.
    destruct (flt _ _); auto.
    apply andb_true_iff in Hguard. destruct Hguard as [Hin Hw].
    apply negb_true_iff in Hw.
    unfold dist_at in *. cbn [dist].
    rewrite mget_set_other; auto.
    intros E. injection E as E1 E2.
    pose proof (Henc _ (directions_opposite d Hd)) as H. cbn [fst snd] in H.
    assert (Ex : endX + - fst d = node_x node) by lia.
    assert (Ey : endY + - snd d = node_y node) by lia.
    rewrite Ex, Ey in H.
    specialize (H Hg). destruct Ho as [Ho|Ho]; [|congruence].
    apply is_start_iff in Ho. injection Ho as Hx Hy. rewrite Hx, Hy in H. congruence.
Qed.

Lemma enclosed_steps_from (alg : algorithm) (k : nat) :
  dist_at (steps_from alg k (init alg)) endX endY = FLT_MAX.
Proof.
  assert (H : forall s, Inv s -> dist_at s endX endY = FLT_MAX ->
                dist_at (steps_from alg k s) endX endY = FLT_MAX).
  { induction k as [|k IH]; intros s HI He; simpl; auto.
    apply IH; [apply step_inv; exact HI | apply enclosed_step; assumption]. }
  apply H; [apply init_inv|].
  unfold dist_at, init. cbn [dist].
  rewrite mget_set_other by (auto; congruence).
  apply in_grid_iff in Hend. unfold mget. rewrite mread_mconst by lia. reflexivity.
Qed.

End Enclosed.

(** *** The trace of a run *)

Lemma path_steps_not_anchor (alg : algorithm) (p : list coord) :
  Forall not_anchor (path_steps alg p).
Proof.
  unfold path_steps. apply Forall_map. apply Forall_forall. intros c Hc.
  apply filter_In in Hc. destruct Hc as [_ Hc]. apply negb_true_iff in Hc.
  unfold not_anchor. simpl. exact Hc.
Qed.

Lemma finish_trace (alg : algorithm) (fuel : nat) (s : sstate) (r : search_result) :
  finish alg fuel s = Returned r ->
  exists extra, trace r = steps s ++ extra /\ Forall not_anchor extra /\
    (path r = None -> extra = [] /\ message r = no_path_message alg).
Proof.
  unfold finish. destruct (flt (dist_at s endX endY) FLT_MAX).
  - destruct (reconstruct fuel (prev s)) as [p| |]; try discriminate.
    intros H; injection H as <-. simpl. exists (path_steps alg p).
    split; [reflexivity|]. split; [apply path_steps_not_anchor | discriminate].
  - intros H; injection H as <-. simpl. exists []. rewrite app_nil_r. auto.
Qed.

(** C2 (amended).  Every run of either strategy returns, and its trace is the
    "open" step of the start followed by steps none of which is at the start
    or at the end; when the two anchors differ, the end is in no step of the
    trace.  (The claim without the exception fails: the first step of every
    trace is at the start.) *)
Theorem trace_anchors_only_first (alg : algorithm) :
  exists fuel r,
    search alg fuel = Returned r /\
    (forall fuel' r', search alg fuel' = Returned r' -> r' = r) /\
    exists rest,
      trace r = mkStep (startX, startY) Cyan :: rest /\
      Forall not_anchor rest /\
      ((startX, startY) <> (endX, endY) ->
       Forall (fun e => step_coord e <> (endX, endY)) (trace r)).
Proof.
  destruct (search_returns alg) as (fuel & s & r & Hrun & HI & Hpc & Hfin & Hs).
  exists fuel, r. split; [exact Hs|]. split.
  { intros f' r' H'. eapply search_deterministic; eauto. }
  destruct (finish_trace _ _ _ _ Hfin) as (extra & Htr & Hextra & _).
  destruct (inv_steps s HI) as (rest & Hrest & Hall).
  exists (rest ++ extra).
  assert (Hna : Forall not_anchor (rest ++ extra))
    by (apply Forall_app; split; assumption).
  split; [rewrite Htr, Hrest; reflexivity|]. split; [exact Hna|].
  intros Hne. rewrite Htr, Hrest. simpl. constructor.
  - simpl. congruence.
  - eapply Forall_impl; [|exact Hna]. intros e He E.
    unfold not_anchor in He. rewrite E in He. simpl in He.
    unfold is_anchor in He. apply orb_false_iff in He. destruct He as [_ He].
    assert (is_end endX endY = true) by (apply is_end_iff; reflexivity). congruence.
Qed.

(** C3.  Every run of either strategy returns; its result holds a path
    exactly when the cost recorded at the end is below [FLT_MAX] when the loop
    is left; and when every neighbour of the end is a wall (the anchors being
    distinct and the start free) the result holds no path, the message is the
    strategy's "No Path Found!", and the trace has no step in the path
    colour. *)
Theorem found_iff_end_cost_finite (alg : algorithm) :
  exists fuel s r,
    run_loop alg fuel (init alg) = Some s /\
    search alg fuel = Returned r /\
    (forall fuel' r', search alg fuel' = Returned r' -> r' = r) /\
    ((exists p, path r = Some p) <-> dist_at s endX endY < FLT_MAX) /\
    (end_enclosed -> (startX, startY) <> (endX, endY) -> wall_at startX startY = false ->
     path r = None /\ message r = no_path_message alg /\
     Forall (fun e => step_color e <> path_color alg) (trace r)).
Proof.
  destruct (search_returns alg) as (fuel & s & r & Hrun & HI & Hpc & Hfin & Hs).
  exists fuel, s, r. split; [exact Hrun|]. split; [exact Hs|]. split.
  { intros f' r' H'. eapply search_deterministic; eauto. }
  assert (Hiff : (exists p, path r = Some p) <-> dist_at s endX endY < FLT_MAX).
  { unfold finish in Hfin. unfold flt in Hfin.
    destruct (dist_at s endX endY <? FLT_MAX) eqn:E.
    - apply Z.ltb_lt in E.
      destruct (reconstruct fuel (prev s)) as [p| |]; try discriminate.
      injection Hfin as <-. simpl. split; eauto.
    - apply Z.ltb_ge in E. injection Hfin as <-. simpl.
      split; [intros [p Hp]; discriminate | lia]. }
  split; [exact Hiff|].
  intros Henc Hne Hopen.
  destruct (run_loop_steps_from _ _ _ _ Hrun) as [k ->].
  pose proof (enclosed_steps_from Henc Hne Hopen alg k) as He.
  assert (Hnone : path r = None).
  { destruct (path r) as [p|] eqn:Hp; [|reflexivity].
    assert (dist_at (steps_from alg k (init alg)) endX endY < FLT_MAX)
      by (apply Hiff; eauto). lia. }
  destruct (finish_trace _ _ _ _ Hfin) as (extra & Htr & _ & Hx).
  destruct (Hx Hnone) as [-> Hmsg]. rewrite app_nil_r in Htr.
  split; [exact Hnone|]. split; [exact Hmsg|].
  rewrite Htr. eapply Forall_impl; [|apply (inv_colors _ HI)].
  intros e [He'|He']; rewrite He'; destruct alg; discriminate.
Qed.

(** C4 (amended).  The loop of either strategy terminates; and on the state it
    leaves, when the cost recorded at the end is below [FLT_MAX], the
    reconstruction follows the predecessor links from the end down to the
    start, returns the collected cells with the start added, reversed, after
    at most [N * N] tests of its loop condition, and what it returns is a
    path of legal moves from the start to the end of at most [N * N] cells.
    (The code has no step limit and no failure signal of its own.) *)
Theorem reconstruction_reaches_start (alg : algorithm) :
  (exists fuel s, run_loop alg fuel (init alg) = Some s) /\
  (forall fuel s, run_loop alg fuel (init alg) = Some s ->
     dist_at s endX endY < FLT_MAX ->
     exists l finalPath,
       links s (endX, endY) l /\
       finalPath = rev (l ++ [(startX, startY)]) /\
       reconstruct (Z.to_nat (N * N)) (prev s) = Returned finalPath /\
       path_from_start_to_end finalPath /\
       Z.of_nat (length finalPath) <= N * N).
Proof.
  split.
  { destruct (loop_terminates alg) as (f & s & H & _). eauto. }
  intros fuel s Hrun Hfin.
  destruct (run_loop_inv _ _ _ _ (init_inv alg) Hrun) as [HI _].
  pose proof (rank_lt_cells s (endX, endY) Hend) as Hrk.
  pose proof length_cells as Hlc.
  destruct (follow_prev_links s (Z.to_nat (N * N)) HI endX endY [] Hend Hfin ltac:(lia))
    as (l & Hl & Hlk & Hlen).
  exists l, (rev (l ++ [(startX, startY)])).
  split; [exact Hlk|]. split; [reflexivity|].
  split; [unfold reconstruct; rewrite Hl; reflexivity|].
  destruct (links_path s _ _ Hlk) as (q & Hq & Hp & Hh).
  split.
  - rewrite Hq. repeat split; auto. apply last_last.
  - rewrite length_rev, length_app. simpl. lia.
Qed.

(** *** The moment of a relaxation *)

(** The tests of the [for] body that lead to the update of the neighbour. *)
Definition relaxes (s : sstate) (node : Node) (dir : coord) : bool :=
  let nx := node_x node + fst dir in
  let ny := node_y node + snd dir in
  in_grid nx ny && negb (wall_at nx ny) &&
  flt (fadd (node_g node) (moveCost dir)) (dist_at s nx ny).

Lemma relax_skip (alg : algorithm) (s : sstate) (node : Node) (dir : coord) :
  relaxes s node dir = false -> relax alg node dir s = s.
Proof.
  unfold relaxes, relax. cbv zeta.
  destruct (in_grid _ _ && negb (wall_at _ _)); simpl; [|reflexivity].
  intros ->. reflexivity.
Qed.

Lemma relax_update (alg : algorithm) (s : sstate) (node : Node) (dir : coord) :
  relaxes s node dir = true ->
  let nx := node_x node + fst dir in
  let ny := node_y node + snd dir in
  let nd := fadd (node_g node) (moveCost dir) in
  relax alg node dir s =
    mkState (mset (dist s) nx ny nd) (mset (prev s) nx ny (node_x node, node_y node))
            (q_push (mkNode (priority alg nd nx ny) nd nx ny) (pq s))
            (if is_anchor nx ny then steps s else steps s ++ [mkStep (nx, ny) Cyan])
            (pc s).
Proof.
  unfold relaxes, relax. cbv zeta.
  destruct (in_grid _ _ && negb (wall_at _ _)); simpl; [|discriminate].
  intros ->. reflexivity.
Qed.

(** What a relaxation leaves behind, for either strategy: the neighbour's cost
    is the popped cost plus the move cost, its predecessor is the expanded
    cell, whose own recorded cost is untouched and lies within the staleness
    tolerance below the popped cost. *)
Lemma relaxation_effect (alg : algorithm) (s : sstate) (node : Node) (dir : coord)
    (ds : list coord) :
  Inv s -> pc s = InFor node (dir :: ds) -> relaxes s node dir = true ->
  let cx := node_x node in
  let cy := node_y node in
  let nx := cx + fst dir in
  let ny := cy + snd dir in
  let s' := step alg s in
  prev_at s' nx ny = (cx, cy) /\
  dist_at s' nx ny = fadd (node_g node) (moveCost dir) /\
  dist_at s' cx cy = dist_at s cx cy /\
  dist_at s cx cy <= node_g node <= fadd (dist_at s cx cy) FLT_EPSILON /\
  dist_at s cx cy < dist_at s' nx ny < FLT_MAX.
Proof.
  intros HI Hpc Hrel. cbv zeta.
  pose proof (inv_pc s HI) as Hp. rewrite Hpc in Hp.
  destruct Hp as (Hnode & Hincl & Hfresh).
  unfold step. rewrite Hpc. cbv zeta. rewrite (relax_update alg s node dir Hrel).
  cbv zeta. unfold dist_at, prev_at. cbn [dist prev].
  unfold relaxes in Hrel. cbv zeta in Hrel.
  apply andb_true_iff in Hrel. destruct Hrel as [Hguard Hlt].
  apply andb_true_iff in Hguard. destruct Hguard as [Hin Hw].
  unfold flt, dist_at in Hlt. apply Z.ltb_lt in Hlt.
  destruct (node_cost_small _ _ Hnode) as [Hcd0 Hcd1].
  destruct (moveCost_bounds dir) as [Hmc0 Hmc1].
  destruct (fadd_step (node_g node) (moveCost dir) Hcd0 Hcd1 Hmc0 Hmc1) as [Hgrow _].
  destruct Hnode as (Hg & Ho & Hd & Hb).
  pose proof (inv_range s HI _ _ Hin) as Hrn. unfold dist_at in Hrn.
  assert (Hne : (node_x node, node_y node) <>
                (node_x node + fst dir, node_y node + snd dir)).
  { intros E. injection E as E1 E2. rewrite <- E1, <- E2 in Hlt. lia. }
  rewrite !mget_set_same by (auto; apply HI).
  rewrite mget_set_other by assumption.
  unfold stale, fgt, dist_at in Hfresh. apply Z.ltb_ge in Hfresh.
  repeat split; try lia.
Qed.

(** *** Dijkstra: relaxations use the recorded cost

    With the cost itself as key, an entry above the recorded cost of its cell
    is popped only after the entry that carries the recorded cost, and by then
    every neighbour is at most one move above the recorded cost, so the later
    entry relaxes nothing. *)

(** The neighbour of [(cx, cy)] in direction [dir] cannot be improved from
    the recorded cost of [(cx, cy)]. *)
Definition relaxed (d : matrix float) (cx cy : Z) (dir : coord) : Prop :=
  in_grid (cx + fst dir) (cy + snd dir) = true ->
  wall_at (cx + fst dir) (cy + snd dir) = false ->
  mget 0 d (cx + fst dir) (cy + snd dir) <= fadd (mget 0 d cx cy) (moveCost dir).

(** The queue holds an entry for the cell at its recorded cost. *)
Definition pending (d : matrix float) (q : queue) (cx cy : Z) : Prop :=
  exists m, In m (q_elems q) /\ node_x m = cx /\ node_y m = cy /\
            node_g m = mget 0 d cx cy.

(** The cell is being expanded at its recorded cost; the directions no longer
    to visit are done. *)
Definition expanding (d : matrix float) (c : control) (cx cy : Z) : Prop :=
  exists node ds, c = InFor node ds /\ node_x node = cx /\ node_y node = cy /\
    node_g node = mget 0 d cx cy /\
    forall dir, In dir directions -> In dir ds \/ relaxed d cx cy dir.

Definition closed (d : matrix float) (cx cy : Z) : Prop :=
  forall dir, In dir directions -> relaxed d cx cy dir.

Record DInv (s : sstate) : Prop := {
  dinv_keys : Forall (fun m => node_f m = node_g m) (q_elems (pq s));
  dinv_f32 : forall x y, in_grid x y = true -> is_f32 (dist_at s x y);
  dinv_cells : pc s <> Exited -> forall x y, in_grid x y = true ->
      dist_at s x y < FLT_MAX ->
      pending (dist s) (pq s) x y \/ expanding (dist s) (pc s) x y \/
      closed (dist s) x y;
  dinv_pc : match pc s with
            | InFor node _ =>
                node_g node = dist_at s (node_x node) (node_y node) \/
                closed (dist s) (node_x node) (node_y node)
            | _ => True
            end
}.

Lemma init_dinv : DInv (init Dijkstra).
Proof.
  pose proof (init_inv Dijkstra) as HI.
  constructor.
  - unfold init. cbn [pq]. eapply Permutation_Forall; [symmetry; apply q_push_elems|].
    constructor; [reflexivity | rewrite q_empty_elems; constructor].
  - intros x y Hxy. unfold dist_at, init. cbn [dist].
    destruct (coord_eqb_spec (x, y) (startX, startY)) as [E|E].
    + injection E as -> ->. rewrite mget_set_same by (auto; apply mconst_wf).
      apply is_f32_consts.
    + rewrite mget_set_other by assumption. apply in_grid_iff in Hxy.
      unfold mget. rewrite mread_mconst by lia. apply is_f32_consts.
  - intros _ x y Hxy Hfin. left.
    assert (E : (x, y) = (startX, startY)).
    { destruct (coord_eqb_spec (x, y) (startX, startY)) as [E|E]; [exact E|].
      exfalso. unfold dist_at, init in Hfin. cbn [dist] in Hfin.
      rewrite mget_set_other in Hfin by assumption. apply in_grid_iff in Hxy.
      unfold mget in Hfin. rewrite mread_mconst in Hfin by lia. lia. }
    injection E as -> ->.
    exists (mkNode 0 0 startX startY). split.
    + unfold init. cbn [pq].
      eapply Permutation_in; [symmetry; apply q_push_elems|]. left. reflexivity.
    + cbn [node_x node_y node_g]. pose proof (inv_start _ HI) as H0.
      unfold dist_at in H0. rewrite H0. auto.
  - exact I.
Qed.

(** An entry popped above the recorded cost of a closed cell relaxes nothing. *)
Lemma closed_no_relax (s : sstate) (node : Node) (dir : coord) :
  node_ok (dist s) node -> In dir directions ->
  closed (dist s) (node_x node) (node_y node) -> relaxes s node dir = false.
Proof.
  intros (Hg & Ho & Hd & Hb) Hdir Hcl.
  unfold relaxes. cbv zeta.
  destruct (in_grid (node_x node + fst dir) (node_y node + snd dir)) eqn:Hin;
    [|reflexivity].
  destruct (wall_at (node_x node + fst dir) (node_y node + snd dir)) eqn:Hw;
    [reflexivity|]. simpl.
  specialize (Hcl dir Hdir Hin Hw).
  unfold flt. apply Z.ltb_ge.
  destruct (moveCost_bounds dir) as [Hm _].
  pose proof (fadd_mono (mget 0 (dist s) (node_x node) (node_y node)) (node_g node)
                (moveCost dir) (moveCost dir)) as Hmono.
  unfold dist_at. unfold F_ONE in Hm.
  specialize (Hmono ltac:(lia) ltac:(lia) ltac:(lia) ltac:(lia)). lia.
Qed.

(** In Dijkstra's [for] loop a relaxation happens only from the recorded cost. *)
Lemma dijkstra_relax_from_recorded (s : sstate) (node : Node) (dir : coord)
    (ds : list coord) :
  Inv s -> DInv s -> pc s = InFor node (dir :: ds) -> relaxes s node dir = true ->
  node_g node = dist_at s (node_x node) (node_y node).
Proof.
  intros HI HD Hpc Hrel.
  pose proof (inv_pc s HI) as Hp. rewrite Hpc in Hp. destruct Hp as (Hnode & Hincl & _).
  pose proof (dinv_pc s HD) as Hq. rewrite Hpc in Hq.
  destruct Hq as [Hq|Hq]; [exact Hq|].
  rewrite (closed_no_relax s node dir Hnode) in Hrel; [discriminate | | exact Hq].
  apply Hincl. left. reflexivity.
Qed.

Section LoweringRelaxed.
(** Lowering one cell keeps the relaxed directions of every other cell. *)
Variables (d : matrix float) (nx ny : Z) (nd : float).
Hypothesis Hwf : wf_matrix (Z.to_nat N) d.
Hypothesis Hin : in_grid nx ny = true.
Hypothesis Hnd : nd < mget 0 d nx ny.

Lemma relaxed_lower (cx cy : Z) (dir : coord) :
  (cx, cy) <> (nx, ny) -> relaxed d cx cy dir -> relaxed (mset d nx ny nd) cx cy dir.
Proof.
  intros Hne Hr Hg Hw. specialize (Hr Hg Hw).
  rewrite (mget_set_other _ _ _ _ _ cx cy) by assumption.
  pose proof (lower_le d nx ny nd Hwf Hin Hnd (cx + fst dir) (cy + snd dir)). lia.
Qed.

Lemma closed_lower (cx cy : Z) :
  (cx, cy) <> (nx, ny) -> closed d cx cy -> closed (mset d nx ny nd) cx cy.
Proof. intros Hne Hc dir Hdir. apply relaxed_lower; auto. Qed.

End LoweringRelaxed.

Lemma stale_not_recorded (s : sstate) (node : Node) :
  DInv s -> in_grid (node_x node) (node_y node) = true ->
  stale s node = true -> node_g node <> dist_at s (node_x node) (node_y node).
Proof.
  intros HD Hg Hst E. unfold stale, fgt in Hst. apply Z.ltb_lt in Hst.
  pose proof (fadd_ge_l _ FLT_EPSILON (dinv_f32 s HD _ _ Hg)
                ltac:(unfold FLT_EPSILON; lia)). lia.
Qed.

Lemma step_dinv (s : sstate) : Inv s -> DInv s -> DInv (step Dijkstra s).
Proof.
  intros HI HD. unfold step.
  destruct (pc s) as [|node [|d ds]|] eqn:Hpc; [| | |exact HD].
  - (* at the head of the loop *)
    destruct (q_pop (pq s)) as [[node q']|] eqn:Hpop.
    2:{ destruct HD as [Hk Hf Hc Hp]. constructor; unfold dist_at in *;
          cbn [dist prev pq steps pc]; auto. intros H; congruence. }
    destruct (q_pop_some _ _ _ Hpop) as [Hperm Hmin].
    pose proof (Permutation_Forall Hperm (inv_queue s HI)) as Hq.
    pose proof (Permutation_Forall Hperm (dinv_keys s HD)) as Hk.
    inversion Hq as [|? ? Hnode Hq']; subst.
    inversion Hk as [|? ? Hknode Hk']; subst.
    assert (Hcells : forall x y, in_grid x y = true -> dist_at s x y < FLT_MAX ->
              (node_g node = dist_at s x y /\ node_x node = x /\ node_y node = y) \/
              pending (dist s) q' x y \/ closed (dist s) x y).
    { intros x y Hxy Hfin.
      destruct (dinv_cells s HD ltac:(congruence) x y Hxy Hfin) as [Hp|[He|Hc]].
      - destruct Hp as (m & Hm & Hx & Hy & Hg).
        apply (Permutation_in _ Hperm) in Hm. destruct Hm as [<-|Hm]; [left; auto|].
        right; left. exists m. auto.
      - destruct He as (? & ? & E & _). congruence.
      - right; right. exact Hc. }
    destruct (stale s node) eqn:Hst.
    + constructor; unfold dist_at in *; cbn [dist prev pq steps pc]; auto.
      * apply HD.
      * intros _ x y Hxy Hfin.
        destruct (Hcells x y Hxy Hfin) as [(Hg & Hx & Hy)|[Hp|Hc]]; auto.
        exfalso. subst x y.
        apply (stale_not_recorded s node HD); auto.
    + destruct (is_end (node_x node) (node_y node)).
      * constructor; unfold dist_at in *; cbn [dist prev pq steps pc]; auto.
        -- apply HD.
        -- intros H; congruence.
      * constructor; unfold dist_at in *; cbn [dist prev pq steps pc]; auto.
        -- apply HD.
        -- intros _ x y Hxy Hfin.
           destruct (Hcells x y Hxy Hfin) as [(Hg & Hx & Hy)|[Hp|Hc]]; auto.
           right; left. exists node, directions. auto 10.
        -- destruct Hnode as (Hg & Ho & Hd & Hb).
           assert (Hfin : mget 0 (dist s) (node_x node) (node_y node) < FLT_MAX).
           { pose proof (n_finite_bounds (dist s)).
             assert (N * N <= 1024 * 1024) by nia.
             unfold F_ONE, FLT_MAX in *. lia. }
           destruct (Hcells _ _ Hg Hfin) as [(Hg' & _)|[Hp|Hc]]; auto.
           left. destruct Hp as (m & Hm & Hx & Hy & Hgm).
           rewrite Forall_forall in Hmin, Hk'.
           pose proof (Hmin m Hm). pose proof (Hk' m Hm). lia.
  - (* the [for] loop is over *)
    constructor; unfold dist_at in *; cbn [dist prev pq steps pc]; auto.
    + apply HD.
    + apply HD.
    + intros _ x y Hxy Hfin.
      destruct (dinv_cells s HD ltac:(congruence) x y Hxy Hfin) as [Hp|[He|Hc]]; auto.
      right; right. destruct He as (n0 & ds0 & E & Hx & Hy & Hg & Hall).
      rewrite Hpc in E. injection E as <- <-.
      intros dir Hdir. destruct (Hall dir Hdir) as [[]|Hr]. exact Hr.
  - (* one direction *)
    pose proof (inv_pc s HI) as Hp. rewrite Hpc in Hp.
    destruct Hp as (Hnode & Hincl & _).
    destruct (relaxes s node d) eqn:Hrel.
    + pose proof (dijkstra_relax_from_recorded s node d ds HI HD Hpc Hrel) as Hrec.
      rewrite (relax_update Dijkstra s node d Hrel). cbv zeta.
      cbn [dist prev pq steps pc].
      unfold relaxes in Hrel. cbv zeta in Hrel.
      apply andb_true_iff in Hrel. destruct Hrel as [Hguard Hlt].
      apply andb_true_iff in Hguard. destruct Hguard as [Hin Hw].
      apply negb_true_iff in Hw.
      unfold flt in Hlt. apply Z.ltb_lt in Hlt. unfold dist_at in *.
      set (nx := node_x node + fst d) in *. set (ny := node_y node + snd d) in *.
      set (nd := fadd (node_g node) (moveCost d)) in *.
      destruct (node_cost_small _ _ Hnode) as [Hcd0 Hcd1].
      destruct (moveCost_bounds d) as [Hmc0 Hmc1].
      destruct (fadd_step (node_g node) (moveCost d) Hcd0 Hcd1 Hmc0 Hmc1) as [Hgrow _].
      fold nd in Hgrow.
      assert (Hne : (node_x node, node_y node) <> (nx, ny)).
      { intros E. injection E as E1 E2. rewrite <- E1, <- E2 in Hlt. lia. }
      assert (Hwd := inv_wf_dist s HI).
      assert (Hsame : mget 0 (mset (dist s) nx ny nd) nx ny = nd)
        by (apply mget_set_same; assumption).
      assert (Hnew : In (mkNode nd nd nx ny)
                (q_elems (q_push (mkNode nd nd nx ny) (pq s)))).
      { eapply Permutation_in; [symmetry; apply q_push_elems|]. left. reflexivity. }
      constructor; unfold dist_at; cbn [dist prev pq steps pc priority].
      * eapply Permutation_Forall; [symmetry; apply q_push_elems|].
        constructor; [reflexivity | apply HD].
      * intros x y Hxy.
        destruct (coord_eqb_spec (x, y) (nx, ny)) as [E|E].
        -- injection E as -> ->. rewrite Hsame.
           apply fadd_is_f32; unfold F_ONE in *; lia.
        -- rewrite mget_set_other by assumption. apply (dinv_f32 s HD x y Hxy).
      * intros _ x y Hxy.
        destruct (coord_eqb_spec (x, y) (nx, ny)) as [E|E].
        -- injection E as -> ->. intros _. left.
           exists (mkNode nd nd nx ny). rewrite Hsame. auto.
        -- rewrite mget_set_other by assumption. intros Hfin.
           destruct (dinv_cells s HD ltac:(congruence) x y Hxy Hfin) as [Hp|[He|Hc]].
           ++ left. destruct Hp as (m & Hm & Hx & Hy & Hg). exists m.
              rewrite mget_set_other by assumption.
              split; [|auto].
              eapply Permutation_in; [symmetry; apply q_push_elems|]. right. exact Hm.
           ++ right; left. destruct He as (n0 & ds0 & E0 & Hx & Hy & Hg & Hall).
              rewrite Hpc in E0. injection E0 as <- <-. subst x y.
              exists node, ds. rewrite mget_set_other by assumption.
              repeat split; auto.
              intros dir Hdir. destruct (Hall dir Hdir) as [[<-|Hi]|Hr].
              ** right. intros _ _. fold nx ny. rewrite Hsame.
                 rewrite mget_set_other by assumption. rewrite <- Hrec. fold nd. lia.
              ** left. exact Hi.
              ** right. apply relaxed_lower; auto.
           ++ right; right. apply closed_lower; auto.
      * left. rewrite mget_set_other by assumption. exact Hrec.
    + rewrite (relax_skip Dijkstra s node d Hrel).
      constructor; unfold dist_at; cbn [dist prev pq steps pc].
      * apply HD.
      * apply HD.
      * intros _ x y Hxy Hfin.
        destruct (dinv_cells s HD ltac:(congruence) x y Hxy Hfin) as [Hp|[He|Hc]]; auto.
        right; left. destruct He as (n0 & ds0 & E0 & Hx & Hy & Hg & Hall).
        rewrite Hpc in E0. injection E0 as <- <-. subst x y.
        exists node, ds. repeat split; auto.
        intros dir Hdir. destruct (Hall dir Hdir) as [[<-|Hi]|Hr]; auto.
        right. intros Hg' Hw'. unfold relaxes in Hrel. cbv zeta in Hrel.
        rewrite Hg', Hw' in Hrel. simpl in Hrel. unfold flt, dist_at in Hrel.
        apply Z.ltb_ge in Hrel. rewrite <- Hg. exact Hrel.
      * pose proof (dinv_pc s HD) as Hq. rewrite Hpc in Hq. exact Hq.
Qed.

Lemma steps_from_dinv (k : nat) (s : sstate) :
  Inv s -> DInv s -> DInv (steps_from Dijkstra k s).
Proof.
  revert s. induction k as [|k IH]; intros s HI HD; simpl; [exact HD|].
  apply IH; [apply step_inv | apply step_dinv]; assumption.
Qed.

(** C10 (amended).  In every state of either search, every cell of the grid
    other than the start whose recorded cost is below [FLT_MAX] has as
    predecessor a cell of the grid, without wall, one move away, whose recorded
    cost is smaller (so below [FLT_MAX] too).  At a relaxation the neighbour's
    cost becomes the single-precision sum of the popped cost of the expanded
    entry and the move cost, and its predecessor the expanded cell; the popped
    cost is at least the cost recorded for that cell and not greater than the
    single-precision sum of that recorded cost and the tolerance
    [FLT_EPSILON] (the sum is rounded, so the popped cost can exceed the
    recorded one by more than the tolerance).  In Dijkstra the popped cost is
    the recorded cost, so the new cost is the single-precision sum of the
    predecessor's recorded cost and the move cost.  (In A* the popped cost can
    differ from the recorded one at that moment.) *)
Theorem predecessor_invariant (alg : algorithm) (k : nat) :
  wall_at startX startY = false ->
  let s := steps_from alg k (init alg) in
  (forall x y, in_grid x y = true -> (x, y) <> (startX, startY) ->
     dist_at s x y < FLT_MAX ->
     let p := prev_at s x y in
     in_grid (fst p) (snd p) = true /\ wall_at (fst p) (snd p) = false /\
     neighbor p (x, y) /\ dist_at s (fst p) (snd p) < dist_at s x y) /\
  (forall node dir ds, pc s = InFor node (dir :: ds) -> relaxes s node dir = true ->
     let cx := node_x node in
     let cy := node_y node in
     let nx := cx + fst dir in
     let ny := cy + snd dir in
     let s' := step alg s in
     prev_at s' nx ny = (cx, cy) /\
     dist_at s' nx ny = fadd (node_g node) (moveCost dir) /\
     dist_at s' cx cy = dist_at s cx cy /\
     dist_at s cx cy <= node_g node <= fadd (dist_at s cx cy) FLT_EPSILON /\
     (alg = Dijkstra ->
      node_g node = dist_at s cx cy /\
      dist_at s' nx ny = fadd (dist_at s' cx cy) (moveCost dir))).
Proof.
  intros Hopen s.
  assert (HI : Inv s) by (apply steps_from_inv, init_inv).
  split.
  - intros x y Hxy Hne Hfin.
    assert (Hns : is_start x y = false).
    { destruct (is_start x y) eqn:E; [|reflexivity].
      apply is_start_iff in E. congruence. }
    destruct (inv_prev s HI x y Hxy Hns Hfin) as (H1 & H2 & H3 & H4 & H5).
    repeat split; auto.
    destruct H2 as [H2|H2]; [|exact H2].
    apply is_start_iff in H2. cbv zeta. rewrite (surjective_pairing (prev_at s x y)).
    rewrite H2. exact Hopen.
  - intros node dir ds Hpc Hrel.
    destruct (relaxation_effect alg s node dir ds HI Hpc Hrel) as (H1 & H2 & H3 & H4 & H5).
    cbv zeta. repeat split; try assumption; try apply H4.
    + subst alg. apply (dijkstra_relax_from_recorded s node dir ds HI); auto.
      apply steps_from_dinv; [apply init_inv | apply init_dinv].
    + subst alg. rewrite H2, H3. f_equal.
      apply (dijkstra_relax_from_recorded s node dir ds HI); auto.
      apply steps_from_dinv; [apply init_inv | apply init_dinv].
Qed.

(** C5 (amended).  An entry popped at the head of the loop is discarded
    (nothing but its removal from the queue happens, and the loop continues)
    exactly when its accumulated cost is greater than the single-precision sum
    of the recorded cost of its cell and the tolerance [FLT_EPSILON]; this
    test and the relaxation read the accumulated cost [g] of the entry and
    never its key [f].  (The sum is rounded: an entry can exceed the recorded
    cost by more than the tolerance and be kept.) *)
Theorem stale_pop_discarded (alg : algorithm) (s : sstate) (node : Node) (q' : queue) :
  pc s = AtLoop -> q_pop (pq s) = Some (node, q') ->
  (step alg s = mkState (dist s) (prev s) q' (steps s) AtLoop <->
   fadd (dist_at s (node_x node) (node_y node)) FLT_EPSILON < node_g node) /\
  (forall f', stale s (mkNode f' (node_g node) (node_x node) (node_y node)) =
              stale s node) /\
  (forall f' dir t,
     relax alg (mkNode f' (node_g node) (node_x node) (node_y node)) dir t =
     relax alg node dir t).
Proof.
  intros Hpc Hpop. split; [|split; reflexivity].
  unfold step. rewrite Hpc, Hpop. cbv zeta.
  assert (Hst : stale s node = true <->
                fadd (dist_at s (node_x node) (node_y node)) FLT_EPSILON < node_g node).
  { unfold stale, fgt. apply Z.ltb_lt. }
  destruct (stale s node).
  - split; [intros _; apply Hst; reflexivity | reflexivity].
  - split.
    + destruct (is_end (node_x node) (node_y node)); intros H; discriminate H.
    + intros H. apply Hst in H. discriminate.
Qed.

(** *** The neighbours the [for] loop considers *)

(** The candidates that pass the tests of the [for] body, each with its move
    cost, in the order of [directions]. *)
Definition neighbors (x y : Z) : list (coord * float) :=
  flat_map (fun dir =>
              if in_grid (x + fst dir) (y + snd dir) &&
                 negb (wall_at (x + fst dir) (y + snd dir))
              then [((x + fst dir, y + snd dir), moveCost dir)]
              else []) directions.

Lemma in_neighbors (x y : Z) (n : coord) (c : float) :
  In (n, c) (neighbors x y) <->
  exists dir, In dir directions /\ n = (x + fst dir, y + snd dir) /\
    in_grid (fst n) (snd n) = true /\ wall_at (fst n) (snd n) = false /\
    c = moveCost dir.
Proof.
  unfold neighbors. rewrite in_flat_map. split.
  - intros (dir & Hdir & Hin).
    destruct (in_grid (x + fst dir) (y + snd dir) &&
              negb (wall_at (x + fst dir) (y + snd dir))) eqn:E; [|destruct Hin].
    destruct Hin as [Hin|[]]. injection Hin as <- <-.
    apply andb_true_iff in E. destruct E as [E1 E2]. apply negb_true_iff in E2.
    exists dir. simpl. auto.
  - intros (dir & Hdir & -> & Hg & Hw & ->). simpl in Hg, Hw.
    exists dir. split; [exact Hdir|]. rewrite Hg, Hw. simpl. left. reflexivity.
Qed.

(** The body of the [for] loop acts on a candidate of [neighbors] or not at
    all. *)
Lemma relax_only_neighbors (alg : algorithm) (node : Node) (dir : coord) (s : sstate) :
  In dir directions ->
  relax alg node dir s = s \/
  In ((node_x node + fst dir, node_y node + snd dir), moveCost dir)
     (neighbors (node_x node) (node_y node)).
Proof.
  intros Hdir. destruct (relaxes s node dir) eqn:E.
  - right. unfold relaxes in E. cbv zeta in E.
    apply andb_true_iff in E. destruct E as [E _].
    apply andb_true_iff in E. destruct E as [E1 E2]. apply negb_true_iff in E2.
    apply in_neighbors. exists dir. simpl. auto.
  - left. apply relax_skip. exact E.
Qed.

(** *** The trace only grows *)

Lemma step_appends (alg : algorithm) (s : sstate) :
  exists e, steps (step alg s) = steps s ++ e /\ (length e <= 1)%nat.
Proof.
  unfold step. destruct (pc s) as [|node [|d ds]|].
  - destruct (q_pop (pq s)) as [[node q']|]; [|exists []; rewrite app_nil_r; auto].
    destruct (stale s node); [exists []; rewrite app_nil_r; auto|].
    destruct (is_end (node_x node) (node_y node)); cbn [steps];
      destruct (is_anchor (node_x node) (node_y node));
      try (exists []; rewrite app_nil_r; auto; fail); eexists; split; eauto.
  - exists []. rewrite app_nil_r. auto.
  - cbn [steps]. unfold relax. cbv zeta.
    destruct (in_grid _ _ && negb (wall_at _ _)); [|exists []; rewrite app_nil_r; auto].
    destruct (flt _ _); [|exists []; rewrite app_nil_r; auto].
    cbn [steps]. destruct (is_anchor _ _); [exists []; rewrite app_nil_r; auto|].
    eexists; split; eauto.
  - exists []. rewrite app_nil_r. auto.
Qed.

Lemma steps_from_appends (alg : algorithm) (k : nat) (s : sstate) :
  exists e, steps (steps_from alg k s) = steps s ++ e.
Proof.
  revert s. induction k as [|k IH]; intros s; simpl.
  - exists []. rewrite app_nil_r. reflexivity.
  - destruct (IH (step alg s)) as [e He]. destruct (step_appends alg s) as (e0 & He0 & _).
    exists (e0 ++ e). rewrite He, He0, app_assoc. reflexivity.
Qed.

(** *** The walk back along the predecessors stays inside the matrix *)

Lemma follow_prev_undefined_more (fuel k : nat) (prv : matrix coord) (tx ty : Z)
    (acc : list coord) :
  follow_prev fuel prv tx ty acc = Undefined ->
  follow_prev (fuel + k) prv tx ty acc = Undefined.
Proof.
  revert tx ty acc. induction fuel as [|f IH]; intros tx ty acc H; simpl in *;
    [discriminate|].
  destruct (is_start tx ty); [discriminate|].
  destruct (mread prv tx ty); [apply IH; exact H | reflexivity].
Qed.

Lemma search_not_undefined (alg : algorithm) (fuel : nat) :
  search alg fuel <> Undefined.
Proof.
  unfold search. destruct (run_loop alg fuel (init alg)) as [s|] eqn:Hrun; [|discriminate].
  destruct (run_loop_inv _ _ _ _ (init_inv alg) Hrun) as [HI _].
  unfold finish. destruct (flt (dist_at s endX endY) FLT_MAX) eqn:E; [|discriminate].
  apply Z.ltb_lt in E.
  destruct (reconstruct_returns s HI E) as (p & Hp & _).
  unfold reconstruct in *.
  destruct (follow_prev fuel (prev s) endX endY []) as [fp| |] eqn:Ef; try discriminate.
  apply (follow_prev_undefined_more _ (Z.to_nat (N * N))) in Ef.
  destruct (follow_prev (Z.to_nat (N * N)) (prev s) endX endY []) as [fp| |] eqn:Eg;
    try discriminate.
  apply (follow_prev_more _ fuel) in Eg. rewrite Nat.add_comm in Eg. congruence.
Qed.

(** Termination.  Every run of either strategy comes to an end and returns
    one result: with enough fuel the run returns it, with less it is still
    running.  No amount of fuel gives the undefined outcome, which the model
    has for one access only, the read of [prev] in the walk back from the end:
    that walk never reads outside the matrix. *)
Theorem search_terminates (alg : algorithm) :
  exists fuel r,
    search alg fuel = Returned r /\
    forall fuel', search alg fuel' = Returned r \/ search alg fuel' = OutOfFuel.
Proof.
  destruct (search_returns alg) as (fuel & s & r & _ & _ & _ & _ & Hs).
  exists fuel, r. split; [exact Hs|]. intros fuel'.
  destruct (search alg fuel') as [r'| |] eqn:E.
  - left. f_equal. eapply search_deterministic; eauto.
  - exfalso. exact (search_not_undefined alg fuel' E).
  - right. reflexivity.
Qed.

(** The trace is append-only: the steps recorded at any moment of the loop
    are a prefix of those recorded at any later moment, each step of the loop
    adds at most one, and the trace of the result extends the steps the loop
    has left. *)
Theorem trace_append_only (alg : algorithm) (s : sstate) :
  (exists e, steps (step alg s) = steps s ++ e /\ (length e <= 1)%nat) /\
  (forall k, exists e, steps (steps_from alg k s) = steps s ++ e) /\
  (forall fuel r, finish alg fuel s = Returned r -> exists e, trace r = steps s ++ e).
Proof.
  split; [apply step_appends|]. split; [intros k; apply steps_from_appends|].
  intros fuel r H. destruct (finish_trace _ _ _ _ H) as (e & He & _). eauto.
Qed.

(** *** Dijkstra: the popped costs never decrease

    With the cost as key, each popped cost is at least the one before, and
    every entry pushed while a node is expanded lies above that node's cost.
    The cost of the node last popped is a floor under the queue.  Two things
    follow: a cell is relaxed at most twice (a second relaxation needs a
    cheaper move from a floor at least as high, so the first was diagonal and
    the second is cardinal), and the cost recorded for a cell below the floor
    is final. *)

Definition mmap {A B} (f : A -> B) (m : matrix A) : matrix B := map (map f) m.

Lemma mmap_mset {A B} (f : A -> B) (m : matrix A) (x y : Z) (v : A) :
  mmap f (mset m x y v) = mset (mmap f m) x y (f v).
Proof.
  unfold mmap, mset. rewrite !map_list_set. f_equal. f_equal.
  change (@nil B) with (map f []). symmetry. apply map_nth.
Qed.

Lemma mread_mmap {A B} (f : A -> B) (m : matrix A) (x y : Z) :
  mread (mmap f m) x y = option_map f (mread m x y).
Proof.
  unfold mread, mmap. destruct ((x <? 0) || (y <? 0)); [reflexivity|].
  rewrite nth_error_map.
  destruct (nth_error m (Z.to_nat y)) as [row|]; simpl; [|reflexivity].
  apply nth_error_map.
Qed.

Lemma zsum_map_le {A} (f g : A -> Z) (l : list A) :
  (forall a, In a l -> f a <= g a) -> zsum (map f l) <= zsum (map g l).
Proof.
  induction l as [|h t IH]; intros H; simpl; [lia|].
  pose proof (H h (or_introl eq_refl)).
  pose proof (IH (fun a Ha => H a (or_intror Ha))). lia.
Qed.

Lemma zsum_map_bounds {A} (f : A -> Z) (c : Z) (l : list A) :
  (forall a, In a l -> 0 <= f a <= c) ->
  0 <= zsum (map f l) <= c * Z.of_nat (length l).
Proof.
  induction l as [|h t IH]; intros H; [simpl; lia|].
  pose proof (H h (or_introl eq_refl)).
  pose proof (IH (fun a Ha => H a (or_intror Ha))).
  cbn [map zsum length]. lia.
Qed.

Lemma msum_mmap_le (f g : float -> Z) (m : matrix float) :
  (forall v, f v <= g v) -> msum (mmap f m) <= msum (mmap g m).
Proof.
  intros H. unfold msum, mmap. rewrite !map_map. apply zsum_map_le.
  intros row _. apply zsum_map_le. intros v _. apply H.
Qed.

Lemma msum_mmap_bounds (n : nat) (f : float -> Z) (c : Z) (m : matrix float) :
  wf_matrix n m -> (forall v, 0 <= f v <= c) ->
  0 <= msum (mmap f m) <= c * (Z.of_nat n * Z.of_nat n).
Proof.
  intros [Hl Hr] H. unfold msum, mmap. rewrite map_map.
  rewrite <- Hl at 2. rewrite Z.mul_assoc. apply zsum_map_bounds.
  intros row Hrow. rewrite Forall_forall in Hr. rewrite <- (Hr row Hrow).
  apply zsum_map_bounds. intros v _. apply H.
Qed.

(** The relaxations a cell of cost [v] can still undergo once no entry
    cheaper than [L] is left: none at or below [L] plus a cardinal move, one
    at or below [L] plus a diagonal move, two above. *)
Definition credit (L v : float) : Z :=
  if v <=? fadd L CARDINAL_COST then 0
  else if v <=? fadd L DIAGONAL_COST then 1 else 2.

Definition credits (L : float) (d : matrix float) : Z := msum (mmap (credit L) d).

Lemma credit_range (L v : float) : 0 <= credit L v <= 2.
Proof. unfold credit. destruct (_ <=? _); [lia|]. destruct (_ <=? _); lia. Qed.

Lemma cardinal_le_diagonal : 0 <= CARDINAL_COST <= DIAGONAL_COST.
Proof. vm_compute. split; congruence. Qed.

Lemma credit_anti (L L' v : float) : 0 <= L <= L' -> credit L' v <= credit L v.
Proof.
  intros HL. unfold credit. pose proof cardinal_le_diagonal as Hc.
  pose proof (fadd_mono L L' CARDINAL_COST CARDINAL_COST).
  pose proof (fadd_mono L L' DIAGONAL_COST DIAGONAL_COST).
  pose proof (fadd_mono L L CARDINAL_COST DIAGONAL_COST).
  destruct (Z.leb_spec v (fadd L' CARDINAL_COST)); [apply credit_range|].
  destruct (Z.leb_spec v (fadd L CARDINAL_COST)); [lia|].
  destruct (Z.leb_spec v (fadd L' DIAGONAL_COST)).
  - destruct (Z.leb_spec v (fadd L DIAGONAL_COST)); lia.
  - destruct (Z.leb_spec v (fadd L DIAGONAL_COST)); lia.
Qed.

(** A relaxation from the floor uses up one credit of the relaxed cell. *)
Lemma credit_relax (L v : float) (dir : coord) :
  0 <= L -> fadd L (moveCost dir) < v ->
  credit L (fadd L (moveCost dir)) + 1 <= credit L v.
Proof.
  intros HL Hlt. unfold credit. pose proof cardinal_le_diagonal as Hc.
  pose proof (fadd_mono L L CARDINAL_COST DIAGONAL_COST).
  unfold moveCost in *. destruct (_ && _).
  - destruct (Z.leb_spec (fadd L DIAGONAL_COST) (fadd L CARDINAL_COST));
      destruct (Z.leb_spec (fadd L DIAGONAL_COST) (fadd L DIAGONAL_COST));
      destruct (Z.leb_spec v (fadd L CARDINAL_COST));
      destruct (Z.leb_spec v (fadd L DIAGONAL_COST)); lia.
  - destruct (Z.leb_spec (fadd L CARDINAL_COST) (fadd L CARDINAL_COST));
      destruct (Z.leb_spec v (fadd L CARDINAL_COST));
      destruct (Z.leb_spec v (fadd L DIAGONAL_COST)); lia.
Qed.

Lemma credits_anti (L L' : float) (d : matrix float) :
  0 <= L <= L' -> credits L' d <= credits L d.
Proof. intros HL. apply msum_mmap_le. intros v. apply credit_anti. exact HL. Qed.

Lemma credits_bounds (L : float) (d : matrix float) :
  wf_matrix (Z.to_nat N) d -> 0 <= credits L d <= 2 * (N * N).
Proof.
  intros Hwf.
  pose proof (msum_mmap_bounds _ (credit L) 2 d Hwf (credit_range L)) as H.
  rewrite Z2Nat.id in H by lia. exact H.
Qed.

Lemma credits_mset (L : float) (d : matrix float) (x y : Z) (v : float) :
  wf_matrix (Z.to_nat N) d -> in_grid x y = true ->
  credits L (mset d x y v) = credits L d - credit L (mget 0 d x y) + credit L v.
Proof.
  intros Hwf Hin. unfold credits. rewrite mmap_mset. apply msum_mset.
  rewrite mread_mmap, (mget_mread (A := float) 0 d x y Hwf Hin). reflexivity.
Qed.

(** The floor [L] under the state [s] of a Dijkstra run. *)
Record FInv (L : float) (s : sstate) : Prop := {
  finv_f32 : is_f32 L;
  finv_queue : Forall (fun m => is_f32 (node_g m) /\ L <= node_g m) (q_elems (pq s));
  finv_pc : match pc s with
            | AtLoop => True
            | InFor node _ => node_g node = L
            | Exited => dist_at s endX endY <= L
            end;
  finv_cells : forall x y, in_grid x y = true -> dist_at s x y < FLT_MAX ->
      closed (dist s) x y \/ L <= dist_at s x y;
  finv_prev : forall x y, in_grid x y = true -> is_start x y = false ->
      dist_at s x y < FLT_MAX ->
      dist_at s x y =
        fadd (dist_at s (fst (prev_at s x y)) (snd (prev_at s x y)))
             (moveCost (x - fst (prev_at s x y), y - snd (prev_at s x y))) /\
      dist_at s (fst (prev_at s x y)) (snd (prev_at s x y)) <= L;
  finv_count : Z.of_nat (length (steps s)) + Z.of_nat (length (q_elems (pq s)))
               + 2 * credits L (dist s) <= 4 * (N * N)
}.

Lemma init_finv : FInv 0 (init Dijkstra).
Proof.
  pose proof (init_inv Dijkstra) as HI.
  assert (Hwf : wf_matrix (Z.to_nat N) (mconst (Z.to_nat N) FLT_MAX)) by apply mconst_wf.
  assert (Hd0 : forall x y, in_grid x y = true ->
            mget 0 (mconst (Z.to_nat N) FLT_MAX) x y = FLT_MAX).
  { intros x y Hxy. apply in_grid_iff in Hxy. unfold mget.
    rewrite mread_mconst by lia. reflexivity. }
  constructor.
  - apply is_f32_consts.
  - unfold init. cbn [pq]. eapply Permutation_Forall; [symmetry; apply q_push_elems|].
    constructor; [|rewrite q_empty_elems; constructor].
    cbn [node_g]. split; [apply is_f32_consts | lia].
  - exact I.
  - intros x y Hxy _. right. apply (inv_range _ HI x y Hxy).
  - intros x y Hxy Hns Hfin. exfalso.
    unfold dist_at, init in Hfin. cbn [dist] in Hfin.
    rewrite mget_set_other, Hd0 in Hfin; auto; [lia|].
    intros E. apply is_start_iff in E. congruence.
  - unfold init. cbn [dist pq steps].
    rewrite (Permutation_length (q_push_elems _ _)), q_empty_elems.
    rewrite (credits_mset 0 _ startX startY 0 Hwf Hstart), Hd0 by exact Hstart.
    pose proof (credits_bounds 0 _ Hwf) as Hb.
    assert (E0 : credit 0 0 = 0) by (vm_compute; reflexivity).
    assert (E1 : credit 0 FLT_MAX = 2) by (vm_compute; reflexivity).
    rewrite E0, E1. cbn [length]. lia.
Qed.

(** One step of Dijkstra's loop keeps a floor, and never lowers it. *)
Lemma step_finv (s : sstate) (L : float) :
  Inv s -> DInv s -> FInv L s -> exists L', L <= L' /\ FInv L' (step Dijkstra s).
Proof.
  intros HI HD HF.
  destruct (finv_f32 L s HF) as [[HL0 HL1] HLr].
  pose proof (finv_pc L s HF) as HpcF.
  pose proof (finv_count L s HF) as Hcount.
  unfold step.
  destruct (pc s) as [|node [|d ds]|] eqn:Hpc.
  - (* at the head of the loop *)
    destruct (q_pop (pq s)) as [[node q']|] eqn:Hpop.
    + destruct (q_pop_some _ _ _ Hpop) as [Hperm Hmin].
      pose proof (Permutation_Forall Hperm (inv_queue s HI)) as Hq.
      pose proof (Permutation_Forall Hperm (dinv_keys s HD)) as Hk.
      pose proof (Permutation_Forall Hperm (finv_queue L s HF)) as Hfq.
      inversion Hq as [|? ? Hnode Hq']; subst.
      inversion Hk as [|? ? Hknode Hk']; subst.
      inversion Hfq as [|? ? [Hnf HLn] Hfq']; subst.
      assert (Hlen : length (q_elems (pq s)) = S (length (q_elems q')))
        by (rewrite (Permutation_length Hperm); reflexivity).
      assert (Hq2 : Forall (fun m => is_f32 (node_g m) /\ node_g node <= node_g m)
                      (q_elems q')).
      { rewrite Forall_forall in Hmin, Hk', Hfq'. apply Forall_forall. intros m Hm.
        split; [apply (Hfq' m Hm)|].
        pose proof (Hmin m Hm). pose proof (Hk' m Hm). lia. }
      assert (Hgen : forall steps' pc',
                Z.of_nat (length steps') <= Z.of_nat (length (steps s)) + 1 ->
                match pc' with
                | AtLoop => True
                | InFor n _ => node_g n = node_g node
                | Exited => dist_at s endX endY <= node_g node
                end ->
                FInv (node_g node) (mkState (dist s) (prev s) q' steps' pc')).
      { intros steps' pc' Hst Hpc'.
        constructor; unfold dist_at, prev_at in *; cbn [dist prev pq steps pc].
        - exact Hnf.
        - exact Hq2.
        - exact Hpc'.
        - intros x y Hxy Hfin.
          destruct (dinv_cells s HD ltac:(congruence) x y Hxy Hfin) as [Hp|[He|Hc]].
          + right. destruct Hp as (m & Hm & Hx & Hy & Hg).
            apply (Permutation_in _ Hperm) in Hm. destruct Hm as [<-|Hm]; [lia|].
            rewrite Forall_forall in Hq2. destruct (Hq2 m Hm). lia.
          + destruct He as (? & ? & E & _). congruence.
          + left. exact Hc.
        - intros x y Hxy Hns Hfin.
          destruct (finv_prev L s HF x y Hxy Hns Hfin) as [H1 H2].
          unfold dist_at, prev_at in *. split; [exact H1 | lia].
        - pose proof (credits_anti L (node_g node) (dist s) ltac:(lia)). lia. }
      exists (node_g node). split; [exact HLn|]. cbv zeta.
      destruct (stale s node) eqn:Hst; [apply Hgen; [lia | exact I]|].
      assert (Hsl : Z.of_nat (length (if is_anchor (node_x node) (node_y node)
                                       then steps s
                                       else steps s ++ [mkStep (node_x node, node_y node) Grey]))
                    <= Z.of_nat (length (steps s)) + 1).
      { destruct (is_anchor _ _); [lia|]. rewrite length_app. simpl. lia. }
      destruct (is_end (node_x node) (node_y node)) eqn:He.
      * apply Hgen; [exact Hsl|].
        apply is_end_iff in He. injection He as <- <-.
        destruct Hnode as (_ & _ & Hd & _). unfold dist_at. lia.
      * apply Hgen; [exact Hsl | reflexivity].
    + (* the queue is empty: the end of the loop *)
      pose proof (q_pop_none _ Hpop) as Hnil.
      pose proof is_f32_consts as (_ & _ & _ & _ & _ & Hinf).
      exists F_INF. split; [exact HL1|].
      constructor; unfold dist_at, prev_at in *; cbn [dist prev pq steps pc].
      * exact Hinf.
      * rewrite Hnil. constructor.
      * pose proof (inv_range s HI endX endY Hend). unfold dist_at, FLT_MAX, F_INF in *. lia.
      * intros x y Hxy Hfin. left.
        destruct (dinv_cells s HD ltac:(congruence) x y Hxy Hfin) as [Hp|[He|Hc]].
        -- destruct Hp as (m & Hm & _). rewrite Hnil in Hm. destruct Hm.
        -- destruct He as (? & ? & E & _). congruence.
        -- exact Hc.
      * intros x y Hxy Hns Hfin.
        destruct (finv_prev L s HF x y Hxy Hns Hfin) as [H1 H2].
        unfold dist_at, prev_at in *. split; [exact H1 | lia].
      * pose proof (credits_anti L F_INF (dist s) ltac:(lia)). lia.
  - (* the [for] loop is over *)
    exists L. split; [lia|].
    constructor; cbn [dist prev pq steps pc]; try apply HF. exact I.
  - (* one direction *)
    subst L.
    pose proof (inv_pc s HI) as Hp. rewrite Hpc in Hp.
    destruct Hp as (Hnode & Hincl & _).
    exists (node_g node). split; [lia|].
    destruct (relaxes s node d) eqn:Hrel.
    + pose proof (dijkstra_relax_from_recorded s node d ds HI HD Hpc Hrel) as Hrec.
      rewrite (relax_update Dijkstra s node d Hrel). cbv zeta.
      cbn [dist prev pq steps pc].
      unfold relaxes in Hrel. cbv zeta in Hrel.
      apply andb_true_iff in Hrel. destruct Hrel as [Hguard Hlt].
      apply andb_true_iff in Hguard. destruct Hguard as [Hin Hw].
      apply negb_true_iff in Hw.
      unfold flt in Hlt. apply Z.ltb_lt in Hlt. unfold dist_at in Hlt, Hrec.
      set (nx := node_x node + fst d) in *. set (ny := node_y node + snd d) in *.
      set (nd := fadd (node_g node) (moveCost d)) in *.
      destruct (moveCost_bounds d) as [Hmc0 Hmc1].
      assert (Hge : node_g node <= nd).
      { apply fadd_ge_l; [repeat split; assumption | unfold F_ONE in *; lia]. }
      assert (Hne : (node_x node, node_y node) <> (nx, ny)).
      { intros E. injection E as E1 E2. rewrite <- E1, <- E2 in Hlt. lia. }
      assert (Hwd := inv_wf_dist s HI). assert (Hwp := inv_wf_prev s HI).
      assert (Hsame : mget 0 (mset (dist s) nx ny nd) nx ny = nd)
        by (apply mget_set_same; assumption).
      constructor; unfold dist_at, prev_at; cbn [dist prev pq steps pc priority].
      * repeat split; assumption.
      * eapply Permutation_Forall; [symmetry; apply q_push_elems|].
        constructor; [|apply HF]. cbn [node_g]. split; [|exact Hge].
        apply fadd_is_f32; unfold F_ONE in *; lia.
      * reflexivity.
      * intros x y Hxy.
        destruct (coord_eqb_spec (x, y) (nx, ny)) as [E|E].
        -- injection E as -> ->. rewrite Hsame. intros _. right. exact Hge.
        -- rewrite mget_set_other by assumption. intros Hfin.
           destruct (finv_cells _ s HF x y Hxy Hfin) as [Hc|Hc].
           ++ left. apply closed_lower; auto.
           ++ right. exact Hc.
      * intros x y Hxy Hns.
        destruct (coord_eqb_spec (x, y) (nx, ny)) as [E|E].
        -- injection E as -> ->. rewrite Hsame. intros _.
           rewrite mget_set_same by assumption. cbn [fst snd].
           rewrite mget_set_other by assumption. rewrite <- Hrec.
           split; [|lia]. unfold nd, nx, ny. rewrite !Z.add_simpl_l.
           destruct d; reflexivity.
        -- rewrite !(mget_set_other _ _ _ _ _ x y) by assumption. intros Hfin.
           destruct (finv_prev _ s HF x y Hxy Hns Hfin) as [H1 H2].
           unfold dist_at, prev_at in H1, H2.
           destruct (inv_prev s HI x y Hxy Hns Hfin) as (Hpin & _).
           unfold prev_at in Hpin.
           set (p := mget NO_PREV (prev s) x y) in *.
           assert (Hpne : (fst p, snd p) <> (nx, ny)).
           { intros E'. injection E' as E1 E2. rewrite E1, E2 in H2. lia. }
           rewrite mget_set_other by assumption. split; [exact H1 | exact H2].
      * rewrite (Permutation_length (q_push_elems _ _)).
        rewrite (credits_mset _ _ nx ny nd Hwd Hin).
        pose proof (credit_relax (node_g node) (mget 0 (dist s) nx ny) d HL0 Hlt) as Hcr.
        fold nd in Hcr.
        assert (Hsl : Z.of_nat (length (if is_anchor nx ny then steps s
                                         else steps s ++ [mkStep (nx, ny) Cyan]))
                      <= Z.of_nat (length (steps s)) + 1).
        { destruct (is_anchor _ _); [lia|]. rewrite length_app. simpl. lia. }
        cbn [length]. lia.
    + rewrite (relax_skip Dijkstra s node d Hrel).
      constructor; cbn [dist prev pq steps pc]; try apply HF. reflexivity.
  - exists L. split; [lia | exact HF].
Qed.

Lemma steps_from_finv (k : nat) (s : sstate) (L : float) :
  Inv s -> DInv s -> FInv L s -> exists L', FInv L' (steps_from Dijkstra k s).
Proof.
  revert s L. induction k as [|k IH]; intros s L HI HD HF; simpl; [eauto|].
  destruct (step_finv s L HI HD HF) as (L' & _ & HF').
  apply (IH _ L'); [apply step_inv | apply step_dinv | exact HF']; assumption.
Qed.

(** What the code after the loop returns, on a state of the search. *)
Lemma finish_path (alg : algorithm) (fuel : nat) (s : sstate) (r : search_result) :
  Inv s -> finish alg fuel s = Returned r ->
  (path r = None /\ trace r = steps s /\ FLT_MAX <= dist_at s endX endY) \/
  (exists l, path r = Some (rev (l ++ [(startX, startY)])) /\
     links s (endX, endY) l /\ dist_at s endX endY < FLT_MAX /\
     Z.of_nat (length l) < N * N /\
     trace r = steps s ++ path_steps alg (rev (l ++ [(startX, startY)]))).
Proof.
  intros HI. unfold finish. destruct (flt (dist_at s endX endY) FLT_MAX) eqn:E.
  - apply Z.ltb_lt in E.
    pose proof (rank_lt_cells s (endX, endY) Hend) as Hrk.
    pose proof length_cells as Hlc.
    destruct (follow_prev_links s (Z.to_nat (N * N)) HI endX endY [] Hend E ltac:(lia))
      as (l & Hl & Hlk & Hlen).
    assert (Hrec : reconstruct (Z.to_nat (N * N)) (prev s) =
                   Returned (rev (l ++ [(startX, startY)]))).
    { unfold reconstruct. rewrite Hl. reflexivity. }
    destruct (reconstruct fuel (prev s)) as [p| |] eqn:Ep; try discriminate.
    apply (reconstruct_more _ (Z.to_nat (N * N))) in Ep.
    apply (reconstruct_more _ fuel) in Hrec. rewrite Nat.add_comm in Hrec.
    assert (p = rev (l ++ [(startX, startY)])) by congruence. subst p.
    intros H; injection H as <-. right. exists l. cbn [path trace].
    split; [reflexivity|]. split; [exact Hlk|]. split; [exact E|].
    split; [unfold coord in *; lia | reflexivity].
  - apply Z.ltb_ge in E. intros H; injection H as <-. left. auto.
Qed.

Lemma path_steps_length (alg : algorithm) (p : list coord) :
  (length (path_steps alg p) <= length p)%nat.
Proof.
  unfold path_steps. rewrite length_map.
  apply (count_le_length (fun c => negb (is_anchor (fst c) (snd c))) p).
Qed.

(** The events of a Dijkstra run: at most two "open" and two "visited"
    steps per cell, and a path of at most [N * N] cells; fewer than the
    [8 * N * N + N] of the specification. *)
Theorem dijkstra_trace_bound (fuel : nat) (r : search_result) :
  search Dijkstra fuel = Returned r ->
  Z.of_nat (length (trace r)) <= 5 * (N * N) /\
  Z.of_nat (length (trace r)) <= 8 * (N * N) + N.
Proof.
  intros Hs.
  destruct (search_returns Dijkstra) as (f0 & s & r0 & Hrun & HI & Hpc & Hfin & Hs0).
  assert (r = r0) by (eapply search_deterministic; eauto). subst r0.
  destruct (run_loop_steps_from _ _ _ _ Hrun) as [k Hk].
  destruct (steps_from_finv k _ 0 (init_inv Dijkstra) init_dinv init_finv) as [L HF].
  rewrite <- Hk in HF.
  pose proof (finv_count L s HF) as Hc.
  pose proof (credits_bounds L (dist s) (inv_wf_dist s HI)) as Hb.
  assert (Hlen : Z.of_nat (length (trace r)) <= 5 * (N * N)).
  { destruct (finish_path _ _ _ _ HI Hfin) as [(_ & Ht & _)|(l & _ & _ & _ & Hl & Ht)];
      rewrite Ht.
    - nia.
    - rewrite length_app.
      pose proof (path_steps_length Dijkstra (rev (l ++ [(startX, startY)]))) as Hp.
      rewrite length_rev, length_app in Hp. simpl in Hp. lia. }
  split; [exact Hlen | nia].
Qed.

(** *** Dijkstra: the returned path is a cheapest one

    Costs are compared as the program computes them: the move costs of a
    path added up in single precision from the start on. *)

Lemma last_cons_any {A} (l : list A) (c d : A) : last (c :: l) d = last l c.
Proof.
  revert c d. induction l as [|h t IH]; intros c d; [reflexivity|].
  change (last (c :: h :: t) d) with (last (h :: t) d). rewrite !IH. reflexivity.
Qed.

Lemma path_cost_from_cons (acc : float) (a b : coord) (t : list coord) :
  path_cost_from acc (a :: b :: t) =
  path_cost_from (fadd acc (moveCost (fst b - fst a, snd b - snd a))) (b :: t).
Proof. reflexivity. Qed.

Lemma path_cost_from_snoc (q : list coord) (p t : coord) (acc : float) :
  path_cost_from acc ((q ++ [p]) ++ [t]) =
  fadd (path_cost_from acc (q ++ [p])) (moveCost (fst t - fst p, snd t - snd p)).
Proof.
  revert acc. induction q as [|h q' IH]; intros acc; [reflexivity|].
  cbn [app]. destruct (q' ++ [p]) as [|c u] eqn:E; [destruct q'; discriminate|].
  cbn [app]. rewrite !path_cost_from_cons. apply (IH _).
Qed.

Lemma path_cost_from_f32 (l : list coord) (acc : float) :
  is_f32 acc -> is_f32 (path_cost_from acc l).
Proof.
  revert acc. induction l as [|a t IH]; intros acc Hacc; [exact Hacc|].
  destruct t as [|b u]; [exact Hacc|].
  change (is_f32 (path_cost_from (fadd acc (moveCost (fst b - fst a, snd b - snd a)))
                                 (b :: u))).
  apply IH. destruct Hacc as [[H0 _] _].
  destruct (moveCost_bounds (fst b - fst a, snd b - snd a)).
  apply fadd_is_f32; unfold F_ONE in *; lia.
Qed.

(** No path costs [FLT_MAX]: the sum stops growing at 2^25. *)
Lemma fadd_saturates (a w : float) :
  0 <= a <= 2 ^ 25 * F_ONE -> 0 <= w <= 2 * F_ONE -> fadd a w <= 2 ^ 25 * F_ONE.
Proof.
  intros Ha Hw.
  pose proof (fadd_mono a (2 ^ 25 * F_ONE) w (2 * F_ONE)) as H.
  assert (E : fadd (2 ^ 25 * F_ONE) (2 * F_ONE) = 2 ^ 25 * F_ONE)
    by (vm_compute; reflexivity).
  rewrite E in H. apply H; lia.
Qed.

Lemma path_cost_from_finite (l : list coord) (acc : float) :
  0 <= acc <= 2 ^ 25 * F_ONE -> 0 <= path_cost_from acc l <= 2 ^ 25 * F_ONE.
Proof.
  revert acc. induction l as [|a t IH]; intros acc Hacc; [exact Hacc|].
  destruct t as [|b u]; [exact Hacc|].
  change (0 <= path_cost_from (fadd acc (moveCost (fst b - fst a, snd b - snd a)))
                              (b :: u) <= 2 ^ 25 * F_ONE).
  apply IH. destruct (moveCost_bounds (fst b - fst a, snd b - snd a)).
  split.
  - apply fadd_nonneg; unfold F_ONE in *; lia.
  - apply fadd_saturates; unfold F_ONE in *; lia.
Qed.

(** The chain of predecessors of a cell adds up to the cost recorded for it. *)
Lemma links_cost (s : sstate) (L : float) (t : coord) (l : list coord) :
  Inv s -> FInv L s -> links s t l ->
  in_grid (fst t) (snd t) = true -> dist_at s (fst t) (snd t) < FLT_MAX ->
  path_cost (rev (l ++ [(startX, startY)])) = dist_at s (fst t) (snd t).
Proof.
  intros HI HF. induction 1 as [|t l Hne Hmv Hl IH]; intros Hin Hfin.
  - simpl. symmetry. apply (inv_start s HI).
  - destruct t as [x y]. cbn [fst snd] in *.
    assert (Hns : is_start x y = false).
    { destruct (is_start x y) eqn:E; [|reflexivity].
      apply is_start_iff in E. congruence. }
    destruct (inv_prev s HI x y Hin Hns Hfin) as (Hpin & _ & _ & _ & Hlt).
    destruct (finv_prev L s HF x y Hin Hns Hfin) as [Heq _].
    cbv zeta in Hpin, Hlt.
    set (p := prev_at s x y) in *.
    specialize (IH Hpin ltac:(lia)).
    destruct (links_path s _ _ Hl) as (q & Hq & _).
    change (rev (((x, y) :: l) ++ [(startX, startY)]))
      with (rev (l ++ [(startX, startY)]) ++ [(x, y)]).
    rewrite Hq in IH |- *. unfold path_cost in *.
    rewrite path_cost_from_snoc, IH. cbn [fst snd]. symmetry. exact Heq.
Qed.

(** Along a walk from a cell whose recorded cost is at most the cost
    accumulated so far, the recorded cost of the cell reached stays at most
    the accumulated cost, until the accumulated cost passes the floor. *)
Lemma walk_cost_bound (s : sstate) (L : float) :
  Inv s -> FInv L s ->
  forall (l : list coord) (c : coord) (acc : float),
    is_path (c :: l) -> in_grid (fst c) (snd c) = true -> is_f32 acc ->
    dist_at s (fst c) (snd c) <= acc \/ L <= acc \/ FLT_MAX <= acc ->
    dist_at s (fst (last l c)) (snd (last l c)) <= path_cost_from acc (c :: l) \/
    L <= path_cost_from acc (c :: l) \/ FLT_MAX <= path_cost_from acc (c :: l).
Proof.
  intros HI HF. induction l as [|b l IH]; intros c acc Hp Hin Hacc Hc; [exact Hc|].
  destruct Hp as [(Hnb & Hbin & Hbw) Hp].
  rewrite last_cons_any.
  change (path_cost_from acc (c :: b :: l))
    with (path_cost_from (fadd acc (moveCost (fst b - fst c, snd b - snd c))) (b :: l)).
  set (w := moveCost (fst b - fst c, snd b - snd c)).
  destruct (moveCost_bounds (fst b - fst c, snd b - snd c)) as [Hw0 Hw1]. fold w in Hw0, Hw1.
  assert (Hw : 0 <= w) by (unfold F_ONE in *; lia).
  pose proof (fadd_ge_l acc w Hacc Hw) as Hge.
  destruct Hacc as [[Ha0 Ha1] Har].
  apply IH; [exact Hp | exact Hbin | apply fadd_is_f32; lia |].
  destruct Hc as [Hc|[Hc|Hc]]; [|right; left; lia|right; right; lia].
  pose proof (inv_range s HI _ _ Hin) as Hrc.
  destruct (Z.lt_ge_cases (dist_at s (fst c) (snd c)) FLT_MAX) as [Hfin|Hinf];
    [|right; right; lia].
  destruct (finv_cells L s HF _ _ Hin Hfin) as [Hcl|Hfl]; [|right; left; lia].
  left. destruct Hnb as (dir & Hdir & Hx & Hy).
  specialize (Hcl dir Hdir). unfold relaxed in Hcl.
  rewrite <- Hx, <- Hy in Hcl. specialize (Hcl Hbin Hbw).
  assert (Ew : w = moveCost dir).
  { unfold w. replace (fst b - fst c) with (fst dir) by lia.
    replace (snd b - snd c) with (snd dir) by lia. destruct dir; reflexivity. }
  pose proof (fadd_mono (dist_at s (fst c) (snd c)) acc w w ltac:(lia) Hw Hc ltac:(lia)).
  unfold dist_at in *. rewrite <- Ew in Hcl. lia.
Qed.

(** Dijkstra's result is best possible in the program's own arithmetic: the
    returned path goes from the start to the end by legal moves and no such
    path has a smaller accumulated cost; and when no path is returned, there
    is none. *)
Theorem dijkstra_path_is_cheapest (fuel : nat) (r : search_result) :
  search Dijkstra fuel = Returned r ->
  match path r with
  | Some p =>
      path_from_start_to_end p /\
      forall q, path_from_start_to_end q -> path_cost p <= path_cost q
  | None => forall q, ~ path_from_start_to_end q
  end.
Proof.
  intros Hs.
  destruct (search_returns Dijkstra) as (f0 & s & r0 & Hrun & HI & Hpc & Hfin & Hs0).
  assert (r = r0) by (eapply search_deterministic; eauto). subst r0.
  destruct (run_loop_steps_from _ _ _ _ Hrun) as [k Hk].
  destruct (steps_from_finv k _ 0 (init_inv Dijkstra) init_dinv init_finv) as [L HF].
  rewrite <- Hk in HF.
  pose proof (finv_pc L s HF) as HL. rewrite Hpc in HL. cbv iota in HL.
  pose proof (inv_range s HI endX endY Hend) as Hre.
  assert (Hwalk : forall q, path_from_start_to_end q ->
                    dist_at s endX endY <= path_cost q < FLT_MAX).
  { intros q (Hh & Hlast & Hp).
    destruct q as [|c l]; [discriminate|]. injection Hh as ->.
    rewrite last_cons_any in Hlast.
    pose proof is_f32_consts as (Hz & _).
    pose proof (walk_cost_bound s L HI HF l (startX, startY) 0 Hp Hstart Hz) as Hb.
    rewrite Hlast in Hb. cbn [fst snd] in Hb.
    pose proof (inv_start s HI) as H0.
    specialize (Hb ltac:(left; cbn [fst snd]; lia)).
    pose proof (path_cost_from_finite ((startX, startY) :: l) 0
                  ltac:(unfold F_ONE; lia)) as Hf.
    unfold path_cost. unfold F_ONE, FLT_MAX, coord in *. lia. }
  destruct (finish_path _ _ _ _ HI Hfin) as [(Hn & _ & Hinf)|(l & Hl & Hlk & Hlt & _ & _)].
  - rewrite Hn. intros q Hq. specialize (Hwalk q Hq). lia.
  - rewrite Hl. split.
    + destruct (links_path s _ _ Hlk) as (q & Hq & Hp & Hh).
      unfold coord in *. rewrite Hq. repeat split; auto. apply last_last.
    + intros q Hq. pose proof (links_cost s L _ _ HI HF Hlk Hend Hlt) as Hcost.
      cbn [fst snd] in Hcost. unfold coord in *. rewrite Hcost. apply (Hwalk q Hq).
Qed.

(** *** Either strategy: a path is returned exactly when there is one

    Every cell reached has an entry at its recorded cost in the queue, or is
    being expanded at that cost, or has been: none of its neighbours can be
    improved from it.  When the queue runs empty every cell reached is of the
    last kind, so the cells reached are closed under legal moves. *)

Record CInv (s : sstate) : Prop := {
  cinv_f32 : forall x y, in_grid x y = true -> is_f32 (dist_at s x y);
  cinv_cells : pc s <> Exited -> forall x y, in_grid x y = true ->
      dist_at s x y < FLT_MAX ->
      pending (dist s) (pq s) x y \/ expanding (dist s) (pc s) x y \/
      closed (dist s) x y;
  cinv_exit : pc s = Exited ->
      dist_at s endX endY < FLT_MAX \/
      forall x y, in_grid x y = true -> dist_at s x y < FLT_MAX -> closed (dist s) x y
}.

Lemma init_cinv (alg : algorithm) : CInv (init alg).
Proof.
  pose proof (init_inv alg) as HI.
  constructor.
  - intros x y Hxy. unfold dist_at, init. cbn [dist].
    destruct (coord_eqb_spec (x, y) (startX, startY)) as [E|E].
    + injection E as -> ->. rewrite mget_set_same by (auto; apply mconst_wf).
      apply is_f32_consts.
    + rewrite mget_set_other by assumption. apply in_grid_iff in Hxy.
      unfold mget. rewrite mread_mconst by lia. apply is_f32_consts.
  - intros _ x y Hxy Hfin. left.
    assert (E : (x, y) = (startX, startY)).
    { destruct (coord_eqb_spec (x, y) (startX, startY)) as [E|E]; [exact E|].
      exfalso. unfold dist_at, init in Hfin. cbn [dist] in Hfin.
      rewrite mget_set_other in Hfin by assumption. apply in_grid_iff in Hxy.
      unfold mget in Hfin. rewrite mread_mconst in Hfin by lia. lia. }
    injection E as -> ->.
    exists (mkNode (match alg with Dijkstra => 0 | AStar => heuristic startX startY end)
                   0 startX startY). split.
    + unfold init. cbn [pq].
      eapply Permutation_in; [symmetry; apply q_push_elems|]. left. reflexivity.
    + cbn [node_x node_y node_g]. pose proof (inv_start _ HI) as H0.
      unfold dist_at in H0. rewrite H0. auto.
  - unfold init. cbn [pc]. discriminate.
Qed.

Lemma step_cinv (alg : algorithm) (s : sstate) : Inv s -> CInv s -> CInv (step alg s).
Proof.
  intros HI HC. unfold step.
  destruct (pc s) as [|node [|d ds]|] eqn:Hpc; [| | |exact HC].
  - (* at the head of the loop *)
    destruct (q_pop (pq s)) as [[node q']|] eqn:Hpop.
    2:{ pose proof (q_pop_none _ Hpop) as Hnil.
        constructor; unfold dist_at in *; cbn [dist prev pq steps pc].
        - apply HC.
        - intros H; congruence.
        - intros _. right. intros x y Hxy Hfin.
          destruct (cinv_cells s HC ltac:(congruence) x y Hxy Hfin) as [Hp|[He|Hc]].
          + destruct Hp as (m & Hm & _). rewrite Hnil in Hm. destruct Hm.
          + destruct He as (? & ? & E & _). congruence.
          + exact Hc. }
    destruct (q_pop_some _ _ _ Hpop) as [Hperm Hmin].
    pose proof (Permutation_Forall Hperm (inv_queue s HI)) as Hq.
    inversion Hq as [|? ? Hnode Hq']; subst.
    assert (Hcells : forall x y, in_grid x y = true -> dist_at s x y < FLT_MAX ->
              (node_g node = dist_at s x y /\ node_x node = x /\ node_y node = y) \/
              pending (dist s) q' x y \/ closed (dist s) x y).
    { intros x y Hxy Hfin.
      destruct (cinv_cells s HC ltac:(congruence) x y Hxy Hfin) as [Hp|[He|Hc]].
      - destruct Hp as (m & Hm & Hx & Hy & Hg).
        apply (Permutation_in _ Hperm) in Hm. destruct Hm as [<-|Hm]; [left; auto|].
        right; left. exists m. auto.
      - destruct He as (? & ? & E & _). congruence.
      - right; right. exact Hc. }
    cbv zeta. destruct (stale s node) eqn:Hst.
    + constructor; unfold dist_at in *; cbn [dist prev pq steps pc].
      * apply HC.
      * intros _ x y Hxy Hfin.
        destruct (Hcells x y Hxy Hfin) as [(Hg & Hx & Hy)|[Hp|Hc]]; auto.
        exfalso. subst x y.
        unfold stale, fgt, dist_at in Hst. apply Z.ltb_lt in Hst.
        pose proof (fadd_ge_l _ FLT_EPSILON (cinv_f32 s HC _ _ Hxy)
                      ltac:(unfold FLT_EPSILON; lia)).
        unfold dist_at in *. lia.
      * intros H; discriminate.
    + destruct (is_end (node_x node) (node_y node)) eqn:He.
      * constructor; unfold dist_at in *; cbn [dist prev pq steps pc].
        -- apply HC.
        -- intros H; congruence.
        -- intros _. left. apply is_end_iff in He. injection He as <- <-.
           destruct (node_cost_small _ _ Hnode) as [_ Hsmall].
           destruct Hnode as (_ & _ & Hd & _).
           change (2 ^ 24) with 16777216 in Hsmall. unfold F_ONE, FLT_MAX in *. lia.
      * constructor; unfold dist_at in *; cbn [dist prev pq steps pc].
        -- apply HC.
        -- intros _ x y Hxy Hfin.
           destruct (Hcells x y Hxy Hfin) as [(Hg & Hx & Hy)|[Hp|Hc]]; auto.
           right; left. exists node, directions. auto 10.
        -- intros H; discriminate.
  - (* the [for] loop is over *)
    constructor; unfold dist_at in *; cbn [dist prev pq steps pc].
    + apply HC.
    + intros _ x y Hxy Hfin.
      destruct (cinv_cells s HC ltac:(congruence) x y Hxy Hfin) as [Hp|[He|Hc]]; auto.
      right; right. destruct He as (n0 & ds0 & E & Hx & Hy & Hg & Hall).
      rewrite Hpc in E. injection E as <- <-.
      intros dir Hdir. destruct (Hall dir Hdir) as [[]|Hr]. exact Hr.
    + intros H; discriminate.
  - (* one direction *)
    pose proof (inv_pc s HI) as Hp. rewrite Hpc in Hp.
    destruct Hp as (Hnode & Hincl & _).
    destruct (relaxes s node d) eqn:Hrel.
    + rewrite (relax_update alg s node d Hrel). cbv zeta.
      cbn [dist prev pq steps pc].
      unfold relaxes in Hrel. cbv zeta in Hrel.
      apply andb_true_iff in Hrel. destruct Hrel as [Hguard Hlt].
      apply andb_true_iff in Hguard. destruct Hguard as [Hin Hw].
      apply negb_true_iff in Hw.
      unfold flt in Hlt. apply Z.ltb_lt in Hlt. unfold dist_at in *.
      set (nx := node_x node + fst d) in *. set (ny := node_y node + snd d) in *.
      set (nd := fadd (node_g node) (moveCost d)) in *.
      destruct (node_cost_small _ _ Hnode) as [Hcd0 Hcd1].
      destruct (moveCost_bounds d) as [Hmc0 Hmc1].
      destruct (fadd_step (node_g node) (moveCost d) Hcd0 Hcd1 Hmc0 Hmc1) as [Hgrow _].
      fold nd in Hgrow.
      assert (Hne : (node_x node, node_y node) <> (nx, ny)).
      { intros E. injection E as E1 E2. rewrite <- E1, <- E2 in Hlt.
        destruct Hnode as (_ & _ & Hd & _). lia. }
      assert (Hwd := inv_wf_dist s HI).
      assert (Hsame : mget 0 (mset (dist s) nx ny nd) nx ny = nd)
        by (apply mget_set_same; assumption).
      constructor; unfold dist_at; cbn [dist prev pq steps pc].
      * intros x y Hxy.
        destruct (coord_eqb_spec (x, y) (nx, ny)) as [E|E].
        -- injection E as -> ->. rewrite Hsame.
           apply fadd_is_f32; unfold F_ONE in *; lia.
        -- rewrite mget_set_other by assumption. apply (cinv_f32 s HC x y Hxy).
      * intros _ x y Hxy.
        destruct (coord_eqb_spec (x, y) (nx, ny)) as [E|E].
        -- injection E as -> ->. intros _. left.
           exists (mkNode (priority alg nd nx ny) nd nx ny). rewrite Hsame.
           split; [|auto].
           eapply Permutation_in; [symmetry; apply q_push_elems|]. left. reflexivity.
        -- rewrite mget_set_other by assumption. intros Hfin.
           destruct (cinv_cells s HC ltac:(congruence) x y Hxy Hfin) as [Hp|[He|Hc]].
           ++ left. destruct Hp as (m & Hm & Hx & Hy & Hg). exists m.
              rewrite mget_set_other by assumption.
              split; [|auto].
              eapply Permutation_in; [symmetry; apply q_push_elems|]. right. exact Hm.
           ++ right; left. destruct He as (n0 & ds0 & E0 & Hx & Hy & Hg & Hall).
              rewrite Hpc in E0. injection E0 as <- <-. subst x y.
              exists node, ds. rewrite mget_set_other by assumption.
              repeat split; auto.
              intros dir Hdir. destruct (Hall dir Hdir) as [[<-|Hi]|Hr].
              ** right. intros _ _. fold nx ny. rewrite Hsame.
                 rewrite mget_set_other by assumption. rewrite <- Hg. fold nd. lia.
              ** left. exact Hi.
              ** right. apply relaxed_lower; auto.
           ++ right; right. apply closed_lower; auto.
      * intros H; discriminate.
    + rewrite (relax_skip alg s node d Hrel).
      constructor; unfold dist_at; cbn [dist prev pq steps pc].
      * apply HC.
      * intros _ x y Hxy Hfin.
        destruct (cinv_cells s HC ltac:(congruence) x y Hxy Hfin) as [Hp|[He|Hc]]; auto.
        right; left. destruct He as (n0 & ds0 & E0 & Hx & Hy & Hg & Hall).
        rewrite Hpc in E0. injection E0 as <- <-. subst x y.
        exists node, ds. repeat split; auto.
        intros dir Hdir. destruct (Hall dir Hdir) as [[<-|Hi]|Hr]; auto.
        right. intros Hg' Hw'. unfold relaxes in Hrel. cbv zeta in Hrel.
        rewrite Hg', Hw' in Hrel. simpl in Hrel. unfold flt, dist_at in Hrel.
        apply Z.ltb_ge in Hrel. rewrite <- Hg. exact Hrel.
      * intros H; discriminate.
Qed.

Lemma steps_from_cinv (alg : algorithm) (k : nat) (s : sstate) :
  Inv s -> CInv s -> CInv (steps_from alg k s).
Proof.
  revert s. induction k as [|k IH]; intros s HI HC; simpl; [exact HC|].
  apply IH; [apply step_inv | apply step_cinv]; assumption.
Qed.

(** Where every cell reached is closed, every cell of a walk from a cell
    reached has been reached. *)
Lemma walk_reached (s : sstate) :
  Inv s ->
  (forall x y, in_grid x y = true -> dist_at s x y < FLT_MAX -> closed (dist s) x y) ->
  forall (l : list coord) (c : coord),
    is_path (c :: l) -> in_grid (fst c) (snd c) = true ->
    dist_at s (fst c) (snd c) < FLT_MAX ->
    dist_at s (fst (last l c)) (snd (last l c)) < FLT_MAX.
Proof.
  intros HI Hall. induction l as [|b l IH]; intros c Hp Hin Hfin; [exact Hfin|].
  destruct Hp as [(Hnb & Hbin & Hbw) Hp].
  rewrite last_cons_any. apply IH; [exact Hp | exact Hbin |].
  destruct Hnb as (dir & Hdir & Hx & Hy).
  pose proof (Hall _ _ Hin Hfin dir Hdir) as Hr. unfold relaxed in Hr.
  rewrite <- Hx, <- Hy in Hr. specialize (Hr Hbin Hbw).
  pose proof (inv_range s HI _ _ Hin) as Hrc.
  pose proof (inv_bound s HI _ _ Hin Hfin) as Hb.
  pose proof (n_finite_bounds (dist s)) as Hn.
  assert (Hnn : N * N <= 1024 * 1024) by nia.
  destruct (moveCost_bounds dir) as [Hw0 Hw1].
  pose proof (fadd_saturates (dist_at s (fst c) (snd c)) (moveCost dir)
                ltac:(unfold F_ONE in *; lia) ltac:(unfold F_ONE in *; lia)) as Hs.
  unfold dist_at in *. unfold F_ONE, FLT_MAX in *. lia.
Qed.

Lemma search_path (alg : algorithm) (fuel : nat) (r : search_result) :
  search alg fuel = Returned r ->
  (forall p, path r = Some p -> path_from_start_to_end p) /\
  ((exists q, path_from_start_to_end q) -> exists p, path r = Some p).
Proof.
  intros Hs.
  destruct (search_returns alg) as (f0 & s & r0 & Hrun & HI & Hpc & Hfin & Hs0).
  assert (r = r0) by (eapply search_deterministic; eauto). subst r0.
  destruct (run_loop_steps_from _ _ _ _ Hrun) as [k Hk].
  pose proof (steps_from_cinv alg k _ (init_inv alg) (init_cinv alg)) as HC.
  rewrite <- Hk in HC.
  split.
  - intros p Hp.
    destruct (finish_path _ _ _ _ HI Hfin) as [(Hn & _)|(l & Hl & Hlk & _)];
      [congruence|].
    rewrite Hl in Hp. injection Hp as <-.
    destruct (links_path s _ _ Hlk) as (q & Hq & Hpath & Hh).
    unfold coord in *. rewrite Hq. repeat split; auto. apply last_last.
  - intros (q & Hh & Hlast & Hp).
    destruct (finish_path _ _ _ _ HI Hfin) as [(Hn & _ & Hinf)|(l & Hl & _)]; [|eauto].
    exfalso.
    destruct (cinv_exit s HC Hpc) as [Hlt|Hall]; [lia|].
    destruct q as [|c l]; [discriminate|]. injection Hh as ->.
    rewrite last_cons_any in Hlast.
    pose proof (walk_reached s HI Hall l (startX, startY) Hp Hstart) as Hw.
    rewrite Hlast in Hw. cbn [fst snd] in Hw.
    pose proof (inv_start s HI) as H0.
    specialize (Hw ltac:(unfold FLT_MAX; lia)). lia.
Qed.

(** Either strategy returns a path exactly when the end can be reached from
    the start by legal moves, and what it returns is such a path. *)
Theorem path_found_iff_reachable (alg : algorithm) (fuel : nat) (r : search_result) :
  search alg fuel = Returned r ->
  (forall p, path r = Some p -> path_from_start_to_end p) /\
  ((exists q, path_from_start_to_end q) -> exists p, path r = Some p) /\
  (path r = None -> message r = no_path_message alg).
Proof.
  intros Hs. destruct (search_path alg fuel r Hs) as [H1 H2].
  split; [exact H1|]. split; [exact H2|].
  intros Hn.
  destruct (search_returns alg) as (f0 & s & r0 & _ & _ & _ & Hfin & Hs0).
  assert (r = r0) by (eapply search_deterministic; eauto). subst r0.
  destruct (finish_trace _ _ _ _ Hfin) as (e & _ & _ & He).
  apply (He Hn).
Qed.

(** *** The error of a path cost *)

Lemma diagonals_cons (a b : coord) (t : list coord) :
  diagonals (a :: b :: t) =
  (if is_diagonal (fst b - fst a, snd b - snd a) then 1 else 0) + diagonals (b :: t).
Proof. reflexivity. Qed.

Lemma cardinals_cons (a b : coord) (t : list coord) :
  cardinals (a :: b :: t) =
  (if is_diagonal (fst b - fst a, snd b - snd a) then 0 else 1) + cardinals (b :: t).
Proof. reflexivity. Qed.

Lemma moves_nonneg (l : list coord) : 0 <= cardinals l /\ 0 <= diagonals l.
Proof.
  induction l as [|a t IH]; [simpl; lia|].
  destruct t as [|b u]; [simpl; lia|].
  rewrite cardinals_cons, diagonals_cons. destruct (is_diagonal _); lia.
Qed.

Lemma moves_length (l : list coord) :
  cardinals l + diagonals l = Z.of_nat (length l) - match l with [] => 0 | _ => 1 end.
Proof.
  induction l as [|a t IH]; [reflexivity|].
  destruct t as [|b u]; [reflexivity|].
  rewrite cardinals_cons, diagonals_cons.
  change (length (a :: b :: u)) with (S (length (b :: u))).
  destruct (is_diagonal _); lia.
Qed.

Lemma moveCost_cases' (dir : coord) :
  (moveCost dir = CARDINAL_COST /\ is_diagonal dir = false) \/
  (moveCost dir = DIAGONAL_COST /\ is_diagonal dir = true).
Proof. unfold moveCost, is_diagonal. destruct (_ && _); auto. Qed.

Lemma path_cost_from_ge (l : list coord) (acc : float) :
  is_f32 acc -> acc <= path_cost_from acc l.
Proof.
  revert acc. induction l as [|a t IH]; intros acc Hacc; [simpl; lia|].
  destruct t as [|b u]; [simpl; lia|].
  rewrite path_cost_from_cons.
  destruct (moveCost_bounds (fst b - fst a, snd b - snd a)) as [Hw _].
  pose proof (fadd_ge_l acc (moveCost (fst b - fst a, snd b - snd a)) Hacc
                ltac:(unfold F_ONE in *; lia)) as H1.
  destruct Hacc as [[H0 _] _].
  pose proof (IH (fadd acc (moveCost (fst b - fst a, snd b - snd a)))
                ltac:(apply fadd_is_f32; unfold F_ONE in *; lia)).
  lia.
Qed.

(** Below 512 the accumulated cost of a path differs from the exact sum of
    its move costs by at most 13 units of 2^-23 per diagonal move, and the
    allowance for the changes of binade. *)
Lemma path_cost_error (l : list coord) (acc : float) :
  is_f32 acc -> acc = 0 \/ F_ONE <= acc -> path_cost_from acc l < 2 ^ 158 ->
  Z.abs (path_cost_from acc l - (acc + exact_cost l)) <=
  13 * FLT_EPSILON * diagonals l + binade_allowance (path_cost_from acc l)
  - binade_allowance acc.
Proof.
  unfold exact_cost.
  revert acc. induction l as [|a t IH]; intros acc Hacc Hacc1 Hlt.
  { simpl. replace (acc - (acc + 0)) with 0 by lia. simpl. lia. }
  destruct t as [|b u].
  { simpl. replace (acc - (acc + 0)) with 0 by lia. simpl. lia. }
  rewrite path_cost_from_cons in *. rewrite cardinals_cons, diagonals_cons.
  set (dir := (fst b - fst a, snd b - snd a)) in *.
  set (acc' := fadd acc (moveCost dir)) in *.
  destruct (moveCost_bounds dir) as [Hw0 Hw1].
  pose proof Hacc as [[H0 _] _].
  assert (Hacc' : is_f32 acc') by (apply fadd_is_f32; unfold F_ONE in *; lia).
  assert (Hge : F_ONE <= acc').
  { pose proof (fadd_mono 0 acc (moveCost dir) (moveCost dir)
                  ltac:(lia) ltac:(unfold F_ONE in *; lia) H0 ltac:(lia)) as Hm.
    assert (E : fadd 0 (moveCost dir) = moveCost dir).
    { pose proof is_f32_consts as (_ & [_ H1] & [_ H2] & _).
      unfold fadd. simpl.
      unfold moveCost in *. destruct (_ && _); unfold CARDINAL_COST in *;
        [rewrite H2 | rewrite H1]; apply Z.min_r; unfold F_ONE, F_INF in *; lia. }
    fold acc' in Hm. lia. }
  pose proof (path_cost_from_ge (b :: u) acc' Hacc') as Hmono.
  specialize (IH acc' Hacc' (or_intror Hge) Hlt).
  assert (Hstep : Z.abs (acc' - (acc + moveCost dir)) <=
                  13 * FLT_EPSILON * (if is_diagonal dir then 1 else 0)
                  + binade_allowance acc' - binade_allowance acc).
  { apply fadd_error; [exact Hacc | exact Hacc1 | fold acc'; lia |].
    destruct (moveCost_cases' dir) as [[-> ->]|[-> ->]]; auto. }
  destruct (moveCost_cases' dir) as [[Em Ed]|[Em Ed]]; rewrite Em, Ed in *; lia.
Qed.

(** The cost of a walk of [n] moves is at most [n] times [STEP_BOUND]. *)

Lemma path_cost_crude (l : list coord) (acc : float) :
  0 <= acc -> acc + (cardinals l + diagonals l) * STEP_BOUND <= 2 ^ 13 * F_ONE ->
  path_cost_from acc l <= acc + (cardinals l + diagonals l) * STEP_BOUND.
Proof.
  revert acc. induction l as [|a t IH]; intros acc H0 Hb; [simpl; lia|].
  destruct t as [|b u]; [simpl; lia|].
  rewrite path_cost_from_cons. rewrite cardinals_cons, diagonals_cons in *.
  set (dir := (fst b - fst a, snd b - snd a)) in *.
  destruct (moveCost_bounds dir) as [Hw0 Hw1].
  destruct (moves_nonneg (b :: u)) as [Hc Hd].
  assert (Hone : (if is_diagonal dir then 0 else 1) + (if is_diagonal dir then 1 else 0) = 1)
    by (destruct (is_diagonal dir); reflexivity).
  assert (Hs : fadd acc (moveCost dir) <= acc + STEP_BOUND).
  { destruct (fadd_step acc (moveCost dir) H0
                ltac:(unfold STEP_BOUND, F_ONE in *; change (2 ^ 24) with 16777216;
                      change (2 ^ 13) with 8192 in Hb; lia) Hw0 Hw1) as [_ He].
    change (2 ^ 24) with 16777216 in He. change (2 ^ 13) with 8192 in Hb.
    unfold STEP_BOUND, F_ONE in *. lia. }
  pose proof (fadd_nonneg acc (moveCost dir) H0 ltac:(unfold F_ONE in *; lia)) as Hn.
  specialize (IH (fadd acc (moveCost dir)) Hn ltac:(unfold STEP_BOUND in *; lia)).
  unfold STEP_BOUND in *. lia.
Qed.

(** *** Dijkstra: the returned path has no shortcut

    A cell on the returned path that is not the end has been expanded from
    its final cost, so a cell of the path two or more places further on
    cannot lie next to it.  On a grid of side at most 20 such a path has at
    most two cells in each of the hundred 2x2 blocks. *)

(** The 2x2 block of a cell. *)
Definition block (c : coord) : coord := (fst c / 2, snd c / 2).

Lemma same_block_adjacent (c t : coord) :
  block c = block t -> c = t \/ neighbor c t.
Proof.
  clear HN Hstart Hend.
  destruct c as [cx cy], t as [tx ty]. unfold block. cbn [fst snd].
  intros E. injection E as Ex Ey.
  assert (Hx : tx - cx = -1 \/ tx - cx = 0 \/ tx - cx = 1)
    by (Z.div_mod_to_equations; lia).
  assert (Hy : ty - cy = -1 \/ ty - cy = 0 \/ ty - cy = 1)
    by (Z.div_mod_to_equations; lia).
  destruct (Z.eq_dec tx cx) as [Etx|Etx]; destruct (Z.eq_dec ty cy) as [Ety|Ety].
  - left. congruence.
  - right. exists (0, ty - cy). cbn [fst snd]. split; [|lia].
    unfold directions. destruct Hy as [->|[Hy| ->]]; simpl; try lia; tauto.
  - right. exists (tx - cx, 0). cbn [fst snd]. split; [|lia].
    unfold directions. destruct Hx as [->|[Hx| ->]]; simpl; try lia; tauto.
  - right. exists (tx - cx, ty - cy). cbn [fst snd]. split; [|lia].
    unfold directions.
    destruct Hx as [->|[Hx| ->]]; destruct Hy as [->|[Hy| ->]]; simpl; try lia; tauto.
Qed.

(** No cell lies in the block of a cell two or more places before it. *)
Fixpoint spread (l : list coord) : Prop :=
  match l with
  | [] => True
  | x :: rest => (forall c, In c (tl rest) -> block c <> block x) /\ spread rest
  end.

Definition in_block (B : coord) (c : coord) : bool := coord_eqb (block c) B.

Lemma count_none {A} (p : A -> bool) (l : list A) :
  (forall a, In a l -> p a = false) -> count p l = O.
Proof.
  unfold count. induction l as [|h t IH]; intros H; [reflexivity|]. simpl.
  rewrite (H h (or_introl eq_refl)). apply IH. intros a Ha. apply H. right. exact Ha.
Qed.

Lemma count_cons {A} (p : A -> bool) (h : A) (t : list A) :
  count p (h :: t) = ((if p h then 1 else 0) + count p t)%nat.
Proof. unfold count. simpl. destruct (p h); reflexivity. Qed.

Lemma spread_count (l : list coord) (B : coord) :
  spread l -> (count (in_block B) l <= 2)%nat.
Proof.
  induction l as [|x rest IH]; intros Hs; [unfold count; simpl; lia|].
  destruct Hs as [Hx Hrest]. specialize (IH Hrest).
  rewrite count_cons. destruct (in_block B x) eqn:Ex; [|lia].
  destruct rest as [|y r2]; [unfold count; simpl; lia|].
  rewrite count_cons. rewrite (count_none (in_block B) r2).
  - destruct (in_block B y); lia.
  - intros c Hc. unfold in_block in *.
    destruct (coord_eqb_spec (block c) B) as [E|E]; [|reflexivity].
    destruct (coord_eqb_spec (block x) B) as [E'|E']; [|discriminate].
    exfalso. apply (Hx c Hc). congruence.
Qed.

Lemma count_split {A} (p : A -> bool) (l : list A) :
  length l = (count p l + length (filter (fun a => negb (p a)) l))%nat.
Proof.
  unfold count. induction l as [|h t IH]; [reflexivity|]. simpl.
  destruct (p h); simpl; lia.
Qed.

Lemma count_filter_le {A} (p q : A -> bool) (l : list A) :
  (count p (filter q l) <= count p l)%nat.
Proof.
  unfold count. induction l as [|h t IH]; [simpl; lia|]. simpl.
  destruct (q h); simpl; destruct (p h); simpl; lia.
Qed.

(** At most two cells for each block: at most twice as many cells as blocks. *)
Lemma two_per_block (keys l : list coord) :
  (forall c, In c l -> In (block c) keys) ->
  (forall B, (count (in_block B) l <= 2)%nat) ->
  (length l <= 2 * length keys)%nat.
Proof.
  revert l. induction keys as [|k ks IH]; intros l Hin Hcnt.
  - destruct l as [|c l]; [simpl; lia|]. destruct (Hin c (or_introl eq_refl)).
  - rewrite (count_split (in_block k) l).
    pose proof (Hcnt k).
    assert (length (filter (fun a => negb (in_block k a)) l) <= 2 * length ks)%nat.
    { apply IH.
      - intros c Hc. apply filter_In in Hc. destruct Hc as [Hc Hk].
        destruct (Hin c Hc) as [E|E]; [|exact E].
        exfalso. unfold in_block in Hk. rewrite E in Hk.
        destruct (coord_eqb_spec (block c) (block c)); [discriminate | congruence].
      - intros B. eapply Nat.le_trans; [apply count_filter_le | apply Hcnt]. }
    simpl. lia.
Qed.

(** The hundred blocks of a grid of side 20. *)
Definition blocks : list coord :=
  list_prod (map Z.of_nat (seq 0 10)) (map Z.of_nat (seq 0 10)).

Lemma in_blocks (c : coord) :
  N <= 20 -> in_grid (fst c) (snd c) = true -> In (block c) blocks.
Proof.
  intros HN20 Hin. apply in_grid_iff in Hin. unfold block, blocks.
  apply in_prod_iff. split; apply in_map_iff.
  - exists (Z.to_nat (fst c / 2)).
    split; [|apply in_seq]; Z.div_mod_to_equations; lia.
  - exists (Z.to_nat (snd c / 2)).
    split; [|apply in_seq]; Z.div_mod_to_equations; lia.
Qed.

(** Two moves cost more than one. *)
Lemma two_moves_above_one (x : float) :
  0 <= x <= 2 ^ 21 * F_ONE ->
  fadd x DIAGONAL_COST < fadd (fadd x F_ONE) F_ONE.
Proof.
  intros Hx.
  pose proof cost_bounds as (_ & _ & Hd0 & Hd1).
  assert (Hup : 2 ^ 24 * (fadd x DIAGONAL_COST - (x + DIAGONAL_COST)) <= x + DIAGONAL_COST).
  { apply fadd_step; try lia. change (2 ^ 21) with 2097152 in Hx.
    change (2 ^ 24) with 16777216. unfold F_ONE in *. lia. }
  assert (Hlow : forall a, 0 <= a <= 2 ^ 22 * F_ONE ->
            2 ^ 24 * (a + F_ONE - fadd a F_ONE) <= a + F_ONE).
  { intros a Ha. unfold fadd.
    destruct (round24_error (a + F_ONE) ltac:(unfold F_ONE in *; lia)) as [Hlo Hhi].
    destruct (Z.min_spec F_INF (round24 (a + F_ONE))) as [[Hm ->]|[Hm ->]]; [|exact Hlo].
    change (2 ^ 22) with 4194304 in Ha. change (2 ^ 24) with 16777216 in *.
    unfold F_ONE, F_INF in *. lia. }
  pose proof (Hlow x ltac:(change (2 ^ 21) with 2097152 in Hx;
                          change (2 ^ 22) with 4194304; unfold F_ONE in *; lia)) as H1.
  assert (Hy : 0 <= fadd x F_ONE <= 2 ^ 22 * F_ONE).
  { split; [apply fadd_nonneg; unfold F_ONE; lia|].
    destruct (fadd_step x F_ONE ltac:(lia)
                ltac:(change (2 ^ 21) with 2097152 in Hx;
                      change (2 ^ 24) with 16777216; unfold F_ONE in *; lia)
                ltac:(lia) ltac:(unfold F_ONE; lia)) as [_ He].
    change (2 ^ 21) with 2097152 in Hx. change (2 ^ 22) with 4194304.
    change (2 ^ 24) with 16777216 in He. unfold F_ONE in *. lia. }
  pose proof (Hlow (fadd x F_ONE) Hy) as H2.
  change (2 ^ 21) with 2097152 in Hx. change (2 ^ 22) with 4194304 in Hy.
  change (2 ^ 24) with 16777216 in *.
  unfold F_ONE, DIAGONAL_COST in *. lia.
Qed.

Lemma links_dist (s : sstate) (t : coord) (l : list coord) :
  Inv s -> links s t l ->
  in_grid (fst t) (snd t) = true -> dist_at s (fst t) (snd t) < FLT_MAX ->
  Forall (fun c => in_grid (fst c) (snd c) = true /\
                   dist_at s (fst c) (snd c) <= dist_at s (fst t) (snd t))
         (l ++ [(startX, startY)]).
Proof.
  intros HI. induction 1 as [|t l Hne Hmv Hl IH]; intros Hin Hfin.
  - constructor; [split; [exact Hin | lia] | constructor].
  - destruct t as [x y]. cbn [fst snd] in *.
    assert (Hns : is_start x y = false).
    { destruct (is_start x y) eqn:E; [|reflexivity].
      apply is_start_iff in E. congruence. }
    destruct (inv_prev s HI x y Hin Hns Hfin) as (Hpin & _ & _ & _ & Hlt).
    cbv zeta in Hpin, Hlt.
    specialize (IH Hpin ltac:(lia)).
    cbn [app]. constructor; [split; [exact Hin | cbn [fst snd]; lia]|].
    eapply Forall_impl; [|exact IH]. cbn [fst snd]. intros c [H1 H2]. split; [exact H1 | lia].
Qed.

Lemma links_spread (s : sstate) (L : float) (t : coord) (l : list coord) :
  Inv s -> FInv L s -> links s t l ->
  in_grid (fst t) (snd t) = true -> dist_at s (fst t) (snd t) < FLT_MAX ->
  dist_at s (fst t) (snd t) <= L ->
  spread (l ++ [(startX, startY)]).
Proof.
  intros HI HF. induction 1 as [|t l Hne Hmv Hl IH]; intros Hin Hfin HL.
  - simpl. split; [intros c []|exact I].
  - destruct t as [x y]. cbn [fst snd] in *.
    assert (Hns : is_start x y = false).
    { destruct (is_start x y) eqn:E; [|reflexivity].
      apply is_start_iff in E. congruence. }
    destruct (inv_prev s HI x y Hin Hns Hfin) as (Hpin & _ & Hwall & _ & Hlt).
    destruct (finv_prev L s HF x y Hin Hns Hfin) as [Heq _].
    cbv zeta in Hpin, Hlt.
    set (p := prev_at s x y) in *.
    cbn [app]. split; [|apply IH; [exact Hpin | lia | lia]].
    inversion Hl as [Ep El|p' l2 Hpne Hpmv Hl2 Ep El]; [intros c []|].
    subst p'. cbn [app tl]. intros c Hc Hblk.
    destruct p as [px py] eqn:Epp. cbn [fst snd] in *.
    assert (Hpns : is_start px py = false).
    { destruct (is_start px py) eqn:E; [|reflexivity].
      apply is_start_iff in E. congruence. }
    destruct (inv_prev s HI px py Hpin Hpns ltac:(lia)) as (Hp2in & _ & _ & _ & Hlt2).
    destruct (finv_prev L s HF px py Hpin Hpns ltac:(lia)) as [Heq2 _].
    cbv zeta in Hp2in, Hlt2.
    set (p2 := prev_at s px py) in *.
    pose proof (links_dist s p2 l2 HI Hl2 Hp2in ltac:(lia)) as Hd.
    rewrite Forall_forall in Hd. destruct (Hd c Hc) as [Hcin Hcd].
    pose proof (inv_range s HI _ _ Hcin) as Hcr.
    pose proof (inv_range s HI _ _ Hp2in) as Hp2r.
    pose proof (inv_range s HI _ _ Hpin) as Hpr.
    assert (Hcfin : dist_at s (fst c) (snd c) < FLT_MAX) by lia.
    pose proof (inv_bound s HI _ _ Hcin Hcfin) as Hcb.
    pose proof (n_finite_bounds (dist s)) as Hnf.
    assert (Hnn : N * N <= 1024 * 1024) by nia.
    pose proof (two_moves_above_one (dist_at s (fst c) (snd c))
                  ltac:(change (2 ^ 21) with 2097152; unfold F_ONE in *; lia)) as Htwo.
    destruct (moveCost_bounds (px - fst p2, py - snd p2)) as [Hw1 _].
    destruct (moveCost_bounds (x - px, y - py)) as [Hw2 _].
    pose proof (fadd_mono (dist_at s (fst c) (snd c)) (dist_at s (fst p2) (snd p2))
                  F_ONE (moveCost (px - fst p2, py - snd p2))
                  ltac:(lia) ltac:(unfold F_ONE; lia) Hcd Hw1) as Hm1.
    rewrite <- Heq2 in Hm1.
    pose proof (fadd_mono (fadd (dist_at s (fst c) (snd c)) F_ONE) (dist_at s px py)
                  F_ONE (moveCost (x - px, y - py))
                  ltac:(apply fadd_nonneg; unfold F_ONE; lia)
                  ltac:(unfold F_ONE; lia) Hm1 Hw2) as Hm2.
    rewrite <- Heq in Hm2.
    destruct (same_block_adjacent c (x, y) Hblk) as [Ec|Hnb].
    + subst c. cbn [fst snd] in *. lia.
    + destruct Hnb as (dir & Hdir & Hx & Hy). cbn [fst snd] in Hx, Hy.
      destruct (finv_cells L s HF _ _ Hcin Hcfin) as [Hcl|Hfl]; [|lia].
      pose proof (Hcl dir Hdir) as Hr. unfold relaxed in Hr.
      rewrite <- Hx, <- Hy in Hr. specialize (Hr Hin Hwall).
      pose proof cardinal_le_diagonal as Hcd2.
      assert (Hmc : moveCost dir <= DIAGONAL_COST)
        by (unfold moveCost; destruct (_ && _); lia).
      destruct (moveCost_bounds dir) as [Hw3 _].
      pose proof (fadd_mono (dist_at s (fst c) (snd c)) (dist_at s (fst c) (snd c))
                    (moveCost dir) DIAGONAL_COST
                    ltac:(lia) ltac:(unfold F_ONE in *; lia) ltac:(lia) Hmc) as Hm3.
      unfold dist_at in *. lia.
Qed.

(** On a grid of side at most 20 the chain of predecessors from the end has
    at most 200 cells. *)
Lemma dijkstra_chain_short (s : sstate) (L : float) (l : list coord) :
  N <= 20 -> Inv s -> FInv L s -> pc s = Exited ->
  links s (endX, endY) l -> dist_at s endX endY < FLT_MAX ->
  (length (l ++ [(startX, startY)]) <= 200)%nat.
Proof.
  intros HN20 HI HF Hpc Hl Hfin.
  pose proof (finv_pc L s HF) as HL. rewrite Hpc in HL. cbv iota in HL.
  pose proof (links_spread s L _ _ HI HF Hl Hend Hfin HL) as Hsp.
  pose proof (links_dist s _ _ HI Hl Hend Hfin) as Hd.
  rewrite Forall_forall in Hd.
  change 200%nat with (2 * length blocks)%nat.
  apply two_per_block.
  - intros c Hc. apply in_blocks; [exact HN20 | apply (Hd c Hc)].
  - intros B. apply spread_count. exact Hsp.
Qed.

(** *** Exact costs: a + b sqrt 2

    A path of [a] cardinal and [b] diagonal moves costs a + b sqrt 2.  Two
    such costs are compared on integers: p + q sqrt 2 <= 0 is decided on the
    signs and the squares of [p] and [q]. *)

Definition neg_sqrt2 (p q : Z) : bool :=
  ((p <=? 0) && (q <=? 0)) ||
  ((p <=? 0) && (0 <? q) && (2 * (q * q) <=? p * p)) ||
  ((0 <? p) && (q <? 0) && (p * p <=? 2 * (q * q))).

(** The cost of [p] is at most the cost of [q], in exact arithmetic. *)
Definition cost_le (p q : list coord) : Prop :=
  neg_sqrt2 (cardinals p - cardinals q) (diagonals p - diagonals q) = true.

Lemma neg_sqrt2_spec (p q : Z) :
  neg_sqrt2 p q = true <->
  (p <= 0 /\ q <= 0) \/ (p <= 0 /\ 0 < q /\ 2 * (q * q) <= p * p) \/
  (0 < p /\ q < 0 /\ p * p <= 2 * (q * q)).
Proof.
  clear HN Hstart Hend.
  unfold neg_sqrt2.
  rewrite !orb_true_iff, !andb_true_iff, !Z.leb_le, !Z.ltb_lt. tauto.
Qed.

Lemma neg_sqrt2_mono (p p' q : Z) :
  neg_sqrt2 p q = true -> p' <= p -> neg_sqrt2 p' q = true.
Proof.
  clear HN Hstart Hend.
  rewrite !neg_sqrt2_spec. intros [H|[H|H]] Hp.
  - left. lia.
  - right; left. split; [lia|]. split; [lia | nia].
  - destruct (Z.le_gt_cases p' 0); [left; lia|].
    right; right. split; [lia|]. split; [lia | nia].
Qed.

Definition lattice_range : list Z := map (fun i => Z.of_nat i - 320) (seq 0 641).

(** In units of 2^-23: no sum p + q sqrt 2 with [q] up to 320 in absolute
    value lies above zero and at or below [GAP] units (the least,
    169 sqrt 2 - 239, is 17515 units). *)
Definition GAP : Z := 16000.

Lemma lattice_check :
  forallb (fun q => neg_sqrt2 ((GAP - q * 11863283) / 8388608) q) lattice_range = true.
Proof. vm_compute. reflexivity. Qed.

Lemma in_lattice_range (p : Z) : -320 <= p <= 320 -> In p lattice_range.
Proof.
  intros Hp. unfold lattice_range. apply in_map_iff.
  exists (Z.to_nat (p + 320)). split; [lia|]. apply in_seq. lia.
Qed.

Lemma lattice_gap (p q : Z) :
  -320 <= q <= 320 ->
  p * 8388608 + q * 11863283 <= GAP -> neg_sqrt2 p q = true.
Proof.
  clear HN Hstart Hend.
  intros Hq Hle. pose proof lattice_check as H.
  rewrite forallb_forall in H. specialize (H q (in_lattice_range q Hq)).
  apply (neg_sqrt2_mono _ _ _ H).
  apply Z.div_le_lower_bound; lia.
Qed.

(** Two paths of at most 320 diagonal moves whose exact float sums are
    within [GAP] units are in the order of their sums. *)
Lemma close_costs_ordered (p q : list coord) :
  diagonals p <= 320 -> diagonals q <= 320 ->
  exact_cost p <= exact_cost q + GAP * FLT_EPSILON ->
  cost_le p q.
Proof.
  clear HN Hstart Hend.
  intros Hp Hq Hle. unfold cost_le.
  destruct (moves_nonneg p) as [Hpc Hpd]. destruct (moves_nonneg q) as [Hqc Hqd].
  apply lattice_gap; [lia|].
  unfold exact_cost, CARDINAL_COST, F_ONE, DIAGONAL_COST, FLT_EPSILON, GAP in *. lia.
Qed.

(** A walk of more than 300 moves costs more than a path of at most 199. *)
Lemma long_walk_costs_more (p q : list coord) :
  cardinals p + diagonals p <= 199 -> 300 < cardinals q + diagonals q ->
  cost_le p q.
Proof.
  clear HN Hstart Hend.
  intros Hp Hq. unfold cost_le. apply neg_sqrt2_spec.
  destruct (moves_nonneg p) as [Hpc Hpd]. destruct (moves_nonneg q) as [Hqc Hqd].
  set (P := cardinals p - cardinals q). set (Q := diagonals p - diagonals q).
  assert (HP : P + Q < -101) by (unfold P, Q; lia).
  assert (HPb : P <= 199) by (unfold P; lia).
  assert (HQb : Q <= 199) by (unfold Q; lia).
  clearbody P Q.
  destruct (Z.le_gt_cases P 0) as [H1|H1]; destruct (Z.le_gt_cases Q 0) as [H2|H2].
  - left. lia.
  - right; left. split; [lia|]. split; [lia | nia].
  - right; right. split; [lia|]. split; [lia | nia].
  - lia.
Qed.

Lemma binade_allowance_small (x : Z) : 0 <= x < 2 ^ 158 -> binade_allowance x <= 2 ^ 136.
Proof.
  intros Hx.
  pose proof (binade_allowance_mono x (2 ^ 158 - 1) ltac:(lia)) as H.
  assert (E : binade_allowance (2 ^ 158 - 1) = 2 ^ 136) by (vm_compute; reflexivity).
  lia.
Qed.

(** The accumulated cost of a walk of at most 300 moves from the start is
    below 512 and within 4924 units of 2^-23 of the exact sum. *)
Lemma walk_cost_close (q : list coord) :
  cardinals q + diagonals q <= 300 ->
  path_cost q < 2 ^ 158 /\
  Z.abs (path_cost q - exact_cost q) <= (13 * diagonals q + 1024) * FLT_EPSILON.
Proof.
  intros Hq. destruct (moves_nonneg q) as [Hc Hd]. unfold path_cost.
  pose proof (path_cost_crude q 0 ltac:(lia)
                ltac:(unfold STEP_BOUND, F_ONE; change (2 ^ 13) with 8192; lia)) as Hcr.
  assert (Hlt : path_cost_from 0 q < 2 ^ 158).
  { unfold STEP_BOUND in Hcr.
    change (2 ^ 158) with 365375409332725729550921208179070754913983135744. lia. }
  split; [exact Hlt|].
  pose proof is_f32_consts as (Hz & _).
  pose proof (path_cost_error q 0 Hz (or_introl eq_refl) Hlt) as He.
  pose proof (path_cost_from_ge q 0 Hz) as Hge.
  pose proof (binade_allowance_small _ (conj Hge Hlt)) as Ha.
  assert (E0 : binade_allowance 0 = 0) by reflexivity.
  change (2 ^ 136) with (1024 * FLT_EPSILON) in Ha.
  rewrite E0 in He. replace (0 + exact_cost q) with (exact_cost q) in He by lia. lia.
Qed.

(** *** Dijkstra returns a shortest path *)

Lemma dijkstra_exit (fuel : nat) (r : search_result) :
  search Dijkstra fuel = Returned r ->
  exists f0 s L, Inv s /\ FInv L s /\ pc s = Exited /\ finish Dijkstra f0 s = Returned r.
Proof.
  intros Hs.
  destruct (search_returns Dijkstra) as (f0 & s & r0 & Hrun & HI & Hpc & Hfin & Hs0).
  assert (r = r0) by (eapply search_deterministic; eauto). subst r0.
  destruct (run_loop_steps_from _ _ _ _ Hrun) as [k Hk].
  destruct (steps_from_finv k _ 0 (init_inv Dijkstra) init_dinv init_finv) as [L HF].
  rewrite <- Hk in HF. exists f0, s, L. auto.
Qed.

Lemma exit_walk_bound (s : sstate) (L : float) (q : list coord) :
  Inv s -> FInv L s -> pc s = Exited -> path_from_start_to_end q ->
  dist_at s endX endY <= path_cost q.
Proof.
  intros HI HF Hpc (Hh & Hlast & Hp).
  pose proof (finv_pc L s HF) as HL. rewrite Hpc in HL. cbv iota in HL.
  pose proof (inv_range s HI endX endY Hend) as Hre.
  destruct q as [|c l]; [discriminate|]. injection Hh as ->.
  rewrite last_cons_any in Hlast.
  pose proof is_f32_consts as (Hz & _).
  pose proof (walk_cost_bound s L HI HF l (startX, startY) 0 Hp Hstart Hz) as Hb.
  rewrite Hlast in Hb. cbn [fst snd] in Hb.
  pose proof (inv_start s HI) as H0.
  specialize (Hb ltac:(left; cbn [fst snd]; lia)).
  unfold path_cost. unfold coord in *. lia.
Qed.

(** In exact arithmetic, with cardinal moves at 1 and diagonal moves at
    sqrt 2, no path of legal moves from the start to the end costs less than
    the one Dijkstra returns, on a grid of side at most 20. *)
Lemma dijkstra_path_shortest (fuel : nat) (r : search_result) (p : list coord) :
  N <= 20 -> search Dijkstra fuel = Returned r -> path r = Some p ->
  cardinals p + diagonals p <= 199 /\
  forall q, path_from_start_to_end q -> cost_le p q.
Proof.
  intros HN20 Hs Hp.
  destruct (dijkstra_exit fuel r Hs) as (f0 & s & L & HI & HF & Hpc & Hfin).
  destruct (finish_path _ _ _ _ HI Hfin) as [(Hn & _)|(l & Hl & Hlk & Hlt & _ & _)];
    [congruence|].
  rewrite Hl in Hp. injection Hp as <-.
  pose proof (dijkstra_chain_short s L l HN20 HI HF Hpc Hlk Hlt) as Hlen.
  pose proof (links_cost s L _ _ HI HF Hlk Hend Hlt) as Hcost. cbn [fst snd] in Hcost.
  set (p := rev (l ++ [(startX, startY)])) in *.
  assert (Hmoves : cardinals p + diagonals p <= 199).
  { rewrite moves_length. unfold p. rewrite length_rev. unfold coord in *.
    destruct (rev (l ++ [(startX, startY)])) eqn:E; [|lia].
    apply (f_equal (@length _)) in E. rewrite length_rev, length_app in E.
    simpl in E. lia. }
  split; [exact Hmoves|]. intros q Hq.
  destruct (Z.le_gt_cases (cardinals q + diagonals q) 300) as [Hshort|Hlong];
    [|apply long_walk_costs_more; lia].
  pose proof (exit_walk_bound s L q HI HF Hpc Hq) as Hle.
  destruct (walk_cost_close q Hshort) as [_ Heq].
  destruct (walk_cost_close p ltac:(lia)) as [_ Hep].
  destruct (moves_nonneg p) as [Hpc' Hpd]. destruct (moves_nonneg q) as [Hqc Hqd].
  apply close_costs_ordered; [lia | lia |].
  unfold p, coord in *. rewrite Hcost in Hep.
  unfold GAP, FLT_EPSILON in *. lia.
Qed.

(** *** A*: the cost recorded at the end when the loop stops

    The key of an entry is its cost plus the heuristic, rounded.  When the
    end is popped its key, which is its cost, is at most the key of every
    entry left; and on every walk from the start to the end either all cells
    have been expanded from costs at most those accumulated along the walk,
    or a cell of the walk has an entry in the queue at such a cost. *)

Lemma float_of_int_exact (n : Z) :
  0 <= n < 2 ^ 24 -> float_of_int n = n * F_ONE /\ is_f32 (n * F_ONE).
Proof.
  intros Hn. unfold float_of_int.
  assert (E : round24 (n * F_ONE) = n * F_ONE).
  { destruct (Z.eq_dec n 0) as [->|Hn0]; [reflexivity|].
    assert (Hv : 2 ^ 24 <= n * F_ONE)
      by (unfold F_ONE; change (2 ^ 24) with 16777216; lia).
    rewrite (round24_unfold _ Hv).
    destruct (round24_shape _ Hv) as (Hk & Hq & Hr & Hdm).
    assert (Hlog : Z.log2 (n * F_ONE) = Z.log2 n + 149).
    { unfold F_ONE. change 713623846352979940529142984724747568191373312 with (2 ^ 149).
      rewrite Z.log2_mul_pow2 by lia. lia. }
    assert (Hln : 0 <= Z.log2 n < 24).
    { split; [apply Z.log2_nonneg|]. apply Z.log2_lt_pow2; lia. }
    rewrite Hlog in *.
    set (k := Z.log2 n + 149 - 23) in *.
    assert (Hp : 0 < 2 ^ k) by (apply pow2_pos; lia).
    assert (Hm : (n * F_ONE) mod 2 ^ k = 0).
    { unfold F_ONE. change 713623846352979940529142984724747568191373312 with (2 ^ 149).
      replace 149 with ((149 - k) + k) by lia. rewrite Z.pow_add_r by (unfold k; lia).
      rewrite Z.mul_assoc. apply Z.mod_mul. lia. }
    rewrite Hm in *. unfold round_at.
    assert (Hh : 0 < 2 ^ (k - 1)) by (apply pow2_pos; lia).
    destruct (0 <? 2 ^ (k - 1)) eqn:E0; [lia | apply Z.ltb_ge in E0; lia]. }
  split; [exact E|]. split; [|exact E].
  change (2 ^ 24) with 16777216 in Hn. unfold F_ONE, F_INF. lia.
Qed.

(** The Chebyshev distance to the end, as an integer. *)
Definition chebyshev (x y : Z) : Z := Z.max (Z.abs (x - endX)) (Z.abs (y - endY)).

Lemma heuristic_exact (x y : Z) :
  in_grid x y = true ->
  heuristic x y = chebyshev x y * F_ONE /\ is_f32 (heuristic x y) /\
  0 <= chebyshev x y <= N.
Proof.
  intros Hxy. apply in_grid_iff in Hxy. pose proof (proj1 (in_grid_iff _ _) Hend) as He.
  assert (Hc : 0 <= chebyshev x y <= N) by (unfold chebyshev; lia).
  destruct (float_of_int_exact (chebyshev x y)
              ltac:(change (2 ^ 24) with 16777216; lia)) as [E Hf].
  unfold heuristic. fold (chebyshev x y). rewrite E. auto.
Qed.

(** One move changes the Chebyshev distance by at most one. *)
Lemma chebyshev_walk (l : list coord) (c : coord) :
  is_path (c :: l) -> last l c = (endX, endY) ->
  chebyshev (fst c) (snd c) <= cardinals (c :: l) + diagonals (c :: l).
Proof.
  revert c. induction l as [|b l IH]; intros c Hp Hlast.
  - simpl in Hlast. subst c. unfold chebyshev. simpl. lia.
  - destruct Hp as [(Hnb & _) Hp]. rewrite last_cons_any in Hlast.
    specialize (IH b Hp Hlast).
    rewrite cardinals_cons, diagonals_cons.
    destruct Hnb as (dir & Hdir & Hx & Hy).
    assert (Hd : -1 <= fst dir <= 1 /\ -1 <= snd dir <= 1).
    { unfold directions in Hdir. simpl in Hdir.
      repeat (destruct Hdir as [<-|Hdir]; [simpl; lia|]). destruct Hdir. }
    unfold chebyshev in *. destruct (is_diagonal _); lia.
Qed.

(** What is known of the cost recorded at the end, for a walk [q] from the
    start to the end: it is at most the accumulated cost of [q], or at most
    the key of a cell of [q] at the cost accumulated so far. *)
Definition near (alg : algorithm) (s : sstate) (q : list coord) : Prop :=
  dist_at s endX endY <= path_cost q \/
  exists q1 c rest, q = q1 ++ c :: rest /\
    dist_at s endX endY <= priority alg (path_cost (q1 ++ [c])) (fst c) (snd c).

Record AInv (alg : algorithm) (s : sstate) : Prop := {
  ainv_keys : Forall (fun m => node_f m = priority alg (node_g m) (node_x m) (node_y m))
                     (q_elems (pq s));
  ainv_prev : forall x y, in_grid x y = true -> is_start x y = false ->
      dist_at s x y < FLT_MAX ->
      fadd (dist_at s (fst (prev_at s x y)) (snd (prev_at s x y)))
           (moveCost (x - fst (prev_at s x y), y - snd (prev_at s x y)))
      <= dist_at s x y;
  ainv_exit : pc s = Exited ->
      forall q, path_from_start_to_end q -> near alg s q
}.

Lemma priority_mono (alg : algorithm) (g g' : float) (x y : Z) :
  in_grid x y = true -> 0 <= g <= g' -> priority alg g x y <= priority alg g' x y.
Proof.
  intros Hxy Hg. destruct alg; simpl; [lia|].
  destruct (heuristic_exact x y Hxy) as (_ & [[H0 _] _] & _).
  apply fadd_mono; lia.
Qed.

Lemma priority_ge (alg : algorithm) (g : float) (x y : Z) :
  in_grid x y = true -> is_f32 g -> g <= priority alg g x y.
Proof.
  intros Hxy Hg. destruct alg; simpl; [lia|].
  destruct (heuristic_exact x y Hxy) as (_ & [[H0 _] _] & _).
  apply fadd_ge_l; assumption.
Qed.

Lemma priority_end (alg : algorithm) (g : float) :
  is_f32 g -> priority alg g endX endY = g.
Proof.
  intros Hg. destruct alg; simpl; [reflexivity|].
  destruct (heuristic_exact endX endY Hend) as (E & _).
  rewrite E. unfold chebyshev. rewrite !Z.sub_diag. simpl.
  destruct Hg as [[H0 H1] Hr]. unfold fadd. rewrite Z.add_0_r, Hr. apply Z.min_r. exact H1.
Qed.

Lemma path_cost_from_app (q1 : list coord) (c : coord) (rest : list coord) (acc : float) :
  path_cost_from acc (q1 ++ c :: rest) =
  path_cost_from (path_cost_from acc (q1 ++ [c])) (c :: rest).
Proof.
  revert acc. induction q1 as [|a q1 IH]; intros acc.
  - simpl. destruct rest; reflexivity.
  - cbn [app]. destruct q1 as [|b q2].
    + cbn [app]. rewrite !path_cost_from_cons. simpl path_cost_from at 2.
      destruct rest; reflexivity.
    + cbn [app] in *. rewrite !path_cost_from_cons. apply IH.
Qed.

(** Along a walk from a cell reached at a cost at most the cost accumulated
    so far: the recorded cost of the last cell is at most the accumulated
    cost of the walk, or a cell of the walk has an entry in the queue at the
    cost recorded for it, which is at most the cost accumulated up to it. *)
Lemma walk_frontier (s : sstate) :
  Inv s -> CInv s -> pc s = AtLoop ->
  forall (l : list coord) (c : coord) (acc : float),
    is_path (c :: l) -> in_grid (fst c) (snd c) = true -> is_f32 acc ->
    dist_at s (fst c) (snd c) <= acc -> dist_at s (fst c) (snd c) < FLT_MAX ->
    dist_at s (fst (last l c)) (snd (last l c)) <= path_cost_from acc (c :: l) \/
    exists l1 c' rest, c :: l = l1 ++ c' :: rest /\
      in_grid (fst c') (snd c') = true /\
      pending (dist s) (pq s) (fst c') (snd c') /\
      dist_at s (fst c') (snd c') <= path_cost_from acc (l1 ++ [c']).
Proof.
  intros HI HC Hpc. induction l as [|b l IH]; intros c acc Hp Hin Hacc Hc Hfin.
  - left. exact Hc.
  - destruct (cinv_cells s HC ltac:(congruence) _ _ Hin Hfin) as [Hpe|[He|Hcl]].
    + right. exists [], c, (b :: l). cbn [app]. auto.
    + destruct He as (? & ? & E & _). congruence.
    + destruct Hp as [(Hnb & Hbin & Hbw) Hp].
      destruct Hnb as (dir & Hdir & Hx & Hy).
      pose proof (Hcl dir Hdir) as Hr. unfold relaxed in Hr.
      rewrite <- Hx, <- Hy in Hr. specialize (Hr Hbin Hbw).
      assert (Ew : moveCost (fst b - fst c, snd b - snd c) = moveCost dir).
      { replace (fst b - fst c) with (fst dir) by lia.
        replace (snd b - snd c) with (snd dir) by lia. destruct dir; reflexivity. }
      destruct (moveCost_bounds dir) as [Hw0 Hw1].
      pose proof (inv_range s HI _ _ Hin) as Hrc.
      pose proof (inv_bound s HI _ _ Hin Hfin) as Hb.
      pose proof (n_finite_bounds (dist s)) as Hn.
      assert (Hnn : N * N <= 1024 * 1024) by nia.
      pose proof (fadd_saturates (dist_at s (fst c) (snd c)) (moveCost dir)
                    ltac:(unfold F_ONE in *; lia) ltac:(unfold F_ONE in *; lia)) as Hsat.
      pose proof Hacc as [[Ha0 _] _].
      pose proof (fadd_mono (dist_at s (fst c) (snd c)) acc (moveCost dir) (moveCost dir)
                    ltac:(lia) ltac:(unfold F_ONE in *; lia) Hc ltac:(lia)) as Hm.
      rewrite last_cons_any, path_cost_from_cons, Ew.
      assert (Hacc' : is_f32 (fadd acc (moveCost dir)))
        by (apply fadd_is_f32; unfold F_ONE in *; lia).
      destruct (IH b (fadd acc (moveCost dir)) Hp Hbin Hacc'
                  ltac:(unfold dist_at in *; lia)
                  ltac:(unfold dist_at in *; unfold F_ONE, FLT_MAX in *; lia))
        as [Hl|(l1 & c' & rest & El & Hc'in & Hpe & Hle)].
      * left. exact Hl.
      * right. exists (c :: l1), c', rest. rewrite El. cbn [app].
        split; [reflexivity|]. split; [exact Hc'in|]. split; [exact Hpe|].
        destruct l1 as [|b0 l1'].
        -- cbn [app] in *. injection El as <- _.
           rewrite path_cost_from_cons, Ew. exact Hle.
        -- cbn [app] in *. injection El as <- _.
           rewrite path_cost_from_cons, Ew. exact Hle.
Qed.

Lemma init_ainv (alg : algorithm) : AInv alg (init alg).
Proof.
  constructor.
  - unfold init. cbn [pq]. eapply Permutation_Forall; [symmetry; apply q_push_elems|].
    constructor; [|rewrite q_empty_elems; constructor].
    cbn [node_f node_g node_x node_y]. destruct alg; simpl; [reflexivity|].
    destruct (heuristic_exact startX startY Hstart) as (_ & [[H0 H1] Hr] & _).
    unfold fadd. simpl. rewrite Hr. symmetry. apply Z.min_r. exact H1.
  - intros x y Hxy Hns Hfin. exfalso.
    unfold dist_at, init in Hfin. cbn [dist] in Hfin.
    rewrite mget_set_other in Hfin; auto.
    + apply in_grid_iff in Hxy. unfold mget in Hfin.
      rewrite mread_mconst in Hfin by lia. lia.
    + intros E. apply is_start_iff in E. congruence.
  - unfold init. cbn [pc]. discriminate.
Qed.

Lemma step_ainv (alg : algorithm) (s : sstate) :
  Inv s -> CInv s -> AInv alg s -> AInv alg (step alg s).
Proof.
  intros HI HC HA. unfold step.
  destruct (pc s) as [|node [|d ds]|] eqn:Hpc; [| | |exact HA].
  - (* at the head of the loop *)
    assert (Hwalk : forall q, path_from_start_to_end q ->
              dist_at s endX endY <= path_cost q \/
              exists q1 c rest, q = q1 ++ c :: rest /\
                in_grid (fst c) (snd c) = true /\
                pending (dist s) (pq s) (fst c) (snd c) /\
                dist_at s (fst c) (snd c) <= path_cost (q1 ++ [c])).
    { intros q (Hh & Hlast & Hp).
      destruct q as [|c l]; [discriminate|]. injection Hh as ->.
      rewrite last_cons_any in Hlast.
      pose proof is_f32_consts as (Hz & _).
      pose proof (inv_start s HI) as H0.
      pose proof (walk_frontier s HI HC Hpc l (startX, startY) 0 Hp Hstart Hz
                    ltac:(cbn [fst snd]; lia)
                    ltac:(cbn [fst snd]; unfold FLT_MAX; lia)) as Hw.
      rewrite Hlast in Hw. cbn [fst snd] in Hw. exact Hw. }
    destruct (q_pop (pq s)) as [[node q']|] eqn:Hpop.
    2:{ pose proof (q_pop_none _ Hpop) as Hnil.
        constructor; unfold dist_at, prev_at in *; cbn [dist prev pq steps pc].
        - apply HA.
        - apply (ainv_prev alg s HA).
        - intros _ q Hq. left.
          destruct (Hwalk q Hq) as [H|(q1 & c & rest & _ & _ & Hpe & _)]; [exact H|].
          destruct Hpe as (m & Hm & _). rewrite Hnil in Hm. destruct Hm. }
    destruct (q_pop_some _ _ _ Hpop) as [Hperm Hmin].
    pose proof (Permutation_Forall Hperm (inv_queue s HI)) as Hq.
    pose proof (Permutation_Forall Hperm (ainv_keys alg s HA)) as Hk.
    inversion Hq as [|? ? Hnode Hq']; subst.
    inversion Hk as [|? ? Hknode Hk']; subst.
    cbv zeta. destruct (stale s node) eqn:Hst.
    + constructor; unfold dist_at, prev_at in *; cbn [dist prev pq steps pc].
      * exact Hk'.
      * apply (ainv_prev alg s HA).
      * intros H; discriminate.
    + destruct (is_end (node_x node) (node_y node)) eqn:He.
      * constructor; unfold dist_at, prev_at in *; cbn [dist prev pq steps pc].
        -- exact Hk'.
        -- apply (ainv_prev alg s HA).
        -- intros _ q Hq0. unfold near. unfold dist_at. cbn [dist].
           destruct (Hwalk q Hq0) as [H|(q1 & c & rest & Eq & Hcin & Hpe & Hle)];
             [left; exact H|].
           right. exists q1, c, rest. split; [exact Eq|].
           apply is_end_iff in He. injection He as Hex Hey.
           destruct Hnode as (Hng & _ & Hnd & _). rewrite Hex, Hey in Hnd.
           pose proof (cinv_f32 s HC endX endY Hend) as Hef. unfold dist_at in Hef.
           pose proof (cinv_f32 s HC _ _ Hcin) as Hcf. unfold dist_at in Hcf.
           assert (HF32 : is_f32 (path_cost (q1 ++ [c])))
             by (apply path_cost_from_f32; apply is_f32_consts).
           pose proof (priority_mono alg _ _ _ _ Hcin
                         (conj (proj1 (proj1 Hcf)) Hle)) as Hm1.
           destruct Hpe as (m & Hm & Hmx & Hmy & Hmg).
           apply (Permutation_in _ Hperm) in Hm. destruct Hm as [<-|Hm].
           ++ pose proof (priority_ge alg _ _ _ Hcin HF32).
              rewrite Hex in Hmx. rewrite Hey in Hmy. rewrite <- Hmx, <- Hmy in *. lia.
           ++ rewrite Forall_forall in Hmin, Hk'.
              pose proof (Hmin m Hm) as Hfm. rewrite (Hk' m Hm), Hknode in Hfm.
              rewrite Hmx, Hmy, Hmg, Hex, Hey in Hfm.
              pose proof (priority_mono alg _ _ _ _ Hend
                            (conj (proj1 (proj1 Hef)) (proj2 Hnd))) as Hm2.
              rewrite (priority_end alg _ Hef) in Hm2. lia.
      * constructor; unfold dist_at, prev_at in *; cbn [dist prev pq steps pc].
        -- exact Hk'.
        -- apply (ainv_prev alg s HA).
        -- intros H; discriminate.
  - (* the [for] loop is over *)
    constructor; unfold dist_at, prev_at in *; cbn [dist prev pq steps pc].
    + apply HA.
    + apply (ainv_prev alg s HA).
    + intros H; discriminate.
  - (* one direction *)
    pose proof (inv_pc s HI) as Hp. rewrite Hpc in Hp.
    destruct Hp as (Hnode & Hincl & _).
    destruct (relaxes s node d) eqn:Hrel.
    + rewrite (relax_update alg s node d Hrel). cbv zeta.
      cbn [dist prev pq steps pc].
      unfold relaxes in Hrel. cbv zeta in Hrel.
      apply andb_true_iff in Hrel. destruct Hrel as [Hguard Hlt].
      apply andb_true_iff in Hguard. destruct Hguard as [Hin Hw].
      unfold flt in Hlt. apply Z.ltb_lt in Hlt. unfold dist_at in Hlt.
      set (nx := node_x node + fst d) in *. set (ny := node_y node + snd d) in *.
      set (nd := fadd (node_g node) (moveCost d)) in *.
      destruct (node_cost_small _ _ Hnode) as [Hcd0 Hcd1].
      destruct (moveCost_bounds d) as [Hmc0 Hmc1].
      destruct (fadd_step (node_g node) (moveCost d) Hcd0 Hcd1 Hmc0 Hmc1) as [Hgrow _].
      fold nd in Hgrow.
      destruct Hnode as (Hng & _ & Hnd & _).
      assert (Hne : (node_x node, node_y node) <> (nx, ny)).
      { intros E. injection E as E1 E2. rewrite <- E1, <- E2 in Hlt. lia. }
      assert (Hwd := inv_wf_dist s HI). assert (Hwp := inv_wf_prev s HI).
      assert (Hsame : mget 0 (mset (dist s) nx ny nd) nx ny = nd)
        by (apply mget_set_same; assumption).
      pose proof (inv_range s HI nx ny Hin) as Hrn. unfold dist_at in Hrn.
      assert (Hle := lower_le (dist s) nx ny nd Hwd Hin ltac:(lia)).
      constructor; unfold dist_at, prev_at; cbn [dist prev pq steps pc].
      * eapply Permutation_Forall; [symmetry; apply q_push_elems|].
        constructor; [reflexivity | apply HA].
      * intros x y Hxy Hns.
        destruct (coord_eqb_spec (x, y) (nx, ny)) as [E|E].
        -- injection E as -> ->. rewrite Hsame. intros _.
           rewrite mget_set_same by assumption. cbn [fst snd].
           rewrite mget_set_other by assumption.
           unfold nd, nx, ny. rewrite !Z.add_simpl_l.
           replace (fst d, snd d) with d by (destruct d; reflexivity).
           apply fadd_mono; unfold F_ONE in *; lia.
        -- rewrite !(mget_set_other _ _ _ _ _ x y) by assumption. intros Hfin.
           pose proof (ainv_prev alg s HA x y Hxy Hns Hfin) as Hpv.
           unfold dist_at, prev_at in Hpv.
           destruct (inv_prev s HI x y Hxy Hns Hfin) as (Hpin & _).
           unfold prev_at in Hpin.
           set (p := mget NO_PREV (prev s) x y) in *.
           pose proof (Hle (fst p) (snd p)) as Hlp.
           pose proof (inv_range s HI _ _ Hpin) as Hrp. unfold dist_at in Hrp.
           destruct (moveCost_bounds (x - fst p, y - snd p)) as [Hmp _].
           assert (Hnew : 0 <= mget 0 (mset (dist s) nx ny nd) (fst p) (snd p)).
           { destruct (coord_eqb_spec (fst p, snd p) (nx, ny)) as [E'|E'].
             - injection E' as -> ->. rewrite Hsame. lia.
             - rewrite mget_set_other by assumption. lia. }
           pose proof (fadd_mono _ _ (moveCost (x - fst p, y - snd p)) _
                         Hnew ltac:(unfold F_ONE in *; lia) Hlp (Z.le_refl _)).
           lia.
      * intros H; discriminate.
    + rewrite (relax_skip alg s node d Hrel).
      constructor; unfold dist_at, prev_at in *; cbn [dist prev pq steps pc].
      * apply HA.
      * apply (ainv_prev alg s HA).
      * intros H; discriminate.
Qed.

Lemma steps_from_ainv (alg : algorithm) (k : nat) (s : sstate) :
  Inv s -> CInv s -> AInv alg s -> AInv alg (steps_from alg k s).
Proof.
  revert s. induction k as [|k IH]; intros s HI HC HA; simpl; [exact HA|].
  apply IH; [apply step_inv | apply step_cinv | apply step_ainv]; assumption.
Qed.

(** *** A* returns a shortest path *)

Lemma links_cost_le (alg : algorithm) (s : sstate) (t : coord) (l : list coord) :
  Inv s -> AInv alg s -> links s t l ->
  in_grid (fst t) (snd t) = true -> dist_at s (fst t) (snd t) < FLT_MAX ->
  path_cost (rev (l ++ [(startX, startY)])) <= dist_at s (fst t) (snd t).
Proof.
  intros HI HA. induction 1 as [|t l Hne Hmv Hl IH]; intros Hin Hfin.
  - simpl. pose proof (inv_start s HI). unfold path_cost. simpl. lia.
  - destruct t as [x y]. cbn [fst snd] in *.
    assert (Hns : is_start x y = false).
    { destruct (is_start x y) eqn:E; [|reflexivity].
      apply is_start_iff in E. congruence. }
    destruct (inv_prev s HI x y Hin Hns Hfin) as (Hpin & _ & _ & _ & Hlt).
    pose proof (ainv_prev alg s HA x y Hin Hns Hfin) as Hpv.
    cbv zeta in Hpin, Hlt.
    set (p := prev_at s x y) in *.
    specialize (IH Hpin ltac:(lia)).
    destruct (links_path s _ _ Hl) as (q & Hq & _).
    change (rev (((x, y) :: l) ++ [(startX, startY)]))
      with (rev (l ++ [(startX, startY)]) ++ [(x, y)]).
    rewrite Hq in IH |- *. unfold path_cost in *.
    rewrite path_cost_from_snoc. cbn [fst snd].
    pose proof is_f32_consts as (Hz & _).
    pose proof (path_cost_from_ge (q ++ [p]) 0 Hz) as Hge.
    destruct (moveCost_bounds (x - fst p, y - snd p)) as [Hw _].
    pose proof (fadd_mono _ _ (moveCost (x - fst p, y - snd p)) _
                  Hge ltac:(unfold F_ONE in *; lia) IH (Z.le_refl _)).
    lia.
Qed.

Lemma is_path_app_r (q1 l2 : list coord) : is_path (q1 ++ l2) -> is_path l2.
Proof.
  induction q1 as [|a q1 IH]; intros H; [exact H|].
  apply IH. cbn [app] in H. destruct (q1 ++ l2); [exact I|]. apply H.
Qed.

Lemma last_app_cons {A} (q1 : list A) (c : A) (rest : list A) (d : A) :
  last (q1 ++ c :: rest) d = last rest c.
Proof.
  induction q1 as [|a q1 IH]; [apply last_cons_any|].
  cbn [app]. rewrite last_cons_any.
  destruct q1; cbn [app] in *; rewrite last_cons_any in *; [reflexivity | exact IH].
Qed.

Lemma moves_app (q1 : list coord) (c : coord) (rest : list coord) :
  cardinals (q1 ++ c :: rest) = cardinals (q1 ++ [c]) + cardinals (c :: rest) /\
  diagonals (q1 ++ c :: rest) = diagonals (q1 ++ [c]) + diagonals (c :: rest).
Proof.
  induction q1 as [|a q1 IH].
  - simpl. destruct rest; lia.
  - destruct q1 as [|b q2].
    + cbn [app]. rewrite !cardinals_cons, !diagonals_cons.
      change (cardinals [c]) with 0. change (diagonals [c]) with 0. lia.
    + cbn [app] in *. rewrite !cardinals_cons, !diagonals_cons. lia.
Qed.

Lemma walk_cells (l : list coord) (c : coord) :
  is_path (c :: l) -> in_grid (fst c) (snd c) = true ->
  Forall (fun a => in_grid (fst a) (snd a) = true) (c :: l).
Proof.
  revert c. induction l as [|b l IH]; intros c Hp Hin.
  - constructor; [exact Hin | constructor].
  - destruct Hp as [(_ & Hbin & _) Hp]. constructor; [exact Hin|]. apply IH; assumption.
Qed.

Lemma path_cost_from_zero_or_one (l : list coord) (acc : float) :
  is_f32 acc -> acc = 0 \/ F_ONE <= acc ->
  path_cost_from acc l = 0 \/ F_ONE <= path_cost_from acc l.
Proof.
  intros Hacc H. pose proof (path_cost_from_ge l acc Hacc).
  destruct H as [->|H]; [|right; lia].
  destruct l as [|a [|b u]]; [left; reflexivity | left; reflexivity |].
  right. rewrite path_cost_from_cons.
  set (w := moveCost (fst b - fst a, snd b - snd a)).
  destruct (moveCost_bounds (fst b - fst a, snd b - snd a)) as [Hw _]. fold w in Hw.
  assert (Hf : is_f32 (fadd 0 w)) by (apply fadd_is_f32; unfold F_ONE in *; lia).
  pose proof (path_cost_from_ge (b :: u) _ Hf).
  assert (E : w <= fadd 0 w).
  { unfold fadd. simpl.
    assert (Hr : round24 w = w).
    { pose proof is_f32_consts as (_ & [_ H1] & [_ H2] & _).
      unfold w, moveCost. destruct (_ && _); assumption. }
    rewrite Hr. apply Z.min_glb; [|lia].
    destruct (moveCost_bounds (fst b - fst a, snd b - snd a)) as [_ Hw1]. fold w in Hw1.
    unfold F_ONE, F_INF in *. lia. }
  lia.
Qed.

Lemma binade_allowance_nonneg (x : Z) : 0 <= binade_allowance x.
Proof.
  unfold binade_allowance. apply Z.div_pos; [|lia].
  apply Z.pow_nonneg. lia.
Qed.

Lemma exact_cost_ge (l : list coord) :
  (cardinals l + diagonals l) * F_ONE <= exact_cost l.
Proof.
  clear HN Hstart Hend.
  unfold exact_cost. destruct (moves_nonneg l) as [Hc Hd].
  pose proof cost_bounds as (H1 & _ & H2 & _). unfold CARDINAL_COST in *. nia.
Qed.

(** The cost recorded at the end by A*, against a walk of at most 300 moves. *)
Lemma near_bound (s : sstate) (q : list coord) :
  path_from_start_to_end q -> cardinals q + diagonals q <= 300 ->
  near AStar s q ->
  dist_at s endX endY <= path_cost q + (13 * diagonals q + 1281) * FLT_EPSILON.
Proof.
  intros (Hh & Hlast & Hp) Hshort Hnear.
  destruct (moves_nonneg q) as [Hqc Hqd].
  destruct Hnear as [H|(q1 & c & rest & Eq & Hle)];
    [unfold FLT_EPSILON; lia|].
  destruct (walk_cost_close q Hshort) as [Hlt _].
  subst q. cbn [priority] in Hle.
  assert (Hcells : Forall (fun a => in_grid (fst a) (snd a) = true) (q1 ++ c :: rest)).
  { destruct (q1 ++ c :: rest) as [|c0 l0] eqn:E; [constructor|].
    injection Hh as ->. apply walk_cells; assumption. }
  assert (Hcin : in_grid (fst c) (snd c) = true).
  { rewrite Forall_forall in Hcells. apply Hcells. apply in_or_app. right. left. reflexivity. }
  destruct (heuristic_exact _ _ Hcin) as (Eh & _ & Hch).
  pose proof (is_path_app_r _ _ Hp) as Hp2.
  rewrite last_app_cons in Hlast.
  pose proof (chebyshev_walk rest c Hp2 Hlast) as Hcheb.
  destruct (moves_app q1 c rest) as [Ec Ed].
  destruct (moves_nonneg (q1 ++ [c])) as [H1c H1d].
  destruct (moves_nonneg (c :: rest)) as [H2c H2d].
  unfold path_cost in *. rewrite path_cost_from_app in Hlt |- *.
  set (Fj := path_cost_from 0 (q1 ++ [c])) in *.
  pose proof is_f32_consts as (Hz & _).
  assert (HFj : is_f32 Fj) by (apply path_cost_from_f32; exact Hz).
  pose proof (path_cost_from_zero_or_one (q1 ++ [c]) 0 Hz (or_introl eq_refl)) as HFj1.
  fold Fj in HFj1.
  pose proof (path_cost_error (c :: rest) Fj HFj HFj1 Hlt) as Herr.
  pose proof (path_cost_from_ge (c :: rest) Fj HFj) as Hge.
  destruct HFj as [[HF0 _] _].
  pose proof (binade_allowance_small (path_cost_from Fj (c :: rest))
                (conj (Z.le_trans _ _ _ HF0 Hge) Hlt)) as Ha.
  pose proof (binade_allowance_nonneg Fj) as Ha0.
  pose proof (exact_cost_ge (c :: rest)) as Hex.
  rewrite Eh in Hle.
  set (h := chebyshev (fst c) (snd c)) in *.
  assert (Hup : 2 ^ 24 * (fadd Fj (h * F_ONE) - (Fj + h * F_ONE)) <= Fj + h * F_ONE).
  { unfold fadd.
    destruct (round24_error (Fj + h * F_ONE) ltac:(unfold F_ONE; lia)) as [_ Hhi].
    pose proof (Z.le_min_r F_INF (round24 (Fj + h * F_ONE))). lia. }
  change (2 ^ 136) with (1024 * FLT_EPSILON) in Ha.
  change (2 ^ 158) with 365375409332725729550921208179070754913983135744 in Hlt.
  change (2 ^ 24) with 16777216 in Hup.
  unfold F_ONE, FLT_EPSILON in *. lia.
Qed.

Lemma astar_exit (fuel : nat) (r : search_result) :
  search AStar fuel = Returned r ->
  exists f0 s, Inv s /\ AInv AStar s /\ pc s = Exited /\ finish AStar f0 s = Returned r.
Proof.
  intros Hs.
  destruct (search_returns AStar) as (f0 & s & r0 & Hrun & HI & Hpc & Hfin & Hs0).
  assert (r = r0) by (eapply search_deterministic; eauto). subst r0.
  destruct (run_loop_steps_from _ _ _ _ Hrun) as [k Hk].
  pose proof (steps_from_ainv AStar k _ (init_inv AStar) (init_cinv AStar)
                (init_ainv AStar)) as HA.
  rewrite <- Hk in HA. exists f0, s. auto.
Qed.

(** In exact arithmetic no walk of at most 300 moves from the start to the
    end costs less than the path A* returns. *)
Lemma astar_path_shortest (fuel : nat) (r : search_result) (p q : list coord) :
  search AStar fuel = Returned r -> path r = Some p ->
  path_from_start_to_end q -> cardinals q + diagonals q <= 300 ->
  cost_le p q.
Proof.
  intros Hs Hp Hq Hshort.
  destruct (astar_exit fuel r Hs) as (f0 & s & HI & HA & Hpc & Hfin).
  destruct (finish_path _ _ _ _ HI Hfin) as [(Hn & _)|(l & Hl & Hlk & Hlt & _ & _)];
    [congruence|].
  rewrite Hl in Hp. injection Hp as <-.
  pose proof (near_bound s q Hq Hshort (ainv_exit AStar s HA Hpc q Hq)) as Hnb.
  pose proof (links_cost_le AStar s _ _ HI HA Hlk Hend Hlt) as Hcost.
  cbn [fst snd] in Hcost.
  destruct (walk_cost_close q Hshort) as [Hqlt Hqe].
  destruct (moves_nonneg q) as [Hqc Hqd].
  set (p := rev (l ++ [(startX, startY)])) in *.
  destruct (moves_nonneg p) as [Hpc' Hpd].
  pose proof is_f32_consts as (Hz & _).
  pose proof (path_cost_from_ge p 0 Hz) as Hp0. fold (path_cost p) in Hp0.
  pose proof (path_cost_crude q 0 ltac:(lia)
                ltac:(unfold STEP_BOUND, F_ONE; change (2 ^ 13) with 8192; lia)) as Hcr.
  fold (path_cost q) in Hcr.
  assert (Hplt : path_cost p < 2 ^ 158).
  { unfold p, coord in *. unfold STEP_BOUND, FLT_EPSILON in *.
    change (2 ^ 158) with 365375409332725729550921208179070754913983135744. lia. }
  pose proof (path_cost_error p 0 Hz (or_introl eq_refl) Hplt) as Hpe.
  fold (path_cost p) in Hpe.
  pose proof (binade_allowance_small _ (conj Hp0 Hplt)) as Ha.
  assert (E0 : binade_allowance 0 = 0) by reflexivity. rewrite E0 in Hpe.
  change (2 ^ 136) with (1024 * FLT_EPSILON) in Ha.
  assert (Hbp : diagonals p <= 320).
  { unfold exact_cost, CARDINAL_COST in Hpe.
    unfold p, coord in *. unfold STEP_BOUND, F_ONE, DIAGONAL_COST, FLT_EPSILON in *.
    change (2 ^ 158) with 365375409332725729550921208179070754913983135744 in *. lia. }
  apply close_costs_ordered; [exact Hbp | lia |].
  unfold p, coord in *. unfold GAP, FLT_EPSILON in *. lia.
Qed.

(** *** The shape of the trace

    Steps are recorded at cells of the grid that have been reached, so never
    on a wall; a cell is marked "visited" only after it was marked "open";
    a cell reached is waiting in the queue at its recorded cost or has been
    marked "visited". *)

(** Every "visited" step of [l] has an "open" step at the same cell before
    it. *)
Definition opened_before_visited (l : list AnimationStep) : Prop :=
  forall l1 c l2, l = l1 ++ mkStep c Grey :: l2 -> In (mkStep c Cyan) l1.

(** The step is at a cell of the grid with a recorded cost. *)
Definition step_reached (s : sstate) (e : AnimationStep) : Prop :=
  in_grid (fst (step_coord e)) (snd (step_coord e)) = true /\
  dist_at s (fst (step_coord e)) (snd (step_coord e)) < FLT_MAX.

Record TInv (s : sstate) : Prop := {
  tinv_cells : Forall (step_reached s) (steps s);
  tinv_opened : forall x y, in_grid x y = true -> is_anchor x y = false ->
      dist_at s x y < FLT_MAX -> In (mkStep (x, y) Cyan) (steps s);
  tinv_visited : forall x y, in_grid x y = true -> is_anchor x y = false ->
      dist_at s x y < FLT_MAX ->
      pending (dist s) (pq s) x y \/ In (mkStep (x, y) Grey) (steps s);
  tinv_order : opened_before_visited (steps s);
  tinv_exit : pc s = Exited ->
      q_elems (pq s) = [] \/ dist_at s endX endY < FLT_MAX
}.

Lemma opened_before_visited_app (l m : list AnimationStep) :
  opened_before_visited l ->
  (forall c, In (mkStep c Grey) m -> In (mkStep c Cyan) l) ->
  opened_before_visited (l ++ m).
Proof.
  intros Hl Hm l1 c l2 E.
  apply app_eq_app in E. destruct E as [l' [[E1 E2]|[E1 E2]]].
  - destruct l' as [|x l'].
    + simpl in E2. rewrite app_nil_r in E1. subst l1.
      apply Hm. rewrite <- E2. left. reflexivity.
    + injection E2 as <- E2. apply (Hl l1 c l'). exact E1.
  - subst l1. apply in_or_app. left. apply Hm. rewrite E2.
    apply in_or_app. right. left. reflexivity.
Qed.

Lemma init_tinv (alg : algorithm) : TInv (init alg).
Proof.
  pose proof (init_inv alg) as HI.
  assert (Honly : forall x y, in_grid x y = true ->
            dist_at (init alg) x y < FLT_MAX -> (x, y) = (startX, startY)).
  { intros x y Hxy Hfin.
    destruct (coord_eqb_spec (x, y) (startX, startY)) as [E|E]; [exact E|].
    exfalso. unfold dist_at, init in Hfin. cbn [dist] in Hfin.
    rewrite mget_set_other in Hfin by assumption. apply in_grid_iff in Hxy.
    unfold mget in Hfin. rewrite mread_mconst in Hfin by lia. lia. }
  assert (Hanchor : forall x y, (x, y) = (startX, startY) -> is_anchor x y = false -> False).
  { intros x y E Ha. apply is_start_iff in E. unfold is_anchor in Ha.
    rewrite E in Ha. discriminate. }
  constructor.
  - unfold init at 2. cbn [steps]. constructor; [|constructor].
    split; [exact Hstart|]. cbn [step_coord fst snd].
    rewrite (inv_start _ HI). unfold FLT_MAX. lia.
  - intros x y Hxy Ha Hfin. exfalso. eauto.
  - intros x y Hxy Ha Hfin. exfalso. eauto.
  - intros l1 c l2 E. unfold init in E. cbn [steps] in E.
    destruct l1 as [|a [|b l1]]; discriminate.
  - unfold init. cbn [pc]. discriminate.
Qed.

Lemma step_reached_lower (s : sstate) (nx ny : Z) (nd : float) (q : queue)
    (l : list AnimationStep) (c : control) (p : matrix coord) (e : AnimationStep) :
  wf_matrix (Z.to_nat N) (dist s) -> in_grid nx ny = true ->
  nd < dist_at s nx ny ->
  step_reached s e -> step_reached (mkState (mset (dist s) nx ny nd) p q l c) e.
Proof.
  intros Hwf Hin Hnd [Hg Hfin]. split; [exact Hg|].
  unfold dist_at in *. cbn [dist].
  pose proof (lower_le (dist s) nx ny nd Hwf Hin Hnd
                (fst (step_coord e)) (snd (step_coord e))). lia.
Qed.

Lemma step_tinv (alg : algorithm) (s : sstate) :
  Inv s -> CInv s -> TInv s -> TInv (step alg s).
Proof.
  intros HI HC HT. unfold step.
  destruct (pc s) as [|node [|d ds]|] eqn:Hpc.
  - (* a pop *)
    destruct (q_pop (pq s)) as [[node q']|] eqn:Hpop.
    + destruct (q_pop_some _ _ _ Hpop) as [Hperm _].
      pose proof (Permutation_Forall Hperm (inv_queue s HI)) as Hq.
      inversion Hq as [|? ? Hnode _]; subst.
      destruct Hnode as (Hg & Ho & Hd & _).
      cbv zeta.
      assert (Hstale : stale s node = true ->
                TInv (mkState (dist s) (prev s) q' (steps s) AtLoop)).
      { intros Hst. destruct HT as [Hc Hop Hv Hord Hex].
        constructor; cbn [dist prev pq steps pc]; auto; [|discriminate].
        intros x y Hxy Ha Hfin.
        destruct (Hv x y Hxy Ha Hfin) as [(m & Hm & Hmx & Hmy & Hmg)|Hgrey];
          [|right; exact Hgrey].
        left. exists m. split; [|auto].
        apply (Permutation_in _ Hperm) in Hm. destruct Hm as [<-|Hm]; [|exact Hm].
        exfalso. unfold stale, fgt in Hst. apply Z.ltb_lt in Hst.
        pose proof (fadd_ge_l _ FLT_EPSILON (cinv_f32 s HC _ _ Hg)
                      ltac:(unfold FLT_EPSILON; lia)) as Hge.
        unfold dist_at in *. subst x y. lia. }
      destruct (stale s node) eqn:Hst; [apply Hstale; reflexivity|].
      assert (Hfin : dist_at s (node_x node) (node_y node) < FLT_MAX).
      { unfold stale, fgt in Hst. apply Z.ltb_ge in Hst.
        pose proof (inv_range s HI _ _ Hg) as Hr.
        destruct (Z.eq_dec (dist_at s (node_x node) (node_y node)) FLT_MAX) as [E|E];
          [|lia].
        exfalso. pose proof (inv_queue s HI) as Hall.
        pose proof (inv_bound s HI) as Hb. pose proof (n_finite_bounds (dist s)) as Hn.
        pose proof (Permutation_Forall Hperm Hall) as Hq2.
        inversion Hq2 as [|? ? (_ & _ & Hd2 & Hb2) _]; subst.
        unfold dist_at in E. rewrite E in Hd2.
        assert (N * N <= 1024 * 1024) by nia.
        unfold FLT_MAX, F_ONE in *. lia. }
      set (steps' := if is_anchor (node_x node) (node_y node) then steps s
                     else steps s ++ [mkStep (node_x node, node_y node) Grey]).
      assert (Hsub : forall e, In e (steps s) -> In e steps').
      { intros e He. unfold steps'. destruct (is_anchor _ _); [exact He|].
        apply in_or_app. left. exact He. }
      assert (HT' : forall c, (c = Exited -> dist_at s endX endY < FLT_MAX) ->
                TInv (mkState (dist s) (prev s) q' steps' c)).
      { intros c Hcx. destruct HT as [Hc Hop Hv Hord Hex].
        constructor; cbn [dist prev pq steps pc].
        - unfold steps'. destruct (is_anchor _ _); [exact Hc|].
          apply Forall_app. split; [exact Hc|]. constructor; [|constructor].
          split; [exact Hg | exact Hfin].
        - intros x y Hxy Ha Hf. apply Hsub. apply Hop; assumption.
        - intros x y Hxy Ha Hf.
          destruct (coord_eqb_spec (x, y) (node_x node, node_y node)) as [E|E].
          + right. injection E as -> ->. unfold steps'. rewrite Ha.
            apply in_or_app. right. left. reflexivity.
          + destruct (Hv x y Hxy Ha Hf) as [(m & Hm & Hmx & Hmy & Hmg)|Hgrey];
              [|right; apply Hsub; exact Hgrey].
            left. exists m. split; [|auto].
            apply (Permutation_in _ Hperm) in Hm. destruct Hm as [<-|Hm]; [|exact Hm].
            exfalso. apply E. congruence.
        - unfold steps'. destruct (is_anchor _ _) eqn:Ha; [exact Hord|].
          apply opened_before_visited_app; [exact Hord|].
          intros c0 [E|[]]. injection E as <-. apply Hop; assumption.
        - intros E. right. apply Hcx. exact E. }
      destruct (is_end (node_x node) (node_y node)) eqn:Hie; apply HT'.
      * intros _. apply is_end_iff in Hie. injection Hie as <- <-. exact Hfin.
      * discriminate.
    + destruct HT. constructor; cbn [dist prev pq steps pc]; auto.
      intros _. left. apply q_pop_none. exact Hpop.
  - destruct HT. constructor; cbn [dist prev pq steps pc]; auto. discriminate.
  - (* one direction of the for loop *)
    destruct (relaxes s node d) eqn:Hrel.
    + pose proof (relaxation_effect alg s node d ds HI Hpc Hrel) as Heff.
      cbv zeta in Heff. unfold step in Heff. rewrite Hpc in Heff. cbv zeta in Heff.
      destruct Heff as (_ & Hnd & _ & _ & Hlt & Hmax).
      rewrite (relax_update alg s node d Hrel) in *. cbv zeta in *.
      cbn [dist prev pq steps pc] in *.
      unfold relaxes in Hrel. cbv zeta in Hrel.
      apply andb_true_iff in Hrel. destruct Hrel as [Hguard Hless].
      apply andb_true_iff in Hguard. destruct Hguard as [Hin Hw].
      unfold flt in Hless. apply Z.ltb_lt in Hless.
      set (nx := node_x node + fst d) in *. set (ny := node_y node + snd d) in *.
      set (nd := fadd (node_g node) (moveCost d)) in *.
      set (steps' := if is_anchor nx ny then steps s
                     else steps s ++ [mkStep (nx, ny) Cyan]).
      assert (Hsub : forall e, In e (steps s) -> In e steps').
      { intros e He. unfold steps'. destruct (is_anchor _ _); [exact He|].
        apply in_or_app. left. exact He. }
      pose proof (inv_wf_dist s HI) as Hwf.
      destruct HT as [Hc Hop Hv Hord Hex].
      constructor; cbn [dist prev pq steps pc]; [| | | |discriminate].
      * assert (Hold : Forall (step_reached
                  (mkState (mset (dist s) nx ny nd)
                     (mset (prev s) nx ny (node_x node, node_y node))
                     (q_push (mkNode (priority alg nd nx ny) nd nx ny) (pq s))
                     steps' (InFor node ds))) (steps s)).
        { eapply Forall_impl; [|exact Hc]. intros e He.
          apply step_reached_lower; auto. }
        unfold steps'. destruct (is_anchor nx ny); [exact Hold|].
        apply Forall_app. split; [exact Hold|]. constructor; [|constructor].
        split; [exact Hin|]. cbn [step_coord fst snd]. exact Hmax.
      * intros x y Hxy Ha Hf.
        destruct (coord_eqb_spec (x, y) (nx, ny)) as [E|E].
        -- injection E as -> ->. unfold steps'. rewrite Ha.
           apply in_or_app. right. left. reflexivity.
        -- apply Hsub. apply Hop; auto.
           unfold dist_at in *. cbn [dist] in Hf.
           rewrite mget_set_other in Hf by assumption. exact Hf.
      * intros x y Hxy Ha Hf.
        destruct (coord_eqb_spec (x, y) (nx, ny)) as [E|E].
        -- injection E as -> ->. left.
           exists (mkNode (priority alg nd nx ny) nd nx ny). split.
           ++ eapply Permutation_in; [symmetry; apply q_push_elems|]. left. reflexivity.
           ++ cbn [node_x node_y node_g]. rewrite mget_set_same by assumption. auto.
        -- unfold dist_at in *. cbn [dist] in Hf.
           rewrite mget_set_other in Hf by assumption.
           destruct (Hv x y Hxy Ha Hf) as [(m & Hm & Hmx & Hmy & Hmg)|Hgrey];
             [|right; apply Hsub; exact Hgrey].
           left. exists m. split.
           ++ eapply Permutation_in; [symmetry; apply q_push_elems|]. right. exact Hm.
           ++ rewrite mget_set_other by assumption. auto.
      * unfold steps'. destruct (is_anchor nx ny); [exact Hord|].
        apply opened_before_visited_app; [exact Hord|].
        intros c0 [E|[]]. discriminate E.
    + rewrite (relax_skip alg s node d Hrel).
      destruct HT. constructor; cbn [dist prev pq steps pc]; auto. discriminate.
  - exact HT.
Qed.

Lemma steps_from_tinv (alg : algorithm) (k : nat) (s : sstate) :
  Inv s -> CInv s -> TInv s -> TInv (steps_from alg k s).
Proof.
  revert s. induction k as [|k IH]; intros s HI HC HT; simpl; [exact HT|].
  apply IH; [apply step_inv | apply step_cinv | apply step_tinv]; assumption.
Qed.

(** The state a run leaves, with its invariants. *)
Lemma search_state (alg : algorithm) (fuel : nat) (r : search_result) :
  search alg fuel = Returned r ->
  exists f0 s, Inv s /\ CInv s /\ TInv s /\ pc s = Exited /\
               finish alg f0 s = Returned r.
Proof.
  intros Hs.
  destruct (search_returns alg) as (f0 & s & r0 & Hrun & HI & Hpc & Hfin & Hs0).
  assert (r = r0) by (eapply search_deterministic; eauto). subst r0.
  destruct (run_loop_steps_from _ _ _ _ Hrun) as [k Hk].
  exists f0, s. rewrite Hk at 2 3.
  split; [exact HI|]. split.
  { apply steps_from_cinv; [apply init_inv | apply init_cinv]. }
  split.
  { apply steps_from_tinv; [apply init_inv | apply init_cinv | apply init_tinv]. }
  auto.
Qed.

Lemma last_in_list {A} (l : list A) (d : A) : l <> [] -> In (last l d) l.
Proof.
  induction l as [|a l IH]; intros Hne; [congruence|].
  destruct l as [|b l]; [left; reflexivity|].
  right. apply IH. discriminate.
Qed.

(** A walk from the start to [c]: legal moves only. *)
Definition walk_to (c : coord) (l : list coord) : Prop :=
  hd_error l = Some (startX, startY) /\ last l (startX, startY) = c /\ is_path l.

(** A cell with a recorded cost can be reached from the start. *)
Lemma reached_walk (s : sstate) (x y : Z) :
  Inv s -> in_grid x y = true -> dist_at s x y < FLT_MAX ->
  exists l, walk_to (x, y) l.
Proof.
  intros HI Hin Hfin.
  destruct (follow_prev_links s (S (rank s (x, y))) HI x y [] Hin Hfin ltac:(lia))
    as (l & _ & Hlk & _).
  destruct (links_path s _ _ Hlk) as (q & _ & Hp & Hh).
  exists (q ++ [(x, y)]). split; [exact Hh|]. split; [apply last_last | exact Hp].
Qed.

(** The cells of the steps of a result: those of the loop's steps and those
    of the path all lie on the grid and have a recorded cost. *)
Lemma trace_cells (alg : algorithm) (f0 : nat) (s : sstate) (r : search_result) :
  Inv s -> TInv s -> finish alg f0 s = Returned r ->
  Forall (step_reached s) (trace r).
Proof.
  intros HI HT Hfin.
  destruct (finish_path _ _ _ _ HI Hfin) as [(_ & Ht & _)|(l & _ & Hlk & Hlt & _ & Ht)];
    rewrite Ht; [apply (tinv_cells s HT)|].
  apply Forall_app. split; [apply (tinv_cells s HT)|].
  pose proof (links_dist s _ _ HI Hlk Hend Hlt) as Hd. cbn [fst snd] in Hd.
  unfold path_steps. apply Forall_map. apply Forall_forall. intros c Hc.
  apply filter_In in Hc. destruct Hc as [Hc _]. apply in_rev in Hc.
  rewrite Forall_forall in Hd. destruct (Hd c Hc) as [Hg Hle].
  split; [exact Hg|]. cbn [step_coord]. lia.
Qed.

(** The steps of a result: the start's, the loop's, the path's. *)
Lemma trace_parts (alg : algorithm) (fuel : nat) (r : search_result) :
  search alg fuel = Returned r ->
  exists evs,
    trace r = mkStep (startX, startY) Cyan :: evs ++
              match path r with Some p => path_steps alg p | None => [] end /\
    Forall search_color evs.
Proof.
  intros Hs. destruct (search_state alg fuel r Hs) as (f0 & s & HI & _ & _ & _ & Hfin).
  destruct (inv_steps s HI) as (rest & Hrest & _).
  pose proof (inv_colors s HI) as Hcol. rewrite Hrest in Hcol.
  inversion Hcol as [|? ? _ Hcol']; subst.
  exists rest. split; [|exact Hcol'].
  destruct (finish_path _ _ _ _ HI Hfin) as [(Hn & Ht & _)|(l & Hp & _ & _ & _ & Ht)];
    rewrite Ht.
  - rewrite Hn, Hrest, app_nil_r. reflexivity.
  - rewrite Hp, Hrest. reflexivity.
Qed.

(** The steps of a result lie on the grid and, the start apart, off the
    walls. *)
Lemma trace_on_grid (alg : algorithm) (fuel : nat) (r : search_result) :
  search alg fuel = Returned r ->
  Forall (fun e => in_grid (fst (step_coord e)) (snd (step_coord e)) = true /\
                   (is_start (fst (step_coord e)) (snd (step_coord e)) = false ->
                    wall_at (fst (step_coord e)) (snd (step_coord e)) = false))
         (trace r).
Proof.
  intros Hs. destruct (search_state alg fuel r Hs) as (f0 & s & HI & _ & HT & _ & Hfin).
  eapply Forall_impl; [|apply (trace_cells alg f0 s r HI HT Hfin)].
  intros e [Hg Hlt]. split; [exact Hg|]. intros Hns.
  destruct (inv_prev s HI _ _ Hg Hns Hlt) as (_ & _ & Hw & _). exact Hw.
Qed.

(** The trace of a run: the "open" step of the start, then "open" and
    "visited" steps, then the steps of the path if one was found.  Every step
    is at a cell of the grid, and but for the start never at a wall.  Every
    "visited" step comes after an "open" step at the same cell. *)
Theorem trace_shape (alg : algorithm) (fuel : nat) (r : search_result) :
  search alg fuel = Returned r ->
  (exists evs,
     trace r = mkStep (startX, startY) Cyan :: evs ++
               match path r with Some p => path_steps alg p | None => [] end /\
     Forall search_color evs) /\
  Forall (fun e => in_grid (fst (step_coord e)) (snd (step_coord e)) = true /\
                   (is_start (fst (step_coord e)) (snd (step_coord e)) = false ->
                    wall_at (fst (step_coord e)) (snd (step_coord e)) = false))
         (trace r) /\
  opened_before_visited (trace r).
Proof.
  intros Hs. split; [exact (trace_parts alg fuel r Hs)|].
  split; [exact (trace_on_grid alg fuel r Hs)|].
  destruct (search_state alg fuel r Hs) as (f0 & s & HI & _ & HT & _ & Hfin).
  destruct (finish_path _ _ _ _ HI Hfin) as [(_ & Ht & _)|(l & _ & _ & _ & _ & Ht)];
    rewrite Ht; [apply (tinv_order s HT)|].
  apply opened_before_visited_app; [apply (tinv_order s HT)|].
  intros c Hc. exfalso. unfold path_steps in Hc. apply in_map_iff in Hc.
  destruct Hc as (c' & E & _). destruct alg; discriminate E.
Qed.

(** The cells a run explores are cells that can be reached from the start;
    and when the run finds no path, every cell that can be reached from the
    start, the start apart, has been marked "open" and "visited". *)
Theorem explored_cells_are_reachable (alg : algorithm) (fuel : nat) (r : search_result) :
  search alg fuel = Returned r ->
  (forall e, In e (trace r) -> exists l, walk_to (step_coord e) l) /\
  (path r = None ->
   forall c l, walk_to c l -> c <> (startX, startY) ->
     In (mkStep c Cyan) (trace r) /\ In (mkStep c Grey) (trace r)).
Proof.
  intros Hs. destruct (search_state alg fuel r Hs) as (f0 & s & HI & HC & HT & Hpc & Hfin).
  split.
  - intros e He. pose proof (trace_cells alg f0 s r HI HT Hfin) as Hall.
    rewrite Forall_forall in Hall. destruct (Hall e He) as [Hg Hlt].
    destruct (step_coord e) as [x y]. apply (reached_walk s x y HI Hg Hlt).
  - intros Hnone c l (Hh & Hlast & Hp) Hne.
    destruct (finish_path _ _ _ _ HI Hfin) as [(_ & Ht & Hinf)|(l0 & Hsome & _)];
      [|congruence].
    rewrite Ht.
    destruct (cinv_exit s HC Hpc) as [Hlt|Hall]; [lia|].
    destruct (tinv_exit s HT Hpc) as [Hq|Hlt]; [|lia].
    destruct l as [|c0 l]; [discriminate|]. injection Hh as ->.
    rewrite last_cons_any in Hlast.
    pose proof (inv_start s HI) as H0.
    pose proof (walk_reached s HI Hall l (startX, startY) Hp Hstart
                  ltac:(cbn [fst snd]; unfold FLT_MAX; lia)) as Hw.
    pose proof (walk_cells l (startX, startY) Hp Hstart) as Hcells.
    assert (Hin : in_grid (fst c) (snd c) = true).
    { rewrite Forall_forall in Hcells. apply Hcells. rewrite <- Hlast.
      destruct l as [|b l]; [left; reflexivity|].
      right. apply last_in_list. discriminate. }
    rewrite Hlast in Hw. destruct c as [x y]. cbn [fst snd] in *.
    assert (Ha : is_anchor x y = false).
    { unfold is_anchor. apply orb_false_iff. split.
      - destruct (is_start x y) eqn:E; [|reflexivity].
        apply is_start_iff in E. congruence.
      - destruct (is_end x y) eqn:E; [|reflexivity].
        apply is_end_iff in E. injection E as -> ->. lia. }
    split; [apply (tinv_opened s HT); assumption|].
    destruct (tinv_visited s HT x y Hin Ha Hw) as [(m & Hm & _)|Hg]; [|exact Hg].
    rewrite Hq in Hm. destruct Hm.
Qed.
(** *** Dijkstra: a visited cell is never opened again

    When a cell is marked "visited" its recorded cost is at most the floor,
    and it stays so; a relaxation from the floor cannot go below it. *)

(** No "open" step of [l] comes after a "visited" step at the same cell. *)
Definition never_reopened (l : list AnimationStep) : Prop :=
  forall l1 c l2, l = l1 ++ mkStep c Cyan :: l2 -> ~ In (mkStep c Grey) l1.

Record VInv (L : float) (s : sstate) : Prop := {
  vinv_floor : forall c, In (mkStep c Grey) (steps s) ->
      dist_at s (fst c) (snd c) <= L;
  vinv_order : never_reopened (steps s)
}.

Lemma never_reopened_app (l m : list AnimationStep) :
  never_reopened l ->
  (forall c, In (mkStep c Cyan) m -> ~ In (mkStep c Grey) (l ++ m)) ->
  never_reopened (l ++ m).
Proof.
  intros Hl Hm l1 c l2 E Hg.
  apply app_eq_app in E. destruct E as [l' [[E1 E2]|[E1 E2]]].
  - destruct l' as [|x l'].
    + simpl in E2. rewrite app_nil_r in E1. subst l1.
      apply (Hm c); [rewrite <- E2; left; reflexivity|].
      apply in_or_app. left. exact Hg.
    + injection E2 as <- E2. apply (Hl l1 c l' E1 Hg).
  - subst l1. apply (Hm c).
    + rewrite E2. apply in_or_app. right. left. reflexivity.
    + rewrite E2, app_assoc. apply in_or_app. left. exact Hg.
Qed.

Lemma init_vinv : VInv 0 (init Dijkstra).
Proof.
  constructor.
  - unfold init. cbn [steps]. intros c [E|[]]. discriminate E.
  - intros l1 c l2 E. unfold init in E. cbn [steps] in E.
    destruct l1 as [|a l1]; [intros []|].
    destruct l1; discriminate E.
Qed.

Lemma step_vinv (s : sstate) (L L' : float) :
  Inv s -> FInv L s -> VInv L s -> L <= L' -> FInv L' (step Dijkstra s) ->
  VInv L' (step Dijkstra s).
Proof.
  intros HI HF [Hfl Hord] HL HF'. revert HF'. unfold step.
  destruct (pc s) as [|node [|d ds]|] eqn:Hpc.
  - destruct (q_pop (pq s)) as [[node q']|] eqn:Hpop.
    + destruct (q_pop_some _ _ _ Hpop) as [Hperm _].
      pose proof (Permutation_Forall Hperm (inv_queue s HI)) as Hq.
      inversion Hq as [|? ? Hnode _]; subst.
      destruct Hnode as (Hg & Ho & Hd & _).
      cbv zeta.
      destruct (stale s node) eqn:Hst.
      { intros _. constructor; cbn [dist prev pq steps pc]; [|exact Hord].
        intros c Hc. specialize (Hfl c Hc). unfold dist_at in *. cbn [dist]. lia. }
      destruct (is_anchor (node_x node) (node_y node)) eqn:Ha.
      { intros _.
        destruct (is_end (node_x node) (node_y node));
          (constructor; cbn [dist prev pq steps pc]; [|exact Hord]);
          intros c Hc; specialize (Hfl c Hc); unfold dist_at in *; cbn [dist]; lia. }
      assert (He : is_end (node_x node) (node_y node) = false).
      { unfold is_anchor in Ha. apply orb_false_iff in Ha. apply Ha. }
      rewrite He. intros HF'.
      pose proof (finv_pc _ _ HF') as Hp. cbn [pc] in Hp.
      constructor; cbn [dist prev pq steps pc].
      * intros c Hc. apply in_app_or in Hc. unfold dist_at. cbn [dist].
        destruct Hc as [Hc|[E|[]]].
        -- specialize (Hfl c Hc). unfold dist_at in Hfl. lia.
        -- injection E as <-. cbn [fst snd]. lia.
      * apply never_reopened_app; [exact Hord|].
        intros c [E|[]]. discriminate E.
    + intros _. constructor; cbn [dist prev pq steps pc]; [|exact Hord].
      intros c Hc. specialize (Hfl c Hc). unfold dist_at in *. cbn [dist]. lia.
  - intros _. constructor; cbn [dist prev pq steps pc]; [|exact Hord].
    intros c Hc. specialize (Hfl c Hc). unfold dist_at in *. cbn [dist]. lia.
  - intros _.
    pose proof (finv_pc _ _ HF) as Hp. rewrite Hpc in Hp.
    destruct (relaxes s node d) eqn:Hrel.
    + rewrite (relax_update Dijkstra s node d Hrel). cbv zeta.
      cbn [dist prev pq steps pc].
      unfold relaxes in Hrel. cbv zeta in Hrel.
      apply andb_true_iff in Hrel. destruct Hrel as [Hguard Hless].
      apply andb_true_iff in Hguard. destruct Hguard as [Hin Hw].
      unfold flt in Hless. apply Z.ltb_lt in Hless.
      pose proof (inv_wf_dist s HI) as Hwf.
      destruct (moveCost_bounds d) as [Hw0 _].
      pose proof (fadd_ge_l L (moveCost d) (finv_f32 _ _ HF)
                    ltac:(unfold F_ONE in *; lia)) as Hge.
      rewrite Hp in Hless.
      set (nx := node_x node + fst d) in *. set (ny := node_y node + snd d) in *.
      assert (Hnew : ~ In (mkStep (nx, ny) Grey) (steps s)).
      { intros Hc. specialize (Hfl _ Hc). cbn [fst snd] in Hfl. lia. }
      constructor; cbn [dist prev pq steps pc].
      * intros c Hc.
        assert (Hc' : In (mkStep c Grey) (steps s)).
        { destruct (is_anchor nx ny); [exact Hc|].
          apply in_app_or in Hc. destruct Hc as [Hc|[E|[]]]; [exact Hc | discriminate E]. }
        specialize (Hfl c Hc'). unfold dist_at in *. cbn [dist].
        destruct (coord_eqb_spec (fst c, snd c) (nx, ny)) as [E|E].
        -- exfalso. apply Hnew. destruct c as [x y]. cbn [fst snd] in E.
           rewrite <- E. exact Hc'.
        -- rewrite mget_set_other by assumption. lia.
      * destruct (is_anchor nx ny); [exact Hord|].
        apply never_reopened_app; [exact Hord|].
        intros c [E|[]] Hc. injection E as <-.
        apply in_app_or in Hc. destruct Hc as [Hc|[E|[]]]; [auto | discriminate E].
    + rewrite (relax_skip Dijkstra s node d Hrel).
      constructor; cbn [dist prev pq steps pc]; [|exact Hord].
      intros c Hc. specialize (Hfl c Hc). unfold dist_at in *. cbn [dist]. lia.
  - intros _. constructor; [|exact Hord].
    intros c Hc. specialize (Hfl c Hc). lia.
Qed.

Lemma steps_from_vinv (k : nat) (s : sstate) (L : float) :
  Inv s -> DInv s -> FInv L s -> VInv L s ->
  exists L', FInv L' (steps_from Dijkstra k s) /\ VInv L' (steps_from Dijkstra k s).
Proof.
  revert s L. induction k as [|k IH]; intros s L HI HD HF HV; simpl; [eauto|].
  destruct (step_finv s L HI HD HF) as (L' & HL & HF').
  apply (IH _ L'); [apply step_inv | apply step_dinv | exact HF' |]; try assumption.
  apply (step_vinv s L L'); assumption.
Qed.

(** In the trace of a Dijkstra run no cell is marked "open" after it was
    marked "visited": the cost of a visited cell is final. *)
Theorem dijkstra_never_reopens (fuel : nat) (r : search_result) :
  search Dijkstra fuel = Returned r -> never_reopened (trace r).
Proof.
  intros Hs.
  destruct (search_returns Dijkstra) as (f0 & s & r0 & Hrun & HI & Hpc & Hfin & Hs0).
  assert (r = r0) by (eapply search_deterministic; eauto). subst r0.
  destruct (run_loop_steps_from _ _ _ _ Hrun) as [k Hk].
  destruct (steps_from_vinv k _ 0 (init_inv Dijkstra) init_dinv init_finv init_vinv)
    as (L & _ & HV).
  rewrite <- Hk in HV.
  destruct (finish_path _ _ _ _ HI Hfin) as [(_ & Ht & _)|(l & _ & _ & _ & _ & Ht)];
    rewrite Ht; [apply (vinv_order _ _ HV)|].
  apply never_reopened_app; [apply (vinv_order _ _ HV)|].
  intros c Hc. exfalso. unfold path_steps in Hc. apply in_map_iff in Hc.
  destruct Hc as (c' & E & _). discriminate E.
Qed.
(** *** The A* heuristic

    The Chebyshev distance to the end is an integer below 2^24, so the
    conversion to [float] is exact.  One move changes it by at most one and
    costs at least one: the heuristic is consistent, and it never exceeds the
    cost of a walk to the end. *)
Theorem heuristic_admissible (x y : Z) :
  in_grid x y = true ->
  heuristic x y = chebyshev x y * F_ONE /\
  (heuristic x y = 0 <-> (x, y) = (endX, endY)) /\
  (forall dir, In dir directions ->
     in_grid (x + fst dir) (y + snd dir) = true ->
     heuristic x y <= heuristic (x + fst dir) (y + snd dir) + moveCost dir) /\
  (forall l, is_path ((x, y) :: l) -> last l (x, y) = (endX, endY) ->
     heuristic x y <= exact_cost ((x, y) :: l)).
Proof.
  intros Hxy. destruct (heuristic_exact x y Hxy) as (E & _ & Hc).
  split; [exact E|]. split; [|split].
  - rewrite E. unfold chebyshev, F_ONE. split.
    + intros H0. f_equal; lia.
    + intros H0. injection H0 as -> ->. rewrite !Z.sub_diag. reflexivity.
  - intros dir Hdir Hin. destruct (heuristic_exact _ _ Hin) as (E' & _ & _).
    rewrite E, E'. destruct (moveCost_bounds dir) as [Hw _].
    assert (Hd : -1 <= fst dir <= 1 /\ -1 <= snd dir <= 1).
    { unfold directions in Hdir. simpl in Hdir.
      repeat (destruct Hdir as [<-|Hdir]; [simpl; lia|]). destruct Hdir. }
    assert (chebyshev x y <= chebyshev (x + fst dir) (y + snd dir) + 1)
      by (unfold chebyshev; lia).
    unfold F_ONE in *. lia.
  - intros l Hp Hlast. pose proof (chebyshev_walk l (x, y) Hp Hlast) as Hw.
    cbn [fst snd] in Hw. rewrite E. unfold exact_cost.
    destruct (moves_nonneg ((x, y) :: l)) as [Hc0 Hd0].
    pose proof cardinal_le_diagonal as Hcd. unfold CARDINAL_COST in *.
    assert (H1 : chebyshev x y * F_ONE <=
                 (cardinals ((x, y) :: l) + diagonals ((x, y) :: l)) * F_ONE)
      by (apply Z.mul_le_mono_nonneg_r; unfold coord in *; lia).
    assert (H2 : diagonals ((x, y) :: l) * F_ONE <=
                 diagonals ((x, y) :: l) * DIAGONAL_COST)
      by (apply Z.mul_le_mono_nonneg_l; lia).
    lia.
Qed.
(** *** The returned path visits no cell twice *)

Lemma links_nodup (s : sstate) (t : coord) (l : list coord) :
  Inv s -> links s t l ->
  in_grid (fst t) (snd t) = true -> dist_at s (fst t) (snd t) < FLT_MAX ->
  NoDup (l ++ [(startX, startY)]).
Proof.
  intros HI. induction 1 as [|t l Hne Hmv Hl IH]; intros Hin Hfin.
  - constructor; [intros [] | constructor].
  - destruct t as [x y]. cbn [fst snd] in *.
    assert (Hns : is_start x y = false).
    { destruct (is_start x y) eqn:E; [|reflexivity].
      apply is_start_iff in E. congruence. }
    destruct (inv_prev s HI x y Hin Hns Hfin) as (Hpin & _ & _ & _ & Hlt).
    cbn [app]. constructor.
    + intros Hc.
      pose proof (links_dist s _ _ HI Hl Hpin ltac:(lia)) as Hd.
      rewrite Forall_forall in Hd. destruct (Hd _ Hc) as [_ Hle].
      cbn [fst snd] in Hle. lia.
    + apply IH; [exact Hpin | lia].
Qed.

(** The path a run returns starts at the start, ends at the end, has at most
    [N * N] cells and no cell twice. *)
Theorem path_is_simple (alg : algorithm) (fuel : nat) (r : search_result)
    (p : list coord) :
  search alg fuel = Returned r -> path r = Some p ->
  hd_error p = Some (startX, startY) /\ last p (startX, startY) = (endX, endY) /\
  NoDup p /\ Z.of_nat (length p) <= N * N.
Proof.
  intros Hs Hp.
  destruct (search_state alg fuel r Hs) as (f0 & s & HI & _ & _ & _ & Hfin).
  destruct (search_path alg fuel r Hs) as [Hw _].
  destruct (Hw p Hp) as (Hh & Hl & _).
  split; [exact Hh|]. split; [exact Hl|].
  destruct (finish_path _ _ _ _ HI Hfin) as [(Hn & _)|(l & Hsome & Hlk & Hlt & Hlen & _)];
    [congruence|].
  rewrite Hsome in Hp. injection Hp as <-. split.
  - apply NoDup_rev. apply (links_nodup s _ _ HI Hlk Hend Hlt).
  - rewrite length_rev, length_app. simpl. lia.
Qed.

(** *** The two strategies return paths of the same shape *)

(** The square root of two is irrational. *)
Lemma sqrt2_irrational (a b : Z) : a * a = 2 * (b * b) -> b = 0.
Proof.
  clear HN Hstart Hend.
  assert (H : forall n : nat, forall a b : Z,
            (Z.abs_nat b <= n)%nat -> a * a = 2 * (b * b) -> b = 0).
  { induction n as [|n IH]; intros a0 b0 Hn E; [lia|].
    destruct (Z.eq_dec b0 0) as [Hb|Hb]; [exact Hb|]. exfalso.
    assert (Hev : exists k, a0 = 2 * k).
    { destruct (Z.Even_or_Odd a0) as [[k Hk]|[k Hk]]; [eauto|]. subst a0. lia. }
    destruct Hev as [k ->].
    assert (E' : b0 * b0 = 2 * (k * k)) by lia.
    assert (Hk : k = 0).
    { apply (IH b0 k); [|exact E']. nia. }
    subst k. nia. }
  intros E. apply (H (Z.abs_nat b) a b); [lia | exact E].
Qed.

(** Two paths that cost the same in exact arithmetic have the same numbers
    of cardinal and of diagonal moves. *)
Lemma cost_le_antisym (p q : list coord) :
  cost_le p q -> cost_le q p ->
  cardinals p = cardinals q /\ diagonals p = diagonals q.
Proof.
  clear HN Hstart Hend.
  unfold cost_le. rewrite !neg_sqrt2_spec.
  set (a := cardinals p). set (b := diagonals p).
  set (c := cardinals q). set (d := diagonals q). clearbody a b c d.
  intros H1 H2.
  assert (Hb : b - d = 0).
  { apply (sqrt2_irrational (a - c) (b - d)).
    destruct H1 as [H1|[H1|H1]]; destruct H2 as [H2|[H2|H2]]; nia. }
  destruct H1 as [H1|[H1|H1]]; destruct H2 as [H2|[H2|H2]]; nia.
Qed.

(** On a grid of side at most 20 the path of Dijkstra and the path of A* have
    the same number of diagonal moves, the same number of cardinal moves and
    so the same number of cells. *)
Theorem both_paths_same_shape (f1 f2 : nat) (r1 r2 : search_result)
    (p1 p2 : list coord) :
  N <= 20 ->
  search Dijkstra f1 = Returned r1 -> path r1 = Some p1 ->
  search AStar f2 = Returned r2 -> path r2 = Some p2 ->
  diagonals p1 = diagonals p2 /\ cardinals p1 = cardinals p2 /\
  length p1 = length p2.
Proof.
  intros HN20 H1 Hp1 H2 Hp2.
  destruct (search_path Dijkstra f1 r1 H1) as [Hw1 _].
  destruct (search_path AStar f2 r2 H2) as [Hw2 _].
  destruct (dijkstra_path_shortest f1 r1 p1 HN20 H1 Hp1) as [Hm1 Hd].
  pose proof (astar_path_shortest f2 r2 p2 p1 H2 Hp2 (Hw1 p1 Hp1) ltac:(lia)) as Ha.
  destruct (cost_le_antisym p1 p2 (Hd p2 (Hw2 p2 Hp2)) Ha) as [Hc Hdg].
  split; [exact Hdg|]. split; [exact Hc|].
  pose proof (moves_length p1) as L1. pose proof (moves_length p2) as L2.
  destruct (Hw1 p1 Hp1) as (Hh1 & _). destruct (Hw2 p2 Hp2) as (Hh2 & _).
  destruct p1; [discriminate|]. destruct p2; [discriminate|].
  unfold coord in *. cbn [length] in *. lia.
Qed.
(** *** A grid without walls

    With no wall in the way the straight walk, diagonal while both
    coordinates differ from the end's and cardinal afterwards, is a cheapest
    one, and every cheapest walk has its numbers of moves. *)

(** One step from [a] towards [b] along one axis. *)
Definition toward (a b : Z) : Z := a + Z.sgn (b - a).

(** The walk of [k] moves from [(x, y)] straight towards the end. *)
Fixpoint direct_walk (k : nat) (x y : Z) : list coord :=
  match k with
  | O => [(x, y)]
  | S j => (x, y) :: direct_walk j (toward x endX) (toward y endY)
  end.

(** The sum of the distances to the end along the two axes. *)
Definition manhattan (x y : Z) : Z := Z.abs (x - endX) + Z.abs (y - endY).

Lemma direct_walk_head (k : nat) (x y : Z) :
  exists l, direct_walk k x y = (x, y) :: l.
Proof. destruct k; simpl; eauto. Qed.

Lemma direct_walk_spec (k : nat) (x y : Z) :
  (forall a b, in_grid a b = true -> wall_at a b = false) ->
  in_grid x y = true -> chebyshev x y = Z.of_nat k ->
  is_path (direct_walk k x y) /\
  last (direct_walk k x y) (x, y) = (endX, endY) /\
  diagonals (direct_walk k x y) = manhattan x y - chebyshev x y /\
  cardinals (direct_walk k x y) = 2 * chebyshev x y - manhattan x y.
Proof.
  intros Hfree. revert x y. induction k as [|k IH]; intros x y Hin Hk.
  - unfold chebyshev, manhattan in *. cbn [direct_walk is_path last diagonals cardinals].
    split; [exact I|]. split; [f_equal; lia | lia].
  - pose proof (proj1 (in_grid_iff _ _) Hin) as Hr.
    pose proof (proj1 (in_grid_iff _ _) Hend) as He.
    set (x' := toward x endX). set (y' := toward y endY).
    assert (Hin' : in_grid x' y' = true).
    { apply in_grid_iff. unfold x', y', toward. lia. }
    assert (Hk' : chebyshev x' y' = Z.of_nat k).
    { unfold chebyshev, x', y', toward in *. lia. }
    destruct (IH x' y' Hin' Hk') as (Hp & Hl & Hd & Hc).
    destruct (direct_walk_head k x' y') as [l Hw].
    cbn [direct_walk]. fold x' y'. rewrite Hw in *.
    assert (Hmove : move_ok (x, y) (x', y')).
    { split; [|split; [exact Hin' | apply Hfree; exact Hin']].
      exists (Z.sgn (endX - x), Z.sgn (endY - y)). cbn [fst snd].
      split; [|split; reflexivity].
      unfold chebyshev in Hk.
      destruct (Z.sgn_spec (endX - x)) as [[Hx ->]|[[Hx ->]|[Hx ->]]];
        destruct (Z.sgn_spec (endY - y)) as [[Hy ->]|[[Hy ->]|[Hy ->]]];
        unfold directions; simpl; try tauto.
      exfalso. lia. }
    split; [split; assumption|].
    split; [rewrite !last_cons_any; rewrite last_cons_any in Hl; exact Hl|].
    rewrite diagonals_cons, cardinals_cons. unfold coord in *.
    rewrite Hd, Hc. cbn [fst snd].
    unfold is_diagonal, chebyshev, manhattan, x', y', toward in *. cbn [fst snd].
    destruct (Z.eqb_spec (x + Z.sgn (endX - x) - x) 0);
      destruct (Z.eqb_spec (y + Z.sgn (endY - y) - y) 0);
      cbn [negb andb]; lia.
Qed.

(** One move changes the sum of the two distances by at most two, and a
    cardinal move by at most one. *)
Lemma manhattan_walk (l : list coord) (c : coord) :
  is_path (c :: l) -> last l c = (endX, endY) ->
  manhattan (fst c) (snd c) <= cardinals (c :: l) + 2 * diagonals (c :: l).
Proof.
  revert c. induction l as [|b l IH]; intros c Hp Hlast.
  - simpl in Hlast. subst c. unfold manhattan. simpl. lia.
  - destruct Hp as [(Hnb & _) Hp]. rewrite last_cons_any in Hlast.
    specialize (IH b Hp Hlast).
    rewrite cardinals_cons, diagonals_cons.
    destruct Hnb as (dir & Hdir & Hx & Hy).
    assert (Hcase :
      (is_diagonal (fst b - fst c, snd b - snd c) = true /\
       Z.abs (fst dir) + Z.abs (snd dir) = 2) \/
      (is_diagonal (fst b - fst c, snd b - snd c) = false /\
       Z.abs (fst dir) + Z.abs (snd dir) = 1)).
    { rewrite Hx, Hy, !Z.add_simpl_l. unfold directions in Hdir. simpl in Hdir.
      repeat (destruct Hdir as [<-|Hdir];
              [first [left; split; [reflexivity | cbn; lia]
                     | right; split; [reflexivity | cbn; lia]]|]).
      destruct Hdir. }
    unfold manhattan in *. destruct Hcase as [[-> H]|[-> H]]; lia.
Qed.

(** On a grid without walls, of side at most 20, the path either strategy
    returns has as many diagonal moves as the smaller of the two distances
    between the anchors, as many cardinal moves as the two distances differ,
    and so one cell more than the larger distance. *)
Theorem open_grid_path (alg : algorithm) (fuel : nat) (r : search_result) :
  N <= 20 ->
  (forall x y, in_grid x y = true -> wall_at x y = false) ->
  search alg fuel = Returned r ->
  let dx := Z.abs (endX - startX) in
  let dy := Z.abs (endY - startY) in
  exists p,
    path r = Some p /\
    diagonals p = Z.min dx dy /\
    cardinals p = Z.max dx dy - Z.min dx dy /\
    Z.of_nat (length p) = Z.max dx dy + 1.
Proof.
  intros HN20 Hfree Hs dx dy.
  pose proof (proj1 (in_grid_iff _ _) Hstart) as Hsr.
  pose proof (proj1 (in_grid_iff _ _) Hend) as Her.
  set (q := direct_walk (Z.to_nat (chebyshev startX startY)) startX startY).
  destruct (direct_walk_spec (Z.to_nat (chebyshev startX startY)) startX startY
              Hfree Hstart ltac:(unfold chebyshev; lia)) as (Hqp & Hql & Hqd & Hqc).
  fold q in Hqp, Hql, Hqd, Hqc.
  assert (Hq : path_from_start_to_end q).
  { split; [|split; assumption].
    unfold q. destruct (direct_walk_head (Z.to_nat (chebyshev startX startY))
                          startX startY) as [l ->]. reflexivity. }
  destruct (search_path alg fuel r Hs) as [Hw Hex].
  destruct (Hex (ex_intro _ q Hq)) as [p Hp]. exists p. split; [exact Hp|].
  destruct (Hw p Hp) as (Hh & Hl & Hpp).
  assert (Hle : cost_le p q).
  { destruct alg.
    - apply (dijkstra_path_shortest fuel r p HN20 Hs Hp). exact Hq.
    - apply (astar_path_shortest fuel r p q Hs Hp Hq).
      unfold chebyshev, manhattan in *. lia. }
  destruct p as [|c l]; [discriminate|]. injection Hh as ->.
  rewrite last_cons_any in Hl.
  pose proof (chebyshev_walk l _ Hpp Hl) as Hcheb.
  pose proof (manhattan_walk l _ Hpp Hl) as Hman.
  pose proof (moves_length ((startX, startY) :: l)) as Hlen.
  destruct (moves_nonneg ((startX, startY) :: l)) as [Hc0 Hd0].
  cbn [fst snd] in *. unfold cost_le in Hle. apply neg_sqrt2_spec in Hle.
  rewrite Hqd, Hqc in Hle.
  set (M := Z.max dx dy). set (m := Z.min dx dy).
  assert (HM : chebyshev startX startY = M)
    by (unfold chebyshev, M, dx, dy; lia).
  assert (Hm : manhattan startX startY = M + m)
    by (unfold manhattan, M, m, dx, dy; lia).
  assert (Hm0 : 0 <= m <= M) by (unfold M, m, dx, dy; lia).
  rewrite HM, Hm in *. unfold coord in *.
  set (c := cardinals ((startX, startY) :: l)) in *.
  set (d := diagonals ((startX, startY) :: l)) in *.
  set (n := length ((startX, startY) :: l)) in *.
  clearbody c d n M m. clear HM Hm.
  assert (Hab : forall a b : Z, 0 <= a + b -> 0 <= a + 2 * b ->
            (a <= 0 /\ b <= 0) \/ (a <= 0 /\ 0 < b /\ 2 * (b * b) <= a * a) \/
            (0 < a /\ b < 0 /\ a * a <= 2 * (b * b)) ->
            a = 0 /\ b = 0).
  { clear. intros a b H1 H2 [H|[H|H]]; [lia| |]; exfalso.
    - assert (a * a <= b * b) by nia. nia.
    - assert (4 * (b * b) <= a * a) by nia. nia. }
  destruct (Hab (c - (M - m)) (d - m)) as [Ha Hb]; [lia | lia | |].
  { replace (M - m) with (2 * M - (M + m)) by lia.
    replace (d - m) with (d - (M + m - M)) by lia. exact Hle. }
  assert (Hd : d = m) by lia. assert (Hc : c = M - m) by lia.
  split; [exact Hd|]. split; [exact Hc|]. lia.
Qed.

(** *** Dijkstra: each cell is opened at most twice

    A relaxation from the floor uses up a credit of the relaxed cell, and a
    cell has two; a "visited" step uses up an entry of the queue, and every
    entry was pushed with an "open" step. *)

Definition opened_at (c : coord) (e : AnimationStep) : bool :=
  coord_eqb (step_coord e) c && match step_color e with Cyan => true | _ => false end.

Definition visited_at (c : coord) (e : AnimationStep) : bool :=
  coord_eqb (step_coord e) c && match step_color e with Grey => true | _ => false end.

Definition entry_at (c : coord) (m : Node) : bool := coord_eqb (node_x m, node_y m) c.

Lemma count_app {A} (p : A -> bool) (l m : list A) :
  count p (l ++ m) = (count p l + count p m)%nat.
Proof. unfold count. rewrite filter_app, length_app. reflexivity. Qed.

Lemma count_perm {A} (p : A -> bool) (l m : list A) :
  Permutation l m -> count p l = count p m.
Proof.
  induction 1 as [|x l m _ IH|x y l|l m n _ IH1 _ IH2].
  - reflexivity.
  - rewrite !count_cons, IH. reflexivity.
  - rewrite !count_cons. lia.
  - congruence.
Qed.

Record PInv (L : float) (s : sstate) : Prop := {
  pinv_opens : forall x y, in_grid x y = true -> is_anchor x y = false ->
      Z.of_nat (count (opened_at (x, y)) (steps s)) + credit L (dist_at s x y) <= 2;
  pinv_visits : forall c, is_end (fst c) (snd c) = false ->
      (count (visited_at c) (steps s) + count (entry_at c) (q_elems (pq s))
       <= count (opened_at c) (steps s))%nat
}.

Lemma init_pinv : PInv 0 (init Dijkstra).
Proof.
  constructor.
  - intros x y Hxy Ha. unfold init. cbn [steps]. rewrite count_cons.
    unfold opened_at at 1. cbn [step_coord step_color].
    destruct (coord_eqb_spec (startX, startY) (x, y)) as [E|E].
    + exfalso. injection E as <- <-. unfold is_anchor in Ha.
      assert (is_start startX startY = true) by (apply is_start_iff; reflexivity).
      rewrite H in Ha. discriminate.
    + cbn. pose proof (credit_range 0 (dist_at (init Dijkstra) x y)). unfold init in *.
      change (count (opened_at (x, y)) []) with O. lia.
  - intros c _. unfold init. cbn [steps pq].
    rewrite (count_perm _ _ _ (q_push_elems _ _)), q_empty_elems.
    rewrite !count_cons. unfold visited_at, opened_at, entry_at.
    cbn [step_coord step_color node_x node_y].
    destruct (coord_eqb (startX, startY) c); cbn; lia.
Qed.

Lemma step_pinv (s : sstate) (L L' : float) :
  Inv s -> FInv L s -> PInv L s -> L <= L' -> FInv L' (step Dijkstra s) ->
  PInv L' (step Dijkstra s).
Proof.
  intros HI HF [Hop Hvis] HL HF'.
  destruct (finv_f32 L s HF) as [[HL0 _] _].
  assert (Hanti : forall v, credit L' v <= credit L v)
    by (intros v; apply credit_anti; lia).
  revert HF'. unfold step.
  destruct (pc s) as [|node [|d ds]|] eqn:Hpc.
  - destruct (q_pop (pq s)) as [[node q']|] eqn:Hpop.
    + destruct (q_pop_some _ _ _ Hpop) as [Hperm _].
      assert (Hq : forall c, count (entry_at c) (q_elems (pq s)) =
                   ((if entry_at c node then 1 else 0) + count (entry_at c) (q_elems q'))%nat).
      { intros c. rewrite (count_perm _ _ _ Hperm). apply count_cons. }
      cbv zeta.
      destruct (stale s node) eqn:Hst.
      { intros _. constructor; cbn [dist prev pq steps pc]; unfold dist_at; cbn [dist].
        - intros x y Hxy Ha. specialize (Hop x y Hxy Ha). specialize (Hanti (dist_at s x y)).
          unfold dist_at in *. lia.
        - intros c Hc. specialize (Hvis c Hc). rewrite Hq in Hvis. lia. }
      set (steps' := if is_anchor (node_x node) (node_y node) then steps s
                     else steps s ++ [mkStep (node_x node, node_y node) Grey]).
      assert (Hopen : forall c, count (opened_at c) steps' = count (opened_at c) (steps s)).
      { intros c. unfold steps'. destruct (is_anchor _ _); [reflexivity|].
        rewrite count_app, count_cons. unfold opened_at at 2. cbn [step_color].
        rewrite andb_false_r. change (count (opened_at c) []) with O. lia. }
      assert (Hvisit : forall c, (count (visited_at c) steps' <=
                 count (visited_at c) (steps s) + (if entry_at c node then 1 else 0))%nat).
      { intros c. unfold steps'. destruct (is_anchor _ _); [lia|].
        rewrite count_app, count_cons. unfold visited_at at 2, entry_at.
        cbn [step_coord step_color]. rewrite andb_true_r.
        change (count (visited_at c) []) with O.
        destruct (coord_eqb (node_x node, node_y node) c); lia. }
      assert (HP : forall c0, PInv L' (mkState (dist s) (prev s) q' steps' c0)).
      { intros c0. constructor; cbn [dist prev pq steps pc]; unfold dist_at; cbn [dist].
        - intros x y Hxy Ha. specialize (Hop x y Hxy Ha). specialize (Hanti (dist_at s x y)).
          rewrite Hopen. unfold dist_at in *. lia.
        - intros c Hc. specialize (Hvis c Hc). rewrite Hq in Hvis.
          specialize (Hvisit c). rewrite Hopen. lia. }
      intros _. destruct (is_end (node_x node) (node_y node)); apply HP.
    + intros _. constructor; cbn [dist prev pq steps pc]; unfold dist_at; cbn [dist].
      * intros x y Hxy Ha. specialize (Hop x y Hxy Ha). specialize (Hanti (dist_at s x y)).
        unfold dist_at in *. lia.
      * exact Hvis.
  - intros _. constructor; cbn [dist prev pq steps pc]; unfold dist_at; cbn [dist].
    + intros x y Hxy Ha. specialize (Hop x y Hxy Ha). specialize (Hanti (dist_at s x y)).
      unfold dist_at in *. lia.
    + exact Hvis.
  - intros HF'.
    pose proof (finv_pc _ _ HF) as Hp. rewrite Hpc in Hp.
    pose proof (finv_pc _ _ HF') as Hp'. cbn [pc] in Hp'.
    assert (E : L' = L) by congruence. rewrite E in *. clear E Hp'.
    revert HF'. destruct (relaxes s node d) eqn:Hrel.
    + rewrite (relax_update Dijkstra s node d Hrel). cbv zeta.
      cbn [dist prev pq steps pc]. intros _.
      unfold relaxes in Hrel. cbv zeta in Hrel.
      apply andb_true_iff in Hrel. destruct Hrel as [Hguard Hless].
      apply andb_true_iff in Hguard. destruct Hguard as [Hin Hw].
      unfold flt in Hless. apply Z.ltb_lt in Hless.
      pose proof (inv_wf_dist s HI) as Hwf.
      rewrite Hp in *.
      set (nx := node_x node + fst d) in *. set (ny := node_y node + snd d) in *.
      set (nd := fadd L (moveCost d)) in *.
      assert (Hnd0 : 0 <= nd) by (apply fadd_nonneg; [lia | destruct (moveCost_bounds d); unfold F_ONE in *; lia]).
      assert (Hns : is_start nx ny = false).
      { destruct (is_start nx ny) eqn:E; [|reflexivity].
        apply is_start_iff in E. injection E as E1 E2. rewrite E1, E2 in Hless.
        rewrite (inv_start s HI) in Hless. lia. }
      constructor; cbn [dist prev pq steps pc]; unfold dist_at; cbn [dist].
      * intros x y Hxy Ha.
        destruct (coord_eqb_spec (x, y) (nx, ny)) as [E|E].
        -- injection E as -> ->. rewrite Ha, count_app, count_cons.
           unfold opened_at at 2. cbn [step_coord step_color].
           destruct (coord_eqb_spec (nx, ny) (nx, ny)) as [_|Hne]; [|congruence].
           change (count (opened_at (nx, ny)) []) with O. cbn [andb].
           rewrite mget_set_same by assumption.
           specialize (Hop nx ny Hxy Ha).
           pose proof (credit_relax L (dist_at s nx ny) d HL0 Hless) as Hcr.
           fold nd in Hcr. lia.
        -- rewrite mget_set_other by assumption.
           specialize (Hop x y Hxy Ha). unfold dist_at in Hop.
           destruct (is_anchor nx ny); [exact Hop|].
           rewrite count_app, count_cons. unfold opened_at at 2. cbn [step_coord].
           destruct (coord_eqb_spec (nx, ny) (x, y)) as [E'|_]; [congruence|].
           cbn [andb]. change (count (opened_at (x, y)) []) with O. lia.
      * intros c Hc. specialize (Hvis c Hc).
        rewrite (count_perm _ _ _ (q_push_elems _ _)), count_cons.
        unfold entry_at at 1. cbn [node_x node_y].
        destruct (coord_eqb_spec (nx, ny) c) as [E|E].
        -- subst c. cbn [fst snd] in Hc.
           assert (Ha : is_anchor nx ny = false)
             by (unfold is_anchor; rewrite Hns, Hc; reflexivity).
           rewrite Ha, !count_app, !count_cons.
           unfold opened_at at 2, visited_at at 2. cbn [step_coord step_color].
           destruct (coord_eqb_spec (nx, ny) (nx, ny)) as [_|Hne]; [|congruence].
           cbn [andb]. change (count (opened_at (nx, ny)) []) with O.
           change (count (visited_at (nx, ny)) []) with O. lia.
        -- destruct (is_anchor nx ny); [lia|].
           rewrite !count_app, !count_cons.
           unfold opened_at at 2, visited_at at 2. cbn [step_coord step_color].
           destruct (coord_eqb_spec (nx, ny) c) as [E'|_]; [congruence|].
           cbn [andb]. change (count (opened_at c) []) with O.
           change (count (visited_at c) []) with O. lia.
    + rewrite (relax_skip Dijkstra s node d Hrel). intros _.
      constructor; cbn [dist prev pq steps pc]; unfold dist_at; cbn [dist];
        [exact Hop | exact Hvis].
  - intros _. constructor; [|exact Hvis].
    intros x y Hxy Ha. specialize (Hop x y Hxy Ha). specialize (Hanti (dist_at s x y)). lia.
Qed.

Lemma steps_from_pinv (k : nat) (s : sstate) (L : float) :
  Inv s -> DInv s -> FInv L s -> PInv L s ->
  exists L', FInv L' (steps_from Dijkstra k s) /\ PInv L' (steps_from Dijkstra k s).
Proof.
  revert s L. induction k as [|k IH]; intros s L HI HD HF HP; simpl; [eauto|].
  destruct (step_finv s L HI HD HF) as (L' & HL & HF').
  apply (IH _ L'); [apply step_inv | apply step_dinv | exact HF' |]; try assumption.
  apply (step_pinv s L L'); assumption.
Qed.

(** In the trace of a Dijkstra run every cell has at most two "open" steps,
    and no more "visited" steps than "open" steps. *)
Theorem dijkstra_steps_per_cell (fuel : nat) (r : search_result) (c : coord) :
  search Dijkstra fuel = Returned r ->
  (count (opened_at c) (trace r) <= 2)%nat /\
  (count (visited_at c) (trace r) <= count (opened_at c) (trace r))%nat.
Proof.
  intros Hs.
  destruct (search_returns Dijkstra) as (f0 & s & r0 & Hrun & HI & Hpc & Hfin & Hs0).
  assert (r = r0) by (eapply search_deterministic; eauto). subst r0.
  destruct (run_loop_steps_from _ _ _ _ Hrun) as [k Hk].
  destruct (steps_from_pinv k _ 0 (init_inv Dijkstra) init_dinv init_finv init_pinv)
    as (L & HF & HP).
  pose proof (steps_from_tinv Dijkstra k _ (init_inv Dijkstra) (init_cinv Dijkstra)
                (init_tinv Dijkstra)) as HT.
  rewrite <- Hk in HF, HP, HT.
  (* the steps of the path are neither "open" nor "visited" steps *)
  assert (Htr : count (opened_at c) (trace r) = count (opened_at c) (steps s) /\
                count (visited_at c) (trace r) = count (visited_at c) (steps s)).
  { destruct (finish_path _ _ _ _ HI Hfin) as [(_ & Ht & _)|(l & _ & _ & _ & _ & Ht)];
      rewrite Ht; [split; reflexivity|].
    rewrite !count_app.
    assert (Hno : forall p : AnimationStep -> bool,
              (forall e, step_color e = Green -> p e = false) ->
              count p (path_steps Dijkstra (rev (l ++ [(startX, startY)]))) = O).
    { intros p Hp. apply count_none. intros e He. apply Hp.
      unfold path_steps in He. apply in_map_iff in He.
      destruct He as (c' & <- & _). reflexivity. }
    rewrite !Hno; [lia | |].
    - intros e He. unfold visited_at. rewrite He. apply andb_false_r.
    - intros e He. unfold opened_at. rewrite He. apply andb_false_r. }
  destruct Htr as [-> ->].
  destruct c as [x y].
  destruct (is_anchor x y) eqn:Ha.
  - (* an anchor: the first step if it is the start, and no other step *)
    destruct (inv_steps s HI) as (rest & Hrest & Hall). rewrite Hrest, !count_cons.
    assert (Hno : forall p : AnimationStep -> bool,
              (forall e, p e = true -> step_coord e = (x, y)) -> count p rest = O).
    { intros p Hp. apply count_none. intros e He.
      destruct (p e) eqn:E; [|reflexivity]. exfalso.
      rewrite Forall_forall in Hall. specialize (Hall e He).
      unfold not_anchor in Hall. rewrite (Hp e E) in Hall. cbn [fst snd] in Hall.
      congruence. }
    rewrite !Hno.
    + unfold visited_at, opened_at. cbn [step_color]. rewrite andb_false_r.
      destruct (coord_eqb _ _ && true); lia.
    + intros e He. unfold visited_at in He. apply andb_true_iff in He.
      destruct He as [He _]. destruct (coord_eqb_spec (step_coord e) (x, y)); congruence.
    + intros e He. unfold opened_at in He. apply andb_true_iff in He.
      destruct He as [He _]. destruct (coord_eqb_spec (step_coord e) (x, y)); congruence.
  - assert (He : is_end x y = false).
    { unfold is_anchor in Ha. apply orb_false_iff in Ha. apply Ha. }
    pose proof (pinv_visits L s HP (x, y) He) as Hv.
    destruct (in_grid x y) eqn:Hg.
    + pose proof (pinv_opens L s HP x y Hg Ha) as Ho.
      pose proof (credit_range L (dist_at s x y)). lia.
    + assert (Hno : count (opened_at (x, y)) (steps s) = O).
      { apply count_none. intros e He'.
        destruct (opened_at (x, y) e) eqn:E; [|reflexivity]. exfalso.
        unfold opened_at in E. apply andb_true_iff in E. destruct E as [E _].
        destruct (coord_eqb_spec (step_coord e) (x, y)) as [E'|]; [|discriminate].
        pose proof (tinv_cells s HT) as Hc. rewrite Forall_forall in Hc.
        destruct (Hc e He') as [Hin _]. rewrite E' in Hin. cbn [fst snd] in Hin.
        congruence. }
      lia.
Qed.

(** The message of a result: empty with a path, the strategy's "No Path
    Found!" without. *)
Lemma search_message (alg : algorithm) (fuel : nat) (r : search_result) :
  search alg fuel = Returned r ->
  (forall p, path r = Some p -> message r = Msg.none) /\
  (path r = None -> message r = no_path_message alg).
Proof.
  intros Hs.
  destruct (search_returns alg) as (f0 & s & r0 & _ & _ & _ & Hfin & Hs0).
  assert (r = r0) by (eapply search_deterministic; eauto). subst r0.
  unfold finish in Hfin. destruct (flt (dist_at s endX endY) FLT_MAX).
  - destruct (reconstruct f0 (prev s)) as [p| |]; try discriminate.
    injection Hfin as <-. cbn. split; [reflexivity | discriminate].
  - injection Hfin as <-. cbn. split; [discriminate | reflexivity].
Qed.

End Search.

(** ** The program: its constants, the window's state and the click handler *)

(** [startX], [startY], [endX], [endY]: set once in [main] and never changed. *)
Definition START_X : Z := 0.
Definition START_Y : Z := 0.
Definition END_X : Z := GRID_SIZE - 1.
Definition END_Y : Z := GRID_SIZE - 1.

(** The variables of [main] that the handlers touch. *)
Record ui := mkUi {
  ui_wall : matrix bool;
  gridColors : matrix color;
  dijkstraAnimationSteps : list AnimationStep;
  astarAnimationSteps : list AnimationStep;
  currentDijkstraAnimFrame : Z;
  currentAstarAnimFrame : Z;
  currentMessage : String.string
}.

(** [resetGridColors]: walls white, free cells orange, the anchors blue. *)
Definition resetGridColors (w : matrix bool) : matrix color :=
  mset (mset (map (map (fun b : bool => if b then White else Orange)) w)
             START_X START_Y Blue)
       END_X END_Y Blue.

Definition initial_wall : matrix bool := mconst (Z.to_nat GRID_SIZE) false.

Definition initial_ui : ui :=
  mkUi initial_wall (resetGridColors initial_wall) [] [] (-1) (-1) Msg.none.

Section Window.
Context {PQ : MinQueue}.

(** The hit tests of the two buttons.  Their rectangles are computed from the
    text bounds of the loaded font, which the sources do not determine. *)
Variables in_dijkstra_button in_astar_button : Z -> Z -> bool.

(** One search block of the handler, run on the current walls. *)
Definition run_search (alg : algorithm) (w : matrix bool) (fuel : nat) :
    outcome search_result :=
  search GRID_SIZE START_X START_Y END_X END_Y w alg fuel.

(** The grid branch of the handler: toggle the wall of the clicked cell unless
    it is an anchor, then clear paths, messages and animations. *)
Definition on_grid_click (mx my : Z) (u : ui) : ui :=
  let col := Z.quot mx CELL_SIZE in
  let row := Z.quot my CELL_SIZE in
  let w := if negb (((col =? START_X) && (row =? START_Y)) ||
                    ((col =? END_X) && (row =? END_Y)))
           then mset (ui_wall u) col row (negb (mget false (ui_wall u) col row))
           else ui_wall u in
  mkUi w (resetGridColors w) [] [] (-1) (-1) Msg.none.

(** A button branch of the handler: clear, run the search on the current
    walls, keep its steps and message, start its animation. *)
Definition on_button_click (alg : algorithm) (fuel : nat) (u : ui) : outcome ui :=
  match run_search alg (ui_wall u) fuel with
  | Returned r =>
      Returned
        match alg with
        | Dijkstra => mkUi (ui_wall u) (resetGridColors (ui_wall u))
                           (trace r) [] 0 (-1) (message r)
        | AStar => mkUi (ui_wall u) (resetGridColors (ui_wall u))
                        [] (trace r) (-1) 0 (message r)
        end
  | Undefined => Undefined
  | OutOfFuel => OutOfFuel
  end.

(** The handler of a left mouse button press at [(mx, my)]. *)
Definition on_left_click (fuel : nat) (mx my : Z) (u : ui) : outcome ui :=
  if (0 <=? mx) && (mx <? GRID_SIZE * CELL_SIZE) &&
     (0 <=? my) && (my <? GRID_SIZE * CELL_SIZE)
  then Returned (on_grid_click mx my u)
  else if in_dijkstra_button mx my then on_button_click Dijkstra fuel u
  else if in_astar_button mx my then on_button_click AStar fuel u
  else Returned u.

(** The states the window can be in: the initial one and those a left click
    leads to. *)
Inductive reachable : ui -> Prop :=
| reach_init : reachable initial_ui
| reach_click : forall u fuel mx my u',
    reachable u -> on_left_click fuel mx my u = Returned u' -> reachable u'.

Definition anchors_free (w : matrix bool) : Prop :=
  wall_at w START_X START_Y = false /\ wall_at w END_X END_Y = false.

Lemma on_button_click_wall (alg : algorithm) (fuel : nat) (u u' : ui) :
  on_button_click alg fuel u = Returned u' -> ui_wall u' = ui_wall u.
Proof.
  unfold on_button_click. destruct (run_search alg (ui_wall u) fuel); try discriminate.
  intros H; injection H as <-. destruct alg; reflexivity.
Qed.

Lemma on_grid_click_anchors (mx my : Z) (u : ui) :
  0 <= mx -> 0 <= my ->
  anchors_free (ui_wall u) -> anchors_free (ui_wall (on_grid_click mx my u)).
Proof.
  intros Hx Hy [Hs He]. unfold on_grid_click. cbv zeta. cbn [ui_wall].
  assert (Hc : 0 <= Z.quot mx CELL_SIZE) by (apply Z.quot_pos; unfold CELL_SIZE; lia).
  assert (Hr : 0 <= Z.quot my CELL_SIZE) by (apply Z.quot_pos; unfold CELL_SIZE; lia).
  set (col := Z.quot mx CELL_SIZE) in *. set (row := Z.quot my CELL_SIZE) in *.
  destruct ((col =? START_X) && (row =? START_Y)) eqn:E1; simpl; [split; assumption|].
  destruct ((col =? END_X) && (row =? END_Y)) eqn:E2; simpl; [split; assumption|].
  unfold anchors_free, wall_at, mget in *.
  rewrite !mread_mset_other; auto.
  - intros E. injection E as <- <-. rewrite !Z.eqb_refl in E2. discriminate.
  - intros E. injection E as <- <-. rewrite !Z.eqb_refl in E1. discriminate.
Qed.

(** C9.  In every state the window can reach, the wall flags of the start
    cell and of the end cell are false; a left click in the grid area keeps
    them false, and when the clicked cell is an anchor the walls are left as
    they are. *)
Theorem anchors_never_walls (u : ui) :
  reachable u ->
  anchors_free (ui_wall u) /\
  (forall fuel mx my u', on_left_click fuel mx my u = Returned u' ->
     anchors_free (ui_wall u')) /\
  (forall fuel mx my,
     0 <= mx < GRID_SIZE * CELL_SIZE -> 0 <= my < GRID_SIZE * CELL_SIZE ->
     (Z.quot mx CELL_SIZE, Z.quot my CELL_SIZE) = (START_X, START_Y) \/
     (Z.quot mx CELL_SIZE, Z.quot my CELL_SIZE) = (END_X, END_Y) ->
     exists u', on_left_click fuel mx my u = Returned u' /\ ui_wall u' = ui_wall u).
Proof.
  assert (Hclick : forall v fuel mx my v', anchors_free (ui_wall v) ->
            on_left_click fuel mx my v = Returned v' -> anchors_free (ui_wall v')).
  { intros v fuel mx my v' Hv. unfold on_left_click.
    destruct ((0 <=? mx) && (mx <? GRID_SIZE * CELL_SIZE) &&
              (0 <=? my) && (my <? GRID_SIZE * CELL_SIZE)) eqn:E.
    - intros H; injection H as <-.
      rewrite !andb_true_iff, !Z.leb_le in E.
      apply on_grid_click_anchors; tauto.
    - destruct (in_dijkstra_button mx my).
      { intros H. rewrite (on_button_click_wall _ _ _ _ H). exact Hv. }
      destruct (in_astar_button mx my).
      { intros H. rewrite (on_button_click_wall _ _ _ _ H). exact Hv. }
      intros H; injection H as <-. exact Hv. }
  intros Hr.
  assert (Hfree : anchors_free (ui_wall u)).
  { induction Hr as [|u fuel mx my u' Hr IH Hc].
    - split; reflexivity.
    - eapply Hclick; eauto. }
  split; [exact Hfree|]. split.
  - intros fuel mx my u' Hc. eapply Hclick; eauto.
  - intros fuel mx my Hx Hy Hcell. unfold on_left_click.
    assert (E : (0 <=? mx) && (mx <? GRID_SIZE * CELL_SIZE) &&
                (0 <=? my) && (my <? GRID_SIZE * CELL_SIZE) = true).
    { rewrite !andb_true_iff, !Z.leb_le, !Z.ltb_lt. lia. }
    rewrite E. eexists. split; [reflexivity|].
    unfold on_grid_click. cbv zeta. cbn [ui_wall].
    destruct Hcell as [Hc|Hc]; injection Hc as -> ->.
    + rewrite !Z.eqb_refl. reflexivity.
    + rewrite !Z.eqb_refl, orb_true_r. reflexivity.
Qed.

(** C8.  Two runs of the same strategy on the same walls return the same
    result, whatever fuel each was given: the same trace, the same path and so
    the same path cost.  Pressing the same button a second time, the walls
    unchanged, leaves the window in the state the first press left it in. *)
Theorem same_run_same_cost (alg : algorithm) (w : matrix bool) (fuel1 fuel2 : nat)
    (r1 r2 : search_result) :
  run_search alg w fuel1 = Returned r1 -> run_search alg w fuel2 = Returned r2 ->
  r1 = r2 /\
  option_map path_cost (path r1) = option_map path_cost (path r2) /\
  (forall u u1 u2, ui_wall u = w ->
     on_button_click alg fuel1 u = Returned u1 ->
     on_button_click alg fuel2 u1 = Returned u2 -> u2 = u1).
Proof.
  intros H1 H2. unfold run_search in *.
  assert (E : r1 = r2) by (eapply search_deterministic; eauto).
  split; [exact E|]. split; [rewrite E; reflexivity|].
  intros u u1 u2 Hw Hc1 Hc2.
  pose proof (on_button_click_wall _ _ _ _ Hc1) as Hw1.
  unfold on_button_click, run_search in Hc1, Hc2.
  rewrite Hw1, Hw, H2 in Hc2. rewrite Hw, H1 in Hc1.
  injection Hc1 as <-. injection Hc2 as <-. rewrite E.
  destruct alg; reflexivity.
Qed.

End Window.

(** ** The cost model *)

Lemma directions_offsets (dx dy : Z) :
  In (dx, dy) directions <->
  -1 <= dx <= 1 /\ -1 <= dy <= 1 /\ (dx, dy) <> (0, 0).
Proof.
  unfold directions. split.
  - simpl. intros H.
    repeat (destruct H as [H|H]; [injection H as <- <-; repeat split; try lia; discriminate|]).
    destruct H.
  - intros (Hx & Hy & Hne).
    assert (Ex : dx = -1 \/ dx = 0 \/ dx = 1) by lia.
    assert (Ey : dy = -1 \/ dy = 0 \/ dy = 1) by lia.
    destruct Ex as [-> | [-> | ->]], Ey as [-> | [-> | ->]]; simpl; try tauto.
Qed.

Lemma moveCost_cases (dx dy : Z) :
  moveCost (dx, dy) = if (dx =? 0) || (dy =? 0) then CARDINAL_COST else DIAGONAL_COST.
Proof.
  unfold moveCost. simpl. destruct (dx =? 0), (dy =? 0); reflexivity.
Qed.

Section Moves.
Context {PQ : MinQueue}.
Variable N : Z.
Variables startX startY endX endY : Z.
Variable wall : matrix bool.

(** The state [s] with control moved to [c]. *)
Definition set_pc (s : sstate) (c : control) : sstate :=
  mkState (dist s) (prev s) (pq s) (steps s) c.

Lemma relax_set_pc (alg : algorithm) (node : Node) (dir : coord) (s : sstate) (c : control) :
  relax N startX startY endX endY wall alg node dir (set_pc s c) =
  set_pc (relax N startX startY endX endY wall alg node dir s) c.
Proof.
  unfold relax, set_pc, dist_at. cbv zeta. cbn [dist prev pq steps pc].
  destruct (in_grid N _ _ && negb (wall_at wall _ _)); [|reflexivity].
  destruct (flt _ _); reflexivity.
Qed.

Lemma fold_relax_set_pc (alg : algorithm) (node : Node) (ds : list coord) (s : sstate)
    (c : control) :
  fold_left (fun t d => relax N startX startY endX endY wall alg node d t) ds (set_pc s c) =
  set_pc (fold_left (fun t d => relax N startX startY endX endY wall alg node d t) ds s) c.
Proof.
  revert s. induction ds as [|d ds IH]; intros s; simpl; [reflexivity|].
  rewrite relax_set_pc. apply IH.
Qed.

Lemma step_in_for (alg : algorithm) (s : sstate) (node : Node) (d : coord) (ds : list coord) :
  pc s = InFor node (d :: ds) ->
  step N startX startY endX endY wall alg s =
  set_pc (relax N startX startY endX endY wall alg node d s) (InFor node ds).
Proof.
  intros Hpc. unfold step. rewrite Hpc. reflexivity.
Qed.

(** The [for] loop from any point on: one step for each direction left, in
    order. *)
Lemma for_loop_steps (alg : algorithm) (node : Node) (ds : list coord) (s : sstate) :
  pc s = InFor node ds ->
  steps_from N startX startY endX endY wall alg (length ds) s =
  set_pc (fold_left (fun t d => relax N startX startY endX endY wall alg node d t) ds s)
         (InFor node []).
Proof.
  revert s. induction ds as [|d ds IH]; intros s Hpc.
  - simpl. destruct s as [a b c e p]. simpl in Hpc. subst p. reflexivity.
  - cbn [length steps_from fold_left]. rewrite (step_in_for alg s node d ds Hpc).
    rewrite IH by reflexivity. rewrite fold_relax_set_pc. reflexivity.
Qed.

(** The tests and the update of the [for] body, case by case. *)
Lemma relax_cases (alg : algorithm) (node : Node) (dx dy : Z) (s : sstate) :
  let nx := node_x node + dx in
  let ny := node_y node + dy in
  let nd := fadd (node_g node)
                 (if (dx =? 0) || (dy =? 0) then CARDINAL_COST else DIAGONAL_COST) in
  (~ (0 <= nx < N /\ 0 <= ny < N) \/ wall_at wall nx ny = true ->
   relax N startX startY endX endY wall alg node (dx, dy) s = s) /\
  (0 <= nx < N /\ 0 <= ny < N -> wall_at wall nx ny = false ->
   (nd < dist_at s nx ny ->
    relax N startX startY endX endY wall alg node (dx, dy) s =
    mkState (mset (dist s) nx ny nd)
            (mset (prev s) nx ny (node_x node, node_y node))
            (q_push (mkNode (priority endX endY alg nd nx ny) nd nx ny) (pq s))
            (if is_anchor startX startY endX endY nx ny then steps s
             else steps s ++ [mkStep (nx, ny) Cyan])
            (pc s)) /\
   (dist_at s nx ny <= nd ->
    relax N startX startY endX endY wall alg node (dx, dy) s = s)).
Proof.
  intros nx ny nd. subst nd. rewrite <- moveCost_cases.
  split; [|intros Hin Hw; split].
  - intros H. apply relax_skip. unfold relaxes. cbv zeta. cbn [fst snd]. fold nx ny.
    destruct H as [H|H].
    + destruct (in_grid N nx ny) eqn:E; [|reflexivity].
      apply in_grid_iff in E. contradiction.
    + rewrite H. simpl. rewrite andb_false_r. reflexivity.
  - intros Hlt. apply (relax_update N startX startY endX endY wall alg s node (dx, dy)).
    unfold relaxes. cbv zeta. cbn [fst snd]. fold nx ny.
    rewrite (proj2 (in_grid_iff N nx ny) Hin), Hw. simpl. apply Z.ltb_lt. exact Hlt.
  - intros Hle. apply relax_skip. unfold relaxes. cbv zeta. cbn [fst snd]. fold nx ny.
    rewrite (proj2 (in_grid_iff N nx ny) Hin), Hw. simpl. apply Z.ltb_ge. exact Hle.
Qed.

(** The recorded costs after one run of the [for] body. *)
Lemma relax_dist_at (alg : algorithm) (node : Node) (d : coord) (s : sstate) (x y : Z) :
  wf_matrix (Z.to_nat N) (dist s) ->
  let nx := node_x node + fst d in
  let ny := node_y node + snd d in
  wf_matrix (Z.to_nat N) (dist (relax N startX startY endX endY wall alg node d s)) /\
  dist_at (relax N startX startY endX endY wall alg node d s) x y =
    if in_grid N nx ny && negb (wall_at wall nx ny) && ((x =? nx) && (y =? ny))
    then Z.min (dist_at s x y) (fadd (node_g node) (moveCost d))
    else dist_at s x y.
Proof.
  intros Hwf nx ny.
  destruct (relaxes N wall s node d) eqn:E.
  - rewrite (relax_update N startX startY endX endY wall alg s node d E).
    cbv zeta. fold nx ny. unfold dist_at. cbn [dist].
    split; [apply wf_mset; exact Hwf|].
    unfold relaxes in E. cbv zeta in E. fold nx ny in E.
    apply andb_true_iff in E. destruct E as [E Hlt].
    rewrite E. cbn [andb]. unfold flt, dist_at in Hlt. apply Z.ltb_lt in Hlt.
    apply andb_true_iff in E. destruct E as [Hg _].
    destruct (Z.eqb_spec x nx) as [-> |Hx]; [destruct (Z.eqb_spec y ny) as [-> |Hy]|];
      cbn [andb].
    + pose proof (proj1 (in_grid_iff N nx ny) Hg) as Hb. unfold mget in *.
      rewrite (mread_mset_same (Z.to_nat N)); [lia | exact Hwf | lia | lia].
    + rewrite (mget_set_other N); auto. congruence.
    + rewrite (mget_set_other N); auto. congruence.
  - rewrite (relax_skip N startX startY endX endY wall alg s node d E).
    split; [exact Hwf|].
    unfold relaxes in E. cbv zeta in E. fold nx ny in E.
    destruct (in_grid N nx ny && negb (wall_at wall nx ny)); [|reflexivity].
    cbn [andb] in E |- *. unfold flt in E. apply Z.ltb_ge in E.
    destruct (Z.eqb_spec x nx) as [-> |Hx]; [destruct (Z.eqb_spec y ny) as [-> |Hy]|];
      cbn [andb]; try reflexivity. lia.
Qed.

(** The recorded costs after the [for] loop over distinct directions: the
    one candidate at [(x, y)], if there is one, has been offered the popped cost
    plus its move cost; every other cell keeps its cost. *)
Lemma fold_relax_dist (alg : algorithm) (node : Node) (ds : list coord) :
  NoDup ds -> forall s x y,
  wf_matrix (Z.to_nat N) (dist s) ->
  let s' := fold_left (fun t d => relax N startX startY endX endY wall alg node d t) ds s in
  (forall d, In d ds -> (node_x node + fst d, node_y node + snd d) = (x, y) ->
     in_grid N x y = true -> wall_at wall x y = false ->
     dist_at s' x y = Z.min (dist_at s x y) (fadd (node_g node) (moveCost d))) /\
  ((forall d, In d ds -> (node_x node + fst d, node_y node + snd d) = (x, y) ->
      in_grid N x y = true -> wall_at wall x y = false -> False) ->
   dist_at s' x y = dist_at s x y).
Proof.
  induction 1 as [|d0 ds Hnin Hnd IH]; intros s x y Hwf; cbn [fold_left].
  - split; [intros d []|reflexivity].
  - destruct (relax_dist_at alg node d0 s x y Hwf) as [Hwf1 Hd1].
    destruct (IH (relax N startX startY endX endY wall alg node d0 s) x y Hwf1)
      as [IH1 IH2].
    cbv zeta in *. split.
    + intros d [<- |Hin] Hhit Hg Hw.
      * rewrite IH2.
        -- rewrite Hd1. injection Hhit as Hx Hy. rewrite Hx, Hy, Hg, Hw, !Z.eqb_refl.
           reflexivity.
        -- intros d' Hin' Hhit' _ _. apply Hnin.
           replace d0 with d'; [exact Hin'|].
           destruct d0 as [a b], d' as [a' b']. cbn [fst snd] in *.
           injection Hhit as ? ?. injection Hhit' as ? ?. f_equal; lia.
      * rewrite (IH1 d Hin Hhit Hg Hw). rewrite Hd1.
        destruct ((x =? node_x node + fst d0) && (y =? node_y node + snd d0)) eqn:E.
        -- exfalso. apply Hnin. replace d0 with d; [exact Hin|].
           apply andb_true_iff in E. destruct E as [E1 E2].
           apply Z.eqb_eq in E1, E2.
           destruct d0 as [a b], d as [a' b']. cbn [fst snd] in *.
           injection Hhit as ? ?. f_equal; lia.
        -- rewrite andb_false_r. reflexivity.
    + intros Hnone. rewrite IH2.
      * rewrite Hd1.
        destruct (in_grid N (node_x node + fst d0) (node_y node + snd d0) &&
                  negb (wall_at wall (node_x node + fst d0) (node_y node + snd d0)) &&
                  ((x =? node_x node + fst d0) && (y =? node_y node + snd d0))) eqn:E;
          [|reflexivity].
        exfalso. apply andb_true_iff in E. destruct E as [E E3].
        apply andb_true_iff in E. destruct E as [E1 E2].
        apply andb_true_iff in E3. destruct E3 as [Ex Ey].
        apply Z.eqb_eq in Ex, Ey. apply negb_true_iff in E2. subst x y.
        apply (Hnone d0); auto. left. reflexivity.
      * intros d Hin. apply Hnone. right. exact Hin.
Qed.

Lemma directions_nodup : NoDup directions.
Proof. unfold directions. repeat constructor; simpl; intuition discriminate. Qed.

(** The recorded costs after the expansion of a node, in terms of
    [neighbors]. *)
Lemma expansion_costs (alg : algorithm) (node : Node) (s : sstate) (x y : Z) :
  wf_matrix (Z.to_nat N) (dist s) ->
  let s' := fold_left (fun t d => relax N startX startY endX endY wall alg node d t)
                      directions s in
  (forall c, In ((x, y), c) (neighbors N wall (node_x node) (node_y node)) ->
     dist_at s' x y = Z.min (dist_at s x y) (fadd (node_g node) c)) /\
  ((forall c, ~ In ((x, y), c) (neighbors N wall (node_x node) (node_y node))) ->
   dist_at s' x y = dist_at s x y).
Proof.
  intros Hwf.
  destruct (fold_relax_dist alg node directions directions_nodup s x y Hwf) as [H1 H2].
  cbv zeta in *. split.
  - intros c Hc. apply in_neighbors in Hc.
    destruct Hc as (d & Hd & Hn & Hg & Hw & ->). cbn [fst snd] in Hg, Hw.
    apply (H1 d); auto.
  - intros Hnone. apply H2. intros d Hd Hhit Hg Hw.
    apply (Hnone (moveCost d)). apply in_neighbors. exists d. cbn [fst snd]. auto.
Qed.

(** C6.  The directions are exactly the eight offsets with components in
    {-1, 0, 1} other than (0, 0), each once.  A popped entry that is neither
    stale nor the end enters the [for] loop with all eight of them, and the
    loop spends one step on each, in order, running the loop body on it.  The
    loop body leaves the state as it is when the candidate cell is off the grid
    in either axis or is a wall; otherwise it compares the single-precision sum
    of the popped cost and the move cost, [CARDINAL_COST] = 1.0 for an offset
    along an axis and [DIAGONAL_COST], the single-precision square root of
    two, for a diagonal one, with the recorded cost of the candidate: when the
    sum is smaller it becomes the recorded cost, the expanded cell the
    predecessor, and the candidate is queued and (unless an anchor) marked
    open; when it is not, nothing changes.  So the candidates the loop acts on
    around a cell are those of [neighbors], with their costs: after the
    expansion of a node the recorded cost of each of them is the smaller of
    its cost before and the sum for its offset, and every other cell keeps its
    cost.  The walls are not part of the state of the search, and a click on a
    button leaves them as they are. *)
Theorem neighbors_are_the_eight_moves :
  (forall dx dy, In (dx, dy) directions <->
     -1 <= dx <= 1 /\ -1 <= dy <= 1 /\ (dx, dy) <> (0, 0)) /\
  NoDup directions /\ length directions = 8%nat /\
  (forall alg s node q',
     pc s = AtLoop -> q_pop (pq s) = Some (node, q') -> stale s node = false ->
     is_end endX endY (node_x node) (node_y node) = false ->
     pc (step N startX startY endX endY wall alg s) = InFor node directions) /\
  (forall alg s node d ds, pc s = InFor node (d :: ds) ->
     step N startX startY endX endY wall alg s =
     set_pc (relax N startX startY endX endY wall alg node d s) (InFor node ds)) /\
  (forall alg s node, pc s = InFor node directions ->
     steps_from N startX startY endX endY wall alg 8 s =
     set_pc (fold_left (fun t d => relax N startX startY endX endY wall alg node d t)
                       directions s)
            (InFor node [])) /\
  (forall alg node dx dy s,
     let nx := node_x node + dx in
     let ny := node_y node + dy in
     let nd := fadd (node_g node)
                    (if (dx =? 0) || (dy =? 0) then CARDINAL_COST else DIAGONAL_COST) in
     (~ (0 <= nx < N /\ 0 <= ny < N) \/ wall_at wall nx ny = true ->
      relax N startX startY endX endY wall alg node (dx, dy) s = s) /\
     (0 <= nx < N /\ 0 <= ny < N -> wall_at wall nx ny = false ->
      (nd < dist_at s nx ny ->
       relax N startX startY endX endY wall alg node (dx, dy) s =
       mkState (mset (dist s) nx ny nd)
               (mset (prev s) nx ny (node_x node, node_y node))
               (q_push (mkNode (priority endX endY alg nd nx ny) nd nx ny) (pq s))
               (if is_anchor startX startY endX endY nx ny then steps s
                else steps s ++ [mkStep (nx, ny) Cyan])
               (pc s)) /\
      (dist_at s nx ny <= nd ->
       relax N startX startY endX endY wall alg node (dx, dy) s = s))) /\
  CARDINAL_COST = float_of_int 1 /\
  (DIAGONAL_COST = 11863283 * FLT_EPSILON /\
   (2 * 11863283 - 1) ^ 2 < 2 * (2 * 2 ^ 23) ^ 2 < (2 * 11863283 + 1) ^ 2) /\
  (forall x y n c, In (n, c) (neighbors N wall x y) <->
     exists dx dy, In (dx, dy) directions /\ n = (x + dx, y + dy) /\
       (0 <= x + dx < N /\ 0 <= y + dy < N) /\
       wall_at wall (x + dx) (y + dy) = false /\
       c = if (dx =? 0) || (dy =? 0) then CARDINAL_COST else DIAGONAL_COST) /\
  (forall alg node s x y, wf_matrix (Z.to_nat N) (dist s) ->
     let s' := fold_left (fun t d => relax N startX startY endX endY wall alg node d t)
                         directions s in
     (forall c, In ((x, y), c) (neighbors N wall (node_x node) (node_y node)) ->
        dist_at s' x y = Z.min (dist_at s x y) (fadd (node_g node) c)) /\
     ((forall c, ~ In ((x, y), c) (neighbors N wall (node_x node) (node_y node))) ->
      dist_at s' x y = dist_at s x y)) /\
  (forall alg node dir s, In dir directions ->
     relax N startX startY endX endY wall alg node dir s = s \/
     In ((node_x node + fst dir, node_y node + snd dir), moveCost dir)
        (neighbors N wall (node_x node) (node_y node))) /\
  (forall alg fuel u u', on_button_click alg fuel u = Returned u' ->
     ui_wall u' = ui_wall u).
Proof.
  split; [exact directions_offsets|].
  split; [exact directions_nodup|].
  split; [reflexivity|].
  split.
  { intros alg s node q' Hpc Hpop Hst He. unfold step.
    rewrite Hpc, Hpop. cbv zeta. rewrite Hst, He. reflexivity. }
  split; [exact step_in_for|].
  split.
  { intros alg s node Hpc. exact (for_loop_steps alg node directions s Hpc). }
  split; [exact relax_cases|].
  split; [reflexivity|].
  split; [exact DIAGONAL_COST_is_sqrt2|].
  split.
  { intros x y n c. rewrite in_neighbors. split.
    - intros (d & Hd & Hn & Hg & Hw & Hc). destruct d as [dx dy]. subst n c.
      simpl in *. apply in_grid_iff in Hg. exists dx, dy.
      rewrite <- moveCost_cases. auto.
    - intros (dx & dy & Hd & Hn & Hg & Hw & Hc). subst n c. exists (dx, dy). simpl.
      rewrite moveCost_cases. repeat split; auto. apply in_grid_iff. exact Hg. }
  split; [exact expansion_costs|].
  split.
  - intros. apply relax_only_neighbors. assumption.
  - intros alg fuel u u' H. eapply on_button_click_wall. exact H.
Qed.

End Moves.

(** ** Concrete runs

    The runs below use [ListQueue].  The small grids are the 3x3 scenes with
    the start at (0,0) and the end at (2,2); the others are 20x20 grids of the
    program with its own anchors. *)

(** 3x3, a wall in the centre. *)
Definition wall3_center : matrix bool := mset (mconst 3 false) 1 1 true.

(** 3x3, the three neighbours of the end walled. *)
Definition wall3_enclosed : matrix bool :=
  mset (mset (mset (mconst 3 false) 1 1 true) 2 1 true) 1 2 true.

(** 20x20, walls everywhere but on the listed cells. *)
Definition walls_except (free : list coord) : matrix bool :=
  fold_left (fun w c => mset w (fst c) (snd c) false) free
            (mconst (Z.to_nat GRID_SIZE) true).

(** 20x20, the three neighbours of the start walled (three clicks from the
    initial window). *)
Definition wall_start_enclosed : matrix bool :=
  mset (mset (mset initial_wall 1 0 true) 0 1 true) 1 1 true.

(** 20x20, only the main diagonal free. *)
Definition wall_diagonal : matrix bool :=
  walls_except (map (fun k => (Z.of_nat k, Z.of_nat k)) (seq 0 20)).

(** 20x20, free: the start, (1,1), (2,1), (2,0), (3,0), (4,1) and the end.
    The cell (3,0) is reached through (2,1) at cost (1 + sqrt 2) + sqrt 2 and
    through (2,0) at cost (sqrt 2 + sqrt 2) + 1, which differ in the last bit
    in single precision. *)
Definition wall_two_routes : matrix bool :=
  walls_except [(0, 0); (1, 1); (2, 1); (2, 0); (3, 0); (4, 1); (19, 19)].

Definition no_button (mx my : Z) : bool := false.

Lemma trace_anchors_only_first_witness :
  (0 < 3 <= 1024 /\ in_grid 3 0 0 = true /\ in_grid 3 2 2 = true) /\
  exists fuel r,
    search (PQ := ListQueue) 3 0 0 2 2 wall3_center Dijkstra fuel = Returned r /\
    (forall fuel' r',
       search (PQ := ListQueue) 3 0 0 2 2 wall3_center Dijkstra fuel' = Returned r' ->
       r' = r) /\
    exists rest,
      trace r = mkStep (0, 0) Cyan :: rest /\
      Forall (not_anchor 0 0 2 2) rest /\
      ((0, 0) <> (2, 2) ->
       Forall (fun e => step_coord e <> (2, 2)) (trace r)).
Proof.
  split; [repeat split; lia|].
  apply (trace_anchors_only_first (PQ := ListQueue) 3 0 0 2 2 wall3_center);
    [lia | reflexivity | reflexivity].
Defined.

(** The claim that no step of a trace is at the start fails: with the start
    walled in, the whole trace of either strategy is the step at the start;
    on the free diagonal both traces begin with it. *)
Lemma start_is_in_the_trace :
  search (PQ := ListQueue) GRID_SIZE START_X START_Y END_X END_Y wall_start_enclosed
         Dijkstra 20
    = Returned (mkResult [mkStep (START_X, START_Y) Cyan] None Msg.dijkstra_no_path) /\
  search (PQ := ListQueue) GRID_SIZE START_X START_Y END_X END_Y wall_start_enclosed
         AStar 20
    = Returned (mkResult [mkStep (START_X, START_Y) Cyan] None Msg.astar_no_path) /\
  (exists r rest,
     search (PQ := ListQueue) GRID_SIZE START_X START_Y END_X END_Y wall_diagonal
            Dijkstra 400 = Returned r /\
     trace r = mkStep (START_X, START_Y) Cyan :: rest) /\
  (exists r rest,
     search (PQ := ListQueue) GRID_SIZE START_X START_Y END_X END_Y wall_diagonal
            AStar 400 = Returned r /\
     trace r = mkStep (START_X, START_Y) Cyan :: rest).
Proof.
  split; [vm_compute; reflexivity|]. split; [vm_compute; reflexivity|].
  split; eexists; eexists; (split; [vm_compute; reflexivity | reflexivity]).
Qed.

Lemma end_enclosed_wall3 : end_enclosed 3 2 2 wall3_enclosed.
Proof.
  intros dir Hdir. unfold directions in Hdir. simpl in Hdir.
  repeat (destruct Hdir as [<-|Hdir]; [vm_compute; intros H; first [discriminate H | reflexivity]|]).
  destruct Hdir.
Qed.

Lemma found_iff_end_cost_finite_witness :
  (0 < 3 <= 1024 /\ in_grid 3 0 0 = true /\ in_grid 3 2 2 = true /\
   end_enclosed 3 2 2 wall3_enclosed /\ (0, 0) <> (2, 2) /\
   wall_at wall3_enclosed 0 0 = false) /\
  exists fuel s r,
    run_loop (PQ := ListQueue) 3 0 0 2 2 wall3_enclosed AStar fuel
             (init 3 0 0 2 2 AStar) = Some s /\
    search (PQ := ListQueue) 3 0 0 2 2 wall3_enclosed AStar fuel = Returned r /\
    ((exists p, path r = Some p) <-> dist_at s 2 2 < FLT_MAX) /\
    path r = None /\ message r = Msg.astar_no_path /\
    Forall (fun e => step_color e <> Magenta) (trace r).
Proof.
  assert (Hne : (0, 0) <> (2, 2)) by discriminate.
  split.
  { repeat split; try lia; try reflexivity; try exact Hne. apply end_enclosed_wall3. }
  destruct (found_iff_end_cost_finite (PQ := ListQueue) 3 0 0 2 2 wall3_enclosed
              ltac:(lia) eq_refl eq_refl AStar)
    as (fuel & s & r & H1 & H2 & _ & H4 & H5).
  destruct (H5 end_enclosed_wall3 Hne eq_refl) as (H6 & H7 & H8).
  exists fuel, s, r. repeat split; try assumption; apply H4.
Defined.

Lemma reconstruction_reaches_start_witness :
  (0 < 3 <= 1024 /\ in_grid 3 0 0 = true /\ in_grid 3 2 2 = true) /\
  exists s l finalPath,
    run_loop (PQ := ListQueue) 3 0 0 2 2 wall3_center Dijkstra 100
             (init 3 0 0 2 2 Dijkstra) = Some s /\
    dist_at s 2 2 < FLT_MAX /\
    links 3 0 0 wall3_center s (2, 2) l /\
    finalPath = rev (l ++ [(0, 0)]) /\
    reconstruct 0 0 2 2 (Z.to_nat (3 * 3)) (prev s) = Returned finalPath /\
    path_from_start_to_end 3 0 0 2 2 wall3_center finalPath /\
    Z.of_nat (length finalPath) <= 3 * 3.
Proof.
  split; [repeat split; lia|].
  destruct (run_loop (PQ := ListQueue) 3 0 0 2 2 wall3_center Dijkstra 100
              (init 3 0 0 2 2 Dijkstra)) as [s|] eqn:Hrun;
    [|vm_compute in Hrun; discriminate Hrun].
  assert (Hfin : dist_at s 2 2 < FLT_MAX).
  { vm_compute in Hrun. injection Hrun as <-. vm_compute. reflexivity. }
  destruct (proj2 (reconstruction_reaches_start (PQ := ListQueue) 3 0 0 2 2 wall3_center
                     ltac:(lia) eq_refl eq_refl Dijkstra) 100%nat s Hrun Hfin)
    as (l & fp & H).
  exists s, l, fp. split; [reflexivity|]. split; [exact Hfin | exact H].
Defined.

(** The reconstruction loop has no step limit: on a predecessor matrix whose
    chain from the end misses the start it neither returns nor fails.  With
    the end linked to itself the loop is still running after any number of
    steps; on the fresh matrix it reads [prev[-1][-1]]. *)
Definition self_linked_prev : matrix coord :=
  mset (mconst (Z.to_nat GRID_SIZE) NO_PREV) END_X END_Y (END_X, END_Y).

Lemma follow_prev_self_linked (fuel : nat) (acc : list coord) :
  follow_prev START_X START_Y fuel self_linked_prev END_X END_Y acc = OutOfFuel.
Proof.
  revert acc. induction fuel as [|f IH]; intros acc; [reflexivity|].
  cbn [follow_prev].
  replace (is_start START_X START_Y END_X END_Y) with false by reflexivity.
  replace (mread self_linked_prev END_X END_Y) with (Some (END_X, END_Y))
    by (vm_compute; reflexivity).
  apply IH.
Qed.

Lemma reconstruction_has_no_step_limit :
  mread self_linked_prev END_X END_Y = Some (END_X, END_Y) /\
  (forall fuel, reconstruct START_X START_Y END_X END_Y fuel self_linked_prev = OutOfFuel) /\
  reconstruct START_X START_Y END_X END_Y
    (Z.to_nat (GRID_SIZE * GRID_SIZE)) (mconst (Z.to_nat GRID_SIZE) NO_PREV) = Undefined.
Proof.
  split; [vm_compute; reflexivity|]. split.
  - intros fuel. unfold reconstruct. rewrite follow_prev_self_linked. reflexivity.
  - vm_compute. reflexivity.
Qed.

Lemma stale_pop_discarded_witness :
  let s := init (PQ := ListQueue) 3 0 0 2 2 AStar in
  let node := mkNode (heuristic 2 2 0 0) 0 0 0 in
  (pc s = AtLoop /\ q_pop (pq s) = Some (node, [])) /\
  (step 3 0 0 2 2 wall3_center AStar s = mkState (dist s) (prev s) [] (steps s) AtLoop <->
   fadd (dist_at s (node_x node) (node_y node)) FLT_EPSILON < node_g node) /\
  (forall f', stale s (mkNode f' (node_g node) (node_x node) (node_y node)) =
              stale s node) /\
  (forall f' dir t,
     relax 3 0 0 2 2 wall3_center AStar
           (mkNode f' (node_g node) (node_x node) (node_y node)) dir t =
     relax 3 0 0 2 2 wall3_center AStar node dir t).
Proof.
  split; [split; reflexivity|].
  apply (stale_pop_discarded (PQ := ListQueue) 3 0 0 2 2 wall3_center AStar
           (init (PQ := ListQueue) 3 0 0 2 2 AStar)); reflexivity.
Defined.

Lemma same_run_same_cost_witness :
  exists r1 r2,
    run_search (PQ := ListQueue) Dijkstra wall_diagonal 400 = Returned r1 /\
    run_search (PQ := ListQueue) Dijkstra wall_diagonal 500 = Returned r2 /\
    r1 = r2 /\
    option_map path_cost (path r1) = option_map path_cost (path r2) /\
    (forall u u1 u2, ui_wall u = wall_diagonal ->
       on_button_click (PQ := ListQueue) Dijkstra 400 u = Returned u1 ->
       on_button_click (PQ := ListQueue) Dijkstra 500 u1 = Returned u2 -> u2 = u1).
Proof.
  destruct (run_search (PQ := ListQueue) Dijkstra wall_diagonal 400) as [r1| |] eqn:H1;
    [|vm_compute in H1; discriminate H1 | vm_compute in H1; discriminate H1].
  destruct (run_search (PQ := ListQueue) Dijkstra wall_diagonal 500) as [r2| |] eqn:H2;
    [|vm_compute in H2; discriminate H2 | vm_compute in H2; discriminate H2].
  exists r1, r2. split; [reflexivity|]. split; [reflexivity|].
  exact (same_run_same_cost (PQ := ListQueue) Dijkstra wall_diagonal 400 500 r1 r2 H1 H2).
Defined.

Lemma anchors_never_walls_witness :
  let u := on_grid_click 30 5 (on_grid_click 10 10 initial_ui) in
  reachable (PQ := ListQueue) no_button no_button u /\
  mget false (ui_wall u) 1 0 = true /\
  anchors_free (ui_wall u) /\
  (forall fuel mx my u',
     on_left_click (PQ := ListQueue) no_button no_button fuel mx my u = Returned u' ->
     anchors_free (ui_wall u')) /\
  (forall fuel mx my,
     0 <= mx < GRID_SIZE * CELL_SIZE -> 0 <= my < GRID_SIZE * CELL_SIZE ->
     (Z.quot mx CELL_SIZE, Z.quot my CELL_SIZE) = (START_X, START_Y) \/
     (Z.quot mx CELL_SIZE, Z.quot my CELL_SIZE) = (END_X, END_Y) ->
     exists u',
       on_left_click (PQ := ListQueue) no_button no_button fuel mx my u = Returned u' /\
       ui_wall u' = ui_wall u).
Proof.
  cbv zeta.
  assert (Hr : reachable (PQ := ListQueue) no_button no_button
                 (on_grid_click 30 5 (on_grid_click 10 10 initial_ui))).
  { apply (reach_click no_button no_button (on_grid_click 10 10 initial_ui) O 30 5);
      [|reflexivity].
    apply (reach_click no_button no_button initial_ui O 10 10); [|reflexivity].
    apply reach_init. }
  split; [exact Hr|]. split; [reflexivity|].
  exact (anchors_never_walls (PQ := ListQueue) no_button no_button _ Hr).
Defined.

Lemma predecessor_invariant_witness :
  (0 < 3 <= 1024 /\ in_grid 3 0 0 = true /\ wall_at wall3_center 0 0 = false) /\
  let s := steps_from (PQ := ListQueue) 3 0 0 2 2 wall3_center Dijkstra 11
             (init 3 0 0 2 2 Dijkstra) in
  let node := mkNode F_ONE F_ONE 1 0 in
  (dist_at s 1 0 < FLT_MAX /\
   let p := prev_at s 1 0 in
   in_grid 3 (fst p) (snd p) = true /\ wall_at wall3_center (fst p) (snd p) = false /\
   neighbor p (1, 0) /\ dist_at s (fst p) (snd p) < dist_at s 1 0) /\
  (pc s = InFor node directions /\
   relaxes 3 wall3_center s node (1, 0) = true /\
   let cx := node_x node in
   let cy := node_y node in
   let nx := cx + fst (1, 0) in
   let ny := cy + snd (1, 0) in
   let s' := step 3 0 0 2 2 wall3_center Dijkstra s in
   prev_at s' nx ny = (cx, cy) /\
   dist_at s' nx ny = fadd (node_g node) (moveCost (1, 0)) /\
   dist_at s' cx cy = dist_at s cx cy /\
   dist_at s cx cy <= node_g node <= fadd (dist_at s cx cy) FLT_EPSILON /\
   (Dijkstra = Dijkstra ->
    node_g node = dist_at s cx cy /\
    dist_at s' nx ny = fadd (dist_at s' cx cy) (moveCost (1, 0)))).
Proof.
  split; [repeat split; lia|].
  pose proof (predecessor_invariant (PQ := ListQueue) 3 0 0 2 2 wall3_center
                ltac:(lia) eq_refl Dijkstra 11 eq_refl) as H.
  cbv zeta in H |- *. destruct H as [Hprev Hrelax].
  split.
  - split; [vm_compute; reflexivity|].
    apply (Hprev 1 0); [reflexivity | discriminate | vm_compute; reflexivity].
  - split; [vm_compute; reflexivity|]. split; [vm_compute; reflexivity|].
    apply (Hrelax (mkNode F_ONE F_ONE 1 0) (1, 0)
                  [(0, 1); (-1, 0); (0, -1); (1, 1); (-1, 1); (1, -1); (-1, -1)]);
      vm_compute; reflexivity.
Defined.

(** Dijkstra on [wall3_center] after 11 steps: the start has been expanded and
    the entry of (1,0), of cost 1, has just been popped. *)
Definition dijkstra3_center_11 : sstate :=
  steps_from (PQ := ListQueue) 3 0 0 2 2 wall3_center Dijkstra 11
             (init 3 0 0 2 2 Dijkstra).

Lemma neighbors_are_the_eight_moves_witness :
  let s := dijkstra3_center_11 in
  let node := mkNode F_ONE F_ONE 1 0 in
  let relax3 := relax (PQ := ListQueue) 3 0 0 2 2 wall3_center Dijkstra node in
  pc s = InFor node directions /\
  (fadd F_ONE DIAGONAL_COST < dist_at s 2 1 /\
   relax3 (1, 1) s =
   mkState (mset (dist s) 2 1 (fadd F_ONE DIAGONAL_COST)) (mset (prev s) 2 1 (1, 0))
           (q_push (mkNode (fadd F_ONE DIAGONAL_COST) (fadd F_ONE DIAGONAL_COST) 2 1) (pq s))
           (steps s ++ [mkStep (2, 1) Cyan]) (pc s)) /\
  (fadd F_ONE CARDINAL_COST < dist_at s 2 0 /\
   relax3 (1, 0) s =
   mkState (mset (dist s) 2 0 (fadd F_ONE CARDINAL_COST)) (mset (prev s) 2 0 (1, 0))
           (q_push (mkNode (fadd F_ONE CARDINAL_COST) (fadd F_ONE CARDINAL_COST) 2 0) (pq s))
           (steps s ++ [mkStep (2, 0) Cyan]) (pc s)) /\
  (wall_at wall3_center 1 1 = true /\ relax3 (0, 1) s = s) /\
  relax3 (0, -1) s = s /\
  (dist_at s 0 0 <= fadd F_ONE CARDINAL_COST /\ relax3 (-1, 0) s = s) /\
  steps_from (PQ := ListQueue) 3 0 0 2 2 wall3_center Dijkstra 8 s =
  set_pc (fold_left (fun t d => relax3 d t) directions s) (InFor node []) /\
  wf_matrix 3 (dist s) /\
  In ((2, 1), DIAGONAL_COST) (neighbors 3 wall3_center 1 0) /\
  dist_at (fold_left (fun t d => relax3 d t) directions s) 2 1 =
  Z.min (dist_at s 2 1) (fadd F_ONE DIAGONAL_COST).
Proof.
  intros s node relax3.
  destruct (neighbors_are_the_eight_moves (PQ := ListQueue) 3 0 0 2 2 wall3_center)
    as (_ & _ & _ & _ & _ & Hfor & Hrelax & _ & _ & _ & Hcosts & _).
  assert (Hwf : wf_matrix 3 (dist s)).
  { split; [reflexivity|]. vm_compute. repeat constructor. }
  assert (Hn : In ((2, 1), DIAGONAL_COST) (neighbors 3 wall3_center 1 0)).
  { vm_compute. tauto. }
  assert (Hpc : pc s = InFor node directions) by (vm_compute; reflexivity).
  assert (H1 : fadd F_ONE DIAGONAL_COST < dist_at s 2 1) by (vm_compute; reflexivity).
  assert (H2 : fadd F_ONE CARDINAL_COST < dist_at s 2 0) by (vm_compute; reflexivity).
  assert (H3 : dist_at s 0 0 <= fadd F_ONE CARDINAL_COST) by (vm_compute; discriminate).
  split; [exact Hpc|].
  split; [split; [exact H1|]|].
  { exact (proj1 (proj2 (Hrelax Dijkstra node 1 1 s) ltac:(cbn; lia) eq_refl) H1). }
  split; [split; [exact H2|]|].
  { exact (proj1 (proj2 (Hrelax Dijkstra node 1 0 s) ltac:(cbn; lia) eq_refl) H2). }
  split; [split; [reflexivity|]|].
  { exact (proj1 (Hrelax Dijkstra node 0 1 s) (or_intror eq_refl)). }
  split.
  { apply (proj1 (Hrelax Dijkstra node 0 (-1) s)). left. cbn. lia. }
  split; [split; [exact H3|]|].
  { exact (proj2 (proj2 (Hrelax Dijkstra node (-1) 0 s) ltac:(cbn; lia) eq_refl) H3). }
  split; [exact (Hfor Dijkstra s node Hpc)|].
  split; [exact Hwf|]. split; [exact Hn|].
  exact (proj1 (Hcosts Dijkstra node s 2 1 Hwf) DIAGONAL_COST Hn).
Defined.

(** The state of A* on [wall_two_routes] after 45 steps: the entry of (3,0)
    popped first carries the cost through (2,1); the recorded cost of (3,0) is
    the smaller one through (2,0); the entry is within the tolerance, so it is
    expanded, and its next direction is (1,1), towards (4,1). *)
Definition astar_two_routes_45 : sstate :=
  steps_from (PQ := ListQueue) GRID_SIZE START_X START_Y END_X END_Y
             wall_two_routes AStar 45 (init GRID_SIZE START_X START_Y END_X END_Y AStar).

(** In A* a relaxation can start from a popped cost that is not the recorded
    cost of the expanded cell: then the neighbour's new cost is not the
    recorded cost of its predecessor plus the move cost. *)
Lemma astar_relaxes_from_unrecorded_cost :
  exists node ds,
    pc astar_two_routes_45 = InFor node ((1, 1) :: ds) /\
    (node_x node, node_y node) = (3, 0) /\
    relaxes GRID_SIZE wall_two_routes astar_two_routes_45 node (1, 1) = true /\
    dist_at astar_two_routes_45 3 0 < node_g node /\
    let s' := step GRID_SIZE START_X START_Y END_X END_Y wall_two_routes AStar
                   astar_two_routes_45 in
    prev_at s' 4 1 = (3, 0) /\
    dist_at s' 4 1 < FLT_MAX /\
    dist_at s' 3 0 < FLT_MAX /\
    dist_at s' 4 1 <> fadd (dist_at s' 3 0) (moveCost (1, 1)).
Proof.
  eexists. eexists.
  split; [vm_compute; reflexivity|].
  split; [reflexivity|].
  split; [vm_compute; reflexivity|].
  split; [vm_compute; reflexivity|].
  cbv zeta.
  split; [vm_compute; reflexivity|].
  split; [vm_compute; reflexivity|].
  split; [vm_compute; reflexivity|].
  vm_compute. discriminate.
Qed.

Lemma search_terminates_witness :
  (0 < 3 <= 1024 /\ in_grid 3 0 0 = true /\ in_grid 3 2 2 = true) /\
  exists fuel r,
    search (PQ := ListQueue) 3 0 0 2 2 wall3_center AStar fuel = Returned r /\
    forall fuel',
      search (PQ := ListQueue) 3 0 0 2 2 wall3_center AStar fuel' = Returned r \/
      search (PQ := ListQueue) 3 0 0 2 2 wall3_center AStar fuel' = OutOfFuel.
Proof.
  split; [repeat split; lia|].
  apply (search_terminates (PQ := ListQueue) 3 0 0 2 2 wall3_center);
    [lia | reflexivity | reflexivity].
Defined.

(** The state of Dijkstra on [wall_two_routes] after 50 steps, at the head of
    the loop: the queue serves the older entry of (3,0). *)
Definition dijkstra_two_routes_50 : sstate :=
  steps_from (PQ := ListQueue) GRID_SIZE START_X START_Y END_X END_Y
             wall_two_routes Dijkstra 50
             (init GRID_SIZE START_X START_Y END_X END_Y Dijkstra).

(** The staleness test keeps an entry whose cost exceeds the recorded one by
    more than the tolerance.  The recorded cost of (3,0) is
    (sqrt 2 + sqrt 2) + 1, in [2, 4) with an odd last bit, so adding
    [FLT_EPSILON], half a unit in the last place, rounds up to the next float.
    The older entry of (3,0), of cost (sqrt 2 + 1) + sqrt 2, lies two epsilons
    above the recorded cost and is not greater than the rounded sum: it is not
    discarded, (3,0) is marked visited a second time and expanded again. *)
Lemma entry_above_tolerance_is_kept :
  (exists node q',
     pc dijkstra_two_routes_50 = AtLoop /\
     q_pop (pq dijkstra_two_routes_50) = Some (node, q') /\
     (node_x node, node_y node) = (3, 0) /\
     node_g node - dist_at dijkstra_two_routes_50 3 0 = 2 * FLT_EPSILON /\
     FLT_EPSILON < node_g node - dist_at dijkstra_two_routes_50 3 0 /\
     fadd (dist_at dijkstra_two_routes_50 3 0) FLT_EPSILON = node_g node /\
     stale dijkstra_two_routes_50 node = false /\
     step GRID_SIZE START_X START_Y END_X END_Y wall_two_routes Dijkstra
          dijkstra_two_routes_50 =
       mkState (dist dijkstra_two_routes_50) (prev dijkstra_two_routes_50) q'
               (steps dijkstra_two_routes_50 ++ [mkStep (3, 0) Grey])
               (InFor node directions)) /\
  exists r,
    search (PQ := ListQueue) GRID_SIZE START_X START_Y END_X END_Y wall_two_routes
           Dijkstra 100 = Returned r /\
    trace r =
      [mkStep (0, 0) Cyan; mkStep (1, 1) Cyan; mkStep (1, 1) Grey;
       mkStep (2, 1) Cyan; mkStep (2, 0) Cyan; mkStep (2, 1) Grey;
       mkStep (3, 0) Cyan; mkStep (2, 0) Grey; mkStep (3, 0) Cyan;
       mkStep (3, 0) Grey; mkStep (4, 1) Cyan; mkStep (3, 0) Grey;
       mkStep (4, 1) Grey].
Proof.
  split.
  - eexists. eexists. split; [vm_compute; reflexivity|].
    split; [vm_compute; reflexivity|].
    split; [reflexivity|]. split; [vm_compute; reflexivity|].
    split; [vm_compute; reflexivity|]. split; [vm_compute; reflexivity|].
    split; vm_compute; reflexivity.
  - eexists. split; vm_compute; reflexivity.
Qed.

Lemma dijkstra_trace_bound_witness :
  (0 < 3 <= 1024 /\ in_grid 3 0 0 = true /\ in_grid 3 2 2 = true) /\
  exists r,
    search (PQ := ListQueue) 3 0 0 2 2 wall3_center Dijkstra 100 = Returned r /\
    Z.of_nat (length (trace r)) <= 5 * (3 * 3) /\
    Z.of_nat (length (trace r)) <= 8 * (3 * 3) + 3.
Proof.
  split; [repeat split; lia|].
  destruct (search (PQ := ListQueue) 3 0 0 2 2 wall3_center Dijkstra 100)
    as [r| |] eqn:Hs; [|vm_compute in Hs; discriminate Hs ..].
  exists r. split; [reflexivity|].
  exact (dijkstra_trace_bound (PQ := ListQueue) 3 0 0 2 2 wall3_center
           ltac:(lia) eq_refl eq_refl 100%nat r Hs).
Defined.

Lemma dijkstra_path_is_cheapest_witness :
  (0 < 3 <= 1024 /\ in_grid 3 0 0 = true /\ in_grid 3 2 2 = true) /\
  exists r,
    search (PQ := ListQueue) 3 0 0 2 2 wall3_center Dijkstra 100 = Returned r /\
    path r = Some [(0, 0); (1, 0); (2, 1); (2, 2)] /\
    path_from_start_to_end 3 0 0 2 2 wall3_center [(0, 0); (1, 0); (2, 1); (2, 2)] /\
    (forall q, path_from_start_to_end 3 0 0 2 2 wall3_center q ->
               path_cost [(0, 0); (1, 0); (2, 1); (2, 2)] <= path_cost q).
Proof.
  split; [repeat split; lia|].
  destruct (search (PQ := ListQueue) 3 0 0 2 2 wall3_center Dijkstra 100)
    as [r| |] eqn:Hs; [|vm_compute in Hs; discriminate Hs ..].
  pose proof (dijkstra_path_is_cheapest (PQ := ListQueue) 3 0 0 2 2 wall3_center
                ltac:(lia) eq_refl eq_refl 100%nat r Hs) as H.
  assert (Hp : path r = Some [(0, 0); (1, 0); (2, 1); (2, 2)]).
  { vm_compute in Hs. injection Hs as <-. reflexivity. }
  rewrite Hp in H. exists r. split; [reflexivity|]. split; [exact Hp | exact H].
Defined.

Lemma path_found_iff_reachable_witness :
  (0 < 3 <= 1024 /\ in_grid 3 0 0 = true /\ in_grid 3 2 2 = true) /\
  exists r,
    search (PQ := ListQueue) 3 0 0 2 2 wall3_center AStar 100 = Returned r /\
    (forall p, path r = Some p -> path_from_start_to_end 3 0 0 2 2 wall3_center p) /\
    ((exists q, path_from_start_to_end 3 0 0 2 2 wall3_center q) ->
     exists p, path r = Some p) /\
    (path r = None -> message r = no_path_message AStar).
Proof.
  split; [repeat split; lia|].
  destruct (search (PQ := ListQueue) 3 0 0 2 2 wall3_center AStar 100)
    as [r| |] eqn:Hs; [|vm_compute in Hs; discriminate Hs ..].
  exists r. split; [reflexivity|].
  exact (path_found_iff_reachable (PQ := ListQueue) 3 0 0 2 2 wall3_center
           ltac:(lia) eq_refl eq_refl AStar 100%nat r Hs).
Defined.

(** ** The rest of the main loop

    [resetGridColors] as the loops of the source, the two animation blocks
    that replay the recorded steps into [gridColors], and the drawing of the
    grid. *)

Definition obind {A B} (o : outcome A) (f : A -> outcome B) : outcome B :=
  match o with
  | Returned a => f a
  | Undefined => Undefined
  | OutOfFuel => OutOfFuel
  end.

(** [m[y][x] = v]; outside the vectors the write is undefined. *)
Definition mwrite {A} (m : matrix A) (x y : Z) (v : A) : outcome (matrix A) :=
  match mread m x y with
  | Some _ => Returned (mset m x y v)
  | None => Undefined
  end.

(** [for (int i = lo; i < lo + count; ++i) body(i)] *)
Fixpoint for_loop {St} (body : Z -> St -> outcome St) (lo : Z) (count : nat) (s : St) :
    outcome St :=
  match count with
  | O => Returned s
  | S k => obind (body lo s) (for_loop body (lo + 1) k)
  end.

(** The body of the loops of [resetGridColors] for row [r] and column [c]. *)
Definition reset_cell (w : matrix bool) (r c : Z) (colors : matrix color) :
    outcome (matrix color) :=
  match mread w c r with
  | Some b => mwrite colors c r (if b then White else Orange)
  | None => Undefined
  end.

(** [resetGridColors] as written (lines 111-130): every cell by the two
    loops, then the anchors. *)
Definition resetGridColors_loops (w : matrix bool) (colors : matrix color) :
    outcome (matrix color) :=
  obind (for_loop (fun r => for_loop (reset_cell w r) 0 (Z.to_nat GRID_SIZE))
                  0 (Z.to_nat GRID_SIZE) colors)
        (fun cs => obind (mwrite cs START_X START_Y Blue)
                         (fun cs' => mwrite cs' END_X END_Y Blue)).

(** The cell is the start or the end of the program. *)
Definition anchor_cell (x y : Z) : bool := is_anchor START_X START_Y END_X END_Y x y.

(** The colour [resetGridColors] gives a cell. *)
Definition reset_color (w : matrix bool) (x y : Z) : color :=
  if anchor_cell x y then Blue else if wall_at w x y then White else Orange.

Lemma for_loop_inv {St} (P : Z -> St -> Prop) (body : Z -> St -> outcome St)
    (count : nat) (lo : Z) (s : St) :
  P lo s ->
  (forall i t, lo <= i < lo + Z.of_nat count -> P i t ->
     exists t', body i t = Returned t' /\ P (i + 1) t') ->
  exists t, for_loop body lo count s = Returned t /\ P (lo + Z.of_nat count) t.
Proof.
  revert lo s. induction count as [|k IH]; intros lo s H0 Hstep.
  - exists s. split; [reflexivity|]. rewrite Z.add_0_r. exact H0.
  - destruct (Hstep lo s ltac:(lia) H0) as (t' & Hb & Ht').
    destruct (IH (lo + 1) t' Ht') as (t & Ht & HP).
    { intros i u Hi. apply Hstep. lia. }
    exists t. cbn [for_loop]. rewrite Hb. cbn [obind]. split; [exact Ht|].
    replace (lo + Z.of_nat (S k)) with (lo + 1 + Z.of_nat k) by lia. exact HP.
Qed.

(** Two square matrices with the same entries are equal. *)
Lemma matrix_ext {A} (n : nat) (m m' : matrix A) :
  wf_matrix n m -> wf_matrix n m' ->
  (forall x y, 0 <= x < Z.of_nat n -> 0 <= y < Z.of_nat n ->
     mread m x y = mread m' x y) ->
  m = m'.
Proof.
  intros [Hl Hr] [Hl' Hr'] H. apply nth_error_ext. intros j.
  destruct (Nat.lt_ge_cases j n) as [Hj|Hj].
  - destruct (nth_error m j) as [row|] eqn:E;
      [|apply nth_error_None in E; lia].
    destruct (nth_error m' j) as [row'|] eqn:E';
      [|apply nth_error_None in E'; lia].
    f_equal. apply nth_error_ext. intros i.
    assert (Hlr : length row = n).
    { rewrite Forall_forall in Hr. apply Hr. eapply nth_error_In; eauto. }
    assert (Hlr' : length row' = n).
    { rewrite Forall_forall in Hr'. apply Hr'. eapply nth_error_In; eauto. }
    destruct (Nat.lt_ge_cases i n) as [Hi|Hi].
    + specialize (H (Z.of_nat i) (Z.of_nat j) ltac:(lia) ltac:(lia)).
      unfold mread in H.
      destruct (Z.of_nat i <? 0) eqn:Ei; [apply Z.ltb_lt in Ei; lia|].
      destruct (Z.of_nat j <? 0) eqn:Ej; [apply Z.ltb_lt in Ej; lia|].
      simpl in H. rewrite !Nat2Z.id, E, E' in H. exact H.
    + assert (H1 : nth_error row i = None) by (apply nth_error_None; lia).
      assert (H2 : nth_error row' i = None) by (apply nth_error_None; lia).
      congruence.
  - assert (H1 : nth_error m j = None) by (apply nth_error_None; lia).
    assert (H2 : nth_error m' j = None) by (apply nth_error_None; lia).
    congruence.
Qed.

Lemma wf_map {A B} (f : A -> B) (n : nat) (m : matrix A) :
  wf_matrix n m -> wf_matrix n (map (map f) m).
Proof.
  intros [Hl Hr]. split; [rewrite length_map; exact Hl|].
  apply Forall_map. eapply Forall_impl; [|exact Hr].
  intros row Hrow. rewrite length_map. exact Hrow.
Qed.

Lemma mread_map {A B} (f : A -> B) (m : matrix A) (x y : Z) :
  mread (map (map f) m) x y = option_map f (mread m x y).
Proof.
  unfold mread. destruct ((x <? 0) || (y <? 0)); [reflexivity|].
  rewrite nth_error_map. destruct (nth_error m (Z.to_nat y)) as [row|]; [|reflexivity].
  simpl. apply nth_error_map.
Qed.

Lemma grid_range (x y : Z) :
  in_grid GRID_SIZE x y = true <-> 0 <= x < 20 /\ 0 <= y < 20.
Proof.
  unfold in_grid, GRID_SIZE. rewrite !andb_true_iff, !Z.leb_le, !Z.ltb_lt. lia.
Qed.

Lemma anchor_cell_iff (x y : Z) :
  anchor_cell x y = true <-> (x, y) = (START_X, START_Y) \/ (x, y) = (END_X, END_Y).
Proof.
  unfold anchor_cell, is_anchor, is_start, is_end.
  rewrite orb_true_iff, !andb_true_iff, !Z.eqb_eq.
  split.
  - intros [[-> ->]|[-> ->]]; auto.
  - intros [E|E]; injection E as -> ->; auto.
Qed.

(** The colours [resetGridColors] leaves, cell by cell. *)
Lemma resetGridColors_cell (w : matrix bool) (x y : Z) :
  wf_matrix 20 w -> in_grid GRID_SIZE x y = true ->
  mread (resetGridColors w) x y = Some (reset_color w x y).
Proof.
  intros Hwf Hxy. apply grid_range in Hxy.
  pose proof (wf_map (fun b : bool => if b then White else Orange) 20 w Hwf) as Hm.
  pose proof (wf_mset 20 _ START_X START_Y Blue Hm) as Hm1.
  unfold resetGridColors, reset_color.
  destruct (anchor_cell x y) eqn:Ea.
  - apply anchor_cell_iff in Ea.
    destruct (coord_eqb_spec (x, y) (END_X, END_Y)) as [E|E].
    + injection E as -> ->. apply (mread_mset_same 20); auto; vm_compute; split; congruence.
    + rewrite mread_mset_other by (auto; vm_compute; congruence).
      destruct Ea as [Ea|Ea]; [|congruence]. injection Ea as -> ->.
      apply (mread_mset_same 20); auto; vm_compute; split; congruence.
  - assert (Hs : (x, y) <> (START_X, START_Y)).
    { intros E. assert (anchor_cell x y = true) by (apply anchor_cell_iff; auto).
      congruence. }
    assert (He : (x, y) <> (END_X, END_Y)).
    { intros E. assert (anchor_cell x y = true) by (apply anchor_cell_iff; auto).
      congruence. }
    rewrite !mread_mset_other by (auto; vm_compute; congruence).
    rewrite mread_map. unfold wall_at, mget.
    destruct (mread_wf 20 w x y Hwf ltac:(lia) ltac:(lia)) as [b Hb].
    rewrite Hb. reflexivity.
Qed.

Lemma resetGridColors_wf (w : matrix bool) :
  wf_matrix 20 w -> wf_matrix 20 (resetGridColors w).
Proof.
  intros Hwf. unfold resetGridColors. apply wf_mset, wf_mset, wf_map. exact Hwf.
Qed.

Lemma mwrite_returns {A} (n : nat) (m : matrix A) (x y : Z) (v : A) :
  wf_matrix n m -> 0 <= x < Z.of_nat n -> 0 <= y < Z.of_nat n ->
  mwrite m x y v = Returned (mset m x y v).
Proof.
  intros Hwf Hx Hy. unfold mwrite.
  destruct (mread_wf n m x y Hwf Hx Hy) as [a ->]. reflexivity.
Qed.

(** [resetGridColors]: on a grid of walls and a grid of colours of side 20
    the loops stay inside the vectors, what they return does not depend on
    the colours before, and every cell gets its colour: blue for the anchors
    (wall or not), white for the other walls, orange for the other cells. *)
Theorem resetGridColors_loops_spec (w : matrix bool) (colors : matrix color) :
  wf_matrix 20 w -> wf_matrix 20 colors ->
  resetGridColors_loops w colors = Returned (resetGridColors w) /\
  forall x y, in_grid GRID_SIZE x y = true ->
    mread (resetGridColors w) x y = Some (reset_color w x y).
Proof.
  intros Hw Hc. split; [|intros x y; apply resetGridColors_cell; exact Hw].
  set (col := fun x y => if wall_at w x y then White else Orange).
  (* the outer loop, row by row *)
  destruct (for_loop_inv
              (fun r cs => wf_matrix 20 cs /\
                 forall x y, 0 <= x < 20 -> 0 <= y < r -> mread cs x y = Some (col x y))
              (fun r => for_loop (reset_cell w r) 0 (Z.to_nat GRID_SIZE))
              (Z.to_nat GRID_SIZE) 0 colors) as (cs & Hrun & Hwf & Hcells).
  { split; [exact Hc|]. intros x y _ Hy. lia. }
  { intros r t Hr [Htwf Ht].
    destruct (for_loop_inv
                (fun c cs => wf_matrix 20 cs /\
                   (forall x y, 0 <= x < 20 -> 0 <= y < r ->
                      mread cs x y = Some (col x y)) /\
                   (forall x, 0 <= x < c -> mread cs x r = Some (col x r)))
                (reset_cell w r) (Z.to_nat GRID_SIZE) 0 t) as (t' & Hrun' & Hwf' & Hup & Hrow).
    { split; [exact Htwf|]. split; [exact Ht|]. intros x Hx. lia. }
    { intros c u Hcr (Huwf & Hu1 & Hu2). change (Z.of_nat (Z.to_nat GRID_SIZE)) with 20 in *.
      unfold reset_cell.
      destruct (mread_wf 20 w c r Hw ltac:(lia) ltac:(lia)) as [b Hb]. rewrite Hb.
      rewrite (mwrite_returns 20) by (auto; lia).
      eexists. split; [reflexivity|]. split; [apply wf_mset; exact Huwf|]. split.
      - intros x y Hx Hy. rewrite mread_mset_other by (try lia; intros E; injection E; lia).
        apply Hu1; assumption.
      - intros x Hx. destruct (Z.eq_dec x c) as [->|Hne].
        + rewrite (mread_mset_same 20) by (auto; lia).
          unfold col, wall_at, mget. rewrite Hb. reflexivity.
        + rewrite mread_mset_other by (try lia; intros E; injection E; lia).
          apply Hu2. lia. }
    change (Z.of_nat (Z.to_nat GRID_SIZE)) with 20 in *.
    exists t'. split; [exact Hrun'|]. split; [exact Hwf'|].
    intros x y Hx Hy. destruct (Z.eq_dec y r) as [->|Hne].
    - apply Hrow. lia.
    - apply Hup; lia. }
  change (Z.of_nat (Z.to_nat GRID_SIZE)) with 20 in *.
  unfold resetGridColors_loops. rewrite Hrun. cbn [obind].
  rewrite (mwrite_returns 20) by (auto; vm_compute; split; congruence). cbn [obind].
  rewrite (mwrite_returns 20) by (try apply wf_mset; auto; vm_compute; split; congruence).
  f_equal. apply (matrix_ext 20).
  - apply wf_mset, wf_mset. exact Hwf.
  - apply resetGridColors_wf. exact Hw.
  - intros x y Hx Hy.
    rewrite (resetGridColors_cell w x y Hw) by (apply grid_range; lia).
    unfold reset_color.
    destruct (coord_eqb_spec (x, y) (END_X, END_Y)) as [E|E].
    { injection E as -> ->. rewrite (mread_mset_same 20) by (try apply wf_mset; auto).
      reflexivity. }
    rewrite mread_mset_other by (auto; vm_compute; congruence).
    destruct (coord_eqb_spec (x, y) (START_X, START_Y)) as [E'|E'].
    { injection E' as -> ->. rewrite (mread_mset_same 20) by auto. reflexivity. }
    rewrite mread_mset_other by (auto; vm_compute; congruence).
    assert (Ea : anchor_cell x y = false).
    { destruct (anchor_cell x y) eqn:Ea; [|reflexivity].
      apply anchor_cell_iff in Ea. tauto. }
    rewrite Ea. apply Hcells; lia.
Qed.

(** *** The animation blocks *)

(** [frame < steps.size()], an [int] against a [std::size_t]: the [int] is
    converted to unsigned, so a negative frame compares above every size. *)
Definition lt_size (frame : Z) (size : nat) : bool :=
  (0 <=? frame) && (frame <? Z.of_nat size).

(** One animation block: lines 392-410 for Dijkstra, lines 412-430 for A*.
    [elapsed] is the outcome of [animationClock.getElapsedTime() >=
    animationDelay]; the clock is outside the model.  The block returns the
    new frame and the new colours. *)
Definition animate (elapsed : bool) (frame : Z) (anim : list AnimationStep)
    (colors : matrix color) : outcome (Z * matrix color) :=
  if negb (frame =? -1) && elapsed then
    if lt_size frame (length anim) then
      match nth_error anim (Z.to_nat frame) with
      | None => Undefined
      | Some step =>
          let x := fst (step_coord step) in
          let y := snd (step_coord step) in
          if negb (anchor_cell x y) then
            obind (mwrite colors x y (step_color step))
                  (fun cs => Returned (frame + 1, cs))
          else Returned (frame + 1, colors)
      end
    else Returned (-1, colors)
  else Returned (frame, colors).

(** The two blocks of one iteration of the main loop, Dijkstra's first. *)
Definition tick (elapsed_d elapsed_a : bool) (u : ui) : outcome ui :=
  obind (animate elapsed_d (currentDijkstraAnimFrame u) (dijkstraAnimationSteps u)
                 (gridColors u))
    (fun '(fd, cs) =>
       obind (animate elapsed_a (currentAstarAnimFrame u) (astarAnimationSteps u) cs)
         (fun '(fa, cs') =>
            Returned (mkUi (ui_wall u) cs' (dijkstraAnimationSteps u)
                           (astarAnimationSteps u) fd fa (currentMessage u)))).

(** The colours of the steps: "open", "visited", and the two path colours. *)
Definition step_colored (c : color) : Prop :=
  c = Cyan \/ c = Grey \/ c = Green \/ c = Magenta.

(** A step that the animation can replay on the walls [w]: on the grid, not
    on a wall unless at an anchor, in a colour of the steps. *)
Definition step_ok (w : matrix bool) (e : AnimationStep) : Prop :=
  in_grid GRID_SIZE (fst (step_coord e)) (snd (step_coord e)) = true /\
  (anchor_cell (fst (step_coord e)) (snd (step_coord e)) = false ->
   wall_at w (fst (step_coord e)) (snd (step_coord e)) = false) /\
  step_colored (step_color e).

(** What a colour of the grid tells about its cell. *)
Definition cell_ok (w : matrix bool) (x y : Z) (c : color) : Prop :=
  if anchor_cell x y then c = Blue
  else if wall_at w x y then c = White
  else c = Orange \/ step_colored c.

(** A frame counter: idle, or an index into the steps or just past them. *)
Definition frame_ok (frame : Z) (anim : list AnimationStep) : Prop :=
  frame = -1 \/ 0 <= frame <= Z.of_nat (length anim).

Record display_ok (u : ui) : Prop := {
  ok_wall : wf_matrix 20 (ui_wall u);
  ok_colors : wf_matrix 20 (gridColors u);
  ok_anchors : anchors_free (ui_wall u);
  ok_cells : forall x y, in_grid GRID_SIZE x y = true ->
      exists c, mread (gridColors u) x y = Some c /\ cell_ok (ui_wall u) x y c;
  ok_dsteps : Forall (step_ok (ui_wall u)) (dijkstraAnimationSteps u);
  ok_asteps : Forall (step_ok (ui_wall u)) (astarAnimationSteps u);
  ok_dframe : frame_ok (currentDijkstraAnimFrame u) (dijkstraAnimationSteps u);
  ok_aframe : frame_ok (currentAstarAnimFrame u) (astarAnimationSteps u);
  ok_one : currentDijkstraAnimFrame u = -1 \/ currentAstarAnimFrame u = -1
}.

Section Animation.
Context {PQ : MinQueue}.
Variables in_dijkstra_button in_astar_button : Z -> Z -> bool.

(** The states of the running program: the initial one, and those a left
    click or an iteration of the animation blocks leads to. *)
Inductive running : ui -> Prop :=
| run_init : running initial_ui
| run_click : forall u fuel mx my u',
    running u ->
    on_left_click in_dijkstra_button in_astar_button fuel mx my u = Returned u' ->
    running u'
| run_tick : forall u elapsed_d elapsed_a u',
    running u -> tick elapsed_d elapsed_a u = Returned u' -> running u'.

Lemma reset_cells_ok (w : matrix bool) (x y : Z) :
  wf_matrix 20 w -> in_grid GRID_SIZE x y = true ->
  exists c, mread (resetGridColors w) x y = Some c /\ cell_ok w x y c.
Proof.
  intros Hw Hxy. exists (reset_color w x y).
  split; [apply resetGridColors_cell; assumption|].
  unfold cell_ok, reset_color. destruct (anchor_cell x y); [reflexivity|].
  destruct (wall_at w x y); [reflexivity | left; reflexivity].
Qed.

Lemma initial_wall_wf : wf_matrix 20 initial_wall.
Proof. apply (mconst_wf 20). Qed.

Lemma initial_display_ok : display_ok initial_ui.
Proof.
  constructor; unfold initial_ui; cbn.
  - apply initial_wall_wf.
  - apply resetGridColors_wf, initial_wall_wf.
  - split; reflexivity.
  - intros x y Hxy. apply reset_cells_ok; [apply initial_wall_wf | exact Hxy].
  - constructor.
  - constructor.
  - left. reflexivity.
  - left. reflexivity.
  - left. reflexivity.
Qed.

Lemma grid_click_display_ok (mx my : Z) (u : ui) :
  0 <= mx -> 0 <= my -> display_ok u -> display_ok (on_grid_click mx my u).
Proof.
  intros Hx Hy Hu.
  pose proof (on_grid_click_anchors mx my u Hx Hy (ok_anchors u Hu)) as Ha.
  unfold on_grid_click in *. cbv zeta in *. cbn [ui_wall] in Ha.
  set (w := if negb _ then _ else _) in *.
  assert (Hw : wf_matrix 20 w).
  { unfold w. destruct (negb _); [apply wf_mset|]; apply (ok_wall u Hu). }
  constructor; cbn.
  - exact Hw.
  - apply resetGridColors_wf. exact Hw.
  - exact Ha.
  - intros x y Hxy. apply reset_cells_ok; assumption.
  - constructor.
  - constructor.
  - left. reflexivity.
  - left. reflexivity.
  - left. reflexivity.
Qed.

Lemma program_grid : 0 < GRID_SIZE <= 1024 /\
  in_grid GRID_SIZE START_X START_Y = true /\ in_grid GRID_SIZE END_X END_Y = true.
Proof. vm_compute. repeat split; congruence. Qed.

(** The steps of a search of the program can be replayed on its walls. *)
Lemma search_steps_ok (alg : algorithm) (w : matrix bool) (fuel : nat)
    (r : search_result) :
  run_search alg w fuel = Returned r -> Forall (step_ok w) (trace r).
Proof.
  intros Hs. destruct program_grid as (HN & Hstart & Hend).
  destruct (trace_parts GRID_SIZE START_X START_Y END_X END_Y w HN Hstart Hend
              alg fuel r Hs) as (evs & Htr & Hcol).
  pose proof (trace_on_grid GRID_SIZE START_X START_Y END_X END_Y w HN Hstart Hend
                alg fuel r Hs) as Hcells.
  assert (Hc : Forall (fun e => step_colored (step_color e)) (trace r)).
  { rewrite Htr. constructor; [left; reflexivity|].
    apply Forall_app. split.
    - eapply Forall_impl; [|exact Hcol]. intros e [H|H]; rewrite H.
      + left. reflexivity.
      + right. left. reflexivity.
    - destruct (path r) as [p|]; [|constructor].
      unfold path_steps. apply Forall_map. apply Forall_forall. intros c _.
      cbn [step_color]. destruct alg; cbn.
      + right. right. left. reflexivity.
      + right. right. right. reflexivity. }
  rewrite Forall_forall in *. intros e He.
  destruct (Hcells e He) as [Hg Hw]. split; [exact Hg|]. split; [|apply Hc; exact He].
  intros Ha. apply Hw. unfold anchor_cell, is_anchor in Ha.
  apply orb_false_iff in Ha. apply Ha.
Qed.

Lemma button_click_display_ok (alg : algorithm) (fuel : nat) (u u' : ui) :
  display_ok u -> on_button_click alg fuel u = Returned u' -> display_ok u'.
Proof.
  intros Hu Hc. unfold on_button_click in Hc.
  destruct (run_search alg (ui_wall u) fuel) as [r| |] eqn:Hs; try discriminate.
  pose proof (search_steps_ok alg _ fuel r Hs) as Hsteps.
  injection Hc as <-.
  pose proof (ok_wall u Hu) as Hw.
  assert (H0 : forall l : list AnimationStep, frame_ok 0 l) by (intros l; right; lia).
  assert (H1 : forall l : list AnimationStep, frame_ok (-1) l) by (intros l; left; reflexivity).
  destruct alg; constructor; cbn; auto using resetGridColors_wf, reset_cells_ok;
    apply (ok_anchors u Hu).
Qed.

(** One animation block on a displayed state: it stays inside the vectors
    and keeps the colours sound. *)
Lemma animate_ok (w : matrix bool) (elapsed : bool) (frame : Z)
    (anim : list AnimationStep) (colors : matrix color) :
  wf_matrix 20 colors ->
  (forall x y, in_grid GRID_SIZE x y = true ->
     exists c, mread colors x y = Some c /\ cell_ok w x y c) ->
  Forall (step_ok w) anim -> frame_ok frame anim ->
  exists frame' colors',
    animate elapsed frame anim colors = Returned (frame', colors') /\
    wf_matrix 20 colors' /\
    (forall x y, in_grid GRID_SIZE x y = true ->
       exists c, mread colors' x y = Some c /\ cell_ok w x y c) /\
    frame_ok frame' anim /\ (frame = -1 -> frame' = -1).
Proof.
  intros Hwf Hcells Hsteps Hframe. unfold animate.
  destruct (negb (frame =? -1) && elapsed) eqn:Hgo.
  2:{ exists frame, colors. split; [reflexivity|]. split; [exact Hwf|].
      split; [exact Hcells|]. split; [exact Hframe | auto]. }
  apply andb_true_iff in Hgo. destruct Hgo as [Hne _].
  apply negb_true_iff, Z.eqb_neq in Hne.
  destruct Hframe as [Hf|Hf]; [congruence|].
  unfold lt_size. destruct (0 <=? frame) eqn:E0; [|apply Z.leb_gt in E0; lia].
  cbn [andb]. destruct (frame <? Z.of_nat (length anim)) eqn:Elt.
  2:{ exists (-1), colors. split; [reflexivity|]. split; [exact Hwf|].
      split; [exact Hcells|]. split; [left; reflexivity | auto]. }
  apply Z.ltb_lt in Elt.
  destruct (nth_error anim (Z.to_nat frame)) as [step|] eqn:Hnth;
    [|apply nth_error_None in Hnth; lia].
  assert (Hstep : step_ok w step).
  { rewrite Forall_forall in Hsteps. apply Hsteps. eapply nth_error_In; eauto. }
  destruct Hstep as (Hg & Hfree & Hcol). cbv zeta.
  assert (Hfr : frame_ok (frame + 1) anim) by (right; lia).
  destruct (anchor_cell (fst (step_coord step)) (snd (step_coord step))) eqn:Ea; cbn [negb].
  { exists (frame + 1), colors. split; [reflexivity|]. split; [exact Hwf|].
    split; [exact Hcells|]. split; [exact Hfr | intros; lia]. }
  pose proof (proj1 (grid_range _ _) Hg) as Hr.
  rewrite (mwrite_returns 20) by (auto; lia). cbn [obind].
  eexists _, _. split; [reflexivity|]. split; [apply wf_mset; exact Hwf|].
  split; [|split; [exact Hfr | intros; lia]].
  intros x y Hxy.
  destruct (coord_eqb_spec (x, y) (fst (step_coord step), snd (step_coord step)))
    as [E|E].
  - injection E as -> ->. exists (step_color step).
    split; [apply (mread_mset_same 20); auto; lia|].
    unfold cell_ok. rewrite Ea, (Hfree eq_refl). right. exact Hcol.
  - rewrite mread_mset_other by (try lia; exact E). apply Hcells. exact Hxy.
Qed.

Lemma tick_display_ok (ed ea : bool) (u : ui) :
  display_ok u -> exists u', tick ed ea u = Returned u' /\ display_ok u'.
Proof.
  intros Hu. unfold tick.
  destruct (animate_ok (ui_wall u) ed _ _ _ (ok_colors u Hu) (ok_cells u Hu)
              (ok_dsteps u Hu) (ok_dframe u Hu)) as (fd & cs & Hd & Hwf & Hcells & Hfd & Hd1).
  rewrite Hd. cbn [obind].
  destruct (animate_ok (ui_wall u) ea _ _ _ Hwf Hcells
              (ok_asteps u Hu) (ok_aframe u Hu)) as (fa & cs' & Ha & Hwf' & Hcells' & Hfa & Ha1).
  rewrite Ha. cbn [obind].
  eexists. split; [reflexivity|].
  constructor; cbn; auto; try apply Hu.
  destruct (ok_one u Hu) as [H1|H1]; [left|right]; auto.
Qed.

Lemma left_click_display_ok (fuel : nat) (mx my : Z) (u u' : ui) :
  display_ok u ->
  on_left_click in_dijkstra_button in_astar_button fuel mx my u = Returned u' ->
  display_ok u'.
Proof.
  intros Hu. unfold on_left_click.
  destruct ((0 <=? mx) && (mx <? GRID_SIZE * CELL_SIZE) &&
            (0 <=? my) && (my <? GRID_SIZE * CELL_SIZE)) eqn:E.
  - intros H; injection H as <-.
    rewrite !andb_true_iff, !Z.leb_le in E.
    apply grid_click_display_ok; tauto.
  - destruct (in_dijkstra_button mx my); [apply button_click_display_ok; exact Hu|].
    destruct (in_astar_button mx my); [apply button_click_display_ok; exact Hu|].
    intros H; injection H as <-. exact Hu.
Qed.

Lemma running_display_ok (u : ui) : running u -> display_ok u.
Proof.
  induction 1 as [|u fuel mx my u' _ IH Hc|u ed ea u' _ IH Ht].
  - apply initial_display_ok.
  - eapply left_click_display_ok; eauto.
  - destruct (tick_display_ok ed ea u IH) as (u'' & Ht' & Hok). congruence.
Qed.

(** In every state of the running program: the walls and the colours are
    grids of side 20; the anchors are free and blue; a wall is white; every
    other cell is orange or in a colour of the steps; the recorded steps lie
    on the grid, off the walls; each frame counter is idle or within its
    steps, and at most one animation is running.  From such a state the
    animation blocks return, without reading or writing outside a vector. *)
Theorem display_invariant (u : ui) :
  running u ->
  display_ok u /\
  forall elapsed_d elapsed_a, exists u',
    tick elapsed_d elapsed_a u = Returned u' /\ running u'.
Proof.
  intros Hr. pose proof (running_display_ok u Hr) as Hok.
  split; [exact Hok|]. intros ed ea.
  destruct (tick_display_ok ed ea u Hok) as (u' & Ht & _).
  exists u'. split; [exact Ht|]. eapply run_tick; eauto.
Qed.

End Animation.

(** *** What the animation shows *)

(** The effect of one step on the colours, as an animation block applies
    it. *)
Definition paint (colors : matrix color) (e : AnimationStep) : matrix color :=
  if anchor_cell (fst (step_coord e)) (snd (step_coord e)) then colors
  else mset colors (fst (step_coord e)) (snd (step_coord e)) (step_color e).

(** The steps [l] replayed in order. *)
Definition replay (l : list AnimationStep) (colors : matrix color) : matrix color :=
  fold_left paint l colors.

(** The colour of the last step of [l] at the cell [c], if there is one. *)
Definition last_color (l : list AnimationStep) (c : coord) : option color :=
  fold_left (fun acc e => if coord_eqb (step_coord e) c then Some (step_color e) else acc)
            l None.

(** [k] iterations of the animation blocks, the delay elapsed each time. *)
Fixpoint ticks (k : nat) (u : ui) : outcome ui :=
  match k with
  | O => Returned u
  | S j => obind (tick true true u) (ticks j)
  end.

(** The frame counter and the steps of a strategy, and the state with the
    frame counter of the strategy and the colours replaced. *)
Definition anim_frame (alg : algorithm) (u : ui) : Z :=
  match alg with
  | Dijkstra => currentDijkstraAnimFrame u
  | AStar => currentAstarAnimFrame u
  end.

Definition anim_steps (alg : algorithm) (u : ui) : list AnimationStep :=
  match alg with
  | Dijkstra => dijkstraAnimationSteps u
  | AStar => astarAnimationSteps u
  end.

Definition other (alg : algorithm) : algorithm :=
  match alg with Dijkstra => AStar | AStar => Dijkstra end.

Definition at_frame (alg : algorithm) (frame : Z) (colors : matrix color) (u : ui) : ui :=
  match alg with
  | Dijkstra => mkUi (ui_wall u) colors (dijkstraAnimationSteps u) (astarAnimationSteps u)
                     frame (currentAstarAnimFrame u) (currentMessage u)
  | AStar => mkUi (ui_wall u) colors (dijkstraAnimationSteps u) (astarAnimationSteps u)
                  (currentDijkstraAnimFrame u) frame (currentMessage u)
  end.

Lemma last_color_snoc (l : list AnimationStep) (e : AnimationStep) (c : coord) :
  last_color (l ++ [e]) c =
  if coord_eqb (step_coord e) c then Some (step_color e) else last_color l c.
Proof. unfold last_color. rewrite fold_left_app. reflexivity. Qed.

Lemma replay_snoc (l : list AnimationStep) (e : AnimationStep) (cs : matrix color) :
  replay (l ++ [e]) cs = paint (replay l cs) e.
Proof. unfold replay. rewrite fold_left_app. reflexivity. Qed.

Lemma last_color_some (l : list AnimationStep) (c : coord) (col : color) :
  last_color l c = Some col -> In (mkStep c col) l.
Proof.
  induction l as [|e l IH] using rev_ind; [discriminate|].
  rewrite last_color_snoc. intros H. apply in_or_app.
  destruct (coord_eqb_spec (step_coord e) c) as [E|E].
  - right. left. injection H as <-. subst c. destruct e; reflexivity.
  - left. apply IH. exact H.
Qed.

Lemma last_color_none (l : list AnimationStep) (c : coord) :
  last_color l c = None <-> forall col, ~ In (mkStep c col) l.
Proof.
  induction l as [|e l IH] using rev_ind.
  - split; [intros _ col []|reflexivity].
  - rewrite last_color_snoc.
    destruct (coord_eqb_spec (step_coord e) c) as [E|E].
    + split; [discriminate|]. intros H. exfalso. apply (H (step_color e)).
      apply in_or_app. right. left. subst c. destruct e; reflexivity.
    + split.
      * intros H col Hin. apply in_app_or in Hin. destruct Hin as [Hin|[E'|[]]].
        -- exact (proj1 IH H col Hin).
        -- apply E. rewrite E'. reflexivity.
      * intros H. apply IH. intros col Hin. apply (H col).
        apply in_or_app. left. exact Hin.
Qed.

Lemma last_color_app (l1 l2 : list AnimationStep) (c : coord) :
  last_color (l1 ++ l2) c =
  match last_color l2 c with Some col => Some col | None => last_color l1 c end.
Proof.
  induction l2 as [|e l2 IH] using rev_ind.
  - rewrite app_nil_r. reflexivity.
  - rewrite app_assoc, !last_color_snoc.
    destruct (coord_eqb (step_coord e) c); [reflexivity | exact IH].
Qed.

Lemma replay_wf (l : list AnimationStep) (cs : matrix color) :
  wf_matrix 20 cs -> wf_matrix 20 (replay l cs).
Proof.
  intros Hwf. induction l as [|e l IH] using rev_ind; [exact Hwf|].
  rewrite replay_snoc. unfold paint. destruct (anchor_cell _ _); [exact IH|].
  apply wf_mset. exact IH.
Qed.

(** The colour of a cell after a replay: that of the last step at the cell,
    or the colour before; the anchors keep their colour. *)
Lemma replay_cell (w : matrix bool) (l : list AnimationStep) (cs : matrix color)
    (x y : Z) :
  wf_matrix 20 cs -> Forall (step_ok w) l -> in_grid GRID_SIZE x y = true ->
  mread (replay l cs) x y =
  if anchor_cell x y then mread cs x y
  else match last_color l (x, y) with
       | Some col => Some col
       | None => mread cs x y
       end.
Proof.
  intros Hwf Hl Hxy. induction l as [|e l IH] using rev_ind.
  - simpl. destruct (anchor_cell x y); reflexivity.
  - apply Forall_app in Hl. destruct Hl as [Hl He].
    inversion He as [|? ? (Hg & _ & _) _]; subst. specialize (IH Hl).
    rewrite replay_snoc, last_color_snoc. unfold paint.
    pose proof (proj1 (grid_range _ _) Hg) as Hr.
    destruct (anchor_cell (fst (step_coord e)) (snd (step_coord e))) eqn:Ea.
    + rewrite IH. destruct (coord_eqb_spec (step_coord e) (x, y)) as [E|E];
        [|reflexivity].
      rewrite E in Ea. cbn [fst snd] in Ea. rewrite Ea. reflexivity.
    + destruct (coord_eqb_spec (step_coord e) (x, y)) as [E|E].
      * rewrite E in *. cbn [fst snd] in *. rewrite Ea.
        apply (mread_mset_same 20); [apply replay_wf; exact Hwf | lia | lia].
      * rewrite mread_mset_other; [exact IH | lia | lia |].
        intros E'. apply E. destruct (step_coord e). cbn [fst snd] in E'. congruence.
Qed.

Section Playback.
Context {PQ : MinQueue}.
Variables in_dijkstra_button in_astar_button : Z -> Z -> bool.

Lemma ui_eta (u : ui) :
  mkUi (ui_wall u) (gridColors u) (dijkstraAnimationSteps u) (astarAnimationSteps u)
       (currentDijkstraAnimFrame u) (currentAstarAnimFrame u) (currentMessage u) = u.
Proof. destruct u; reflexivity. Qed.

(** With both animations idle the blocks change nothing. *)
Lemma tick_idle (ed ea : bool) (u : ui) :
  currentDijkstraAnimFrame u = -1 -> currentAstarAnimFrame u = -1 ->
  tick ed ea u = Returned u.
Proof.
  intros Hd Ha. unfold tick, animate. rewrite Hd, Ha. cbn. rewrite <- Hd at 1.
  rewrite <- Ha at 1. rewrite ui_eta. reflexivity.
Qed.

(** Before the delay has elapsed the blocks change nothing. *)
Lemma tick_early (u : ui) : tick false false u = Returned u.
Proof.
  unfold tick, animate. rewrite !andb_false_r. cbn. rewrite ui_eta. reflexivity.
Qed.

(** One iteration with the animation of [alg] running and the other idle:
    the next step is painted, or past the last step the animation stops. *)
Lemma tick_frame (alg : algorithm) (u : ui) :
  display_ok u -> anim_frame (other alg) u = -1 -> 0 <= anim_frame alg u ->
  tick true true u =
  Returned
    match nth_error (anim_steps alg u) (Z.to_nat (anim_frame alg u)) with
    | Some e => at_frame alg (anim_frame alg u + 1) (paint (gridColors u) e) u
    | None => at_frame alg (-1) (gridColors u) u
    end.
Proof.
  intros Hu Hother Hf.
  assert (Hone : forall (f : Z) (l : list AnimationStep) (cs : matrix color),
            wf_matrix 20 cs -> Forall (step_ok (ui_wall u)) l -> 0 <= f ->
            animate true f l cs =
            Returned match nth_error l (Z.to_nat f) with
                     | Some e => (f + 1, paint cs e)
                     | None => (-1, cs)
                     end).
  { intros f l cs Hwf Hl Hf0. unfold animate, lt_size.
    destruct (f =? -1) eqn:E1; [apply Z.eqb_eq in E1; lia|]. cbn [negb andb].
    destruct (0 <=? f) eqn:E0; [|apply Z.leb_gt in E0; lia]. cbn [andb].
    destruct (f <? Z.of_nat (length l)) eqn:Elt.
    - apply Z.ltb_lt in Elt.
      destruct (nth_error l (Z.to_nat f)) as [e|] eqn:Hn;
        [|apply nth_error_None in Hn; lia].
      assert (He : step_ok (ui_wall u) e).
      { rewrite Forall_forall in Hl. apply Hl. eapply nth_error_In; eauto. }
      destruct He as (Hg & _ & _). apply grid_range in Hg. cbv zeta. unfold paint.
      destruct (anchor_cell _ _); cbn [negb]; [reflexivity|].
      rewrite (mwrite_returns 20) by (auto; lia). reflexivity.
    - apply Z.ltb_ge in Elt.
      assert (Hn : nth_error l (Z.to_nat f) = None) by (apply nth_error_None; lia).
      rewrite Hn. reflexivity. }
  assert (Hidle : forall (b : bool) (l : list AnimationStep) (cs : matrix color),
            animate b (-1) l cs = Returned (-1, cs)) by reflexivity.
  unfold tick. destruct alg; cbn [anim_frame anim_steps other at_frame] in *.
  - rewrite (Hone _ _ _ (ok_colors u Hu) (ok_dsteps u Hu) Hf). cbn [obind].
    rewrite Hother.
    destruct (nth_error _ _); rewrite Hidle; reflexivity.
  - rewrite Hother, Hidle. cbn [obind].
    rewrite (Hone _ _ _ (ok_colors u Hu) (ok_asteps u Hu) Hf). cbn [obind].
    destruct (nth_error _ _); reflexivity.
Qed.

Lemma firstn_snoc {A} (l : list A) (k : nat) (e : A) :
  nth_error l k = Some e -> firstn (S k) l = firstn k l ++ [e].
Proof.
  revert k. induction l as [|a l IH]; intros [|k] H; simpl in *; try discriminate.
  - injection H as ->. reflexivity.
  - f_equal. apply IH. exact H.
Qed.

Lemma at_frame_display_ok (alg : algorithm) (u : ui) (k : nat) :
  display_ok u -> anim_frame (other alg) u = -1 ->
  (k <= length (anim_steps alg u))%nat ->
  display_ok (at_frame alg (Z.of_nat k)
                (replay (firstn k (anim_steps alg u)) (resetGridColors (ui_wall u))) u).
Proof.
  intros Hu Hother Hk.
  pose proof (ok_wall u Hu) as Hw.
  assert (Hsteps : Forall (step_ok (ui_wall u)) (anim_steps alg u))
    by (destruct alg; apply Hu).
  assert (Hfirst : Forall (step_ok (ui_wall u)) (firstn k (anim_steps alg u))).
  { rewrite Forall_forall in *. intros e He. apply Hsteps.
    rewrite <- (firstn_skipn k). apply in_or_app. left. exact He. }
  assert (Hcells : forall x y, in_grid GRID_SIZE x y = true ->
            exists c, mread (replay (firstn k (anim_steps alg u))
                               (resetGridColors (ui_wall u))) x y = Some c /\
                      cell_ok (ui_wall u) x y c).
  { intros x y Hxy.
    rewrite (replay_cell (ui_wall u)) by (auto using resetGridColors_wf).
    rewrite (resetGridColors_cell _ _ _ Hw Hxy).
    destruct (reset_cells_ok (ui_wall u) x y Hw Hxy) as (c0 & Hc0 & Hok0).
    rewrite (resetGridColors_cell _ _ _ Hw Hxy) in Hc0. injection Hc0 as <-.
    destruct (anchor_cell x y) eqn:Ea; [eauto|].
    destruct (last_color _ (x, y)) as [col|] eqn:El; [|eauto].
    exists col. split; [reflexivity|].
    apply last_color_some in El. rewrite Forall_forall in Hfirst.
    destruct (Hfirst _ El) as (_ & Hfree & Hcol). cbn [step_coord fst snd] in *.
    unfold cell_ok. rewrite Ea, (Hfree Ea). right. exact Hcol. }
  assert (Hfr : forall l : list AnimationStep, (k <= length l)%nat ->
            frame_ok (Z.of_nat k) l) by (intros l Hl; right; lia).
  destruct alg; cbn [anim_frame anim_steps other at_frame] in *;
    constructor; cbn; try apply Hu; auto using replay_wf, resetGridColors_wf.
Qed.

(** After a button press the state is the one at frame 0 of the replay. *)
Lemma button_click_state (alg : algorithm) (fuel : nat) (u u1 : ui) (r : search_result) :
  run_search alg (ui_wall u) fuel = Returned r ->
  on_button_click alg fuel u = Returned u1 ->
  ui_wall u1 = ui_wall u /\ anim_steps alg u1 = trace r /\
  anim_frame (other alg) u1 = -1 /\ currentMessage u1 = message r /\
  u1 = at_frame alg 0 (resetGridColors (ui_wall u)) u1.
Proof.
  intros Hs Hc. unfold on_button_click in Hc. rewrite Hs in Hc.
  injection Hc as <-. destruct alg; cbn; repeat split.
Qed.

Lemma at_frame_again (alg : algorithm) (f f' : Z) (cs cs' : matrix color) (u : ui) :
  at_frame alg f' cs' (at_frame alg f cs u) = at_frame alg f' cs' u.
Proof. destruct alg; reflexivity. Qed.

Lemma at_frame_fields (alg : algorithm) (f : Z) (cs : matrix color) (u : ui) :
  ui_wall (at_frame alg f cs u) = ui_wall u /\
  gridColors (at_frame alg f cs u) = cs /\
  anim_steps alg (at_frame alg f cs u) = anim_steps alg u /\
  anim_frame alg (at_frame alg f cs u) = f /\
  anim_frame (other alg) (at_frame alg f cs u) = anim_frame (other alg) u /\
  currentMessage (at_frame alg f cs u) = currentMessage u.
Proof. destruct alg; cbn; repeat split. Qed.

(** The first [k] iterations replay the first [k] steps. *)
Lemma ticks_replay (alg : algorithm) (u : ui) (k : nat) :
  display_ok u -> anim_frame (other alg) u = -1 ->
  (k <= length (anim_steps alg u))%nat ->
  ticks k (at_frame alg 0 (resetGridColors (ui_wall u)) u) =
  Returned (at_frame alg (Z.of_nat k)
              (replay (firstn k (anim_steps alg u)) (resetGridColors (ui_wall u))) u).
Proof.
  intros Hu Hother.
  assert (Hgen : forall j k, (j + k <= length (anim_steps alg u))%nat ->
     ticks k (at_frame alg (Z.of_nat j)
                (replay (firstn j (anim_steps alg u)) (resetGridColors (ui_wall u))) u) =
     Returned (at_frame alg (Z.of_nat (j + k))
                (replay (firstn (j + k) (anim_steps alg u))
                        (resetGridColors (ui_wall u))) u)).
  { intros j k0. revert j. induction k0 as [|k0 IH]; intros j Hj.
    - rewrite Nat.add_0_r. reflexivity.
    - cbn [ticks].
      pose proof (at_frame_display_ok alg u j Hu Hother ltac:(lia)) as Hok.
      destruct (at_frame_fields alg (Z.of_nat j)
                  (replay (firstn j (anim_steps alg u)) (resetGridColors (ui_wall u))) u)
        as (_ & Hcs & Hst & Hfr & Hot & _).
      rewrite (tick_frame alg _ Hok) by (rewrite ?Hot, ?Hfr; auto; lia).
      rewrite Hst, Hfr, Hcs, Nat2Z.id.
      destruct (nth_error (anim_steps alg u) j) as [e|] eqn:Hn;
        [|apply nth_error_None in Hn; lia].
      cbn [obind]. rewrite at_frame_again, <- replay_snoc, <- (firstn_snoc _ _ _ Hn).
      replace (Z.of_nat j + 1) with (Z.of_nat (S j)) by lia.
      rewrite (IH (S j)) by lia. replace (S j + k0)%nat with (j + S k0)%nat by lia.
      reflexivity. }
  intros Hk. exact (Hgen O k Hk).
Qed.

Lemma ticks_add (j k : nat) (u : ui) :
  ticks (j + k) u = obind (ticks j u) (ticks k).
Proof.
  revert u. induction j as [|j IH]; intros u; [reflexivity|].
  cbn [Nat.add ticks]. destruct (tick true true u) as [u'| |]; cbn [obind]; auto.
Qed.

Lemma button_click_returns (alg : algorithm) (fuel : nat) (u u1 : ui) :
  on_button_click alg fuel u = Returned u1 ->
  exists r, run_search alg (ui_wall u) fuel = Returned r.
Proof.
  unfold on_button_click. destruct (run_search alg (ui_wall u) fuel); try discriminate.
  eauto.
Qed.

(** The animation after a button press.  With the delay elapsed at each
    iteration, the first [k] iterations paint the first [k] steps of the
    search, in order, over the colours of [resetGridColors]; the iteration
    after the last step stops the animation; from then on, and whenever the
    delay has not elapsed, the iterations change nothing. *)
Theorem animation_replays_steps (alg : algorithm) (fuel : nat) (u u1 : ui) :
  running in_dijkstra_button in_astar_button u ->
  on_button_click alg fuel u = Returned u1 ->
  let T := anim_steps alg u1 in
  let c0 := resetGridColors (ui_wall u) in
  let uf := at_frame alg (-1) (replay T c0) u1 in
  (forall k, (k <= length T)%nat ->
     ticks k u1 = Returned (at_frame alg (Z.of_nat k) (replay (firstn k T) c0) u1)) /\
  ticks (S (length T)) u1 = Returned uf /\
  (forall elapsed_d elapsed_a, tick elapsed_d elapsed_a uf = Returned uf) /\
  (forall v, tick false false v = Returned v).
Proof.
  intros Hr Hc T c0 uf.
  pose proof (running_display_ok _ _ u Hr) as Hu.
  pose proof (button_click_display_ok alg fuel u u1 Hu Hc) as Hu1.
  destruct (button_click_returns alg fuel u u1 Hc) as [r Hs].
  destruct (button_click_state alg fuel u u1 r Hs Hc) as (Hw & Hst & Hot & _ & Hu0).
  assert (Hk : forall k, (k <= length T)%nat ->
     ticks k u1 = Returned (at_frame alg (Z.of_nat k) (replay (firstn k T) c0) u1)).
  { intros k Hk. rewrite Hu0 at 1. unfold c0. rewrite <- Hw.
    apply ticks_replay; assumption. }
  split; [exact Hk|]. split; [|split; [|apply tick_early]].
  - replace (S (length T)) with (length T + 1)%nat by lia.
    rewrite ticks_add, (Hk (length T)) by lia. cbn [obind ticks].
    rewrite firstn_all.
    pose proof (at_frame_display_ok alg u1 (length T) Hu1 Hot ltac:(fold T; lia)) as Hok.
    rewrite firstn_all, Hw in Hok. fold T c0 in Hok.
    destruct (at_frame_fields alg (Z.of_nat (length T)) (replay T c0) u1)
      as (_ & Hcs & Hst' & Hfr & Hot' & _).
    rewrite (tick_frame alg _ Hok) by (rewrite ?Hot', ?Hfr; auto; lia).
    rewrite Hst', Hfr, Hcs, Nat2Z.id. fold T.
    assert (Hn : nth_error T (length T) = None) by (apply nth_error_None; lia).
    rewrite Hn. cbn [obind]. rewrite at_frame_again. reflexivity.
  - intros ed ea. apply tick_idle; unfold uf; destruct alg; cbn; auto.
Qed.

(** The picture when the animation has ended.  The anchors are blue; a wall
    is white and nothing else is; a cell is orange exactly when it is free
    and the search recorded no step at it; and a cell has the colour of the
    path (magenta for A*, green for Dijkstra) exactly when it lies on the
    path the search returned. *)
Theorem final_picture (alg : algorithm) (fuel : nat) (u u1 : ui) (r : search_result) :
  running in_dijkstra_button in_astar_button u ->
  run_search alg (ui_wall u) fuel = Returned r ->
  on_button_click alg fuel u = Returned u1 ->
  exists uf,
    ticks (S (length (trace r))) u1 = Returned uf /\
    currentMessage uf = message r /\
    forall x y, in_grid GRID_SIZE x y = true ->
      exists c, mread (gridColors uf) x y = Some c /\
        (anchor_cell x y = true -> c = Blue) /\
        (anchor_cell x y = false ->
           (c = White <-> wall_at (ui_wall u) x y = true) /\
           (c = Orange <->
              wall_at (ui_wall u) x y = false /\
              forall col, ~ In (mkStep (x, y) col) (trace r)) /\
           (c = path_color alg <-> exists p, path r = Some p /\ In (x, y) p)).
Proof.
  intros Hr Hs Hc.
  pose proof (running_display_ok _ _ u Hr) as Hu.
  pose proof (ok_wall u Hu) as Hw.
  pose proof (button_click_display_ok alg fuel u u1 Hu Hc) as Hu1.
  destruct (button_click_state alg fuel u u1 r Hs Hc) as (Hw1 & Hst & Hot & Hmsg & Hu0).
  pose proof (ticks_replay alg u1 (length (trace r)) Hu1 Hot
                ltac:(rewrite Hst; lia)) as Hk.
  rewrite Hst, firstn_all, Hw1 in Hk. rewrite <- Hu0 in Hk.
  set (shown := replay (trace r) (resetGridColors (ui_wall u))) in *.
  exists (at_frame alg (-1) shown u1).
  destruct (at_frame_fields alg (-1) shown u1) as (_ & Hcs & _ & _ & _ & Hm).
  split; [|split; [congruence|]].
  { replace (S (length (trace r))) with (length (trace r) + 1)%nat by lia.
    rewrite ticks_add, Hk. cbn [obind ticks].
    pose proof (at_frame_display_ok alg u1 (length (trace r)) Hu1 Hot
                  ltac:(rewrite Hst; lia)) as Hok.
    rewrite Hst, firstn_all, Hw1 in Hok. fold shown in Hok.
    destruct (at_frame_fields alg (Z.of_nat (length (trace r))) shown u1)
      as (_ & Hcs' & Hst' & Hfr & Hot' & _).
    rewrite (tick_frame alg _ Hok) by (rewrite ?Hot', ?Hfr; auto; lia).
    rewrite Hst', Hfr, Hcs', Nat2Z.id, Hst.
    assert (Hn : nth_error (trace r) (length (trace r)) = None)
      by (apply nth_error_None; lia).
    rewrite Hn. cbn [obind]. rewrite at_frame_again. reflexivity. }
  rewrite Hcs. intros x y Hxy.
  pose proof (search_steps_ok alg _ fuel r Hs) as Hsteps.
  destruct program_grid as (HN & Hstart & Hend).
  destruct (trace_parts GRID_SIZE START_X START_Y END_X END_Y _ HN Hstart Hend
              alg fuel r Hs) as (evs & Htr & Hcol).
  unfold shown.
  rewrite (replay_cell (ui_wall u)) by (auto using resetGridColors_wf).
  rewrite (resetGridColors_cell _ _ _ Hw Hxy). unfold reset_color.
  destruct (anchor_cell x y) eqn:Ea.
  { exists Blue. split; [reflexivity|]. split; [reflexivity | discriminate]. }
  assert (Hpc : path_color alg <> Cyan /\ path_color alg <> Grey /\
                path_color alg <> White /\ path_color alg <> Orange).
  { destruct alg; cbn; repeat split; discriminate. }
  (* a step in the colour of the path is a step of the path *)
  assert (Hpath : forall col, In (mkStep (x, y) col) (trace r) ->
            col = path_color alg -> exists p, path r = Some p /\ In (x, y) p).
  { intros col Hin ->. rewrite Htr in Hin. destruct Hin as [E|Hin].
    { injection E as _ _ E. symmetry in E. tauto. }
    apply in_app_or in Hin. destruct Hin as [Hin|Hin].
    - rewrite Forall_forall in Hcol. destruct (Hcol _ Hin) as [E|E];
        cbn in E; tauto.
    - destruct (path r) as [p|]; [|destruct Hin]. exists p. split; [reflexivity|].
      unfold path_steps in Hin. apply in_map_iff in Hin.
      destruct Hin as (c & E & Hc'). injection E as ->.
      apply filter_In in Hc'. apply Hc'. }
  (* a cell of the path has a last step, in the colour of the path *)
  assert (Hon : forall p, path r = Some p -> In (x, y) p ->
            last_color (trace r) (x, y) = Some (path_color alg)).
  { intros p Hp Hin. rewrite Htr, Hp.
    change (mkStep (START_X, START_Y) Cyan :: evs ++ path_steps START_X START_Y END_X END_Y alg p)
      with ((mkStep (START_X, START_Y) Cyan :: evs) ++ path_steps START_X START_Y END_X END_Y alg p).
    rewrite last_color_app.
    destruct (last_color (path_steps START_X START_Y END_X END_Y alg p) (x, y))
      as [col|] eqn:El.
    - apply last_color_some in El. unfold path_steps in El. apply in_map_iff in El.
      destruct El as (c & E & _). injection E as _ <-. reflexivity.
    - exfalso. apply (proj1 (last_color_none _ _) El (path_color alg)).
      unfold path_steps. apply in_map_iff. exists (x, y). split; [reflexivity|].
      apply filter_In. split; [exact Hin|]. cbn [fst snd].
      unfold anchor_cell in Ea. rewrite Ea. reflexivity. }
  destruct (last_color (trace r) (x, y)) as [col|] eqn:El.
  - exists col. split; [reflexivity|]. split; [discriminate|]. intros _.
    pose proof (last_color_some _ _ _ El) as Hin.
    rewrite Forall_forall in Hsteps. destruct (Hsteps _ Hin) as (_ & Hfree & Hsc).
    cbn [step_coord step_color fst snd] in *. specialize (Hfree Ea).
    assert (Hne : col <> White /\ col <> Orange).
    { destruct Hsc as [ -> | [ -> | [ -> | -> ] ] ]; split; discriminate. }
    split; [|split].
    + split; [tauto | congruence].
    + split; [tauto|]. intros [_ Hno]. exfalso. exact (Hno col Hin).
    + split; [apply (Hpath col Hin)|].
      intros (p & Hp & Hinp). pose proof (Hon p Hp Hinp) as E. congruence.
  - exists (if wall_at (ui_wall u) x y then White else Orange).
    split; [reflexivity|]. split; [discriminate|]. intros _.
    pose proof (proj1 (last_color_none _ _) El) as Hno.
    split; [|split].
    + destruct (wall_at (ui_wall u) x y); split; congruence.
    + destruct (wall_at (ui_wall u) x y); split; try congruence; try tauto.
      intros [E _]. discriminate E.
    + split.
      * destruct (wall_at (ui_wall u) x y); intros E; symmetry in E; tauto.
      * intros (p & Hp & Hinp). pose proof (Hon p Hp Hinp) as E. congruence.
Qed.

End Playback.

(** *** The picture and the clicks *)

(** A rectangle handed to [window.draw]: position and size in pixels, fill
    colour, and the thickness of its red outline, which lies outside the
    fill. *)
Record RectangleShape := mkRect {
  rect_x : Z;
  rect_y : Z;
  rect_w : Z;
  rect_h : Z;
  rect_fill : color;
  rect_outline : Z
}.

(** The square of the cell in column [c] of row [r]. *)
Definition cell_rect (c r : Z) (fill : color) (outline : Z) : RectangleShape :=
  mkRect (c * CELL_SIZE) (r * CELL_SIZE) CELL_SIZE CELL_SIZE fill outline.

(** The body of the drawing loops for row [r] and column [c] (lines 445-447). *)
Definition draw_cell (colors : matrix color) (r c : Z) (out : list RectangleShape) :
    outcome (list RectangleShape) :=
  match mread colors c r with
  | Some fill => Returned (out ++ [cell_rect c r fill 1])
  | None => Undefined
  end.

(** The grid as one iteration draws it (lines 436-461): the cells row by row,
    then the two anchors in blue. *)
Definition draw_grid (colors : matrix color) : outcome (list RectangleShape) :=
  obind (for_loop (fun r => for_loop (draw_cell colors r) 0 (Z.to_nat GRID_SIZE))
                  0 (Z.to_nat GRID_SIZE) [])
        (fun out => Returned (out ++ [cell_rect START_X START_Y Blue 0;
                                      cell_rect END_X END_Y Blue 0])).

(** The pixel [(px, py)] lies in the fill of the rectangle. *)
Definition covers (s : RectangleShape) (px py : Z) : bool :=
  (rect_x s <=? px) && (px <? rect_x s + rect_w s) &&
  (rect_y s <=? py) && (py <? rect_y s + rect_h s).

(** The fill of the last rectangle drawn over the pixel. *)
Definition fill_at (shapes : list RectangleShape) (px py : Z) : option color :=
  fold_left (fun acc s => if covers s px py then Some (rect_fill s) else acc)
            shapes None.

Lemma fill_at_snoc (l : list RectangleShape) (s : RectangleShape) (px py : Z) :
  fill_at (l ++ [s]) px py = if covers s px py then Some (rect_fill s) else fill_at l px py.
Proof. unfold fill_at. rewrite fold_left_app. reflexivity. Qed.

Lemma fill_at_unique (l : list RectangleShape) (px py : Z) (f : color) :
  (exists s, In s l /\ covers s px py = true /\ rect_fill s = f) ->
  (forall s, In s l -> covers s px py = true -> rect_fill s = f) ->
  fill_at l px py = Some f.
Proof.
  induction l as [|s l IH] using rev_ind; intros (s0 & Hin & Hc & Hf) Hall.
  - destruct Hin.
  - rewrite fill_at_snoc. destruct (covers s px py) eqn:Ec.
    + f_equal. apply Hall; [apply in_or_app; right; left; reflexivity | exact Ec].
    + apply IH.
      * exists s0. apply in_app_or in Hin. destruct Hin as [Hin|[E|[]]]; [auto|].
        subst s0. congruence.
      * intros s1 H1. apply Hall. apply in_or_app. left. exact H1.
Qed.

(** A pixel of the grid area lies in the square of one cell only: the cell
    the click handler computes. *)
Lemma covers_cell (c r : Z) (fill : color) (outline : Z) (px py : Z) :
  0 <= px -> 0 <= py ->
  covers (cell_rect c r fill outline) px py = true <->
  c = Z.quot px CELL_SIZE /\ r = Z.quot py CELL_SIZE.
Proof.
  intros Hx Hy. unfold covers, cell_rect, CELL_SIZE. cbn.
  rewrite !andb_true_iff, !Z.leb_le, !Z.ltb_lt.
  rewrite !Z.quot_div_nonneg by lia.
  pose proof (Z.div_mod px 25 ltac:(lia)). pose proof (Z.mod_pos_bound px 25 ltac:(lia)).
  pose proof (Z.div_mod py 25 ltac:(lia)). pose proof (Z.mod_pos_bound py 25 ltac:(lia)).
  lia.
Qed.

Lemma click_cell (mx my : Z) :
  0 <= mx < GRID_SIZE * CELL_SIZE -> 0 <= my < GRID_SIZE * CELL_SIZE ->
  in_grid GRID_SIZE (Z.quot mx CELL_SIZE) (Z.quot my CELL_SIZE) = true.
Proof.
  unfold GRID_SIZE, CELL_SIZE. intros Hx Hy. apply grid_range.
  rewrite !Z.quot_div_nonneg by lia.
  pose proof (Z.div_mod mx 25 ltac:(lia)). pose proof (Z.mod_pos_bound mx 25 ltac:(lia)).
  pose proof (Z.div_mod my 25 ltac:(lia)). pose proof (Z.mod_pos_bound my 25 ltac:(lia)).
  lia.
Qed.

(** What the drawing loops return on colours of side 20: one square per
    cell, filled with the colour of the cell. *)
Lemma draw_cells (colors : matrix color) :
  wf_matrix 20 colors ->
  exists out,
    for_loop (fun r => for_loop (draw_cell colors r) 0 (Z.to_nat GRID_SIZE))
             0 (Z.to_nat GRID_SIZE) [] = Returned out /\
    length out = 400%nat /\
    (forall s, In s out -> exists c r fill,
        in_grid GRID_SIZE c r = true /\ mread colors c r = Some fill /\
        s = cell_rect c r fill 1) /\
    (forall c r, in_grid GRID_SIZE c r = true -> exists fill,
        mread colors c r = Some fill /\ In (cell_rect c r fill 1) out).
Proof.
  intros Hwf.
  set (P := fun (r0 c0 : Z) (out : list RectangleShape) =>
    Z.of_nat (length out) = 20 * r0 + c0 /\
    (forall s, In s out -> exists c r fill,
        in_grid GRID_SIZE c r = true /\ mread colors c r = Some fill /\
        s = cell_rect c r fill 1) /\
    (forall c r, 0 <= c < 20 -> 0 <= r < 20 -> r < r0 \/ (r = r0 /\ c < c0) ->
        exists fill, mread colors c r = Some fill /\ In (cell_rect c r fill 1) out)).
  destruct (for_loop_inv (fun r out => P r 0 out)
              (fun r => for_loop (draw_cell colors r) 0 (Z.to_nat GRID_SIZE))
              (Z.to_nat GRID_SIZE) 0 []) as (out & Hrun & Hlen & Hall & Hex).
  { split; [reflexivity|]. split; [intros s []|]. intros c r Hc Hr H. lia. }
  { intros r t Hr Ht. change (Z.of_nat (Z.to_nat GRID_SIZE)) with 20 in *.
    destruct (for_loop_inv (fun c out => P r c out) (draw_cell colors r)
                (Z.to_nat GRID_SIZE) 0 t Ht) as (t' & Hrun' & Ht').
    { intros c v Hc (Hvl & Hva & Hve). change (Z.of_nat (Z.to_nat GRID_SIZE)) with 20 in *.
      unfold draw_cell.
      destruct (mread_wf 20 colors c r Hwf ltac:(lia) ltac:(lia)) as [fill Hfill].
      rewrite Hfill. eexists. split; [reflexivity|]. split; [|split].
      - rewrite length_app. cbn [length]. lia.
      - intros s Hs. apply in_app_or in Hs. destruct Hs as [Hs|[<-|[]]]; [auto|].
        exists c, r, fill. split; [apply grid_range; lia | auto].
      - intros c1 r1 Hc1 Hr1 Hlt.
        destruct (Z.eq_dec r1 r) as [->|Hne].
        + destruct (Z.eq_dec c1 c) as [->|Hnc].
          * exists fill. split; [exact Hfill|]. apply in_or_app. right. left. reflexivity.
          * destruct (Hve c1 r Hc1 Hr1 ltac:(lia)) as (f1 & Hf1 & Hin1).
            exists f1. split; [exact Hf1|]. apply in_or_app. left. exact Hin1.
        + destruct (Hve c1 r1 Hc1 Hr1 ltac:(lia)) as (f1 & Hf1 & Hin1).
          exists f1. split; [exact Hf1|]. apply in_or_app. left. exact Hin1. }
    change (Z.of_nat (Z.to_nat GRID_SIZE)) with 20 in *.
    exists t'. split; [exact Hrun'|].
    destruct Ht' as (Hl' & Ha' & He'). split; [lia|]. split; [exact Ha'|].
    intros c1 r1 Hc1 Hr1 Hlt. apply He'; auto. lia. }
  change (Z.of_nat (Z.to_nat GRID_SIZE)) with 20 in *.
  exists out. split; [exact Hrun|]. split; [lia|]. split; [exact Hall|].
  intros c r Hg. apply grid_range in Hg. apply Hex; lia.
Qed.

Section Picture.
Context {PQ : MinQueue}.
Variables in_dijkstra_button in_astar_button : Z -> Z -> bool.

(** The picture and the clicks agree.  In every state of the running program
    the drawing loops stay inside the vectors and draw 402 rectangles; over a
    pixel of the grid area the rectangle drawn last is blue when the pixel
    belongs to an anchor and has the colour of the pixel's cell otherwise;
    and the cell is the one a left click on that pixel acts on. *)
Theorem picture_matches_clicks (u : ui) :
  running in_dijkstra_button in_astar_button u ->
  exists shapes,
    draw_grid (gridColors u) = Returned shapes /\
    length shapes = 402%nat /\
    forall px py,
      0 <= px < GRID_SIZE * CELL_SIZE -> 0 <= py < GRID_SIZE * CELL_SIZE ->
      let col := Z.quot px CELL_SIZE in
      let row := Z.quot py CELL_SIZE in
      in_grid GRID_SIZE col row = true /\
      fill_at shapes px py =
        (if anchor_cell col row then Some Blue else mread (gridColors u) col row) /\
      forall fuel,
        on_left_click in_dijkstra_button in_astar_button fuel px py u =
        Returned (on_grid_click px py u).
Proof.
  intros Hr. pose proof (running_display_ok _ _ u Hr) as Hu.
  destruct (draw_cells (gridColors u) (ok_colors u Hu)) as (out & Hrun & Hlen & Hall & Hex).
  unfold draw_grid. rewrite Hrun. cbn [obind]. eexists. split; [reflexivity|].
  split; [rewrite length_app, Hlen; reflexivity|].
  intros px py Hx Hy. cbv zeta.
  set (col := Z.quot px CELL_SIZE). set (row := Z.quot py CELL_SIZE).
  pose proof (click_cell px py Hx Hy) as Hg. fold col row in Hg.
  split; [exact Hg|]. split.
  - change (out ++ [cell_rect START_X START_Y Blue 0; cell_rect END_X END_Y Blue 0])
      with (out ++ [cell_rect START_X START_Y Blue 0] ++ [cell_rect END_X END_Y Blue 0]).
    rewrite app_assoc, !fill_at_snoc.
    destruct (covers (cell_rect END_X END_Y Blue 0) px py) eqn:Ee.
    { apply covers_cell in Ee; [|lia|lia]. destruct Ee as [Ec Er]. fold col row in Ec, Er.
      assert (Ea : anchor_cell col row = true)
        by (apply anchor_cell_iff; right; congruence).
      rewrite Ea. reflexivity. }
    destruct (covers (cell_rect START_X START_Y Blue 0) px py) eqn:Es.
    { apply covers_cell in Es; [|lia|lia]. destruct Es as [Ec Er]. fold col row in Ec, Er.
      assert (Ea : anchor_cell col row = true)
        by (apply anchor_cell_iff; left; congruence).
      rewrite Ea. reflexivity. }
    assert (Ea : anchor_cell col row = false).
    { destruct (anchor_cell col row) eqn:Ea; [|reflexivity].
      apply anchor_cell_iff in Ea. exfalso.
      destruct Ea as [Ea|Ea]; injection Ea as Ec Er.
      - assert (covers (cell_rect START_X START_Y Blue 0) px py = true); [|congruence].
        apply covers_cell; [lia | lia |]. unfold col, row in *. split; congruence.
      - assert (covers (cell_rect END_X END_Y Blue 0) px py = true); [|congruence].
        apply covers_cell; [lia | lia |]. unfold col, row in *. split; congruence. }
    rewrite Ea. destruct (Hex col row Hg) as (fill & Hfill & Hin). rewrite Hfill.
    apply fill_at_unique.
    + exists (cell_rect col row fill 1). split; [exact Hin|]. split; [|reflexivity].
      apply covers_cell; [lia | lia | split; reflexivity].
    + intros s Hs Hc. destruct (Hall s Hs) as (c & r & f & _ & Hf & ->).
      apply covers_cell in Hc; [|lia|lia]. destruct Hc as [-> ->].
      fold col row in Hf. cbn. congruence.
  - intros fuel. unfold on_left_click.
    assert (E : (0 <=? px) && (px <? GRID_SIZE * CELL_SIZE) &&
                (0 <=? py) && (py <? GRID_SIZE * CELL_SIZE) = true).
    { rewrite !andb_true_iff, !Z.leb_le, !Z.ltb_lt. lia. }
    rewrite E. reflexivity.
Qed.

Lemma mset_mset_same {A} (m : matrix A) (x y : Z) (v v' : A) :
  wf_matrix 20 m -> 0 <= x < 20 -> 0 <= y < 20 ->
  mread m x y = Some v' -> mset (mset m x y v) x y v' = m.
Proof.
  intros Hwf Hx Hy Hv. apply (matrix_ext 20).
  - apply wf_mset, wf_mset. exact Hwf.
  - exact Hwf.
  - intros x' y' Hx' Hy'.
    destruct (coord_eqb_spec (x', y') (x, y)) as [E|E].
    + injection E as -> ->. rewrite (mread_mset_same 20) by (try apply wf_mset; auto).
      symmetry. exact Hv.
    + rewrite !mread_mset_other by (try lia; exact E). reflexivity.
Qed.

(** A left click in the grid area.  The handler returns; the wall of the
    clicked cell is flipped unless the cell is an anchor, and no other wall
    changes; both animations are stopped, the recorded steps and the message
    are cleared and the colours are those of [resetGridColors]; a second
    click on the same cell restores the walls. *)
Theorem grid_click_toggles (u : ui) (fuel : nat) (mx my : Z) :
  running in_dijkstra_button in_astar_button u ->
  0 <= mx < GRID_SIZE * CELL_SIZE -> 0 <= my < GRID_SIZE * CELL_SIZE ->
  let col := Z.quot mx CELL_SIZE in
  let row := Z.quot my CELL_SIZE in
  exists u',
    on_left_click in_dijkstra_button in_astar_button fuel mx my u = Returned u' /\
    (forall x y, in_grid GRID_SIZE x y = true ->
       wall_at (ui_wall u') x y =
       if coord_eqb (x, y) (col, row) && negb (anchor_cell col row)
       then negb (wall_at (ui_wall u) x y) else wall_at (ui_wall u) x y) /\
    u' = mkUi (ui_wall u') (resetGridColors (ui_wall u')) [] [] (-1) (-1) Msg.none /\
    forall fuel' mx' my',
      0 <= mx' -> 0 <= my' ->
      Z.quot mx' CELL_SIZE = col -> Z.quot my' CELL_SIZE = row ->
      exists u'',
        on_left_click in_dijkstra_button in_astar_button fuel' mx' my' u' = Returned u'' /\
        ui_wall u'' = ui_wall u.
Proof.
  intros Hr Hx Hy col row.
  pose proof (running_display_ok _ _ u Hr) as Hu. pose proof (ok_wall u Hu) as Hw.
  pose proof (click_cell mx my Hx Hy) as Hg. fold col row in Hg.
  pose proof (proj1 (grid_range _ _) Hg) as Hrange.
  assert (Hin : forall fuel0 px py u0, 0 <= px -> 0 <= py ->
            Z.quot px CELL_SIZE = col -> Z.quot py CELL_SIZE = row ->
            on_left_click in_dijkstra_button in_astar_button fuel0 px py u0 =
            Returned (on_grid_click px py u0)).
  { intros fuel0 px py u0 Hpx Hpy Hc Hrw. unfold on_left_click.
    assert (E : (0 <=? px) && (px <? GRID_SIZE * CELL_SIZE) &&
                (0 <=? py) && (py <? GRID_SIZE * CELL_SIZE) = true).
    { rewrite !andb_true_iff, !Z.leb_le, !Z.ltb_lt.
      unfold GRID_SIZE, CELL_SIZE in *. rewrite Z.quot_div_nonneg in Hc, Hrw by lia.
      pose proof (Z.div_mod px 25 ltac:(lia)). pose proof (Z.mod_pos_bound px 25 ltac:(lia)).
      pose proof (Z.div_mod py 25 ltac:(lia)). pose proof (Z.mod_pos_bound py 25 ltac:(lia)).
      lia. }
    rewrite E. reflexivity. }
  assert (Hanchor : negb (((col =? START_X) && (row =? START_Y)) ||
                          ((col =? END_X) && (row =? END_Y))) = negb (anchor_cell col row))
    by reflexivity.
  exists (on_grid_click mx my u).
  split; [apply Hin; try lia; reflexivity|].
  unfold on_grid_click. cbv zeta. fold col row. rewrite Hanchor. cbn [ui_wall].
  destruct (mread_wf 20 (ui_wall u) col row Hw ltac:(lia) ltac:(lia)) as [b Hb].
  assert (Hget : mget false (ui_wall u) col row = b) by (unfold mget; rewrite Hb; reflexivity).
  split; [|split; [reflexivity|]].
  - intros x y Hxy. destruct (anchor_cell col row); cbn [negb];
      [rewrite andb_false_r; reflexivity|].
    rewrite andb_true_r. unfold wall_at, mget.
    destruct (coord_eqb_spec (x, y) (col, row)) as [E|E].
    + injection E as -> ->. rewrite (mread_mset_same 20) by (auto; lia).
      rewrite Hb. reflexivity.
    + rewrite mread_mset_other by (try lia; exact E). reflexivity.
  - intros fuel' mx' my' Hx' Hy' Hc' Hr'.
    eexists. split; [apply Hin; assumption|].
    unfold on_grid_click. cbv zeta. rewrite Hc', Hr', Hanchor. cbn [ui_wall].
    destruct (anchor_cell col row); cbn [negb]; [reflexivity|].
    rewrite Hget. unfold mget. rewrite (mread_mset_same 20) by (auto; lia).
    rewrite negb_involutive. apply mset_mset_same; auto; lia.
Qed.

End Picture.

(** *** The message after a button press *)

Section Messages.
Context {PQ : MinQueue}.

(** After a button press the message is empty exactly when the end can be
    reached from the start over the current walls; otherwise it is the "No
    Path Found!" of the strategy. *)
Theorem message_tells_reachability (alg : algorithm) (fuel : nat) (u u1 : ui) :
  on_button_click alg fuel u = Returned u1 ->
  (currentMessage u1 = Msg.none <->
   exists q, path_from_start_to_end GRID_SIZE START_X START_Y END_X END_Y (ui_wall u) q) /\
  (currentMessage u1 <> Msg.none -> currentMessage u1 = no_path_message alg).
Proof.
  intros Hc. unfold on_button_click in Hc.
  destruct (run_search alg (ui_wall u) fuel) as [r| |] eqn:Hs; try discriminate.
  assert (Hm : currentMessage u1 = message r)
    by (injection Hc as <-; destruct alg; reflexivity).
  rewrite Hm. clear Hc Hm.
  destruct program_grid as (HN & Hstart & Hend).
  destruct (search_message GRID_SIZE START_X START_Y END_X END_Y (ui_wall u)
              HN Hstart Hend alg fuel r Hs) as [Hsome Hnone].
  destruct (search_path GRID_SIZE START_X START_Y END_X END_Y (ui_wall u)
              HN Hstart Hend alg fuel r Hs) as [Hw Hex].
  assert (Hne : no_path_message alg <> Msg.none) by (destruct alg; discriminate).
  destruct (path r) as [p|] eqn:Hp.
  - split; [|intros H; exfalso; apply H; eauto].
    split; [intros _; eauto | intros _; eauto].
  - rewrite (Hnone eq_refl). split; [|reflexivity].
    split; [intros E; congruence|].
    intros Hq. destruct (Hex Hq) as [p' Hp']. discriminate Hp'.
Qed.

End Messages.

(** ** Concrete runs of the trace, path and picture theorems *)

(** 3x3, no wall. *)
Definition wall3_open : matrix bool := mconst 3 false.

Lemma wall3_open_free (x y : Z) :
  in_grid 3 x y = true -> wall_at wall3_open x y = false.
Proof.
  intros H. apply in_grid_iff in H. unfold wall_at, mget, wall3_open.
  rewrite mread_mconst by (simpl; lia). reflexivity.
Qed.

(** The results of four runs on 3x3 grids, computed once. *)
Definition no_result : search_result := mkResult [] None Msg.none.

Definition astar3_result : search_result :=
  Eval vm_compute in
    match search (PQ := ListQueue) 3 0 0 2 2 wall3_center AStar 100 with
    | Returned r => r
    | _ => no_result
    end.

Lemma astar3_run :
  search (PQ := ListQueue) 3 0 0 2 2 wall3_center AStar 100 = Returned astar3_result.
Proof. vm_compute. reflexivity. Qed.

Definition dijkstra3_result : search_result :=
  Eval vm_compute in
    match search (PQ := ListQueue) 3 0 0 2 2 wall3_center Dijkstra 100 with
    | Returned r => r
    | _ => no_result
    end.

Lemma dijkstra3_run :
  search (PQ := ListQueue) 3 0 0 2 2 wall3_center Dijkstra 100 = Returned dijkstra3_result.
Proof. vm_compute. reflexivity. Qed.

Definition enclosed3_result : search_result :=
  Eval vm_compute in
    match search (PQ := ListQueue) 3 0 0 2 2 wall3_enclosed Dijkstra 100 with
    | Returned r => r
    | _ => no_result
    end.

Lemma enclosed3_run :
  search (PQ := ListQueue) 3 0 0 2 2 wall3_enclosed Dijkstra 100 = Returned enclosed3_result.
Proof. vm_compute. reflexivity. Qed.

Definition open3_result : search_result :=
  Eval vm_compute in
    match search (PQ := ListQueue) 3 0 1 2 2 wall3_open AStar 100 with
    | Returned r => r
    | _ => no_result
    end.

Lemma open3_run :
  search (PQ := ListQueue) 3 0 1 2 2 wall3_open AStar 100 = Returned open3_result.
Proof. vm_compute. reflexivity. Qed.

Lemma trace_shape_witness :
  (0 < 3 <= 1024 /\ in_grid 3 0 0 = true /\ in_grid 3 2 2 = true) /\
  exists r,
    search (PQ := ListQueue) 3 0 0 2 2 wall3_center AStar 100 = Returned r /\
    (exists evs,
       trace r = mkStep (0, 0) Cyan :: evs ++
                 match path r with
                 | Some p => path_steps 0 0 2 2 AStar p
                 | None => []
                 end /\
       Forall search_color evs) /\
    Forall (fun e => in_grid 3 (fst (step_coord e)) (snd (step_coord e)) = true /\
                     (is_start 0 0 (fst (step_coord e)) (snd (step_coord e)) = false ->
                      wall_at wall3_center (fst (step_coord e)) (snd (step_coord e)) = false))
           (trace r) /\
    opened_before_visited (trace r).
Proof.
  split; [repeat split; lia|].
  exists astar3_result. split; [exact astar3_run|].
  exact (trace_shape (PQ := ListQueue) 3 0 0 2 2 wall3_center
           ltac:(lia) eq_refl eq_refl AStar 100%nat astar3_result astar3_run).
Defined.

Lemma explored_cells_are_reachable_witness :
  (0 < 3 <= 1024 /\ in_grid 3 0 0 = true /\ in_grid 3 2 2 = true) /\
  exists r,
    search (PQ := ListQueue) 3 0 0 2 2 wall3_enclosed Dijkstra 100 = Returned r /\
    path r = None /\
    (forall e, In e (trace r) -> exists l, walk_to 3 0 0 wall3_enclosed (step_coord e) l) /\
    (path r = None ->
     forall c l, walk_to 3 0 0 wall3_enclosed c l -> c <> (0, 0) ->
       In (mkStep c Cyan) (trace r) /\ In (mkStep c Grey) (trace r)).
Proof.
  split; [repeat split; lia|].
  exists enclosed3_result. split; [exact enclosed3_run|]. split; [reflexivity|].
  exact (explored_cells_are_reachable (PQ := ListQueue) 3 0 0 2 2 wall3_enclosed
           ltac:(lia) eq_refl eq_refl Dijkstra 100%nat enclosed3_result enclosed3_run).
Defined.

Lemma dijkstra_never_reopens_witness :
  (0 < 3 <= 1024 /\ in_grid 3 0 0 = true /\ in_grid 3 2 2 = true) /\
  exists r,
    search (PQ := ListQueue) 3 0 0 2 2 wall3_center Dijkstra 100 = Returned r /\
    never_reopened (trace r).
Proof.
  split; [repeat split; lia|].
  exists dijkstra3_result. split; [exact dijkstra3_run|].
  exact (dijkstra_never_reopens (PQ := ListQueue) 3 0 0 2 2 wall3_center
           ltac:(lia) eq_refl eq_refl 100%nat dijkstra3_result dijkstra3_run).
Defined.

Lemma heuristic_admissible_witness :
  (0 < 3 <= 1024 /\ in_grid 3 2 2 = true /\ in_grid 3 0 1 = true) /\
  heuristic 2 2 0 1 = chebyshev 2 2 0 1 * F_ONE /\
  (heuristic 2 2 0 1 = 0 <-> (0, 1) = (2, 2)) /\
  (forall dir, In dir directions -> in_grid 3 (0 + fst dir) (1 + snd dir) = true ->
     heuristic 2 2 0 1 <= heuristic 2 2 (0 + fst dir) (1 + snd dir) + moveCost dir) /\
  (forall l, is_path 3 wall3_center ((0, 1) :: l) -> last l (0, 1) = (2, 2) ->
     heuristic 2 2 0 1 <= exact_cost ((0, 1) :: l)).
Proof.
  split; [repeat split; lia|].
  exact (heuristic_admissible 3 2 2 wall3_center ltac:(lia) eq_refl 0 1 eq_refl).
Defined.

Lemma path_is_simple_witness :
  (0 < 3 <= 1024 /\ in_grid 3 0 0 = true /\ in_grid 3 2 2 = true) /\
  exists r p,
    search (PQ := ListQueue) 3 0 0 2 2 wall3_center AStar 100 = Returned r /\
    path r = Some p /\
    hd_error p = Some (0, 0) /\ last p (0, 0) = (2, 2) /\
    NoDup p /\ Z.of_nat (length p) <= 3 * 3.
Proof.
  split; [repeat split; lia|].
  exists astar3_result, [(0, 0); (1, 0); (2, 1); (2, 2)].
  split; [exact astar3_run|]. split; [reflexivity|].
  exact (path_is_simple (PQ := ListQueue) 3 0 0 2 2 wall3_center
           ltac:(lia) eq_refl eq_refl AStar 100%nat astar3_result _ astar3_run eq_refl).
Defined.

Lemma both_paths_same_shape_witness :
  (0 < 3 <= 1024 /\ in_grid 3 0 0 = true /\ in_grid 3 2 2 = true /\ 3 <= 20) /\
  exists r1 r2 p1 p2,
    search (PQ := ListQueue) 3 0 0 2 2 wall3_center Dijkstra 100 = Returned r1 /\
    path r1 = Some p1 /\
    search (PQ := ListQueue) 3 0 0 2 2 wall3_center AStar 100 = Returned r2 /\
    path r2 = Some p2 /\
    diagonals p1 = diagonals p2 /\ cardinals p1 = cardinals p2 /\
    length p1 = length p2.
Proof.
  split; [repeat split; lia|].
  exists dijkstra3_result, astar3_result.
  destruct (path dijkstra3_result) as [p1|] eqn:Hp1; [|discriminate Hp1].
  destruct (path astar3_result) as [p2|] eqn:Hp2; [|discriminate Hp2].
  exists p1, p2.
  split; [exact dijkstra3_run|]. split; [reflexivity|].
  split; [exact astar3_run|]. split; [reflexivity|].
  exact (both_paths_same_shape (PQ := ListQueue) 3 0 0 2 2 wall3_center
           ltac:(lia) eq_refl eq_refl 100%nat 100%nat dijkstra3_result astar3_result
           p1 p2 ltac:(lia) dijkstra3_run Hp1 astar3_run Hp2).
Defined.

Lemma open_grid_path_witness :
  (0 < 3 <= 1024 /\ in_grid 3 0 1 = true /\ in_grid 3 2 2 = true /\ 3 <= 20 /\
   forall x y, in_grid 3 x y = true -> wall_at wall3_open x y = false) /\
  exists r,
    search (PQ := ListQueue) 3 0 1 2 2 wall3_open AStar 100 = Returned r /\
    exists p,
      path r = Some p /\
      diagonals p = Z.min (Z.abs (2 - 0)) (Z.abs (2 - 1)) /\
      cardinals p = Z.max (Z.abs (2 - 0)) (Z.abs (2 - 1)) -
                    Z.min (Z.abs (2 - 0)) (Z.abs (2 - 1)) /\
      Z.of_nat (length p) = Z.max (Z.abs (2 - 0)) (Z.abs (2 - 1)) + 1.
Proof.
  split; [repeat split; try lia; apply wall3_open_free|].
  exists open3_result. split; [exact open3_run|].
  exact (open_grid_path (PQ := ListQueue) 3 0 1 2 2 wall3_open
           ltac:(lia) eq_refl eq_refl AStar 100%nat open3_result ltac:(lia)
           wall3_open_free open3_run).
Defined.

Lemma resetGridColors_loops_spec_witness :
  (wf_matrix 20 wall_two_routes /\ wf_matrix 20 (mconst 20 Cyan)) /\
  resetGridColors_loops wall_two_routes (mconst 20 Cyan) =
    Returned (resetGridColors wall_two_routes) /\
  forall x y, in_grid GRID_SIZE x y = true ->
    mread (resetGridColors wall_two_routes) x y = Some (reset_color wall_two_routes x y).
Proof.
  assert (H1 : wf_matrix 20 wall_two_routes).
  { split; [reflexivity|]. vm_compute. repeat constructor. }
  assert (H2 : wf_matrix 20 (mconst 20 Cyan)) by apply (mconst_wf 20).
  split; [split; assumption|].
  exact (resetGridColors_loops_spec wall_two_routes (mconst 20 Cyan) H1 H2).
Defined.

(** The window after five clicks that wall in the start with its three
    neighbours: on (2,0), (2,1), (0,2), (1,2) and (2,2). *)
Definition boxed_1 : ui := on_grid_click 60 10 initial_ui.
Definition boxed_2 : ui := on_grid_click 60 30 boxed_1.
Definition boxed_3 : ui := on_grid_click 10 60 boxed_2.
Definition boxed_4 : ui := on_grid_click 30 60 boxed_3.
Definition boxed_ui : ui := on_grid_click 60 60 boxed_4.

Lemma boxed_ui_running : running (PQ := ListQueue) no_button no_button boxed_ui.
Proof.
  apply (run_click no_button no_button boxed_4 O 60 60); [|reflexivity].
  apply (run_click no_button no_button boxed_3 O 30 60); [|reflexivity].
  apply (run_click no_button no_button boxed_2 O 10 60); [|reflexivity].
  apply (run_click no_button no_button boxed_1 O 60 30); [|reflexivity].
  apply (run_click no_button no_button initial_ui O 60 10); [|reflexivity].
  apply run_init.
Qed.

(** The two searches on the walls of [boxed_ui], computed once. *)
Definition boxed_dijkstra : search_result :=
  Eval vm_compute in
    match run_search (PQ := ListQueue) Dijkstra (ui_wall boxed_ui) 1000 with
    | Returned r => r
    | _ => no_result
    end.

Lemma boxed_dijkstra_run :
  run_search (PQ := ListQueue) Dijkstra (ui_wall boxed_ui) 1000 = Returned boxed_dijkstra.
Proof. vm_compute. reflexivity. Qed.

Definition boxed_astar : search_result :=
  Eval vm_compute in
    match run_search (PQ := ListQueue) AStar (ui_wall boxed_ui) 1000 with
    | Returned r => r
    | _ => no_result
    end.

Lemma boxed_astar_run :
  run_search (PQ := ListQueue) AStar (ui_wall boxed_ui) 1000 = Returned boxed_astar.
Proof. vm_compute. reflexivity. Qed.

Lemma boxed_button_click (alg : algorithm) (r : search_result) :
  run_search (PQ := ListQueue) alg (ui_wall boxed_ui) 1000 = Returned r ->
  exists u1, on_button_click (PQ := ListQueue) alg 1000 boxed_ui = Returned u1 /\
             anim_steps alg u1 = trace r /\ currentMessage u1 = message r.
Proof.
  intros Hs. unfold on_button_click. rewrite Hs. eexists. split; [reflexivity|].
  destruct alg; split; reflexivity.
Qed.

Lemma display_invariant_witness :
  running (PQ := ListQueue) no_button no_button boxed_ui /\
  display_ok boxed_ui /\
  forall elapsed_d elapsed_a, exists u',
    tick elapsed_d elapsed_a boxed_ui = Returned u' /\
    running (PQ := ListQueue) no_button no_button u'.
Proof.
  split; [exact boxed_ui_running|].
  exact (display_invariant (PQ := ListQueue) no_button no_button boxed_ui
           boxed_ui_running).
Defined.

Lemma animation_replays_steps_witness :
  running (PQ := ListQueue) no_button no_button boxed_ui /\
  exists u1,
    on_button_click (PQ := ListQueue) Dijkstra 1000 boxed_ui = Returned u1 /\
    length (anim_steps Dijkstra u1) = 7%nat /\
    let T := anim_steps Dijkstra u1 in
    let c0 := resetGridColors (ui_wall boxed_ui) in
    let uf := at_frame Dijkstra (-1) (replay T c0) u1 in
    (forall k, (k <= length T)%nat ->
       ticks k u1 =
       Returned (at_frame Dijkstra (Z.of_nat k) (replay (firstn k T) c0) u1)) /\
    ticks (S (length T)) u1 = Returned uf /\
    (forall elapsed_d elapsed_a, tick elapsed_d elapsed_a uf = Returned uf) /\
    (forall v, tick false false v = Returned v).
Proof.
  split; [exact boxed_ui_running|].
  destruct (boxed_button_click Dijkstra _ boxed_dijkstra_run) as (u1 & Hc & Hst & _).
  exists u1. split; [exact Hc|]. split; [rewrite Hst; reflexivity|].
  exact (animation_replays_steps (PQ := ListQueue) no_button no_button Dijkstra 1000%nat
           boxed_ui u1 boxed_ui_running Hc).
Defined.

Lemma final_picture_witness :
  running (PQ := ListQueue) no_button no_button boxed_ui /\
  exists r u1,
    run_search (PQ := ListQueue) AStar (ui_wall boxed_ui) 1000 = Returned r /\
    on_button_click (PQ := ListQueue) AStar 1000 boxed_ui = Returned u1 /\
    exists uf,
      ticks (S (length (trace r))) u1 = Returned uf /\
      currentMessage uf = message r /\
      forall x y, in_grid GRID_SIZE x y = true ->
        exists c, mread (gridColors uf) x y = Some c /\
          (anchor_cell x y = true -> c = Blue) /\
          (anchor_cell x y = false ->
             (c = White <-> wall_at (ui_wall boxed_ui) x y = true) /\
             (c = Orange <->
                wall_at (ui_wall boxed_ui) x y = false /\
                forall col, ~ In (mkStep (x, y) col) (trace r)) /\
             (c = path_color AStar <-> exists p, path r = Some p /\ In (x, y) p)).
Proof.
  split; [exact boxed_ui_running|].
  destruct (boxed_button_click AStar _ boxed_astar_run) as (u1 & Hc & _).
  exists boxed_astar, u1. split; [exact boxed_astar_run|]. split; [exact Hc|].
  exact (final_picture (PQ := ListQueue) no_button no_button AStar 1000%nat
           boxed_ui u1 boxed_astar boxed_ui_running boxed_astar_run Hc).
Defined.

Lemma picture_matches_clicks_witness :
  running (PQ := ListQueue) no_button no_button boxed_ui /\
  exists shapes,
    draw_grid (gridColors boxed_ui) = Returned shapes /\
    length shapes = 402%nat /\
    forall px py,
      0 <= px < GRID_SIZE * CELL_SIZE -> 0 <= py < GRID_SIZE * CELL_SIZE ->
      let col := Z.quot px CELL_SIZE in
      let row := Z.quot py CELL_SIZE in
      in_grid GRID_SIZE col row = true /\
      fill_at shapes px py =
        (if anchor_cell col row then Some Blue else mread (gridColors boxed_ui) col row) /\
      forall fuel,
        on_left_click (PQ := ListQueue) no_button no_button fuel px py boxed_ui =
        Returned (on_grid_click px py boxed_ui).
Proof.
  split; [exact boxed_ui_running|].
  exact (picture_matches_clicks (PQ := ListQueue) no_button no_button boxed_ui
           boxed_ui_running).
Defined.

Lemma grid_click_toggles_witness :
  (running (PQ := ListQueue) no_button no_button boxed_ui /\
   0 <= 60 < GRID_SIZE * CELL_SIZE /\ 0 <= 10 < GRID_SIZE * CELL_SIZE) /\
  exists u',
    on_left_click (PQ := ListQueue) no_button no_button O 60 10 boxed_ui = Returned u' /\
    wall_at (ui_wall boxed_ui) 2 0 = true /\ wall_at (ui_wall u') 2 0 = false /\
    forall fuel' mx' my',
      0 <= mx' -> 0 <= my' ->
      Z.quot mx' CELL_SIZE = Z.quot 60 CELL_SIZE ->
      Z.quot my' CELL_SIZE = Z.quot 10 CELL_SIZE ->
      exists u'',
        on_left_click (PQ := ListQueue) no_button no_button fuel' mx' my' u' =
          Returned u'' /\
        ui_wall u'' = ui_wall boxed_ui.
Proof.
  assert (Hx : 0 <= 60 < GRID_SIZE * CELL_SIZE) by (vm_compute; split; congruence).
  assert (Hy : 0 <= 10 < GRID_SIZE * CELL_SIZE) by (vm_compute; split; congruence).
  split; [split; [exact boxed_ui_running | split; assumption]|].
  destruct (grid_click_toggles (PQ := ListQueue) no_button no_button boxed_ui O 60 10
              boxed_ui_running Hx Hy) as (u' & Hc & Hw & _ & Hback).
  exists u'. split; [exact Hc|].
  split; [reflexivity|]. split; [|exact Hback].
  rewrite (Hw 2 0 eq_refl). reflexivity.
Defined.

Lemma dijkstra_steps_per_cell_witness :
  (0 < 3 <= 1024 /\ in_grid 3 0 0 = true /\ in_grid 3 2 2 = true) /\
  exists r,
    search (PQ := ListQueue) 3 0 0 2 2 wall3_center Dijkstra 100 = Returned r /\
    (count (opened_at (2%Z, 1%Z)) (trace r) <= 2)%nat /\
    (count (visited_at (2%Z, 1%Z)) (trace r) <=
     count (opened_at (2%Z, 1%Z)) (trace r))%nat.
Proof.
  split; [repeat split; lia|].
  exists dijkstra3_result. split; [exact dijkstra3_run|].
  exact (dijkstra_steps_per_cell (PQ := ListQueue) 3 0 0 2 2 wall3_center
           ltac:(lia) eq_refl eq_refl 100%nat dijkstra3_result (2, 1) dijkstra3_run).
Defined.

Lemma message_tells_reachability_witness :
  exists u1,
    on_button_click (PQ := ListQueue) Dijkstra 1000 boxed_ui = Returned u1 /\
    currentMessage u1 = Msg.dijkstra_no_path /\
    (currentMessage u1 = Msg.none <->
     exists q, path_from_start_to_end GRID_SIZE START_X START_Y END_X END_Y
                 (ui_wall boxed_ui) q) /\
    (currentMessage u1 <> Msg.none -> currentMessage u1 = no_path_message Dijkstra).
Proof.
  destruct (boxed_button_click Dijkstra _ boxed_dijkstra_run) as (u1 & Hc & _ & Hm).
  exists u1. split; [exact Hc|]. split; [rewrite Hm; reflexivity|].
  exact (message_tells_reachability (PQ := ListQueue) Dijkstra 1000%nat boxed_ui u1 Hc).
Defined.

(** ** Exact costs as real numbers

    The cost of a path of [a] cardinal and [b] diagonal moves is the real
    number a + b sqrt 2. *)

From Stdlib Require Import Reals Lra.

Definition true_cost (l : list coord) : R :=
  (IZR (cardinals l) + IZR (diagonals l) * sqrt 2)%R.

Lemma neg_sqrt2_real (p q : Z) :
  neg_sqrt2 p q = true -> (IZR p + IZR q * sqrt 2 <= 0)%R.
Proof.
  intros H. apply neg_sqrt2_spec in H.
  assert (Hr0 : (0 <= sqrt 2)%R) by apply sqrt_pos.
  assert (Hr2 : (sqrt 2 * sqrt 2 = 2)%R) by (apply sqrt_sqrt; lra).
  set (r := sqrt 2) in *.
  destruct H as [[Hp Hq]|[(Hp & Hq & Hs)|(Hp & Hq & Hs)]].
  - apply IZR_le in Hp, Hq. nra.
  - apply IZR_le in Hp, Hs. apply IZR_lt in Hq.
    rewrite !mult_IZR in Hs.
    destruct (Rle_or_lt (IZR p + IZR q * r) 0) as [Hle|Hgt]; [exact Hle|].
    assert (H1 : (0 < IZR q * r - IZR p)%R) by nra.
    pose proof (Rmult_lt_0_compat _ _ Hgt H1). nra.
  - apply IZR_lt in Hp, Hq. apply IZR_le in Hs.
    rewrite !mult_IZR in Hs.
    destruct (Rle_or_lt (IZR p + IZR q * r) 0) as [Hle|Hgt]; [exact Hle|].
    assert (H1 : (0 < IZR p - IZR q * r)%R) by nra.
    pose proof (Rmult_lt_0_compat _ _ Hgt H1). nra.
Qed.

Lemma cost_le_real (p q : list coord) :
  cost_le p q -> (true_cost p <= true_cost q)%R.
Proof.
  intros H. apply neg_sqrt2_real in H. rewrite !minus_IZR in H.
  unfold true_cost. lra.
Qed.

(** C1.  On a grid of side at most 20, when the end can be reached from the
    start, Dijkstra and A* each return a path of legal moves from the start
    to the end; the two paths have the same cost, cardinal moves counted 1
    and diagonal moves sqrt 2, and no path of legal moves from the start to
    the end costs less. *)
Theorem searches_return_shortest_paths {PQ : MinQueue}
    (N startX startY endX endY : Z) (wall : matrix bool)
    (f1 f2 : nat) (r1 r2 : search_result) :
  0 < N <= 20 ->
  in_grid N startX startY = true -> in_grid N endX endY = true ->
  search N startX startY endX endY wall Dijkstra f1 = Returned r1 ->
  search N startX startY endX endY wall AStar f2 = Returned r2 ->
  (exists q, path_from_start_to_end N startX startY endX endY wall q) ->
  exists p1 p2,
    path r1 = Some p1 /\ path r2 = Some p2 /\
    path_from_start_to_end N startX startY endX endY wall p1 /\
    path_from_start_to_end N startX startY endX endY wall p2 /\
    true_cost p1 = true_cost p2 /\
    forall q, path_from_start_to_end N startX startY endX endY wall q ->
              (true_cost p1 <= true_cost q)%R.
Proof.
  intros HN Hstart Hend H1 H2 Hq.
  assert (HN' : 0 < N <= 1024) by lia.
  destruct (search_path N startX startY endX endY wall HN' Hstart Hend _ _ _ H1)
    as [Hw1 Hf1].
  destruct (search_path N startX startY endX endY wall HN' Hstart Hend _ _ _ H2)
    as [Hw2 Hf2].
  destruct (Hf1 Hq) as [p1 Hp1]. destruct (Hf2 Hq) as [p2 Hp2].
  destruct (dijkstra_path_shortest N startX startY endX endY wall HN' Hstart Hend
              f1 r1 p1 ltac:(lia) H1 Hp1) as [Hm1 Hd].
  pose proof (astar_path_shortest N startX startY endX endY wall HN' Hstart Hend
                f2 r2 p2) as Ha.
  exists p1, p2.
  split; [exact Hp1|]. split; [exact Hp2|].
  split; [exact (Hw1 p1 Hp1)|]. split; [exact (Hw2 p2 Hp2)|].
  split.
  - apply Rle_antisym.
    + apply cost_le_real. apply Hd. exact (Hw2 p2 Hp2).
    + apply cost_le_real. apply (Ha p1 H2 Hp2 (Hw1 p1 Hp1)). lia.
  - intros q Hwq. apply cost_le_real. apply Hd. exact Hwq.
Qed.

Lemma searches_return_shortest_paths_witness :
  (0 < 3 <= 20 /\ in_grid 3 0 0 = true /\ in_grid 3 2 2 = true) /\
  exists r1 r2 p1 p2,
    search (PQ := ListQueue) 3 0 0 2 2 wall3_center Dijkstra 100 = Returned r1 /\
    search (PQ := ListQueue) 3 0 0 2 2 wall3_center AStar 100 = Returned r2 /\
    path r1 = Some p1 /\ path r2 = Some p2 /\
    path_from_start_to_end 3 0 0 2 2 wall3_center p1 /\
    path_from_start_to_end 3 0 0 2 2 wall3_center p2 /\
    true_cost p1 = true_cost p2 /\
    (forall q, path_from_start_to_end 3 0 0 2 2 wall3_center q ->
               (true_cost p1 <= true_cost q)%R).
Proof.
  split; [repeat split; lia|].
  destruct (search (PQ := ListQueue) 3 0 0 2 2 wall3_center Dijkstra 100)
    as [r1| |] eqn:H1; [|vm_compute in H1; discriminate H1 ..].
  destruct (search (PQ := ListQueue) 3 0 0 2 2 wall3_center AStar 100)
    as [r2| |] eqn:H2; [|vm_compute in H2; discriminate H2 ..].
  assert (Hp : path r1 = Some [(0, 0); (1, 0); (2, 1); (2, 2)]).
  { vm_compute in H1. injection H1 as <-. reflexivity. }
  assert (Hq : exists q, path_from_start_to_end 3 0 0 2 2 wall3_center q).
  { eexists.
    apply (proj1 (search_path (PQ := ListQueue) 3 0 0 2 2 wall3_center
                    ltac:(lia) eq_refl eq_refl _ _ _ H1) _ Hp). }
  destruct (searches_return_shortest_paths (PQ := ListQueue) 3 0 0 2 2 wall3_center
              100 100 r1 r2 ltac:(lia) eq_refl eq_refl H1 H2 Hq) as (p1 & p2 & H).
  exists r1, r2, p1, p2. split; [reflexivity|]. split; [reflexivity|]. exact H.
Defined.
